(** * CaDiCaL: a shallow embedding of the solver core of [cadical.cc]

    The development follows the source file from top to bottom: the data
    structures, the moving averages, assignment and backtracking, the
    watched-literal propagator, first-UIP conflict analysis, the restart
    and reduce policies, the search loop and the clause part of the DIMACS
    parser.  Then come the solver invariants and the verified properties.

    Modelling conventions.
    - [int] and [long] values are unbounded integers ([Z]); signed overflow
      is undefined in C++ and the counters stay far below the bounds.
      Container sizes, indices and decision levels, non-negative by
      construction, are [nat].
    - [double] values are IEEE 754 binary64 numbers (the primitive type
      [float]): every operation rounds to nearest, ties to even, and a
      comparison with a NaN is false; no operation is fused.
    - A [Clause *] is a key into the clause store [heap]; following a
      pointer whose clause was deleted, indexing a vector out of range and a
      failing [assert] all stop the program, which is the result [None].
    - Arrays indexed by variable or literal are total functions.
    - Loops whose termination rests on solver invariants take fuel.
    - [std::sort] is an insertion sort ([sort_by]); the proofs use only that
      its result is an ordered permutation of its argument.
    - Proof tracing, logging, profiling, reports and byte accounting are
      left out: they only write output. *)

From Stdlib Require Import ZArith QArith Lia Floats.
From stdpp Require Import base option list sorting gmap functions.

Local Open Scope Z_scope.

(** ** Type declarations *)

Record Clause : Type := mkClause {
  c_redundant : bool;      (* on the 'redundant' stack *)
  c_garbage : bool;        (* can be garbage collected *)
  c_reason : bool;         (* reason clause can not be collected *)
  c_glue : Z;              (* LBD = glucose level = glue *)
  c_resolved : Z;          (* conflict index when last resolved *)
  literals : list Z        (* the literals; their number is 'size' *)
}.

Definition c_size (c : Clause) : nat := length (literals c).

Definition set_c_garbage (x : bool) (c : Clause) : Clause :=
  {| c_redundant := c_redundant c; c_garbage := x; c_reason := c_reason c;
     c_glue := c_glue c; c_resolved := c_resolved c; literals := literals c |}.
Definition set_c_reason (x : bool) (c : Clause) : Clause :=
  {| c_redundant := c_redundant c; c_garbage := c_garbage c; c_reason := x;
     c_glue := c_glue c; c_resolved := c_resolved c; literals := literals c |}.
Definition set_c_resolved (x : Z) (c : Clause) : Clause :=
  {| c_redundant := c_redundant c; c_garbage := c_garbage c;
     c_reason := c_reason c; c_glue := c_glue c; c_resolved := x;
     literals := literals c |}.
Definition set_literals (x : list Z) (c : Clause) : Clause :=
  {| c_redundant := c_redundant c; c_garbage := c_garbage c;
     c_reason := c_reason c; c_glue := c_glue c;
     c_resolved := c_resolved c; literals := x |}.

Record Var : Type := mkVar {
  v_seen : bool;           (* in 'analyze' *)
  v_minimized : bool;
  v_poison : bool;
  v_level : nat;           (* decision level *)
  v_bumped : Z;            (* enqueue/bump time stamp for VMTF queue *)
  v_prev : Z;              (* double links for decision VMTF queue *)
  v_next : Z;
  v_reason : option nat    (* assignment reason/antecedent *)
}.

(** The constructor [Var ()]. *)
Definition Var_init : Var := mkVar false false false 0%nat 0 0 0 None.

Definition set_v_marks (x : bool) (v : Var) : Var :=
  {| v_seen := x; v_minimized := x; v_poison := x; v_level := v_level v;
     v_bumped := v_bumped v; v_prev := v_prev v; v_next := v_next v;
     v_reason := v_reason v |}.
Definition set_v_seen (x : bool) (v : Var) : Var :=
  {| v_seen := x; v_minimized := v_minimized v; v_poison := v_poison v;
     v_level := v_level v; v_bumped := v_bumped v; v_prev := v_prev v;
     v_next := v_next v; v_reason := v_reason v |}.
Definition set_v_assigned (l : nat) (r : option nat) (v : Var) : Var :=
  {| v_seen := v_seen v; v_minimized := v_minimized v;
     v_poison := v_poison v; v_level := l; v_bumped := v_bumped v;
     v_prev := v_prev v; v_next := v_next v; v_reason := r |}.
Definition set_v_bumped (x : Z) (v : Var) : Var :=
  {| v_seen := v_seen v; v_minimized := v_minimized v;
     v_poison := v_poison v; v_level := v_level v; v_bumped := x;
     v_prev := v_prev v; v_next := v_next v; v_reason := v_reason v |}.
Definition set_v_prev (x : Z) (v : Var) : Var :=
  {| v_seen := v_seen v; v_minimized := v_minimized v;
     v_poison := v_poison v; v_level := v_level v; v_bumped := v_bumped v;
     v_prev := x; v_next := v_next v; v_reason := v_reason v |}.
Definition set_v_next (x : Z) (v : Var) : Var :=
  {| v_seen := v_seen v; v_minimized := v_minimized v;
     v_poison := v_poison v; v_level := v_level v; v_bumped := v_bumped v;
     v_prev := v_prev v; v_next := x; v_reason := v_reason v |}.

Record Watch : Type := mkWatch {
  blit : Z;                (* if blocking literal is true do not visit clause *)
  w_size : nat;            (* if size==2 no need to visit clause at all *)
  w_clause : nat
}.

Definition set_blit (b : Z) (w : Watch) : Watch :=
  {| blit := b; w_size := w_size w; w_clause := w_clause w |}.

Abbreviation Watches := (list Watch).

Record Level : Type := mkLevel {
  decision : Z;            (* decision literal of level *)
  l_seen : Z               (* how many variables seen during 'analyze' *)
}.

Definition set_l_seen (x : Z) (l : Level) : Level :=
  {| decision := decision l; l_seen := x |}.

Record EMA : Type := mkEMA {
  value : float;             (* current average value *)
  alpha : float;             (* percentage contribution of new values *)
  beta : float;             (* current upper approximation of alpha *)
  wait : Z;                (* count-down using 'beta' instead of 'alpha' *)
  period : Z               (* length of current waiting phase *)
}.

(** The constructor [EMA (a)]. *)
Definition EMA_init (a : float) : EMA := mkEMA 0%float a 1%float 0 0.

Record Queue : Type := mkQueue {
  q_first : Z;             (* anchors (head/tail) for doubly linked list *)
  q_last : Z;
  q_next : Z               (* all variables after this one are assigned *)
}.

Definition set_q_first (x : Z) (q : Queue) : Queue :=
  {| q_first := x; q_last := q_last q; q_next := q_next q |}.
Definition set_q_last (x : Z) (q : Queue) : Queue :=
  {| q_first := q_first q; q_last := x; q_next := q_next q |}.
Definition set_q_next (x : Z) (q : Queue) : Queue :=
  {| q_first := q_first q; q_last := q_last q; q_next := x |}.

(** The [OPTIONS] table. *)
Record Opts : Type := mkOpts {
  emagluefast : float;
  emaglueslow : float;
  emajump : float;
  emaresolved : float;
  opt_reduce : bool;
  reducedynamic : bool;
  reduceinc : Z;
  reduceinit : Z;
  opt_restart : bool;
  restartdelay : bool;
  restartdelaylim : float;
  restartint : Z;
  restartmargin : float;
  opt_reusetrail : bool
}.

(** The default values of the table; the decimal constants [3e-2], [1e-5],
    [1e-6], [0.5] and [0.2] are given as the doubles nearest to them. *)
Definition default_opts : Opts :=
  {| emagluefast := 0x1.eb851eb851eb8p-6%float;
     emaglueslow := 0x1.4f8b588e368f1p-17%float;
     emajump := 0x1.0c6f7a0b5ed8dp-20%float;
     emaresolved := 0x1.0c6f7a0b5ed8dp-20%float;
     opt_reduce := true; reducedynamic := true; reduceinc := 300;
     reduceinit := 2000; opt_restart := true; restartdelay := true;
     restartdelaylim := 0x1p-1%float; restartint := 10;
     restartmargin := 0x1.999999999999ap-3%float;
     opt_reusetrail := true |}.

(** The counters of [stats] that the solver reads or that the claims mention
    (byte accounting and report counters only feed the statistics output). *)
Record Stats : Type := mkStats {
  conflicts : Z;
  decisions : Z;
  restarts : Z;
  reused : Z;
  delayed : Z;
  propagations : Z;
  bumped : Z;
  searched : Z;
  reduce_count : Z;
  reduce_clauses : Z;
  learned_units : Z;
  fixed_count : Z
}.

Definition set_conflicts (x : Z) (r : Stats) : Stats :=
  {| conflicts := x; decisions := decisions r; restarts := restarts r;
     reused := reused r; delayed := delayed r; propagations := propagations
     r; bumped := bumped r; searched := searched r; reduce_count :=
     reduce_count r; reduce_clauses := reduce_clauses r; learned_units :=
     learned_units r; fixed_count := fixed_count r |}.
Definition set_decisions (x : Z) (r : Stats) : Stats :=
  {| conflicts := conflicts r; decisions := x; restarts := restarts r;
     reused := reused r; delayed := delayed r; propagations := propagations
     r; bumped := bumped r; searched := searched r; reduce_count :=
     reduce_count r; reduce_clauses := reduce_clauses r; learned_units :=
     learned_units r; fixed_count := fixed_count r |}.
Definition set_restarts (x : Z) (r : Stats) : Stats :=
  {| conflicts := conflicts r; decisions := decisions r; restarts := x;
     reused := reused r; delayed := delayed r; propagations := propagations
     r; bumped := bumped r; searched := searched r; reduce_count :=
     reduce_count r; reduce_clauses := reduce_clauses r; learned_units :=
     learned_units r; fixed_count := fixed_count r |}.
Definition set_reused (x : Z) (r : Stats) : Stats :=
  {| conflicts := conflicts r; decisions := decisions r; restarts :=
     restarts r; reused := x; delayed := delayed r; propagations :=
     propagations r; bumped := bumped r; searched := searched r;
     reduce_count := reduce_count r; reduce_clauses := reduce_clauses r;
     learned_units := learned_units r; fixed_count := fixed_count r |}.
Definition set_delayed (x : Z) (r : Stats) : Stats :=
  {| conflicts := conflicts r; decisions := decisions r; restarts :=
     restarts r; reused := reused r; delayed := x; propagations :=
     propagations r; bumped := bumped r; searched := searched r;
     reduce_count := reduce_count r; reduce_clauses := reduce_clauses r;
     learned_units := learned_units r; fixed_count := fixed_count r |}.
Definition set_propagations (x : Z) (r : Stats) : Stats :=
  {| conflicts := conflicts r; decisions := decisions r; restarts :=
     restarts r; reused := reused r; delayed := delayed r; propagations :=
     x; bumped := bumped r; searched := searched r; reduce_count :=
     reduce_count r; reduce_clauses := reduce_clauses r; learned_units :=
     learned_units r; fixed_count := fixed_count r |}.
Definition set_bumped (x : Z) (r : Stats) : Stats :=
  {| conflicts := conflicts r; decisions := decisions r; restarts :=
     restarts r; reused := reused r; delayed := delayed r; propagations :=
     propagations r; bumped := x; searched := searched r; reduce_count :=
     reduce_count r; reduce_clauses := reduce_clauses r; learned_units :=
     learned_units r; fixed_count := fixed_count r |}.
Definition set_searched (x : Z) (r : Stats) : Stats :=
  {| conflicts := conflicts r; decisions := decisions r; restarts :=
     restarts r; reused := reused r; delayed := delayed r; propagations :=
     propagations r; bumped := bumped r; searched := x; reduce_count :=
     reduce_count r; reduce_clauses := reduce_clauses r; learned_units :=
     learned_units r; fixed_count := fixed_count r |}.
Definition set_reduce_count (x : Z) (r : Stats) : Stats :=
  {| conflicts := conflicts r; decisions := decisions r; restarts :=
     restarts r; reused := reused r; delayed := delayed r; propagations :=
     propagations r; bumped := bumped r; searched := searched r;
     reduce_count := x; reduce_clauses := reduce_clauses r; learned_units :=
     learned_units r; fixed_count := fixed_count r |}.
Definition set_reduce_clauses (x : Z) (r : Stats) : Stats :=
  {| conflicts := conflicts r; decisions := decisions r; restarts :=
     restarts r; reused := reused r; delayed := delayed r; propagations :=
     propagations r; bumped := bumped r; searched := searched r;
     reduce_count := reduce_count r; reduce_clauses := x; learned_units :=
     learned_units r; fixed_count := fixed_count r |}.
Definition set_learned_units (x : Z) (r : Stats) : Stats :=
  {| conflicts := conflicts r; decisions := decisions r; restarts :=
     restarts r; reused := reused r; delayed := delayed r; propagations :=
     propagations r; bumped := bumped r; searched := searched r;
     reduce_count := reduce_count r; reduce_clauses := reduce_clauses r;
     learned_units := x; fixed_count := fixed_count r |}.
Definition set_fixed_count (x : Z) (r : Stats) : Stats :=
  {| conflicts := conflicts r; decisions := decisions r; restarts :=
     restarts r; reused := reused r; delayed := delayed r; propagations :=
     propagations r; bumped := bumped r; searched := searched r;
     reduce_count := reduce_count r; reduce_clauses := reduce_clauses r;
     learned_units := learned_units r; fixed_count := x |}.

(** The static [ema] struct: five moving averages. *)
Record Emas : Type := mkEmas {
  resolved_glue : EMA;
  resolved_size : EMA;
  learned_glue_fast : EMA;
  learned_glue_slow : EMA;
  ema_jump : EMA
}.

Definition set_resolved_glue (x : EMA) (r : Emas) : Emas :=
  {| resolved_glue := x; resolved_size := resolved_size r; learned_glue_fast
     := learned_glue_fast r; learned_glue_slow := learned_glue_slow r;
     ema_jump := ema_jump r |}.
Definition set_resolved_size (x : EMA) (r : Emas) : Emas :=
  {| resolved_glue := resolved_glue r; resolved_size := x; learned_glue_fast
     := learned_glue_fast r; learned_glue_slow := learned_glue_slow r;
     ema_jump := ema_jump r |}.
Definition set_learned_glue_fast (x : EMA) (r : Emas) : Emas :=
  {| resolved_glue := resolved_glue r; resolved_size := resolved_size r;
     learned_glue_fast := x; learned_glue_slow := learned_glue_slow r;
     ema_jump := ema_jump r |}.
Definition set_learned_glue_slow (x : EMA) (r : Emas) : Emas :=
  {| resolved_glue := resolved_glue r; resolved_size := resolved_size r;
     learned_glue_fast := learned_glue_fast r; learned_glue_slow := x;
     ema_jump := ema_jump r |}.
Definition set_ema_jump (x : EMA) (r : Emas) : Emas :=
  {| resolved_glue := resolved_glue r; resolved_size := resolved_size r;
     learned_glue_fast := learned_glue_fast r; learned_glue_slow :=
     learned_glue_slow r; ema_jump := x |}.

(** The static [limits] struct. *)
Record Limits : Type := mkLimits {
  reduce_conflicts : Z;
  reduce_resolved : Z;
  reduce_fixed : Z;
  restart_conflicts : Z
}.

Definition set_reduce_conflicts (x : Z) (r : Limits) : Limits :=
  {| reduce_conflicts := x; reduce_resolved := reduce_resolved r;
     reduce_fixed := reduce_fixed r; restart_conflicts := restart_conflicts
     r |}.
Definition set_reduce_resolved (x : Z) (r : Limits) : Limits :=
  {| reduce_conflicts := reduce_conflicts r; reduce_resolved := x;
     reduce_fixed := reduce_fixed r; restart_conflicts := restart_conflicts
     r |}.
Definition set_reduce_fixed (x : Z) (r : Limits) : Limits :=
  {| reduce_conflicts := reduce_conflicts r; reduce_resolved :=
     reduce_resolved r; reduce_fixed := x; restart_conflicts :=
     restart_conflicts r |}.
Definition set_restart_conflicts (x : Z) (r : Limits) : Limits :=
  {| reduce_conflicts := reduce_conflicts r; reduce_resolved :=
     reduce_resolved r; reduce_fixed := reduce_fixed r; restart_conflicts :=
     x |}.

(** The solver's static variables, gathered into one record.  Clause pointers
    are keys of [heap]; [new] takes the key [next_ref], [delete] removes the
    key. *)
Record State : Type := mkState {
  max_var : Z;
  vars : Z -> Var;
  vals : Z -> Z;
  phases : Z -> Z;
  all_literal_watches : Z -> Watches;
  queue : Queue;
  unsat : bool;
  level : nat;
  levels : list Level;
  propagate_next : nat;
  trail : list Z;
  clause : list Z;
  heap : gmap nat Clause;
  next_ref : nat;
  irredundant : list nat;
  redundant : list nat;
  iterating : bool;
  seen_literals : list Z;
  seen_levels : list nat;
  conflict : option nat;
  stats : Stats;
  ema : Emas;
  limits : Limits;
  inc_reduce_conflicts : Z;
  opts : Opts
}.

Definition set_max_var (x : Z) (r : State) : State :=
  {| max_var := x; vars := vars r; vals := vals r; phases := phases r;
     all_literal_watches := all_literal_watches r; queue := queue r; unsat
     := unsat r; level := level r; levels := levels r; propagate_next :=
     propagate_next r; trail := trail r; clause := clause r; heap := heap r;
     next_ref := next_ref r; irredundant := irredundant r; redundant :=
     redundant r; iterating := iterating r; seen_literals := seen_literals
     r; seen_levels := seen_levels r; conflict := conflict r; stats := stats
     r; ema := ema r; limits := limits r; inc_reduce_conflicts :=
     inc_reduce_conflicts r; opts := opts r |}.
Definition set_vars (x : Z -> Var) (r : State) : State :=
  {| max_var := max_var r; vars := x; vals := vals r; phases := phases r;
     all_literal_watches := all_literal_watches r; queue := queue r; unsat
     := unsat r; level := level r; levels := levels r; propagate_next :=
     propagate_next r; trail := trail r; clause := clause r; heap := heap r;
     next_ref := next_ref r; irredundant := irredundant r; redundant :=
     redundant r; iterating := iterating r; seen_literals := seen_literals
     r; seen_levels := seen_levels r; conflict := conflict r; stats := stats
     r; ema := ema r; limits := limits r; inc_reduce_conflicts :=
     inc_reduce_conflicts r; opts := opts r |}.
Definition set_vals (x : Z -> Z) (r : State) : State :=
  {| max_var := max_var r; vars := vars r; vals := x; phases := phases r;
     all_literal_watches := all_literal_watches r; queue := queue r; unsat
     := unsat r; level := level r; levels := levels r; propagate_next :=
     propagate_next r; trail := trail r; clause := clause r; heap := heap r;
     next_ref := next_ref r; irredundant := irredundant r; redundant :=
     redundant r; iterating := iterating r; seen_literals := seen_literals
     r; seen_levels := seen_levels r; conflict := conflict r; stats := stats
     r; ema := ema r; limits := limits r; inc_reduce_conflicts :=
     inc_reduce_conflicts r; opts := opts r |}.
Definition set_phases (x : Z -> Z) (r : State) : State :=
  {| max_var := max_var r; vars := vars r; vals := vals r; phases := x;
     all_literal_watches := all_literal_watches r; queue := queue r; unsat
     := unsat r; level := level r; levels := levels r; propagate_next :=
     propagate_next r; trail := trail r; clause := clause r; heap := heap r;
     next_ref := next_ref r; irredundant := irredundant r; redundant :=
     redundant r; iterating := iterating r; seen_literals := seen_literals
     r; seen_levels := seen_levels r; conflict := conflict r; stats := stats
     r; ema := ema r; limits := limits r; inc_reduce_conflicts :=
     inc_reduce_conflicts r; opts := opts r |}.
Definition set_all_literal_watches (x : Z -> Watches) (r : State) : State :=
  {| max_var := max_var r; vars := vars r; vals := vals r; phases := phases
     r; all_literal_watches := x; queue := queue r; unsat := unsat r; level
     := level r; levels := levels r; propagate_next := propagate_next r;
     trail := trail r; clause := clause r; heap := heap r; next_ref :=
     next_ref r; irredundant := irredundant r; redundant := redundant r;
     iterating := iterating r; seen_literals := seen_literals r; seen_levels
     := seen_levels r; conflict := conflict r; stats := stats r; ema := ema
     r; limits := limits r; inc_reduce_conflicts := inc_reduce_conflicts r;
     opts := opts r |}.
Definition set_queue (x : Queue) (r : State) : State :=
  {| max_var := max_var r; vars := vars r; vals := vals r; phases := phases
     r; all_literal_watches := all_literal_watches r; queue := x; unsat :=
     unsat r; level := level r; levels := levels r; propagate_next :=
     propagate_next r; trail := trail r; clause := clause r; heap := heap r;
     next_ref := next_ref r; irredundant := irredundant r; redundant :=
     redundant r; iterating := iterating r; seen_literals := seen_literals
     r; seen_levels := seen_levels r; conflict := conflict r; stats := stats
     r; ema := ema r; limits := limits r; inc_reduce_conflicts :=
     inc_reduce_conflicts r; opts := opts r |}.
Definition set_unsat (x : bool) (r : State) : State :=
  {| max_var := max_var r; vars := vars r; vals := vals r; phases := phases
     r; all_literal_watches := all_literal_watches r; queue := queue r;
     unsat := x; level := level r; levels := levels r; propagate_next :=
     propagate_next r; trail := trail r; clause := clause r; heap := heap r;
     next_ref := next_ref r; irredundant := irredundant r; redundant :=
     redundant r; iterating := iterating r; seen_literals := seen_literals
     r; seen_levels := seen_levels r; conflict := conflict r; stats := stats
     r; ema := ema r; limits := limits r; inc_reduce_conflicts :=
     inc_reduce_conflicts r; opts := opts r |}.
Definition set_level (x : nat) (r : State) : State :=
  {| max_var := max_var r; vars := vars r; vals := vals r; phases := phases
     r; all_literal_watches := all_literal_watches r; queue := queue r;
     unsat := unsat r; level := x; levels := levels r; propagate_next :=
     propagate_next r; trail := trail r; clause := clause r; heap := heap r;
     next_ref := next_ref r; irredundant := irredundant r; redundant :=
     redundant r; iterating := iterating r; seen_literals := seen_literals
     r; seen_levels := seen_levels r; conflict := conflict r; stats := stats
     r; ema := ema r; limits := limits r; inc_reduce_conflicts :=
     inc_reduce_conflicts r; opts := opts r |}.
Definition set_levels (x : list Level) (r : State) : State :=
  {| max_var := max_var r; vars := vars r; vals := vals r; phases := phases
     r; all_literal_watches := all_literal_watches r; queue := queue r;
     unsat := unsat r; level := level r; levels := x; propagate_next :=
     propagate_next r; trail := trail r; clause := clause r; heap := heap r;
     next_ref := next_ref r; irredundant := irredundant r; redundant :=
     redundant r; iterating := iterating r; seen_literals := seen_literals
     r; seen_levels := seen_levels r; conflict := conflict r; stats := stats
     r; ema := ema r; limits := limits r; inc_reduce_conflicts :=
     inc_reduce_conflicts r; opts := opts r |}.
Definition set_propagate_next (x : nat) (r : State) : State :=
  {| max_var := max_var r; vars := vars r; vals := vals r; phases := phases
     r; all_literal_watches := all_literal_watches r; queue := queue r;
     unsat := unsat r; level := level r; levels := levels r; propagate_next
     := x; trail := trail r; clause := clause r; heap := heap r; next_ref :=
     next_ref r; irredundant := irredundant r; redundant := redundant r;
     iterating := iterating r; seen_literals := seen_literals r; seen_levels
     := seen_levels r; conflict := conflict r; stats := stats r; ema := ema
     r; limits := limits r; inc_reduce_conflicts := inc_reduce_conflicts r;
     opts := opts r |}.
Definition set_trail (x : list Z) (r : State) : State :=
  {| max_var := max_var r; vars := vars r; vals := vals r; phases := phases
     r; all_literal_watches := all_literal_watches r; queue := queue r;
     unsat := unsat r; level := level r; levels := levels r; propagate_next
     := propagate_next r; trail := x; clause := clause r; heap := heap r;
     next_ref := next_ref r; irredundant := irredundant r; redundant :=
     redundant r; iterating := iterating r; seen_literals := seen_literals
     r; seen_levels := seen_levels r; conflict := conflict r; stats := stats
     r; ema := ema r; limits := limits r; inc_reduce_conflicts :=
     inc_reduce_conflicts r; opts := opts r |}.
Definition set_clause (x : list Z) (r : State) : State :=
  {| max_var := max_var r; vars := vars r; vals := vals r; phases := phases
     r; all_literal_watches := all_literal_watches r; queue := queue r;
     unsat := unsat r; level := level r; levels := levels r; propagate_next
     := propagate_next r; trail := trail r; clause := x; heap := heap r;
     next_ref := next_ref r; irredundant := irredundant r; redundant :=
     redundant r; iterating := iterating r; seen_literals := seen_literals
     r; seen_levels := seen_levels r; conflict := conflict r; stats := stats
     r; ema := ema r; limits := limits r; inc_reduce_conflicts :=
     inc_reduce_conflicts r; opts := opts r |}.
Definition set_heap (x : gmap nat Clause) (r : State) : State :=
  {| max_var := max_var r; vars := vars r; vals := vals r; phases := phases
     r; all_literal_watches := all_literal_watches r; queue := queue r;
     unsat := unsat r; level := level r; levels := levels r; propagate_next
     := propagate_next r; trail := trail r; clause := clause r; heap := x;
     next_ref := next_ref r; irredundant := irredundant r; redundant :=
     redundant r; iterating := iterating r; seen_literals := seen_literals
     r; seen_levels := seen_levels r; conflict := conflict r; stats := stats
     r; ema := ema r; limits := limits r; inc_reduce_conflicts :=
     inc_reduce_conflicts r; opts := opts r |}.
Definition set_next_ref (x : nat) (r : State) : State :=
  {| max_var := max_var r; vars := vars r; vals := vals r; phases := phases
     r; all_literal_watches := all_literal_watches r; queue := queue r;
     unsat := unsat r; level := level r; levels := levels r; propagate_next
     := propagate_next r; trail := trail r; clause := clause r; heap := heap
     r; next_ref := x; irredundant := irredundant r; redundant := redundant
     r; iterating := iterating r; seen_literals := seen_literals r;
     seen_levels := seen_levels r; conflict := conflict r; stats := stats r;
     ema := ema r; limits := limits r; inc_reduce_conflicts :=
     inc_reduce_conflicts r; opts := opts r |}.
Definition set_irredundant (x : list nat) (r : State) : State :=
  {| max_var := max_var r; vars := vars r; vals := vals r; phases := phases
     r; all_literal_watches := all_literal_watches r; queue := queue r;
     unsat := unsat r; level := level r; levels := levels r; propagate_next
     := propagate_next r; trail := trail r; clause := clause r; heap := heap
     r; next_ref := next_ref r; irredundant := x; redundant := redundant r;
     iterating := iterating r; seen_literals := seen_literals r; seen_levels
     := seen_levels r; conflict := conflict r; stats := stats r; ema := ema
     r; limits := limits r; inc_reduce_conflicts := inc_reduce_conflicts r;
     opts := opts r |}.
Definition set_redundant (x : list nat) (r : State) : State :=
  {| max_var := max_var r; vars := vars r; vals := vals r; phases := phases
     r; all_literal_watches := all_literal_watches r; queue := queue r;
     unsat := unsat r; level := level r; levels := levels r; propagate_next
     := propagate_next r; trail := trail r; clause := clause r; heap := heap
     r; next_ref := next_ref r; irredundant := irredundant r; redundant :=
     x; iterating := iterating r; seen_literals := seen_literals r;
     seen_levels := seen_levels r; conflict := conflict r; stats := stats r;
     ema := ema r; limits := limits r; inc_reduce_conflicts :=
     inc_reduce_conflicts r; opts := opts r |}.
Definition set_iterating (x : bool) (r : State) : State :=
  {| max_var := max_var r; vars := vars r; vals := vals r; phases := phases
     r; all_literal_watches := all_literal_watches r; queue := queue r;
     unsat := unsat r; level := level r; levels := levels r; propagate_next
     := propagate_next r; trail := trail r; clause := clause r; heap := heap
     r; next_ref := next_ref r; irredundant := irredundant r; redundant :=
     redundant r; iterating := x; seen_literals := seen_literals r;
     seen_levels := seen_levels r; conflict := conflict r; stats := stats r;
     ema := ema r; limits := limits r; inc_reduce_conflicts :=
     inc_reduce_conflicts r; opts := opts r |}.
Definition set_seen_literals (x : list Z) (r : State) : State :=
  {| max_var := max_var r; vars := vars r; vals := vals r; phases := phases
     r; all_literal_watches := all_literal_watches r; queue := queue r;
     unsat := unsat r; level := level r; levels := levels r; propagate_next
     := propagate_next r; trail := trail r; clause := clause r; heap := heap
     r; next_ref := next_ref r; irredundant := irredundant r; redundant :=
     redundant r; iterating := iterating r; seen_literals := x; seen_levels
     := seen_levels r; conflict := conflict r; stats := stats r; ema := ema
     r; limits := limits r; inc_reduce_conflicts := inc_reduce_conflicts r;
     opts := opts r |}.
Definition set_seen_levels (x : list nat) (r : State) : State :=
  {| max_var := max_var r; vars := vars r; vals := vals r; phases := phases
     r; all_literal_watches := all_literal_watches r; queue := queue r;
     unsat := unsat r; level := level r; levels := levels r; propagate_next
     := propagate_next r; trail := trail r; clause := clause r; heap := heap
     r; next_ref := next_ref r; irredundant := irredundant r; redundant :=
     redundant r; iterating := iterating r; seen_literals := seen_literals
     r; seen_levels := x; conflict := conflict r; stats := stats r; ema :=
     ema r; limits := limits r; inc_reduce_conflicts := inc_reduce_conflicts
     r; opts := opts r |}.
Definition set_conflict (x : option nat) (r : State) : State :=
  {| max_var := max_var r; vars := vars r; vals := vals r; phases := phases
     r; all_literal_watches := all_literal_watches r; queue := queue r;
     unsat := unsat r; level := level r; levels := levels r; propagate_next
     := propagate_next r; trail := trail r; clause := clause r; heap := heap
     r; next_ref := next_ref r; irredundant := irredundant r; redundant :=
     redundant r; iterating := iterating r; seen_literals := seen_literals
     r; seen_levels := seen_levels r; conflict := x; stats := stats r; ema
     := ema r; limits := limits r; inc_reduce_conflicts :=
     inc_reduce_conflicts r; opts := opts r |}.
Definition set_stats (x : Stats) (r : State) : State :=
  {| max_var := max_var r; vars := vars r; vals := vals r; phases := phases
     r; all_literal_watches := all_literal_watches r; queue := queue r;
     unsat := unsat r; level := level r; levels := levels r; propagate_next
     := propagate_next r; trail := trail r; clause := clause r; heap := heap
     r; next_ref := next_ref r; irredundant := irredundant r; redundant :=
     redundant r; iterating := iterating r; seen_literals := seen_literals
     r; seen_levels := seen_levels r; conflict := conflict r; stats := x;
     ema := ema r; limits := limits r; inc_reduce_conflicts :=
     inc_reduce_conflicts r; opts := opts r |}.
Definition set_ema (x : Emas) (r : State) : State :=
  {| max_var := max_var r; vars := vars r; vals := vals r; phases := phases
     r; all_literal_watches := all_literal_watches r; queue := queue r;
     unsat := unsat r; level := level r; levels := levels r; propagate_next
     := propagate_next r; trail := trail r; clause := clause r; heap := heap
     r; next_ref := next_ref r; irredundant := irredundant r; redundant :=
     redundant r; iterating := iterating r; seen_literals := seen_literals
     r; seen_levels := seen_levels r; conflict := conflict r; stats := stats
     r; ema := x; limits := limits r; inc_reduce_conflicts :=
     inc_reduce_conflicts r; opts := opts r |}.
Definition set_limits (x : Limits) (r : State) : State :=
  {| max_var := max_var r; vars := vars r; vals := vals r; phases := phases
     r; all_literal_watches := all_literal_watches r; queue := queue r;
     unsat := unsat r; level := level r; levels := levels r; propagate_next
     := propagate_next r; trail := trail r; clause := clause r; heap := heap
     r; next_ref := next_ref r; irredundant := irredundant r; redundant :=
     redundant r; iterating := iterating r; seen_literals := seen_literals
     r; seen_levels := seen_levels r; conflict := conflict r; stats := stats
     r; ema := ema r; limits := x; inc_reduce_conflicts :=
     inc_reduce_conflicts r; opts := opts r |}.
Definition set_inc_reduce_conflicts (x : Z) (r : State) : State :=
  {| max_var := max_var r; vars := vars r; vals := vals r; phases := phases
     r; all_literal_watches := all_literal_watches r; queue := queue r;
     unsat := unsat r; level := level r; levels := levels r; propagate_next
     := propagate_next r; trail := trail r; clause := clause r; heap := heap
     r; next_ref := next_ref r; irredundant := irredundant r; redundant :=
     redundant r; iterating := iterating r; seen_literals := seen_literals
     r; seen_levels := seen_levels r; conflict := conflict r; stats := stats
     r; ema := ema r; limits := limits r; inc_reduce_conflicts := x; opts :=
     opts r |}.
Definition set_opts (x : Opts) (r : State) : State :=
  {| max_var := max_var r; vars := vars r; vals := vals r; phases := phases
     r; all_literal_watches := all_literal_watches r; queue := queue r;
     unsat := unsat r; level := level r; levels := levels r; propagate_next
     := propagate_next r; trail := trail r; clause := clause r; heap := heap
     r; next_ref := next_ref r; irredundant := irredundant r; redundant :=
     redundant r; iterating := iterating r; seen_literals := seen_literals
     r; seen_levels := seen_levels r; conflict := conflict r; stats := stats
     r; ema := ema r; limits := limits r; inc_reduce_conflicts :=
     inc_reduce_conflicts r; opts := x |}.

(** ** Helpers of the embedding *)

(** A failed [assert], or a test that guards undefined behaviour. *)
Definition check (b : bool) : option unit := if b then Some tt else None.

Definition upd_stats (f : Stats -> Stats) (s : State) : State :=
  set_stats (f (stats s)) s.
Definition upd_limits (f : Limits -> Limits) (s : State) : State :=
  set_limits (f (limits s)) s.
Definition upd_ema (f : Emas -> Emas) (s : State) : State :=
  set_ema (f (ema s)) s.
Definition upd_queue (f : Queue -> Queue) (s : State) : State :=
  set_queue (f (queue s)) s.

(** [swap (lits[i], lits[j])]. *)
Definition swap_lits (i j : nat) (l : list Z) : option (list Z) :=
  a ← l !! i; b ← l !! j; Some (<[j := a]> (<[i := b]> l)).

(** [std::sort] with the comparison [lt]. *)
Fixpoint sort_insert {A : Type} (lt : A -> A -> bool) (x : A) (l : list A)
  : list A :=
  match l with
  | [] => [x]
  | y :: l' => if lt y x then y :: sort_insert lt x l' else x :: l
  end.

Fixpoint sort_by {A : Type} (lt : A -> A -> bool) (l : list A) : list A :=
  match l with
  | [] => []
  | x :: l' => sort_insert lt x (sort_by lt l')
  end.

(** ** Exponential moving averages: [EMA::update] *)

(** The conversion of an [int] to [double]: the nearest double, which is
    the integer itself below [2^53]. *)
Definition double_of_Z (z : Z) : float :=
  SF2Prim (binary_normalize prec emax z 0 false).

Definition EMA_update (e : EMA) (y : float) : EMA :=
  let value' := (value e + beta e * (y - value e))%float in
  if (beta e <=? alpha e)%float then
    mkEMA value' (alpha e) (beta e) (wait e) (period e)
  else if negb (wait e =? 0) then           (* 'wait--' was non-zero *)
    mkEMA value' (alpha e) (beta e) (wait e - 1) (period e)
  else
    let period' := 2 * (period e + 1) - 1 in
    let beta' := (beta e * 0x1p-1)%float in
    let beta'' := if (beta' <? alpha e)%float then alpha e else beta' in
    mkEMA value' (alpha e) beta'' period' period'.

(** ** Access to variables, values and watches *)

Definition vidx (lit : Z) : Z := Z.abs lit.

(** The assertions of [vidx]. *)
Definition vidx_ok (s : State) (lit : Z) : bool :=
  negb (lit =? 0) && (Z.abs lit <=? max_var s).

Definition val (s : State) (lit : Z) : Z :=
  let res := vals s (vidx lit) in
  if lit <? 0 then - res else res.

Definition fixed (s : State) (lit : Z) : Z :=
  let idx := vidx lit in
  let res := vals s idx in
  let res :=
    if negb (res =? 0) && negb (v_level (vars s idx) =? 0)%nat then 0
    else res in
  if lit <? 0 then - res else res.

Definition sign (lit : Z) : Z := if lit <? 0 then -1 else 1.

Definition watches (s : State) (lit : Z) : Watches :=
  all_literal_watches s lit.

Definition set_watches (lit : Z) (ws : Watches) (s : State) : State :=
  set_all_literal_watches (<[lit := ws]> (all_literal_watches s)) s.

Definition var (s : State) (lit : Z) : Var := vars s (vidx lit).

Definition upd_var (idx : Z) (f : Var -> Var) (s : State) : State :=
  set_vars (<[idx := f (vars s idx)]> (vars s)) s.

(** ** Assignment and backtracking *)

Definition assign (lit : Z) (reason : option nat) (s : State)
  : option State :=
  let idx := vidx lit in
  _ ← check (vals s idx =? 0);
  let s1 :=
    if (level s =? 0)%nat
    then set_iterating true
           (upd_stats (fun st => set_fixed_count (fixed_count st + 1) st) s)
    else s in
  let s2 := upd_var idx (set_v_assigned (level s) reason) s1 in
  let s3 := set_vals (<[idx := sign lit]> (vals s2)) s2 in
  let s4 := set_phases (<[idx := sign lit]> (phases s3)) s3 in
  Some (set_trail (trail s4 ++ [lit]) s4).

Definition unassign (lit : Z) (s : State) : option State :=
  _ ← check (0 <? val s lit);
  let idx := vidx lit in
  let s1 := set_vals (<[idx := 0]> (vals s)) s in
  if v_bumped (var s1 (q_next (queue s1))) >=? v_bumped (vars s1 idx)
  then Some s1
  else Some (upd_queue (set_q_next idx) s1).

(** The [do ... while (lit != decision)] loop of [backtrack]; every round
    pops one literal, so [length trail] rounds are all there can be. *)
Fixpoint backtrack_loop (n : nat) (dec : Z) (s : State) : option State :=
  match n with
  | O => None
  | S n' =>
      lit ← list.last (trail s);
      s1 ← unassign lit s;
      let s2 := set_trail (removelast (trail s1)) s1 in
      if lit =? dec then Some s2 else backtrack_loop n' dec s2
  end.

Definition backtrack (target_level : nat) (s : State) : option State :=
  _ ← check (target_level <=? level s)%nat;
  if (target_level =? level s)%nat then Some s
  else
    lv ← levels s !! S target_level;
    s1 ← backtrack_loop (length (trail s)) (decision lv) s;
    let s2 :=
      if (length (trail s1) <? propagate_next s1)%nat
      then set_propagate_next (length (trail s1)) s1 else s1 in
    let s3 := set_levels (take (S target_level) (levels s2)) s2 in
    Some (set_level target_level s3).

Definition learn_empty_clause (s : State) : option State :=
  _ ← check (negb (unsat s));
  Some (set_unsat true s).

(** ** Clauses and watches *)

Definition watch_literal (lit b : Z) (c : nat) (sz : nat) (s : State)
  : State :=
  set_watches lit (watches s lit ++ [mkWatch b sz c]) s.

Definition watch_clause (c : nat) (s : State) : option State :=
  cl ← heap s !! c;
  _ ← check (1 <? c_size cl)%nat;
  l0 ← literals cl !! 0%nat;
  l1 ← literals cl !! 1%nat;
  let s1 := watch_literal l0 l1 c (c_size cl) s in
  Some (watch_literal l1 l0 c (c_size cl) s1).

(** [new_clause]: the literals come from the temporary [clause]. *)
Definition new_clause (red : bool) (glue : Z) (s : State) : nat * State :=
  let c := next_ref s in
  let cl := mkClause red false false glue (conflicts (stats s)) (clause s) in
  let s1 := set_next_ref (S c) (set_heap (<[c := cl]> (heap s)) s) in
  let s2 :=
    if red then set_redundant (redundant s1 ++ [c]) s1
    else set_irredundant (irredundant s1 ++ [c]) s1 in
  (c, s2).

Definition add_new_original_clause (s : State) : option State :=
  match clause s with
  | [] => Some (set_unsat true s)
  | [unit] =>
      let tmp := val s unit in
      if tmp =? 0 then assign unit None s
      else if tmp <? 0 then
        (if unsat s then Some s else learn_empty_clause s)
      else Some s
  | _ => let '(c, s1) := new_clause false 0 s in watch_clause c s1
  end.

Definition new_learned_clause (g : Z) (s : State) : option (nat * State) :=
  let '(c, s1) := new_clause true g s in
  s2 ← watch_clause c s1; Some (c, s2).

Definition delete_clause (c : nat) (s : State) : State :=
  set_heap (delete c (heap s)) s.

(** ** Propagation *)

Definition has_conflict (s : State) : bool :=
  match conflict s with Some _ => true | None => false end.

(** The scan [for (k = 2; k < w.size && (v = val (lits[k])) < 0; k++)],
    over the literals from slot [k] on; the result is the final [k], [v]. *)
Fixpoint scan (s : State) (k : nat) (rest : list Z) (v : Z) : nat * Z :=
  match rest with
  | [] => (k, v)
  | l :: rest' =>
      let v' := val s l in
      if v' <? 0 then scan s (S k) rest' v' else (k, v')
  end.

(** One round of the inner loop of [propagate] for the watch [w] of
    [-lit]: the watch left in the list ([None] when it is dropped, the
    'j--' of the source) and the new state. *)
Definition visit (lit : Z) (w : Watch) (s : State)
  : option (option Watch * State) :=
  let b := val s (blit w) in
  if 0 <? b then Some (Some w, s)
  else if (w_size w =? 2)%nat then
    if b <? 0 then Some (Some w, set_conflict (Some (w_clause w)) s)
    else s1 ← assign (blit w) (Some (w_clause w)) s; Some (Some w, s1)
  else
    c ← heap s !! w_clause w;
    _ ← check (c_size c =? w_size w)%nat;
    l0 ← literals c !! 0%nat;
    l1 ← literals c !! 1%nat;
    lits ← (if l1 =? - lit then Some (literals c)
            else swap_lits 0 1 (literals c));
    l0 ← lits !! 0%nat;
    l1 ← lits !! 1%nat;
    _ ← check (l1 =? - lit);
    let s1 := set_heap (<[w_clause w := set_literals lits c]> (heap s)) s in
    let u := val s1 l0 in
    if 0 <? u then Some (Some (set_blit l0 w), s1)
    else
      let '(k, v) := scan s1 2 (drop 2 lits) 0 in
      if 0 <? v then lk ← lits !! k; Some (Some (set_blit lk w), s1)
      else if v =? 0 then
        lits' ← swap_lits 1 k lits;
        l1' ← lits' !! 1%nat;
        let s2 :=
          set_heap (<[w_clause w := set_literals lits' c]> (heap s1)) s1 in
        Some (None, watch_literal l1' (- lit) (w_clause w) (c_size c) s2)
      else if u =? 0 then
        s2 ← assign l0 (Some (w_clause w)) s1; Some (Some w, s2)
      else Some (Some w, set_conflict (Some (w_clause w)) s1).

(** The inner loop: [ws] are the watches not yet visited, [acc] those
    already written back (the slots below 'j').  When a conflict stops the
    loop the remaining watches are copied unchanged. *)
Fixpoint visit_all (lit : Z) (ws acc : Watches) (s : State)
  : option (Watches * State) :=
  match ws with
  | [] => Some (acc, s)
  | w :: rest =>
      if has_conflict s then Some (acc ++ ws, s)
      else
        '(r, s1) ← visit lit w s;
        visit_all lit rest (acc ++ option_list r) s1
  end.

Fixpoint propagate_loop (fuel : nat) (s : State) : option State :=
  match fuel with
  | O => None
  | S fuel' =>
      if has_conflict s then Some s
      else if negb (propagate_next s <? length (trail s))%nat then Some s
      else
        lit ← trail s !! propagate_next s;
        let s1 :=
          upd_stats (fun st => set_propagations (propagations st + 1) st) s in
        let s2 := set_propagate_next (S (propagate_next s1)) s1 in
        _ ← check (0 <? val s2 lit);
        '(ws, s3) ← visit_all lit (watches s2 (- lit)) [] s2;
        propagate_loop fuel' (set_watches (- lit) ws s3)
  end.

Definition propagate (fuel : nat) (s : State) : option (bool * State) :=
  _ ← check (negb (unsat s));
  s1 ← propagate_loop fuel s;
  match conflict s1 with
  | Some _ =>
      Some (false,
            upd_stats (fun st => set_conflicts (conflicts st + 1) st) s1)
  | None => Some (true, s1)
  end.

(** ** The VMTF queue *)

Definition bumped_earlier (s : State) (a b : Z) : bool :=
  v_bumped (var s a) <? v_bumped (var s b).

Definition dequeue (idx : Z) (s : State) : State :=
  let v := vars s idx in
  let s1 :=
    if negb (v_prev v =? 0)
    then upd_var (vidx (v_prev v)) (set_v_next (v_next v)) s
    else upd_queue (set_q_first (v_next v)) s in
  let v1 := vars s1 idx in
  if negb (v_next v1 =? 0)
  then upd_var (vidx (v_next v1)) (set_v_prev (v_prev v1)) s1
  else upd_queue (set_q_last (v_prev v1)) s1.

Definition enqueue (idx : Z) (s : State) : State :=
  let s1 := upd_var idx (set_v_prev (q_last (queue s))) s in
  let s2 :=
    if negb (q_last (queue s1) =? 0)
    then upd_var (vidx (q_last (queue s1))) (set_v_next idx) s1
    else upd_queue (set_q_first idx) s1 in
  let s3 := upd_queue (set_q_last idx) s2 in
  upd_var idx (set_v_next 0) s3.

Fixpoint next_decision_variable (fuel : nat) (s : State)
  : option (Z * State) :=
  match fuel with
  | O => None
  | S fuel' =>
      let res := q_next (queue s) in
      _ ← check (vidx_ok s res);
      if val s res =? 0 then Some (res, s)
      else
        let s1 := upd_queue (set_q_next (v_prev (var s res))) s in
        next_decision_variable fuel'
          (upd_stats (fun st => set_searched (searched st + 1) st) s1)
  end.

(** One round of the loop of [bump_and_clear_seen_literals]. *)
Definition bump_literal (uip lit : Z) (s : State) : State :=
  let idx := vidx lit in
  let s1 := upd_var idx (set_v_marks false) s in
  if v_next (vars s1 idx) =? 0 then s1
  else
    let v := vars s1 idx in
    let s2 :=
      if q_next (queue s1) =? idx
      then upd_queue
             (set_q_next (if negb (v_prev v =? 0) then v_prev v
                          else v_next v)) s1
      else s1 in
    let s3 := enqueue idx (dequeue idx s2) in
    let b := bumped (stats s3) + 1 in
    let s4 := upd_stats (set_bumped b) s3 in
    let s5 := upd_var idx (set_v_bumped b) s4 in
    if negb (idx =? uip) && (vals s5 idx =? 0)
    then upd_queue (set_q_next idx) s5 else s5.

Definition bump_and_clear_seen_literals (uip : Z) (s : State) : State :=
  let sorted := sort_by (bumped_earlier s) (seen_literals s) in
  let uip := if uip <? 0 then - uip else uip in
  let s1 := fold_left (fun st lit => bump_literal uip lit st) sorted s in
  set_seen_literals [] s1.

(** Writing through [levels[l]] above the size of the vector (the levels
    cut off by [backtrack]) lands in its spare capacity and is never
    read back: it changes nothing, as the list update does. *)
Definition clear_levels (s : State) : State :=
  let lvs :=
    fold_left (fun ls l => alter (set_l_seen 0) l ls) (seen_levels s)
              (levels s) in
  set_seen_levels [] (set_levels lvs s).

(** ** Conflict analysis *)

Definition bump_clause (c : nat) (s : State) : option State :=
  cl ← heap s !! c;
  if negb (c_redundant cl) then Some s
  else
    let cl' := set_c_resolved (conflicts (stats s)) cl in
    let s1 := set_heap (<[c := cl']> (heap s)) s in
    let s2 :=
      upd_ema (fun e => set_resolved_size
        (EMA_update (resolved_size e) (double_of_Z (Z.of_nat (c_size cl')))) e)
        s1 in
    Some (upd_ema (fun e => set_resolved_glue
            (EMA_update (resolved_glue e) (double_of_Z (c_glue cl'))) e) s2).

Definition level_greater_than (s : State) (a b : Z) : bool :=
  (v_level (var s b) <? v_level (var s a))%nat.

Definition analyze_literal (lit : Z) (s : State) : option (bool * State) :=
  let v := var s lit in
  if v_seen v then Some (false, s)
  else if (v_level v =? 0)%nat then Some (false, s)
  else
    _ ← check (val s lit <? 0);
    let s1 :=
      if (v_level v <? level s)%nat
      then set_clause (clause s ++ [lit]) s else s in
    lv ← levels s1 !! v_level v;
    let s2 := set_levels (<[v_level v := set_l_seen (l_seen lv + 1) lv]>
                            (levels s1)) s1 in
    let s3 :=
      if l_seen lv =? 0
      then set_seen_levels (seen_levels s2 ++ [v_level v]) s2 else s2 in
    let s4 := upd_var (vidx lit) (set_v_seen true) s3 in
    let s5 := set_seen_literals (seen_literals s4 ++ [lit]) s4 in
    Some ((v_level v =? level s)%nat, s5).

(** [for (j = 0; j < reason->size; j++)
       if (analyze_literal (reason->literals[j])) open++;] *)
Fixpoint analyze_reason (lits : list Z) (open : Z) (s : State)
  : option (Z * State) :=
  match lits with
  | [] => Some (open, s)
  | lit :: rest =>
      '(b, s1) ← analyze_literal lit s;
      analyze_reason rest (if b : bool then open + 1 else open) s1
  end.

(** [while (!var (uip = trail[--i]).seen);] : the new [i] and [uip]. *)
Fixpoint find_seen (i : nat) (s : State) : option (nat * Z) :=
  match i with
  | O => None
  | S i' =>
      uip ← trail s !! i';
      if v_seen (var s uip) then Some (i', uip) else find_seen i' s
  end.

(** The [for (;;)] loop of [analyze]; [i] falls in every round, so
    [S (length trail)] rounds of fuel are never used up. *)
Fixpoint analyze_loop (fuel : nat) (reason : nat) (open : Z) (i : nat)
  (s : State) : option (Z * State) :=
  match fuel with
  | O => None
  | S fuel' =>
      cl ← heap s !! reason;
      '(open1, s1) ← analyze_reason (literals cl) open s;
      '(i1, uip) ← find_seen i s1;
      let open2 := open1 - 1 in
      if open2 =? 0 then Some (uip, s1)
      else
        r ← v_reason (var s1 uip);
        analyze_loop fuel' r open2 i1 s1
  end.

Definition update_learned_glue (glue : float) (e : Emas) : Emas :=
  let e1 := set_learned_glue_slow (EMA_update (learned_glue_slow e) glue) e in
  set_learned_glue_fast (EMA_update (learned_glue_fast e1) glue) e1.

(** The part of [analyze] that learns: a unit, or a clause sorted by
    level, allocated and watched.  The result is the driving clause, the
    jump level and the state. *)
Definition learn (uip : Z) (glue : Z) (s : State)
  : option (option nat * nat * State) :=
  if (length (clause s) =? 1)%nat then
    Some (None, 0%nat,
          upd_stats (fun st => set_learned_units (learned_units st + 1) st) s)
  else
    let s1 := set_clause (sort_by (level_greater_than s) (clause s)) s in
    c0 ← clause s1 !! 0%nat;
    _ ← check (c0 =? - uip);
    '(c, s2) ← new_learned_clause glue s1;
    c1 ← clause s2 !! 1%nat;
    let jump := v_level (var s2 c1) in
    _ ← check (jump <? level s2)%nat;
    Some (Some c, jump, s2).

Definition analyze (s : State) : option State :=
  cf ← conflict s;
  s' ← (if (level s =? 0)%nat then learn_empty_clause s
        else
          s1 ← bump_clause cf s;
          _ ← check (bool_decide (clause s1 = []));
          _ ← check (bool_decide (seen_literals s1 = []));
          _ ← check (bool_decide (seen_levels s1 = []));
          '(uip, s2) ← analyze_loop (S (length (trail s1))) cf 0
                         (length (trail s1)) s1;
          let s3 := set_clause (clause s2 ++ [- uip]) s2 in
          let glue := Z.of_nat (length (seen_levels s3)) in
          let s4 := upd_ema (update_learned_glue (double_of_Z glue)) s3 in
          '(driving_clause, jump, s5) ← learn uip glue s4;
          let s6 :=
            upd_ema (fun e => set_ema_jump
              (EMA_update (ema_jump e) (double_of_Z (Z.of_nat jump))) e) s5 in
          s7 ← backtrack jump s6;
          s8 ← assign (- uip) driving_clause s7;
          let s9 := bump_and_clear_seen_literals uip s8 in
          Some (clear_levels (set_clause [] s9)));
  Some (set_conflict None s').

Definition satisfied (s : State) : bool :=
  Z.of_nat (length (trail s)) =? max_var s.

(** ** Restarts *)

Definition restarting (s : State) : bool * State :=
  if negb (opt_restart (opts s)) then (false, s)
  else if conflicts (stats s) <=? restart_conflicts (limits s)
  then (false, s)
  else
    let slow := value (learned_glue_slow (ema s)) in
    let fast := value (learned_glue_fast (ema s)) in
    let limit := ((1 + restartmargin (opts s)) * slow)%float in
    let s1 :=
      upd_limits (set_restart_conflicts
                    (conflicts (stats s) + restartint (opts s))) s in
    if (fast <? limit)%float then (false, s1)
    else if restartdelay (opts s)
            && (double_of_Z (Z.of_nat (level s))
                <? restartdelaylim (opts s) * value (ema_jump (ema s)))%float
    then (false, upd_stats (fun st => set_delayed (delayed st + 1) st) s1)
    else (true, s).

(** [while (res < level && var (levels[res + 1].decision).bumped > limit)
       res++;] with [n] the levels left above [res]. *)
Fixpoint reuse_loop (n res : nat) (limit : Z) (s : State) : option nat :=
  match n with
  | O => Some res
  | S n' =>
      lv ← levels s !! S res;
      if limit <? v_bumped (var s (decision lv))
      then reuse_loop n' (S res) limit s else Some res
  end.

Definition reusetrail (fuel : nat) (s : State) : option (nat * State) :=
  if negb (opt_reusetrail (opts s)) then Some (0%nat, s)
  else
    '(idx, s1) ← next_decision_variable fuel s;
    let limit := v_bumped (var s1 idx) in
    res ← reuse_loop (level s1) 0 limit s1;
    if negb (res =? 0)%nat
    then Some (res, upd_stats (fun st => set_reused (reused st + 1) st) s1)
    else Some (res, s1).

Definition restart (fuel : nat) (s : State) : option State :=
  let s1 := upd_stats (fun st => set_restarts (restarts st + 1) st) s in
  '(r, s2) ← reusetrail fuel s1;
  s3 ← backtrack r s2;
  Some (upd_limits (set_restart_conflicts
                      (conflicts (stats s3) + restartint (opts s3))) s3).

(** ** Reduce *)

(** A loop over a vector that threads the state. *)
Fixpoint for_each {A : Type} (f : A -> State -> option State)
  (l : list A) (s : State) : option State :=
  match l with
  | [] => Some s
  | x :: l' => s1 ← f x s; for_each f l' s1
  end.

Definition reducing (s : State) : bool :=
  opt_reduce (opts s) && (reduce_conflicts (limits s) <=? conflicts (stats s)).

(** One round of [protect_reasons] ([b] true) or [unprotect_reasons]
    ([b] false, with its assertion). *)
Definition flag_reason (b : bool) (lit : Z) (s : State) : option State :=
  let v := var s lit in
  match v_reason v with
  | Some r =>
      if negb (v_level v =? 0)%nat then
        cl ← heap s !! r;
        _ ← check (b || c_reason cl);
        Some (set_heap (<[r := set_c_reason b cl]> (heap s)) s)
      else Some s
  | None => Some s
  end.

Definition protect_reasons (s : State) : option State :=
  for_each (flag_reason true) (trail s) s.

Definition unprotect_reasons (s : State) : option State :=
  for_each (flag_reason false) (trail s) s.

Definition clause_root_level_satisfied (s : State) (c : Clause) : bool :=
  existsb (fun lit => 0 <? fixed s lit) (literals c).

Definition mark_satisfied_clause (c : nat) (s : State) : option State :=
  cl ← heap s !! c;
  if negb (c_reason cl) && clause_root_level_satisfied s cl
  then Some (set_heap (<[c := set_c_garbage true cl]> (heap s)) s)
  else Some s.

Definition mark_satisfied_clauses (clauses : list nat) (s : State)
  : option State :=
  for_each mark_satisfied_clause clauses s.

Definition reduce_less_than (c d : Clause) : bool :=
  if c_resolved c <? c_resolved d then true
  else if c_resolved d <? c_resolved c then false
  else if c_glue d <? c_glue c then true
  else if c_glue c <? c_glue d then false
  else if (c_size d <? c_size c)%nat then true
  else false.

(** The tests of the first loop of [mark_redundant_clauses]: [true] when
    the clause is pushed on [work]. *)
Definition reduce_candidate (s : State) (c : Clause) : bool :=
  if c_reason c then false
  else if c_garbage c then false
  else if c_glue c <=? 2 then false
  else if (c_size c <=? 3)%nat then false
  else if reduce_resolved (limits s) <? c_resolved c then false
  else if reducedynamic (opts s)
          && (double_of_Z (c_glue c) <? value (resolved_glue (ema s)))%float
          && (double_of_Z (Z.of_nat (c_size c))
              <? value (resolved_size (ema s)))%float
  then false
  else true.

Fixpoint collect_work (s : State) (ids : list nat)
  : option (list (nat * Clause)) :=
  match ids with
  | [] => Some []
  | c :: rest =>
      cl ← heap s !! c;
      _ ← check (c_redundant cl);
      work ← collect_work s rest;
      Some (if reduce_candidate s cl then (c, cl) :: work else work)
  end.

Definition mark_garbage (c : nat) (s : State) : option State :=
  cl ← heap s !! c;
  Some (set_heap (<[c := set_c_garbage true cl]> (heap s)) s).

Definition mark_redundant_clauses (s : State) : option State :=
  work ← collect_work s (redundant s);
  let sorted :=
    sort_by (fun x y => reduce_less_than (snd x) (snd y)) work in
  let target := (length sorted / 2)%nat in
  for_each mark_garbage (map fst (take target sorted)) s.

(** The compaction of one watch list in [flush_watches]. *)
Fixpoint flush_list (s : State) (ws : Watches) : option Watches :=
  match ws with
  | [] => Some []
  | w :: rest =>
      cl ← heap s !! w_clause w;
      rest' ← flush_list s rest;
      Some (if c_garbage cl then rest' else w :: rest')
  end.

Definition flush_var (idx : Z) (s : State) : option State :=
  if negb (fixed s idx =? 0)
  then Some (set_watches (- idx) [] (set_watches idx [] s))
  else
    ws1 ← flush_list s (watches s (-1 * idx));
    let s1 := set_watches (-1 * idx) ws1 s in
    ws2 ← flush_list s1 (watches s1 (1 * idx));
    Some (set_watches (1 * idx) ws2 s1).

Definition flush_watches (s : State) : option State :=
  for_each flush_var (seqZ 1 (max_var s)) s.

(** [collect_clauses]: the clauses kept, and the state. *)
Fixpoint collect_list (ids : list nat) (s : State)
  : option (list nat * State) :=
  match ids with
  | [] => Some ([], s)
  | c :: rest =>
      cl ← heap s !! c;
      if negb (c_garbage cl) then
        '(kept, s1) ← collect_list rest s; Some (c :: kept, s1)
      else
        let s1 :=
          upd_stats (fun st => set_reduce_clauses (reduce_clauses st + 1) st)
                    s in
        collect_list rest (delete_clause c s1)
  end.

(** [reduce] up to and with [unprotect_reasons]: the marking. *)
Definition reduce_mark (s : State) : option State :=
  let s0 := upd_stats (fun st => set_reduce_count (reduce_count st + 1) st) s in
  s1 ← protect_reasons s0;
  s2 ← (if reduce_fixed (limits s1) <? fixed_count (stats s1)
        then sa ← mark_satisfied_clauses (irredundant s1) s1;
             mark_satisfied_clauses (redundant sa) sa
        else Some s1);
  s3 ← mark_redundant_clauses s2;
  unprotect_reasons s3.

(** [reduce] from [flush_watches] on: the sweep. *)
Definition reduce_sweep (s4 : State) : option State :=
  s5 ← flush_watches s4;
  s6 ← (if reduce_fixed (limits s5) <? fixed_count (stats s5)
        then '(kept, sa) ← collect_list (irredundant s5) s5;
             Some (set_irredundant kept sa)
        else Some s5);
  '(kept, s7) ← collect_list (redundant s6) s6;
  let s8 := set_redundant kept s7 in
  let s9 :=
    set_inc_reduce_conflicts
      (inc_reduce_conflicts s8 + reduceinc (opts s8)) s8 in
  let s10 :=
    upd_limits (set_reduce_conflicts
                  (conflicts (stats s9) + inc_reduce_conflicts s9)) s9 in
  let s11 := upd_limits (set_reduce_resolved (conflicts (stats s10))) s10 in
  Some (upd_limits (set_reduce_fixed (fixed_count (stats s11))) s11).

Definition reduce (s : State) : option State :=
  s4 ← reduce_mark s; reduce_sweep s4.

(** ** The search loop *)

Definition decide (fuel : nat) (s : State) : option State :=
  let s1 := set_level (S (level s)) s in
  let s2 := upd_stats (fun st => set_decisions (decisions st + 1) st) s1 in
  '(idx, s3) ← next_decision_variable fuel s2;
  let dec := phases s3 idx * idx in
  let s4 := set_levels (levels s3 ++ [mkLevel dec 0]) s3 in
  assign dec None s4.

Definition iterate (s : State) : State := set_iterating false s.

(** One round of the loop of [search]: the result, once there is one, and
    the state. *)
Definition search_step (fuel : nat) (s : State) : option (Z * State) :=
  if unsat s then Some (20, s)
  else
    '(ok, s1) ← propagate fuel s;
    if negb ok then s2 ← analyze s1; Some (0, s2)
    else if iterating s1 then Some (0, iterate s1)
    else if satisfied s1 then Some (10, s1)
    else
      let '(r, s2) := restarting s1 in
      if r then s3 ← restart fuel s2; Some (0, s3)
      else if reducing s2 then s3 ← reduce s2; Some (0, s3)
      else s3 ← decide fuel s2; Some (0, s3).

Fixpoint search_loop (n fuel : nat) (s : State) : option (Z * State) :=
  match n with
  | O => None
  | S n' =>
      '(res, s1) ← search_step fuel s;
      if res =? 0 then search_loop n' fuel s1 else Some (res, s1)
  end.

Definition search (fuel : nat) (s : State) : option (Z * State) :=
  search_loop fuel fuel s.

Definition init_solving (s : State) : State :=
  let o := opts s in
  let s1 := upd_limits (set_restart_conflicts (restartint o)) s in
  let s2 := upd_limits (set_reduce_conflicts (reduceinit o)) s1 in
  let s3 := set_inc_reduce_conflicts (reduceinit o) s2 in
  set_ema
    {| learned_glue_fast := EMA_init (emagluefast o);
       learned_glue_slow := EMA_init (emaglueslow o);
       resolved_glue := EMA_init (emaresolved o);
       resolved_size := EMA_init (emaresolved o);
       ema_jump := EMA_init (emajump o) |} s3.

Definition solve (fuel : nat) (s : State) : option (Z * State) :=
  search fuel (init_solving s).

(** ** Initialisation *)

(** The static variables before [main] runs. *)
Definition State_init (o : Opts) : State :=
  {| max_var := 0; vars := fun _ => Var_init; vals := fun _ => 0;
     phases := fun _ => 0; all_literal_watches := fun _ => [];
     queue := mkQueue 0 0 0; unsat := false; level := 0%nat; levels := [];
     propagate_next := 0%nat; trail := []; clause := []; heap := ∅;
     next_ref := 0%nat; irredundant := []; redundant := [];
     iterating := false; seen_literals := []; seen_levels := [];
     conflict := None;
     stats := mkStats 0 0 0 0 0 0 0 0 0 0 0 0;
     ema := mkEmas (EMA_init 0) (EMA_init 0) (EMA_init 0) (EMA_init 0)
                   (EMA_init 0);
     limits := mkLimits 0 0 0 0; inc_reduce_conflicts := 0; opts := o |}.

(** One round of the loop of [init_vmtf_queue]: the new [prev] is [i]. *)
Definition init_vmtf_var (prev i : Z) (s : State) : State :=
  let s1 := upd_var i (set_v_prev prev) s in
  let s2 :=
    if negb (prev =? 0) then upd_var (vidx prev) (set_v_next i) s1
    else upd_queue (set_q_first i) s1 in
  let b := bumped (stats s2) + 1 in
  upd_var i (set_v_bumped b) (upd_stats (set_bumped b) s2).

Definition init_vmtf_queue (s : State) : State :=
  let '(prev, s1) :=
    fold_left (fun '(prev, st) i => (i, init_vmtf_var prev i st))
              (seqZ 1 (max_var s)) (0, s) in
  upd_queue (set_q_next prev) (upd_queue (set_q_last prev) s1).

Definition init_variables (s : State) : State :=
  let idxs := seqZ 1 (max_var s) in
  let s1 := set_vals (fold_left (fun f i => <[i := 0]> f) idxs (vals s)) s in
  let s2 :=
    set_phases (fold_left (fun f i => <[i := -1]> f) idxs (phases s1)) s1 in
  let s3 := init_vmtf_queue s2 in
  set_levels (levels s3 ++ [mkLevel 0 0]) s3.

(** ** The clause part of the DIMACS parser *)

Definition lit_less_than (a b : Z) : bool :=
  let s := Z.abs a in
  let t := Z.abs b in
  (s <? t) || ((s =? t) && (a <? b)).

(** The loop of [tautological] over the sorted clause: [None] for
    'return true', else the literals written back.  The source never
    assigns [prev] in the loop, and so does this function. *)
Fixpoint tautological_loop (prev : Z) (rest out : list Z)
  : option (list Z) :=
  match rest with
  | [] => Some out
  | lit :: rest' =>
      if lit =? - prev then None
      else tautological_loop prev rest'
             (if negb (lit =? prev) then out ++ [lit] else out)
  end.

Definition tautological (s : State) : bool * State :=
  let sorted := sort_by lit_less_than (clause s) in
  match tautological_loop 0 sorted [] with
  | None => (true, set_clause sorted s)
  | Some out => (false, set_clause out s)
  end.

(** An integer of the file after the header, as [parse_lit] reads it,
    and whether the character that ends it is 'c'.  In that case the
    comment that starts there swallows the integer: the loop of
    [parse_dimacs] leaves by 'goto COMMENT' before the integer is pushed
    or closes a clause. *)
Definition Token : Type := Z * bool.

(** A file in which no integer is directly followed by 'c'. *)
Definition plain (lits : list Z) : list Token :=
  (fun t => (t, false)) <$> lits.

(** The integers the loop keeps: [original_literals]. *)
Fixpoint pushed (tokens : list Token) : list Z :=
  match tokens with
  | [] => []
  | (t, c) :: rest => if c : bool then pushed rest else t :: pushed rest
  end.

(** The body of [parse_dimacs] after the header, over the integers of the
    file: [lit] is the last integer read and [parsed] counts the clauses;
    the parse errors are [None].  [parse_lit] checks the integer against
    [max_var] before the loop looks at the character after it. *)
Fixpoint parse_loop (tokens : list Token) (lit : Z) (parsed num : Z)
  (s : State) : option State :=
  match tokens with
  | [] =>
      _ ← check (lit =? 0);
      _ ← check (num <=? parsed);
      Some s
  | (t, c) :: rest =>
      _ ← check (Z.abs t <=? max_var s);
      if c : bool then parse_loop rest t parsed num s
      else if negb (t =? 0) then
        parse_loop rest t parsed num (set_clause (clause s ++ [t]) s)
      else
        let '(taut, s1) := tautological s in
        s2 ← (if negb taut then add_new_original_clause s1 else Some s1);
        _ ← check (parsed <? num);
        parse_loop rest t (parsed + 1) num (set_clause [] s2)
  end.

(** The DIMACS file [p cnf V num] followed by the integers [tokens]. *)
Definition parse_dimacs (o : Opts) (V num : Z) (tokens : list Token)
  : option State :=
  parse_loop tokens 0 0 num (init_variables (set_max_var V (State_init o))).

(** The line(s) [v ...] of [print_witness], without the final [0]. *)
Definition print_witness (s : State) : list Z :=
  map (fun i => if val s i <? 0 then - i else i) (seqZ 1 (max_var s)).

(** [main]: parse, solve, and report the result with the witness. *)
Definition cadical (o : Opts) (fuel : nat) (V num : Z)
  (tokens : list Token)
  : option (Z * State) :=
  s ← parse_dimacs o V num tokens;
  solve fuel s.

(** * Specification-side definitions *)

(** ** Moving averages *)

(** The update rule in the words of the specification: decrement [wait],
    and act when the decremented [wait] is zero.  It is compared with
    [EMA_update] below. *)
Definition EMA_update_stated (e : EMA) (y : float) : EMA :=
  let value' := (value e + beta e * (y - value e))%float in
  if (beta e <=? alpha e)%float then
    mkEMA value' (alpha e) (beta e) (wait e) (period e)
  else
    let wait' := wait e - 1 in
    if wait' =? 0 then
      let period' := 2 * (period e + 1) - 1 in
      let beta' := (beta e * 0x1p-1)%float in
      let beta'' := if (beta' <? alpha e)%float then alpha e else beta' in
      mkEMA value' (alpha e) beta'' period' period'
    else mkEMA value' (alpha e) (beta e) wait' (period e).

(** The state of an average after the observations [ys], oldest first. *)
Definition EMA_updates (e : EMA) (ys : list float) : EMA :=
  fold_left EMA_update ys e.

(** The double reached from 1 by [k] halvings. *)
Fixpoint half_pow (k : nat) : float :=
  match k with
  | O => 1
  | S k' => half_pow k' * 0x1p-1
  end.

(** The rational number a double stands for, if it is finite. *)
Definition double_value (x : float) : option Q :=
  match Prim2SF x with
  | S754_zero _ => Some 0%Q
  | S754_finite sg m e =>
      Some (Qred ((if sg then -1 else 1) * inject_Z (Z.pos m) * 2 ^ e)%Q)
  | _ => None
  end.

(** [n] halvings from [x] on never go up. *)
Fixpoint half_chain (n : nat) (x : float) : bool :=
  match n with
  | O => true
  | S n' => (x * 0x1p-1 <=? x)%float && half_chain n' (x * 0x1p-1)%float
  end.

(** From [x] on, [n] halvings stand for [2^-k], [2^-(k+1)], ... *)
Fixpoint value_chain (n : nat) (k : Z) (x : float) : bool :=
  match n with
  | O => true
  | S n' =>
      match double_value x with
      | Some q => (Qnum q =? 1) && (Z.pos (Qden q) =? 2 ^ k)
      | None => false
      end && value_chain n' (k + 1) (x * 0x1p-1)%float
  end.

(** ** Restart policy *)

(** A state in which the fast glue average equals [(1 + margin)] times the
    slow one: the double 4.8 against 1.2 * 4, a product that is exact. *)
Definition restart_boundary_state : State :=
  let s := State_init default_opts in
  let s := upd_stats (set_conflicts 11) s in
  let s := upd_limits (set_restart_conflicts 10) s in
  upd_ema (fun e =>
    set_learned_glue_fast
      (mkEMA 0x1.3333333333333p+2 0x1.eb851eb851eb8p-6 0x1.eb851eb851eb8p-6
         0 0)
      (set_learned_glue_slow
         (mkEMA 4 0x1.4f8b588e368f1p-17 0x1p-6 20 63) e)) s.

(** A state in which the product [1.2 * 3] is rounded down to the fast
    average, the double below 3.6. *)
Definition restart_rounded_state : State :=
  upd_ema (fun e =>
    set_learned_glue_fast
      (mkEMA 0x1.cccccccccccccp+1 0x1.eb851eb851eb8p-6 0x1.eb851eb851eb8p-6
         0 0)
      (set_learned_glue_slow
         (mkEMA 3 0x1.4f8b588e368f1p-17 0x1p-6 20 63) e))
    restart_boundary_state.

(** A state in which the restart is forced and delayed: level 1 is below
    half of the jump average 4. *)
Definition restart_delayed_state : State :=
  let s := set_level 1 (set_levels [mkLevel 0 0; mkLevel 1 0]
             restart_boundary_state) in
  upd_ema (set_ema_jump (mkEMA 4 0x1.0c6f7a0b5ed8dp-20 0x1p-6 20 63)) s.

(** The delay rule of [restarting]. *)
Definition restart_delay (s : State) : Prop :=
  restartdelay (opts s) = true /\
  (double_of_Z (Z.of_nat (level s))
   <? restartdelaylim (opts s) * value (ema_jump (ema s)))%float = true.

(** ** Reduce policy *)

(** The candidates for deletion in the words of the specification: in
    dynamic mode both glue and size are below their averages. *)
Definition reduce_candidate_stated (s : State) (c : Clause) : bool :=
  negb (c_reason c) && negb (c_garbage c) && (2 <? c_glue c)
  && (3 <? c_size c)%nat && (c_resolved c <=? reduce_resolved (limits s))
  && (negb (reducedynamic (opts s))
      || ((double_of_Z (c_glue c) <? value (resolved_glue (ema s)))%float
          && (double_of_Z (Z.of_nat (c_size c))
              <? value (resolved_size (ema s)))%float)).

(** The candidates of the code, as a property. *)
Definition is_candidate (s : State) (c : Clause) : Prop :=
  c_reason c = false /\ c_garbage c = false /\ 2 < c_glue c /\
  (3 < c_size c)%nat /\ c_resolved c <= reduce_resolved (limits s) /\
  (reducedynamic (opts s) = true ->
   ~ ((double_of_Z (c_glue c) <? value (resolved_glue (ema s)))%float
        = true /\
      (double_of_Z (Z.of_nat (c_size c))
       <? value (resolved_size (ema s)))%float = true)).

(** The order of the sort: [resolved] ascending, then [glue] descending,
    then [size] descending. *)
Definition reduce_le (c d : Clause) : Prop :=
  c_resolved c < c_resolved d \/
  (c_resolved c = c_resolved d /\
   (c_glue d < c_glue c \/
    (c_glue c = c_glue d /\ (c_size d <= c_size c)%nat))).

(** The vector [work] of [mark_redundant_clauses]. *)
Definition work_of (s : State) : list (nat * Clause) :=
  omap (fun id => cl ← heap s !! id;
                  if reduce_candidate s cl then Some (id, cl) else None)
       (redundant s).

(** A redundant clause of the given glue, resolved index and literals. *)
Definition learned (glue resolved : Z) (lits : list Z) : Clause :=
  mkClause true false false glue resolved lits.

(** A clause store for the reduce examples: five learned clauses. *)
Definition reduce_example_state : State :=
  let s := set_max_var 6 (State_init default_opts) in
  let h : gmap nat Clause :=
    <[0%nat := learned 4 7 [1; 2; 3; 4]]>
    (<[1%nat := learned 5 3 [1; -2; 3; -4; 5]]>
    (<[2%nat := learned 3 3 [-1; 2; 3; 4; 6]]>
    (<[3%nat := learned 5 3 [1; 2; -3; 5]]>
    (<[4%nat := learned 2 1 [1; 2; 3; -6]]> ∅)))) in
  let s := set_redundant [0; 1; 2; 3; 4]%nat (set_next_ref 5 (set_heap h s)) in
  upd_limits (set_reduce_resolved 10) s.

Definition reduce_example_marked : State :=
  default reduce_example_state (mark_redundant_clauses reduce_example_state).

(** ** The clause normalisation of the parser *)

Definition clause_state (lits : list Z) : State :=
  set_clause lits (State_init default_opts).

(** Whether the clause behind a pointer carries the garbage flag. *)
Definition is_garbage (s : State) (c : nat) : bool :=
  match heap s !! c with Some cl => c_garbage cl | None => false end.

(** The watches of a list whose clause is not garbage, in their order. *)
Definition live_watches (s : State) (ws : Watches) : Watches :=
  filter (fun w => is_garbage s (w_clause w) = false) ws.

(** The state after parsing the unit [1] and the clauses [1 2 3] and
    [-1 2 3]: variable 1 is fixed, and the second clause, which is not
    satisfied, is watched by [-1]. *)
Definition flush_example_state : State :=
  default (State_init default_opts)
          (parse_dimacs default_opts 3 3
             (plain [1; 0; 1; 2; 3; 0; -1; 2; 3; 0])).

Definition flush_example_reduced : State :=
  default flush_example_state (reduce flush_example_state).

(** ** Trail reuse *)




(** ** Propagation: a visit of a long clause *)






(** ** Propagation at a fixpoint *)

(** A clause is unit under the assignment: one of its literals is
    unassigned and every other literal is false. *)
Definition unit_under (s : State) (c : Clause) : Prop :=
  exists u, u ∈ literals c /\ val s u = 0 /\
            forall x, x ∈ literals c -> x = u \/ val s x < 0.

(** The file [p cnf 2 2 / 1 1 2 0 / -2 0], parsed and ready to solve. *)
Definition missed_unit_state : State :=
  default (State_init default_opts)
          (init_solving
             <$> parse_dimacs default_opts 2 2 (plain [1; 1; 2; 0; -2; 0])).

Definition missed_unit_propagated : State :=
  default missed_unit_state (snd <$> propagate 10 missed_unit_state).


(** The clauses that a list of integers holds: [cur] holds the literals
    read since the last [0].  The clauses of a DIMACS file are those of the
    integers the parser keeps, [pushed tokens]. *)
Fixpoint dimacs_clauses (cur : list Z) (tokens : list Z) : list (list Z) :=
  match tokens with
  | [] => []
  | t :: rest =>
      if t =? 0 then cur :: dimacs_clauses [] rest
      else dimacs_clauses (cur ++ [t]) rest
  end.

(** ** A satisfiable formula *)

(** The formula [(1 or 2) and (-1 or 3) and (-2 or -3) and (-3)] over
    three variables, and the state in which [cadical] answers SAT. *)
Definition sat_example_tokens : list Z :=
  [1; 2; 0; -1; 3; 0; -2; -3; 0; -3; 0].

Definition sat_example_state : State :=
  default (State_init default_opts)
          (snd <$> cadical default_opts 50 3 4 (plain sat_example_tokens)).

(** ** A conflict *)

(** The clauses [3 2 4], [3 1 4] and [-2 -1 4] after the decisions [-4]
    and [-3]: the second decision implies 2 and 1, and the third clause is
    the conflict. *)
Definition conflict_example_state : State :=
  let s := default (State_init default_opts)
             (init_solving
                <$> parse_dimacs default_opts 4 3
                      (plain [3; 2; 4; 0; 3; 1; 4; 0; -2; -1; 4; 0])) in
  let s := default s (decide 10 s) in
  let s := default s (snd <$> propagate 10 s) in
  let s := default s (decide 10 s) in
  default s (snd <$> propagate 10 s).

Definition conflict_example_analyzed : State :=
  default conflict_example_state (analyze conflict_example_state).
(** * Solver invariants *)

(** The part of a clause the invariants speak about. *)
Record CClause : Type := mkCC {
  cc_lits : list Z;
  cc_red : bool;
  cc_garb : bool
}.

Definition cview (c : Clause) : CClause :=
  mkCC (literals c) (c_redundant c) (c_garbage c).

(** The part of the solver state the invariants speak about: heuristic
    data (queue, time stamps, marks, averages, limits, counters) is left
    out, so that a step that only touches those keeps every invariant. *)
Record Core : Type := mkCore {
  k_max : Z;
  k_vals : Z -> Z;
  k_ph : Z -> Z;
  k_lv : Z -> nat;
  k_trail : list Z;
  k_pn : nat;
  k_level : nat;
  k_decs : list Z;
  k_W : Z -> list Watch;
  k_heap : gmap nat CClause;
  k_nref : nat;
  k_unsat : bool;
  k_conf : bool
}.

Definition core (s : State) : Core :=
  {| k_max := max_var s; k_vals := vals s; k_ph := phases s;
     k_lv := fun idx => v_level (vars s idx); k_trail := trail s;
     k_pn := propagate_next s; k_level := level s;
     k_decs := decision <$> levels s; k_W := all_literal_watches s;
     k_heap := cview <$> heap s; k_nref := next_ref s; k_unsat := unsat s;
     k_conf := has_conflict s |}.

(** [val] and the level of a literal, on the core. *)
Definition kval (k : Core) (l : Z) : Z :=
  let res := k_vals k (Z.abs l) in if l <? 0 then - res else res.

Definition llv (k : Core) (l : Z) : nat := k_lv k (Z.abs l).

Definition in_range (k : Core) (l : Z) : Prop :=
  l <> 0 /\ Z.abs l <= k_max k.

(** The trail holds each assigned variable once, with its value. *)
Record trail_ok (k : Core) : Prop := {
  tr_nodup : NoDup (Z.abs <$> k_trail k);
  tr_lit : forall l, l ∈ k_trail k ->
           in_range k l /\ k_vals k (Z.abs l) = sign l;
  tr_val : forall idx, k_vals k idx <> 0 ->
           exists l, l ∈ k_trail k /\ Z.abs l = idx;
  tr_ph : forall idx, 1 <= idx <= k_max k -> k_ph k idx = 1 \/ k_ph k idx = -1
}.

(** The trail is grouped by decision level; the group of level [n >= 1]
    starts with the decision of that level; the literals not yet
    propagated are of the current level. *)
Record levels_ok (k : Core) : Prop := {
  lv_len : length (k_decs k) = S (k_level k);
  lv_le : forall l, l ∈ k_trail k -> (llv k l <= k_level k)%nat;
  lv_dec : forall n d, (1 <= n)%nat -> k_decs k !! n = Some d ->
           llv k d = n /\
           exists pre post, k_trail k = pre ++ d :: post /\
             (forall l, l ∈ pre -> (llv k l < n)%nat) /\
             (forall l, l ∈ post -> (n <= llv k l)%nat);
  lv_unprop : forall i l, (k_pn k <= i)%nat -> k_trail k !! i = Some l ->
              llv k l = k_level k;
  lv_pn : (k_pn k <= length (k_trail k))%nat
}.

(** How often [l] is one of the two watched literals of a clause, and how
    many watches of a list belong to the clause [id]. *)
Definition pcount (l : Z) (lits : list Z) : nat :=
  length (filter (fun x => x = l) (take 2 lits)).

Definition wcount (ws : list Watch) (id : nat) : nat :=
  length (filter (fun w => w_clause w = id) ws).

(** A literal of the clause is true at the root level. *)
Definition root_sat (k : Core) (lits : list Z) : Prop :=
  exists t, t ∈ lits /\ t ∈ k_trail k /\ llv k t = 0%nat.

(** The literal is on the trail below [propagate_next]. *)
Definition propagated (k : Core) (l : Z) : Prop :=
  exists j, (j < k_pn k)%nat /\ k_trail k !! j = Some l.

(** Watches point to live clauses and carry their size; clauses have two
    literals or more; each watched slot of a clause has its watch, unless
    the clause is satisfied at the root level. *)
Record watches_ok (k : Core) : Prop := {
  w_wf : forall l w, w ∈ k_W k l ->
         exists c, k_heap k !! w_clause w = Some c /\
                   w_size w = length (cc_lits c) /\
                   l ∈ cc_lits c /\ blit w ∈ cc_lits c;
  w_cl : forall id c, k_heap k !! id = Some c ->
         (2 <= length (cc_lits c))%nat /\ cc_garb c = false /\
         forall x, x ∈ cc_lits c -> in_range k x;
  w_pres : forall id c l, k_heap k !! id = Some c ->
           (pcount l (cc_lits c) <= wcount (k_W k l) id)%nat \/
           root_sat k (cc_lits c);
  w_fresh : forall id, (k_nref k <= id)%nat -> k_heap k !! id = None
}.

(** The clause has a true literal that was assigned no later than the
    level of [l]. *)
Definition Jwit (k : Core) (c : CClause) (l : Z) : Prop :=
  exists t, t ∈ cc_lits c /\ t ∈ k_trail k /\ (llv k t <= llv k l)%nat.

(** The invariant of the watches: a clause with a watched literal that is
    false and propagated has a true literal of no higher level, unless the
    watch is exempt by [ex]. *)
Definition J (ex : nat -> CClause -> Z -> Prop) (k : Core) : Prop :=
  forall id c i l,
    k_heap k !! id = Some c -> (i < 2)%nat -> cc_lits c !! i = Some l ->
    propagated k (- l) -> ex id c l \/ Jwit k c l.

Record CInvX (ex : nat -> CClause -> Z -> Prop) (k : Core) : Prop := {
  ci_trail : trail_ok k;
  ci_levels : levels_ok k;
  ci_watches : watches_ok k;
  ci_J : J ex k
}.

Definition ex_none : nat -> CClause -> Z -> Prop := fun _ _ _ => False.

(** While a conflict waits for [analyze], the watches of the current
    level are exempt. *)
Definition ex_conf (k : Core) : nat -> CClause -> Z -> Prop :=
  fun _ _ l => k_conf k = true /\ llv k l = k_level k.

(** Inside the loop over the watches of [- lit]: the watches not yet
    visited are [rest]. *)
Definition ex_loop (lit : Z) (rest : list Watch) (conf : bool)
  : nat -> CClause -> Z -> Prop :=
  fun id c l =>
    l = - lit /\
    (conf = true \/ (pcount l (cc_lits c) <= wcount rest id)%nat).

(** Every original clause is satisfied at the root level or still stored
    as an irredundant clause (up to the order of its literals). *)
Definition orig_ok (origs : list (list Z)) (k : Core) : Prop :=
  forall cl, cl ∈ origs ->
    root_sat k cl \/
    exists id c, k_heap k !! id = Some c /\ cc_red c = false /\
                 forall x, x ∈ cc_lits c -> x ∈ cl.

(** The links of the VMTF queue are variable indices or zero: never
    negative.  [decide] reads [phases] at the index the queue gives. *)
Definition queue_ok (s : State) : Prop :=
  (0 <= q_first (queue s) /\ 0 <= q_last (queue s) /\
   0 <= q_next (queue s)) /\
  forall idx, 0 <= v_prev (vars s idx) /\ 0 <= v_next (vars s idx).

(** The invariant of the solver between two rounds of the search loop and
    between two clauses of the parser: once [unsat] is set nothing more is
    promised. *)
Definition Inv (V : Z) (origs : list (list Z)) (s : State) : Prop :=
  queue_ok s /\
  (unsat s = false ->
   CInvX ex_none (core s) /\ has_conflict s = false /\ max_var s = V /\
   orig_ok origs (core s)).

(** The invariant of the parser: nothing is propagated yet and every
    assignment is at the root level. *)
Definition PInv (V : Z) (origs : list (list Z)) (s : State) : Prop :=
  Inv V origs s /\ max_var s = V /\
  (unsat s = false -> level s = 0%nat /\ propagate_next s = 0%nat).

(** ** What [analyze] expects of the state at a conflict *)

(** The decision level of the variable of a literal. *)
Definition lvl (s : State) (l : Z) : nat := v_level (var s l).

(** The reason of the literal [u] at position [p] of the trail, when it
    has one and is not of the root level, is a stored clause whose other
    literals are false and were assigned before [u]. *)
Definition reason_ready (s : State) (p : nat) (u : Z) : bool :=
  match v_reason (var s u) with
  | None => true
  | Some r =>
      (lvl s u =? 0)%nat ||
      match heap s !! r with
      | None => false
      | Some c =>
          forallb (fun x => (Z.abs x =? Z.abs u)
                            || existsb (Z.eqb (- x)) (take p (trail s)))
                  (literals c)
      end
  end.

(** The conflict is a stored clause whose literals are all false, one of
    them of the current level. *)
Definition conflict_ready (s : State) : bool :=
  match conflict s with
  | None => false
  | Some cf =>
      match heap s !! cf with
      | None => false
      | Some c =>
          forallb (fun x => existsb (Z.eqb (- x)) (trail s)) (literals c)
          && existsb (fun x => (lvl s x =? level s)%nat) (literals c)
      end
  end.

Fixpoint nondecreasing (l : list nat) : bool :=
  match l with
  | [] => true
  | a :: tl =>
      match tl with
      | [] => true
      | b :: _ => (a <=? b)%nat && nondecreasing tl
      end
  end.

(** The state at a conflict, as the search loop hands it to [analyze]:
    the trail holds every variable once, its levels do not fall and stay
    below the current one, no mark of an earlier analysis is left, and the
    reasons and the conflict are as above. *)
Definition analyze_ready (s : State) : bool :=
  bool_decide (NoDup (Z.abs <$> trail s))
  && nondecreasing (lvl s <$> trail s)
  && forallb (fun t => (lvl s t <=? level s)%nat) (trail s)
  && forallb (fun t => negb (v_seen (var s t))) (trail s)
  && forallb (fun lv => l_seen lv =? 0) (levels s)
  && forallb (fun '(p, u) => reason_ready s p u) (imap pair (trail s))
  && conflict_ready s.

(** The number of marked literals of the current level on the trail below
    position [i]: the literals still to resolve. *)
Definition open_count (s : State) (i : nat) : nat :=
  length (filter (fun t => v_seen (var s t) = true /\ lvl s t = level s)
                 (take i (trail s))).

(** [analyze_ready], as propositions. *)
Record ARdy (s : State) : Prop := {
  ar_nodup : NoDup (Z.abs <$> trail s);
  ar_mono : forall p q t u, (p <= q)%nat ->
            trail s !! p = Some t -> trail s !! q = Some u ->
            (lvl s t <= lvl s u)%nat;
  ar_le : forall t, t ∈ trail s -> (lvl s t <= level s)%nat;
  ar_unseen : forall t, t ∈ trail s -> v_seen (var s t) = false;
  ar_lseen : forall lv, lv ∈ levels s -> l_seen lv = 0;
  ar_reason : forall p u r, trail s !! p = Some u ->
              v_reason (var s u) = Some r -> lvl s u <> 0%nat ->
              exists c, heap s !! r = Some c /\
                forall x, x ∈ literals c ->
                  Z.abs x = Z.abs u \/ - x ∈ take p (trail s);
  ar_conflict : exists cf c, conflict s = Some cf /\ heap s !! cf = Some c /\
                (forall x, x ∈ literals c -> - x ∈ trail s) /\
                exists x, x ∈ literals c /\ lvl s x = level s
}.

(** The invariant of the loop of [analyze], relative to the state [b] the
    loop starts in: the marked literals are those of [seen_literals], the
    clause holds those of them below the current level, and [seen_levels]
    lists their levels, each once. *)
Record AInv (b s : State) : Prop := {
  ai_trail : trail s = trail b;
  ai_level : level s = level b;
  ai_heap : heap s = heap b;
  ai_vals : vals s = vals b;
  ai_lvl : forall idx, v_level (vars s idx) = v_level (vars b idx);
  ai_reason : forall idx, v_reason (vars s idx) = v_reason (vars b idx);
  ai_seen : forall x, x ∈ seen_literals s ->
            v_seen (var s x) = true /\ - x ∈ trail b /\ lvl b x <> 0%nat /\
            val b x < 0;
  ai_marked : forall t, t ∈ trail b -> v_seen (var s t) = true ->
              - t ∈ seen_literals s;
  ai_clause : clause s
              = filter (fun x => (lvl b x < level b)%nat) (seen_literals s);
  ai_sl_nodup : NoDup (seen_levels s);
  ai_sl : forall l, l ∈ seen_levels s <->
                    exists x, x ∈ seen_literals s /\ lvl b x = l;
  ai_cnt : forall l lv, levels s !! l = Some lv ->
           0 <= l_seen lv /\ (l_seen lv = 0 <-> l ∉ seen_levels s);
  ai_nref : next_ref s = next_ref b;
  ai_red : redundant s = redundant b
}.

(** ** The state between two analyses *)

(** A watch of cached size 2 in the list of [l] belongs to the clause
    made of [l] and its blocking literal. *)
Definition bin_ok (h : gmap nat Clause) (l : Z) (w : Watch) : Prop :=
  w_size w = 2%nat -> forall c, h !! w_clause w = Some c ->
    literals c = [l; blit w] \/ literals c = [blit w; l].

(** What the search loop keeps true of the marks, the reasons and the
    watches of binary clauses, besides [CInvX]: no variable is marked and
    no level counts a marked literal; the reason of a literal above the
    root level is a stored clause that holds the literal, and whose other
    literals are false and earlier on the trail; the watches of cached
    size 2 are as above. *)
Record RI (s : State) : Prop := {
  ri_unseen : forall idx, v_seen (vars s idx) = false;
  ri_lseen : forall lv, lv ∈ levels s -> l_seen lv = 0;
  ri_reason : forall p u r, trail s !! p = Some u ->
              v_reason (var s u) = Some r -> lvl s u <> 0%nat ->
              exists c, heap s !! r = Some c /\ u ∈ literals c /\
                forall x, x ∈ literals c ->
                  x = u \/ - x ∈ take p (trail s);
  ri_bin : forall l w, w ∈ watches s l -> bin_ok (heap s) l w
}.

(** A conflict is a stored clause whose literals are false, one of them
    of the current level. *)
Definition CRdy (s : State) : Prop :=
  forall cf, conflict s = Some cf ->
    exists c, heap s !! cf = Some c /\
      (forall x, x ∈ literals c -> - x ∈ trail s) /\
      exists x, x ∈ literals c /\ lvl s x = level s.

(** ** Models *)

(** A literal, a clause and a list of clauses under an assignment of
    truth values to the variables. *)
Definition lit_true (M : Z -> bool) (l : Z) : Prop :=
  if l <? 0 then M (- l) = false else M l = true.

Definition clause_true (M : Z -> bool) (cl : list Z) : Prop :=
  exists l, l ∈ cl /\ lit_true M l.

Definition model_of (M : Z -> bool) (cls : list (list Z)) : Prop :=
  forall cl, cl ∈ cls -> clause_true M cl.

(** Every stored clause and every literal assigned at the root level is
    true in every model of the clauses [origs]. *)
Record Ent (origs : list (list Z)) (s : State) : Prop := {
  en_heap : forall M, model_of M origs ->
            forall id c, heap s !! id = Some c -> clause_true M (literals c);
  en_root : forall M, model_of M origs ->
            forall t, t ∈ trail s -> lvl s t = 0%nat -> lit_true M t
}.

(** The invariant of a run: [Inv], and while [unsat] is unset the marks,
    reasons and binary watches are as [RI] says and what the solver holds
    follows from the clauses of the file; once [unsat] is set these
    clauses have no model. *)
Definition FInv (V : Z) (origs : list (list Z)) (s : State) : Prop :=
  Inv V origs s /\
  (unsat s = false -> RI s /\ Ent origs s) /\
  (unsat s = true -> forall M, ~ model_of M origs).

(** The part of [FInv] that the parser establishes clause by clause. *)
Definition Sound (origs : list (list Z)) (s : State) : Prop :=
  (unsat s = false -> RI s /\ Ent origs s) /\
  (unsat s = true -> forall M, ~ model_of M origs).
(** ** Steps on the core *)

(** [assign], on the core. *)
Definition K_assign (l : Z) (k : Core) : Core :=
  {| k_max := k_max k; k_vals := <[Z.abs l := sign l]> (k_vals k);
     k_ph := <[Z.abs l := sign l]> (k_ph k);
     k_lv := <[Z.abs l := k_level k]> (k_lv k);
     k_trail := k_trail k ++ [l]; k_pn := k_pn k; k_level := k_level k;
     k_decs := k_decs k; k_W := k_W k; k_heap := k_heap k;
     k_nref := k_nref k; k_unsat := k_unsat k; k_conf := k_conf k |}.

(** [backtrack] to a lower level, on the core: the literals above the
    target level leave the trail and lose their values. *)
Definition K_backtrack (t : nat) (k : Core) : Core :=
  let tr := filter (fun l => (llv k l <= t)%nat) (k_trail k) in
  {| k_max := k_max k;
     k_vals := fun idx => if (t <? k_lv k idx)%nat then 0 else k_vals k idx;
     k_ph := k_ph k; k_lv := k_lv k; k_trail := tr;
     k_pn := if (length tr <? k_pn k)%nat then length tr else k_pn k;
     k_level := t; k_decs := take (S t) (k_decs k); k_W := k_W k;
     k_heap := k_heap k; k_nref := k_nref k; k_unsat := k_unsat k;
     k_conf := k_conf k |}.

(** Writing a watch list, a clause, the conflict flag and
    [propagate_next], on the core. *)
Definition K_setW (l : Z) (ws : list Watch) (k : Core) : Core :=
  {| k_max := k_max k; k_vals := k_vals k; k_ph := k_ph k; k_lv := k_lv k;
     k_trail := k_trail k; k_pn := k_pn k; k_level := k_level k;
     k_decs := k_decs k; k_W := <[l := ws]> (k_W k); k_heap := k_heap k;
     k_nref := k_nref k; k_unsat := k_unsat k; k_conf := k_conf k |}.

Definition K_put (id : nat) (c : CClause) (k : Core) : Core :=
  {| k_max := k_max k; k_vals := k_vals k; k_ph := k_ph k; k_lv := k_lv k;
     k_trail := k_trail k; k_pn := k_pn k; k_level := k_level k;
     k_decs := k_decs k; k_W := k_W k; k_heap := <[id := c]> (k_heap k);
     k_nref := k_nref k; k_unsat := k_unsat k; k_conf := k_conf k |}.

Definition K_conf (b : bool) (k : Core) : Core :=
  {| k_max := k_max k; k_vals := k_vals k; k_ph := k_ph k; k_lv := k_lv k;
     k_trail := k_trail k; k_pn := k_pn k; k_level := k_level k;
     k_decs := k_decs k; k_W := k_W k; k_heap := k_heap k;
     k_nref := k_nref k; k_unsat := k_unsat k; k_conf := b |}.

Definition K_pn (n : nat) (k : Core) : Core :=
  {| k_max := k_max k; k_vals := k_vals k; k_ph := k_ph k; k_lv := k_lv k;
     k_trail := k_trail k; k_pn := n; k_level := k_level k;
     k_decs := k_decs k; k_W := k_W k; k_heap := k_heap k;
     k_nref := k_nref k; k_unsat := k_unsat k; k_conf := k_conf k |}.

(** The invariant inside the loop of [propagate] over the watches of
    [- lit]: the watch list is [acc ++ rest], of which [rest] is still to
    visit, whatever the state holds at that index. *)
Definition LoopSt (lit : Z) (acc rest : list Watch) (s : State) : Prop :=
  CInvX (ex_loop lit rest (has_conflict s))
        (K_setW (- lit) (acc ++ rest) (core s)) /\
  lit ∈ trail s /\ llv (core s) lit = level s.

(** What a step may do to the stored clauses and to the root level
    without harm to the original clauses: keep [unsat], keep the literals
    that are true at the root level, and keep every clause, up to losing
    literals' order. *)
Definition core_le (k k' : Core) : Prop :=
  k_unsat k' = k_unsat k /\ k_max k' = k_max k /\
  (forall t, t ∈ k_trail k -> llv k t = 0%nat ->
             t ∈ k_trail k' /\ llv k' t = 0%nat) /\
  (forall id c, k_heap k !! id = Some c ->
     exists c', k_heap k' !! id = Some c' /\ cc_red c' = cc_red c /\
                forall x, x ∈ cc_lits c' -> x ∈ cc_lits c).


(** [new_clause] followed by [watch_clause], on the core: the clause
    [lits], whose first two literals are [l0] and [l1]. *)
Definition K_new (lits : list Z) (red : bool) (l0 l1 : Z) (k : Core) : Core :=
  let id := k_nref k in
  let W1 := <[l0 := k_W k l0 ++ [mkWatch l1 (length lits) id]]> (k_W k) in
  let W2 := <[l1 := W1 l1 ++ [mkWatch l0 (length lits) id]]> W1 in
  {| k_max := k_max k; k_vals := k_vals k; k_ph := k_ph k; k_lv := k_lv k;
     k_trail := k_trail k; k_pn := k_pn k; k_level := k_level k;
     k_decs := k_decs k; k_W := W2;
     k_heap := <[id := mkCC lits red false]> (k_heap k);
     k_nref := S id; k_unsat := k_unsat k; k_conf := k_conf k |}.

(** While a clause waits for its first literal to be assigned, it is
    exempt. *)
Definition ex_new (n : nat) (ex : nat -> CClause -> Z -> Prop)
  : nat -> CClause -> Z -> Prop :=
  fun id c l => id = n \/ ex id c l.

(** Opening a decision level, on the core. *)
Definition K_push (dec : Z) (k : Core) : Core :=
  {| k_max := k_max k; k_vals := k_vals k; k_ph := k_ph k; k_lv := k_lv k;
     k_trail := k_trail k; k_pn := k_pn k; k_level := S (k_level k);
     k_decs := k_decs k ++ [dec]; k_W := k_W k; k_heap := k_heap k;
     k_nref := k_nref k; k_unsat := k_unsat k; k_conf := k_conf k |}.

(** [reduce], on the core.  The clauses [g] marks are deleted; a deleted
    clause was redundant or satisfied at the root level; the watch lists
    of the variables assigned at the root level are emptied, the others
    lose the watches of the deleted clauses. *)
Definition K_fixed (k : Core) (l : Z) : Prop :=
  k_vals k (Z.abs l) <> 0 /\ k_lv k (Z.abs l) = 0%nat.

Record reduced (g : nat -> bool) (k k' : Core) : Prop := {
  rd_max : k_max k' = k_max k;
  rd_vals : k_vals k' = k_vals k;
  rd_ph : k_ph k' = k_ph k;
  rd_lv : k_lv k' = k_lv k;
  rd_trail : k_trail k' = k_trail k;
  rd_pn : k_pn k' = k_pn k;
  rd_level : k_level k' = k_level k;
  rd_decs : k_decs k' = k_decs k;
  rd_nref : k_nref k' = k_nref k;
  rd_unsat : k_unsat k' = k_unsat k;
  rd_conf : k_conf k' = k_conf k;
  rd_keep : forall id, g id = false -> k_heap k' !! id = k_heap k !! id;
  rd_drop : forall id, g id = true -> k_heap k' !! id = None;
  rd_why : forall id c, k_heap k !! id = Some c -> g id = true ->
           cc_red c = true \/ root_sat k (cc_lits c);
  rd_fixed : forall l, in_range k l -> K_fixed k l -> k_W k' l = [];
  rd_live : forall l, in_range k l -> ~ K_fixed k l ->
            k_W k' l = filter (fun w => g (w_clause w) = false) (k_W k l);
  rd_out : forall l, ~ in_range k l -> k_W k' l = k_W k l
}.

(** What the marking part of [reduce] does to the clause store: flags
    change, and a clause that becomes garbage is on one of the lists [P]
    and is redundant or satisfied at the root level. *)
Definition marks_ok (s : State) (P : nat -> Prop) (h h' : gmap nat Clause)
  : Prop :=
  forall id,
    match h !! id, h' !! id with
    | Some c, Some c' =>
        literals c' = literals c /\ c_redundant c' = c_redundant c /\
        (c_garbage c = true -> c_garbage c' = true) /\
        (c_garbage c' = true ->
         c_garbage c = true \/
         (P id /\ (c_redundant c = true \/
                   clause_root_level_satisfied s c = true)))
    | None, None => True
    | _, _ => False
    end.

(** The lists [reduce] marks and collects. *)
Definition reduce_listed (s : State) (id : nat) : Prop :=
  id ∈ redundant s \/
  ((reduce_fixed (limits s) <? fixed_count (stats s)) = true /\
   id ∈ irredundant s).

(** A step that only writes the clause store, and no literals. *)
Definition heap_step (f : State -> option State) : Prop :=
  forall s s', f s = Some s' -> exists h, s' = set_heap h s.

(** A marking step: it writes the clause store only. *)
Definition mark_step (s0 : State) (P : nat -> Prop)
  (f : State -> option State) : Prop :=
  forall s s', f s = Some s' -> vals s = vals s0 -> vars s = vars s0 ->
    exists h, s' = set_heap h s /\ marks_ok s0 P (heap s) h.

(** A step that keeps the assignment, the trail, the clauses and, of
    every variable, the level and the reason: the moves in the queue. *)
Definition queue_step (s s' : State) : Prop :=
  heap s' = heap s /\ vals s' = vals s /\ trail s' = trail s /\
  level s' = level s /\ redundant s' = redundant s /\
  next_ref s' = next_ref s /\ conflict s' = conflict s /\
  forall idx, v_level (vars s' idx) = v_level (vars s idx) /\
              v_reason (vars s' idx) = v_reason (vars s idx).

(** A step that only reorders the literals of stored clauses, and of no
    clause of two literals. *)
Definition lits_step (s s' : State) : Prop :=
  exists h, s' = set_heap h s /\
    forall id,
      match heap s !! id, h !! id with
      | Some c, Some c' =>
          c' = set_literals (literals c') c /\
          (forall x, x ∈ literals c' <-> x ∈ literals c) /\
          (length (literals c) = 2%nat -> literals c' = literals c)
      | None, None => True
      | _, _ => False
      end.

(** What the marking part of [reduce] does to a clause flagged as a
    reason: nothing but keeping the flag ([prot_ok]); and what flagging
    does to the garbage marks: nothing ([garb_same]). *)
Definition prot_ok (h h' : gmap nat Clause) : Prop :=
  forall id c, h !! id = Some c -> c_reason c = true ->
    exists c', h' !! id = Some c' /\ c_reason c' = true /\
               c_garbage c' = c_garbage c.

Definition garb_same (h h' : gmap nat Clause) : Prop :=
  forall id c, h !! id = Some c ->
    exists c', h' !! id = Some c' /\ c_garbage c' = c_garbage c.

(** Every marked variable is the variable of a literal of
    [seen_literals]. *)
Definition seen_listed (s : State) : Prop :=
  forall idx, v_seen (vars s idx) = true ->
    exists x, x ∈ seen_literals s /\ vidx x = idx.

(** A step that writes the variables, the queue and the counters only,
    and sets no mark. *)
Definition unmark_step (s s' : State) : Prop :=
  exists vf q st,
    s' = set_stats st (set_queue q (set_vars vf s)) /\
    forall idx, v_seen (vf idx) = true -> v_seen (vars s idx) = true.

(** * More of the program *)

(** ** The rounds of the search loop *)

(** The state at the head of the loop of [search] after [n] rounds, none
    of which gave a result. *)
Fixpoint search_rounds (n fuel : nat) (s : State) : option State :=
  match n with
  | O => Some s
  | S n' =>
      '(res, s1) ← search_step fuel s;
      if res =? 0 then search_rounds n' fuel s1 else None
  end.

(** The state of the solver [n] rounds into the search, on the DIMACS
    file [p cnf V num] followed by [tokens]. *)
Definition solver_state (o : Opts) (fuel : nat) (V num : Z)
  (tokens : list Token) (n : nat) : option State :=
  s0 ← parse_dimacs o V num tokens;
  search_rounds n fuel (init_solving s0).

(** ** Checking the assignment *)

(** The loop of [check_satisfying_assignment] over [original_literals],
    the integers the parser read after the header, zeros included;
    [abort ()] is [None].  The assignment is [val] or [sol], whose [vidx]
    asserts that the literal is a variable of the file. *)
Fixpoint check_satisfying_loop (s : State) (assignment : Z -> Z)
  (lits : list Z) (satisfied : bool) : option unit :=
  match lits with
  | [] => Some tt
  | lit :: rest =>
      if lit =? 0 then
        if negb satisfied then None
        else check_satisfying_loop s assignment rest false
      else if negb satisfied then
        _ ← check (vidx_ok s lit);
        if 0 <? assignment lit
        then check_satisfying_loop s assignment rest true
        else check_satisfying_loop s assignment rest satisfied
      else check_satisfying_loop s assignment rest satisfied
  end.

Definition check_satisfying_assignment (s : State) (assignment : Z -> Z)
  (original_literals : list Z) : option unit :=
  check_satisfying_loop s assignment original_literals false.

(** ** File names *)

(** [has_suffix]: strings are lists of characters; [str + k - l] is the
    string without its first [k - l] characters, and [strcmp] gives zero
    on equal strings. *)
Definition has_suffix (str suffix : list Ascii.ascii) : bool :=
  let k := length str in
  let l := length suffix in
  (l <? k)%nat && bool_decide (drop (k - l) str = suffix).

(** ** A run *)

(** The file [p cnf 4 3 / 3 2 4 0 / 3 1 4 0 / -2 -1 4 0] and the state of
    the solver [n] rounds into the search on it. *)
Definition run_example_tokens : list Z :=
  [3; 2; 4; 0; 3; 1; 4; 0; -2; -1; 4; 0].

Definition run_example (n : nat) : State :=
  default (State_init default_opts)
          (solver_state default_opts 50 4 3 (plain run_example_tokens) n).

(** The state [propagate] leaves in round [n] of this run. *)
Definition run_example_propagated (n : nat) : State :=
  default (run_example n) (snd <$> propagate 50 (run_example n)).

(** The conflict of round 2 of this run, and the state after going back
    to level 1 from it. *)
Definition run_example_backtracked : State :=
  default (run_example_propagated 2) (backtrack 1 (run_example_propagated 2)).

(** ... and the state the restart policy leaves in round [n]. *)
Definition run_example_policy (n : nat) : State :=
  snd (restarting (run_example_propagated n)).

(** [reduce] in round 3 of this run. *)
Definition run_example_reduced : State :=
  default (run_example_policy 3) (reduce (run_example_policy 3)).

(** This file, parsed. *)
Definition run_example_parsed : State :=
  default (State_init default_opts)
          (parse_dimacs default_opts 4 3 (plain run_example_tokens)).

(** ** Reading numbers *)

(** The input file: the characters still to read, as [getc] gives them,
    and the line number.  At the end of the file [getc] gives [EOF]. *)
Record Input : Type := mkInput {
  in_chars : list Z;
  in_lineno : Z
}.

Definition EOF : Z := -1.
Definition INT_MAX : Z := 2147483647.

Definition isdigit (ch : Z) : bool := (48 <=? ch) && (ch <=? 57).

Definition nextch (i : Input) : Z * Input :=
  match in_chars i with
  | [] => (EOF, i)
  | c :: rest =>
      (c, mkInput rest (if c =? 10 then in_lineno i + 1 else in_lineno i))
  end.

(** The loop [while (isdigit (ch = nextch ()))] of [parse_positive_int]
    and of [parse_lit], by recursion on the characters still to read:
    the first non-digit read, the number, and the rest of the input.
    [perr] is [None]. *)
Fixpoint read_digits (res : Z) (chars : list Z) (ln : Z)
  : option (Z * Z * Input) :=
  match chars with
  | [] => Some (EOF, res, mkInput [] ln)
  | c :: rest =>
      let ln' := if c =? 10 then ln + 1 else ln in
      if isdigit c then
        let digit := c - 48 in
        _ ← check (negb ((INT_MAX / 10 <? res)
                         || (INT_MAX - digit <? 10 * res)));
        read_digits (10 * res + digit) rest ln'
      else Some (c, res, mkInput rest ln')
  end.

Definition parse_positive_int (ch : Z) (i : Input) : option (Z * Z * Input) :=
  read_digits (ch - 48) (in_chars i) (in_lineno i).

(** [parse_lit]: the character after the literal, the literal, and the
    rest of the input. *)
Definition parse_lit (max_var : Z) (ch : Z) (i : Input)
  : option (Z * Z * Input) :=
  '(sign, ch, i) ←
    (if ch =? 45 then
       let '(ch', i') := nextch i in
       _ ← check (isdigit ch'); Some (-1, ch', i')
     else _ ← check (isdigit ch); Some (1, ch, i));
  '(ch, lit, i) ← read_digits (ch - 48) (in_chars i) (in_lineno i);
  let '(ch, i) := if ch =? 13 then nextch i else (ch, i) in
  _ ← check ((ch =? 99) || (ch =? 32) || (ch =? 9) || (ch =? 10));
  _ ← check (lit <=? max_var);
  Some (ch, lit * sign, i).

(** The number a string of digits writes in base ten, after the digits
    that gave [res]. *)
Definition digits_value (res : Z) (ds : list Z) : Z :=
  fold_left (fun r c => 10 * r + (c - 48)) ds res.

Definition white (ch : Z) : bool :=
  (ch =? 99) || (ch =? 32) || (ch =? 9) || (ch =? 10).

(** ** An unsatisfiable file *)



(** A model of the clauses of [run_example_tokens]: 3 alone is true. *)
Definition run_example_model : Z -> bool := fun x => x =? 3.

(** ** Checking learned clauses against a solution *)

(** [sol]: the value the solution file gives a literal; [solution] is the
    array the file was read into, zero for a variable it does not list. *)
Definition sol (solution : Z -> Z) (lit : Z) : Z :=
  let res := solution (vidx lit) in
  if lit <? 0 then - res else res.

(** The loop [for (i = 0; !satisfied && i < clause.size (); i++)
    satisfied = (sol (clause[i]) > 0)] of [check_clause], over the
    literals from slot [i] on; a failed assertion of [vidx] is [None]. *)
Fixpoint check_clause_loop (s : State) (solution : Z -> Z) (lits : list Z)
  (satisfied : bool) : option bool :=
  match lits with
  | [] => Some satisfied
  | lit :: rest =>
      if satisfied then Some satisfied
      else
        _ ← check (vidx_ok s lit);
        check_clause_loop s solution rest (0 <? sol solution lit)
  end.

(** [check_clause]: nothing without a solution; [abort ()] is [None]. *)
Definition check_clause (solution : option (Z -> Z)) (s : State)
  : option unit :=
  match solution with
  | None => Some tt
  | Some sl =>
      ok ← check_clause_loop s sl (clause s) false;
      if (ok : bool) then Some tt else None
  end.

(** A solution for [run_example_tokens] that leaves the variables 1 and 4
    open: 3 is true and 2 is false. *)
Definition run_example_solution : Z -> Z :=
  fun x => if x =? 3 then 1 else if x =? 2 then -1 else 0.

(** ** Integers swallowed by a comment *)




(** * Verified properties *)

(** ** The order of doubles *)

Lemma SFcompare_antisym x y :
  SFcompare y x = option_map CompOpp (SFcompare x y).
Proof.
  destruct x as [sa|sa| |sa ma ea], y as [sb|sb| |sb mb eb];
    try destruct sa; try destruct sb; try reflexivity.
  all: unfold SFcompare; rewrite (Z.compare_antisym ea eb);
    destruct (Z.compare_spec ea eb); cbn [CompOpp option_map];
    try reflexivity;
    rewrite !Pos.compare_cont_spec, (Pos.compare_antisym ma mb);
    destruct (Pos.compare ma mb); reflexivity.
Qed.

Lemma cmp_lex_trans (e1 e2 e3 : Z) (m1 m2 m3 : positive) :
  let c a b (x y : positive) :=
    match Z.compare a b with
    | Lt => Lt | Gt => Gt | Eq => Pos.compare_cont Eq x y
    end in
  c e1 e2 m1 m2 = Lt -> c e2 e3 m2 m3 <> Gt -> c e1 e3 m1 m3 = Lt.
Proof.
  cbv beta zeta. rewrite !Pos.compare_cont_spec. cbn [Pos.switch_Eq].
  destruct (Z.compare_spec e1 e2), (Z.compare_spec e2 e3),
    (Z.compare_spec e1 e3);
    try lia; try congruence; intros G1 G2; try reflexivity.
  all: destruct (Pos.compare_spec m1 m2), (Pos.compare_spec m2 m3),
       (Pos.compare_spec m1 m3); cbn in *; try lia; try congruence;
       try reflexivity.
Qed.

Lemma cmp_lex_trans_neg (e1 e2 e3 : Z) (m1 m2 m3 : positive) :
  let c a b (x y : positive) :=
    match Z.compare a b with
    | Lt => Gt | Gt => Lt | Eq => CompOpp (Pos.compare_cont Eq x y)
    end in
  c e1 e2 m1 m2 = Lt -> c e2 e3 m2 m3 <> Gt -> c e1 e3 m1 m3 = Lt.
Proof.
  cbv beta zeta. rewrite !Pos.compare_cont_spec. cbn [Pos.switch_Eq].
  destruct (Z.compare_spec e1 e2), (Z.compare_spec e2 e3),
    (Z.compare_spec e1 e3);
    try lia; try congruence; intros G1 G2; try reflexivity.
  all: destruct (Pos.compare_spec m1 m2), (Pos.compare_spec m2 m3),
       (Pos.compare_spec m1 m3); cbn in *; try lia; try congruence;
       try reflexivity.
Qed.

Lemma SFcompare_trans x y z c :
  SFcompare x y = Some Lt -> SFcompare y z = Some c -> c <> Gt ->
  SFcompare x z = Some Lt.
Proof.
  destruct x as [sa|sa| |sa ma ea], y as [sb|sb| |sb mb eb],
    z as [sc|sc| |sc mc ec];
    try destruct sa; try destruct sb; try destruct sc;
    cbn [SFcompare]; intros H1 H2 Hc; try congruence;
    try (injection H1 as H1); try (injection H2 as <-);
    try congruence; f_equal.
  - eapply cmp_lex_trans_neg; [exact H1|exact Hc].
  - eapply cmp_lex_trans; [exact H1|exact Hc].
Qed.

(** [a < b] excludes [b <= a] and [b < a], and [a <= b] excludes [b < a]. *)
Lemma ltb_leb_false (a b : float) :
  (a <? b)%float = true -> (b <=? a)%float = false.
Proof.
  rewrite ltb_spec, leb_spec. unfold SFltb, SFleb.
  rewrite (SFcompare_antisym (Prim2SF a) (Prim2SF b)).
  destruct (SFcompare (Prim2SF a) (Prim2SF b)) as [[]|]; cbn; congruence.
Qed.

Lemma ltb_ltb_false (a b : float) :
  (a <? b)%float = true -> (b <? a)%float = false.
Proof.
  rewrite !ltb_spec. unfold SFltb.
  rewrite (SFcompare_antisym (Prim2SF a) (Prim2SF b)).
  destruct (SFcompare (Prim2SF a) (Prim2SF b)) as [[]|]; cbn; congruence.
Qed.

Lemma ltb_leb_trans (a b c : float) :
  (a <? b)%float = true -> (b <=? c)%float = true -> (a <? c)%float = true.
Proof.
  rewrite !ltb_spec, leb_spec. unfold SFltb, SFleb.
  destruct (SFcompare (Prim2SF a) (Prim2SF b)) as [[]|] eqn:E1;
    try discriminate.
  destruct (SFcompare (Prim2SF b) (Prim2SF c)) as [[]|] eqn:E2;
    try discriminate;
    intros _ _; rewrite (SFcompare_trans _ _ _ _ E1 E2); congruence.
Qed.

(** ** Moving averages *)

Lemma half_chain_spec n : forall j k,
  half_chain n (half_pow j) = true -> (k < n)%nat ->
  (half_pow (S (j + k)) <=? half_pow (j + k))%float = true.
Proof.
  induction n as [|n IH]; intros j k H Hk; [lia|].
  cbn [half_chain] in H. apply andb_prop in H. destruct H as [H1 H2].
  destruct k as [|k].
  - rewrite Nat.add_0_r. exact H1.
  - replace (j + S k)%nat with (S j + k)%nat by lia.
    apply IH; [exact H2|lia].
Qed.

(** After 1075 halvings the double is zero, and stays zero. *)
Lemma half_pow_zero k : half_pow (1075 + k) = 0%float.
Proof.
  induction k as [|k IH].
  - vm_compute. reflexivity.
  - rewrite Nat.add_succ_r. cbn [half_pow]. rewrite IH.
    vm_compute. reflexivity.
Qed.

Lemma half_pow_step k : (half_pow (S k) <=? half_pow k)%float = true.
Proof.
  destruct (Nat.le_gt_cases 1075 k) as [H|H].
  - replace k with (1075 + (k - 1075))%nat by lia.
    rewrite <- Nat.add_succ_r, !half_pow_zero. reflexivity.
  - apply (half_chain_spec 1075 0 k); [vm_compute; reflexivity|exact H].
Qed.

Lemma half_pow_above (a : float) (j k : nat) :
  (j <= k)%nat -> (a <? half_pow k)%float = true ->
  (a <? half_pow j)%float = true.
Proof.
  induction 1 as [|k Hk IH]; intros Ha; [exact Ha|].
  apply IH. exact (ltb_leb_trans _ _ _ Ha (half_pow_step k)).
Qed.

Lemma value_chain_spec n : forall j k,
  value_chain n (Z.of_nat j) (half_pow j) = true -> (k < n)%nat ->
  double_value (half_pow (j + k))
  = Some (1 # Z.to_pos (2 ^ Z.of_nat (j + k)))%Q.
Proof.
  induction n as [|n IH]; intros j k H Hk; [lia|].
  cbn [value_chain] in H. apply andb_prop in H. destruct H as [H1 H2].
  destruct k as [|k].
  - rewrite Nat.add_0_r.
    destruct (double_value (half_pow j)) as [[qn qd]|]; [|discriminate].
    apply andb_prop in H1. destruct H1 as [A B].
    apply Z.eqb_eq in A, B. cbn [Qnum Qden] in A, B.
    rewrite <- B, A. reflexivity.
  - replace (j + S k)%nat with (S j + k)%nat by lia.
    apply IH; [|lia].
    replace (Z.of_nat (S j)) with (Z.of_nat j + 1) by lia. exact H2.
Qed.

(** The state of a fresh average after [n] observations, while [beta] is
    still above [alpha]: with [2^k - 1 <= n <= 2^(k+1) - 2], [beta] is
    [half_pow k], [period] is [2^k - 1] and [wait] counts down to the end
    of the window. *)
Lemma EMA_schedule_inv (a : float) (ys : list float) :
  forall k : nat,
    (a <? half_pow k)%float = true ->
    2 ^ Z.of_nat k - 1 <= Z.of_nat (length ys) <= 2 ^ Z.of_nat (S k) - 2 ->
    let e := EMA_updates (EMA_init a) ys in
    alpha e = a /\ beta e = half_pow k /\
    period e = 2 ^ Z.of_nat k - 1 /\
    wait e = 2 ^ Z.of_nat (S k) - 2 - Z.of_nat (length ys).
Proof.
  induction ys as [|y ys IH] using rev_ind; intros k Ha Hn.
  - simpl in Hn. destruct k as [|k].
    + simpl. repeat split; reflexivity.
    + exfalso. rewrite Nat2Z.inj_succ, Z.pow_succ_r in Hn by lia.
      assert (0 < 2 ^ Z.of_nat k) by (apply Z.pow_pos_nonneg; lia). lia.
  - rewrite length_app in *. simpl length in *.
    rewrite Nat2Z.inj_add in *. change (Z.of_nat 1) with 1 in *.
    unfold EMA_updates. rewrite fold_left_app. simpl.
    fold (EMA_updates (EMA_init a) ys).
    assert (Hn0 : 0 <= Z.of_nat (length ys)) by lia.
    set (n := Z.of_nat (length ys)) in *. clearbody n.
    assert (Hpk : 0 < 2 ^ Z.of_nat k) by (apply Z.pow_pos_nonneg; lia).
    assert (HSk : 2 ^ Z.of_nat (S k) = 2 * 2 ^ Z.of_nat k)
      by (rewrite Nat2Z.inj_succ, Z.pow_succ_r by lia; reflexivity).
    destruct (Z.eq_dec (n + 1) (2 ^ Z.of_nat k - 1)) as [Hstart|Hin].
    + (* the first update of the window: the transition *)
      destruct k as [|k].
      { exfalso. simpl in Hstart. lia. }
      assert (HSk' : 2 ^ Z.of_nat (S k) = 2 * 2 ^ Z.of_nat k)
        by (rewrite Nat2Z.inj_succ, Z.pow_succ_r by lia; reflexivity).
      pose proof (half_pow_above a k (S k) ltac:(lia) Ha) as Hak.
      destruct (IH k Hak) as (Hal & Hbe & Hpe & Hwa); [lia|].
      unfold EMA_update. rewrite Hal, Hbe.
      rewrite (ltb_leb_false _ _ Hak).
      replace (wait (EMA_updates (EMA_init a) ys)) with 0 by lia.
      simpl negb. cbv iota.
      change (half_pow k * 0x1p-1)%float with (half_pow (S k)).
      rewrite (ltb_ltb_false _ _ Ha).
      cbn [alpha beta period wait]. rewrite Hpe.
      repeat split; lia.
    + (* inside the window: the count-down *)
      destruct (IH k Ha) as (Hal & Hbe & Hpe & Hwa); [lia|].
      unfold EMA_update. rewrite Hal, Hbe.
      rewrite (ltb_leb_false _ _ Ha).
      destruct (wait (EMA_updates (EMA_init a) ys) =? 0) eqn:Hw.
      { exfalso. apply Z.eqb_eq in Hw. lia. }
      cbn [negb alpha beta period wait].
      repeat split; [exact Hpe | lia].
Qed.

(** C4, as stated, fails on the code: a fresh average has [wait = 0], the
    decrement gives [-1], not zero, and yet the code starts a new period;
    after that update [wait] is [1], the decrement does reach zero, and yet
    the code starts no new period.  The rule in the specification's words
    differs from the code at both inputs. *)
Lemma EMA_update_not_as_stated :
  let e0 := EMA_init 0x1.eb851eb851eb8p-6 in
  let e1 := EMA_update e0 5 in
  (wait e0 - 1 <> 0 /\ period (EMA_update e0 5) = 1 /\
   period (EMA_update_stated e0 5) = period e0) /\
  (wait e1 - 1 = 0 /\ period (EMA_update e1 5) = period e1 /\
   period (EMA_update_stated e1 5) = 3) /\
  EMA_update e0 5 <> EMA_update_stated e0 5.
Proof.
  cbv zeta. split; [|split].
  - vm_compute. repeat split; congruence.
  - vm_compute. repeat split; congruence.
  - intros H. apply (f_equal period) in H. vm_compute in H. discriminate H.
Qed.

(** C4, amended: for every update with observation [y], [value] becomes
    [value + beta * (y - value)], computed in doubles (the difference, the
    product and the sum are each rounded), and [alpha] stays; if
    [beta <= alpha] nothing further happens; otherwise a non-zero [wait]
    is decremented and nothing else changes, and a zero [wait] starts a new
    period: [period] becomes [2 * (period + 1) - 1], [wait] is set to that
    new period and [beta] is halved, clamped up to [alpha].  Consequently
    a fresh average uses [beta = 2^-k] for the [2^k] updates numbered
    [2^k .. 2^(k+1) - 1] (1 for one update, 1/2 for two, 1/4 for four, ...)
    as long as [2^-k] is above [alpha]; the halvings are exact: [half_pow k]
    is the double that stands for [2^-k], down to the smallest positive
    double [2^-1074].  Once [beta <= alpha], [beta] stays as it is. *)
Theorem EMA_update_schedule :
  (forall (e : EMA) (y : float),
     let e' := EMA_update e y in
     value e' = (value e + beta e * (y - value e))%float /\
     alpha e' = alpha e /\
     ((beta e <=? alpha e)%float = true ->
        beta e' = beta e /\ wait e' = wait e /\ period e' = period e) /\
     ((beta e <=? alpha e)%float = false -> wait e <> 0 ->
        beta e' = beta e /\ wait e' = wait e - 1 /\ period e' = period e) /\
     ((beta e <=? alpha e)%float = false -> wait e = 0 ->
        period e' = 2 * (period e + 1) - 1 /\ wait e' = period e' /\
        beta e' = (if beta e * 0x1p-1 <? alpha e then alpha e
                   else beta e * 0x1p-1)%float)) /\
  (forall (a : float) (ys : list float) (k : nat),
     (a <? half_pow k)%float = true ->
     2 ^ Z.of_nat k - 1 <= Z.of_nat (length ys) <= 2 ^ Z.of_nat (S k) - 2 ->
     beta (EMA_updates (EMA_init a) ys) = half_pow k) /\
  (forall k : nat,
     (k <= 1074)%nat ->
     double_value (half_pow k) = Some (1 # Z.to_pos (2 ^ Z.of_nat k))%Q).
Proof.
  split; [|split].
  - intros e y. unfold EMA_update.
    destruct (beta e <=? alpha e)%float eqn:Hle.
    + cbn. repeat split; try reflexivity; intros; congruence.
    + destruct (wait e =? 0) eqn:Hw; cbn.
      * apply Z.eqb_eq in Hw.
        repeat split; try reflexivity; intros; congruence.
      * apply Z.eqb_neq in Hw.
        repeat split; try reflexivity; intros; congruence.
  - intros a ys k Ha Hn.
    exact (proj1 (proj2 (EMA_schedule_inv a ys k Ha Hn))).
  - intros k Hk.
    apply (value_chain_spec 1075 0 k); [vm_compute; reflexivity|lia].
Qed.

(** The schedule at work: with [alpha = 0.03] the fourth to seventh
    updates use [beta = 1/4]. *)
Lemma EMA_update_schedule_witness :
  beta (EMA_updates (EMA_init 0x1.eb851eb851eb8p-6) [5; 3; 4; 2]%float)
  = 0x1p-2%float /\
  double_value (half_pow 2) = Some (1 # 4)%Q.
Proof.
  split.
  - apply (proj1 (proj2 EMA_update_schedule)
             0x1.eb851eb851eb8p-6%float [5; 3; 4; 2]%float 2%nat).
    + vm_compute. reflexivity.
    + simpl. lia.
  - apply (proj2 (proj2 EMA_update_schedule) 2%nat). lia.
Defined.
(** ** Sorting *)

Section Sorting.
Context {A : Type} (lt : A -> A -> bool).

Lemma sort_insert_perm x l : sort_insert lt x l ≡ₚ x :: l.
Proof.
    induction l as [|y l IH]; simpl; [reflexivity|].
    destruct (lt y x); [|reflexivity].
    rewrite IH. apply Permutation_swap.
Qed.

Lemma sort_by_perm l : sort_by lt l ≡ₚ l.
Proof.
    induction l as [|x l IH]; simpl; [reflexivity|].
    rewrite sort_insert_perm, IH. reflexivity.
Qed.

Lemma sort_by_length l : length (sort_by lt l) = length l.
Proof. apply Permutation_length, sort_by_perm. Qed.

  (** [x] does not come after [y]. *)
Definition not_after (x y : A) : Prop := lt y x = false.

Hypothesis lt_asym : forall x y, lt x y = true -> lt y x = false.
Hypothesis not_after_trans :
    forall x y z, not_after x y -> not_after y z -> not_after x z.

Lemma sort_insert_sorted x l :
    StronglySorted not_after l -> StronglySorted not_after (sort_insert lt x l).
Proof.
    induction 1 as [|y l Hs IH Hall]; simpl.
    - repeat constructor.
    - destruct (lt y x) eqn:E.
      + constructor; [exact IH|].
        rewrite sort_insert_perm. constructor; [|exact Hall].
        apply lt_asym, E.
      + constructor; [constructor; assumption|].
        constructor; [exact E|].
        revert Hall. apply List.Forall_impl.
        intros z Hz. exact (not_after_trans x y z E Hz).
Qed.

Lemma sort_by_sorted l : StronglySorted not_after (sort_by lt l).
Proof.
    induction l as [|x l IH]; simpl; [constructor|].
    apply sort_insert_sorted, IH.
Qed.

Lemma sort_by_sorted_id l :
    StronglySorted not_after l -> sort_by lt l = l.
Proof.
    induction 1 as [|x l Hs IH Hall]; simpl; [reflexivity|].
    rewrite IH. destruct Hall as [|y l' Hy Hall]; simpl; [reflexivity|].
    unfold not_after in Hy. rewrite Hy. reflexivity.
Qed.

Lemma sort_by_idem l : sort_by lt (sort_by lt l) = sort_by lt l.
Proof. apply sort_by_sorted_id, sort_by_sorted. Qed.
End Sorting.


(** ** Restart policy: [restarting] *)

(** C6, as stated, fails on the code: with the fast average equal to
    [(1 + restartmargin)] times the slow one (the double 4.8 against
    1.2 * 4, a product that is exact) the fast one does not exceed the
    limit, and [restarting] returns true.  The same happens when the
    product is rounded down to the fast average (1.2 * 3). *)
Lemma restarting_at_equality :
  let s := restart_boundary_state in
  let limit :=
    ((1 + restartmargin (opts s)) * value (learned_glue_slow (ema s)))%float in
  (fst (restarting s) = true /\
   (limit <? value (learned_glue_fast (ema s)))%float = false /\
   limit = value (learned_glue_fast (ema s)) /\
   (* the product is exact *)
   double_value (1 + restartmargin (opts s))%float
   = Some (5404319552844595 # 2 ^ 52)%Q /\
   double_value (value (learned_glue_slow (ema s))) = Some 4%Q /\
   double_value limit
   = Some (Qred ((5404319552844595 # 2 ^ 52) * 4))%Q) /\
  let s := restart_rounded_state in
  let limit :=
    ((1 + restartmargin (opts s)) * value (learned_glue_slow (ema s)))%float in
  fst (restarting s) = true /\
  (limit <? value (learned_glue_fast (ema s)))%float = false.
Proof.
  vm_compute. repeat split; reflexivity.
Qed.

(** C6, amended: [restarting] returns true exactly when restarts are
    enabled, the conflict count exceeds the restart conflict limit, the
    fast learned-glue average is not below the limit, which is the double
    product of [1 + restartmargin] and the slow average, and it is not the
    case that [restartdelay] is enabled with the decision level below
    [restartdelaylim] times the jump average, a product in doubles as
    well; it then leaves the state as it is.  In the delayed case it
    returns false, increments the delayed counter and resets the restart
    conflict limit to the conflict count plus [restartint]. *)
Theorem restarting_spec (s : State) :
  let limit :=
    ((1 + restartmargin (opts s)) * value (learned_glue_slow (ema s)))%float
  in
  let forced :=
    opt_restart (opts s) = true /\
    restart_conflicts (limits s) < conflicts (stats s) /\
    (value (learned_glue_fast (ema s)) <? limit)%float = false in
  (fst (restarting s) = true <-> forced /\ ~ restart_delay s) /\
  (fst (restarting s) = true -> snd (restarting s) = s) /\
  (forced -> restart_delay s ->
   restarting s =
     (false,
      upd_stats (fun st => set_delayed (delayed st + 1) st)
        (upd_limits (set_restart_conflicts
                       (conflicts (stats s) + restartint (opts s))) s))).
Proof.
  cbv zeta. unfold restarting, restart_delay.
  destruct (opt_restart (opts s)); cbn [negb].
  2: { cbn. intuition congruence. }
  destruct (conflicts (stats s) <=? restart_conflicts (limits s)) eqn:Hc.
  { apply Z.leb_le in Hc. cbn. intuition (try congruence; try lia). }
  apply Z.leb_gt in Hc.
  destruct (value (learned_glue_fast (ema s)) <? _)%float eqn:Hf.
  { cbn. intuition congruence. }
  destruct (restartdelay (opts s)); cbn [andb].
  2: { cbn. intuition congruence. }
  destruct (double_of_Z (Z.of_nat (level s)) <? _)%float eqn:Hd.
  - cbn. intuition congruence.
  - cbn. intuition congruence.
Qed.

(** The delayed case at work. *)
Lemma restarting_spec_witness :
  fst (restarting restart_delayed_state) = false /\
  delayed (stats (snd (restarting restart_delayed_state))) = 1 /\
  restart_conflicts (limits (snd (restarting restart_delayed_state))) = 21.
Proof.
  rewrite (proj2 (proj2 (restarting_spec restart_delayed_state))).
  - repeat split; reflexivity.
  - repeat split; vm_compute; reflexivity.
  - split; vm_compute; reflexivity.
Defined.
(** ** Reduce policy: the choice of the clauses to delete *)

Lemma reduce_candidate_iff s c :
  reduce_candidate s c = true <-> is_candidate s c.
Proof.
  unfold reduce_candidate, is_candidate.
  destruct (c_reason c); [intuition congruence|].
  destruct (c_garbage c); [intuition congruence|].
  destruct (Z.leb_spec (c_glue c) 2); [intuition (try congruence; lia)|].
  destruct (Nat.leb_spec (c_size c) 3); [intuition (try congruence; lia)|].
  destruct (Z.ltb_spec (reduce_resolved (limits s)) (c_resolved c));
    [intuition (try congruence; lia)|].
  destruct (reducedynamic (opts s)); cbn [andb];
    [|intuition (try congruence; lia)].
  destruct (double_of_Z (c_glue c) <? _)%float eqn:Hg; cbn [andb].
  2: { split; [|reflexivity]. intros _.
       repeat split; try lia; intros _ [Hlt _]; congruence. }
  destruct (double_of_Z (Z.of_nat (c_size c)) <? _)%float eqn:Hs.
  - split; [congruence|].
    intros (_ & _ & _ & _ & _ & Hn). exfalso. apply Hn; auto.
  - split; [|reflexivity]. intros _.
    repeat split; try lia; intros _ [_ Hlt]; congruence.
Qed.

Lemma reduce_less_than_false c d :
  reduce_less_than d c = false <-> reduce_le c d.
Proof.
  unfold reduce_less_than, reduce_le.
  repeat (match goal with
          | |- context [Z.ltb ?a ?b] => destruct (Z.ltb_spec a b)
          | |- context [Nat.ltb ?a ?b] => destruct (Nat.ltb_spec a b)
          end); intuition (try congruence; try lia).
Qed.

Lemma reduce_less_than_asym c d :
  reduce_less_than c d = true -> reduce_less_than d c = false.
Proof.
  unfold reduce_less_than.
  repeat (match goal with
          | |- context [Z.ltb ?a ?b] => destruct (Z.ltb_spec a b)
          | |- context [Nat.ltb ?a ?b] => destruct (Nat.ltb_spec a b)
          end); intuition (try congruence; try lia).
Qed.

Lemma reduce_le_trans c d e : reduce_le c d -> reduce_le d e -> reduce_le c e.
Proof. unfold reduce_le. intuition lia. Qed.

Lemma StronglySorted_weaken {A} (R R' : A -> A -> Prop) l :
  (forall x y, R x y -> R' x y) ->
  StronglySorted R l -> StronglySorted R' l.
Proof.
  intros HR. induction 1 as [|x l Hs IH Hall]; constructor; [exact IH|].
  revert Hall. apply List.Forall_impl. intros y. apply HR.
Qed.

Lemma collect_work_eq s ids work :
  collect_work s ids = Some work ->
  work = omap (fun id => cl ← heap s !! id;
                         if reduce_candidate s cl then Some (id, cl)
                         else None) ids.
Proof.
  revert work. induction ids as [|c ids IH]; intros work H; simpl in H.
  - inversion H. reflexivity.
  - change (omap ?f (c :: ids)) with
      (match f c with Some y => y :: omap f ids | None => omap f ids end).
    cbv beta.
    destruct (heap s !! c) as [cl|]; simpl in *; [|discriminate].
    destruct (c_redundant cl); simpl in *; [|discriminate].
    destruct (collect_work s ids) as [w|]; simpl in *; [|discriminate].
    rewrite <- (IH w eq_refl).
    destruct (reduce_candidate s cl); congruence.
Qed.

Lemma for_each_mark_garbage ids s s' :
  for_each mark_garbage ids s = Some s' ->
  forall id : nat,
    heap s' !! id =
      if bool_decide (id ∈ ids) then set_c_garbage true <$> heap s !! id
      else heap s !! id.
Proof.
  revert s. induction ids as [|c ids IH]; intros s H id; simpl in H.
  - inversion H; subst. rewrite bool_decide_eq_false_2; [reflexivity|].
    apply not_elem_of_nil.
  - destruct (mark_garbage c s) as [s1|] eqn:Hm; simpl in H; [|discriminate].
    unfold mark_garbage in Hm.
    destruct (heap s !! c) as [cl|] eqn:Hc; simpl in Hm; [|discriminate].
    inversion Hm; subst s1; clear Hm.
    rewrite (IH _ H id). cbn [heap set_heap].
    destruct (Nat.eq_dec id c) as [->|Hne].
    + rewrite lookup_insert_eq, Hc.
      rewrite (bool_decide_eq_true_2 (c ∈ c :: ids)) by (apply elem_of_cons; left; reflexivity).
      destruct (bool_decide (c ∈ ids)); reflexivity.
    + rewrite lookup_insert_ne by congruence.
      destruct (bool_decide (id ∈ ids)) eqn:Hin.
      * apply bool_decide_eq_true in Hin.
        rewrite bool_decide_eq_true_2; [reflexivity|].
        apply elem_of_cons; right; exact Hin.
      * apply bool_decide_eq_false in Hin.
        rewrite bool_decide_eq_false_2; [reflexivity|].
        rewrite elem_of_cons. intuition.
Qed.

(** C2, as stated, fails on the code: a learned clause of glue 4 and size
    4 with both averages at zero is not below the averages, so the stated
    rule does not select it, and the code does. *)
Lemma reduce_candidate_not_as_stated :
  let s := reduce_example_state in
  let c := learned 4 7 [1; 2; 3; 4] in
  reduce_candidate s c = true /\ reduce_candidate_stated s c = false.
Proof. split; reflexivity. Qed.

(** C2, amended: the redundant clauses selected as deletion candidates are
    exactly those that are not a reason, not already garbage, have glue > 2,
    size > 3, [resolved] at most the conflict count recorded by the previous
    reduce and, when [reducedynamic] is enabled, not both glue below the
    resolved-glue average and size below the resolved-size average; the
    candidates are sorted by [resolved] ascending, then glue descending,
    then size descending, and the first half (rounded down) of the sorted
    candidates is marked garbage. *)
Theorem mark_redundant_clauses_spec (s s' : State) :
  mark_redundant_clauses s = Some s' ->
  (forall c, reduce_candidate s c = true <-> is_candidate s c) /\
  exists sorted : list (nat * Clause),
    sorted ≡ₚ work_of s /\
    StronglySorted (fun x y => reduce_le (snd x) (snd y)) sorted /\
    forall id : nat,
      heap s' !! id =
        if bool_decide (id ∈ map fst (take (length sorted / 2) sorted))
        then set_c_garbage true <$> heap s !! id
        else heap s !! id.
Proof.
  intros H. split; [intros c; apply reduce_candidate_iff|].
  unfold mark_redundant_clauses in H.
  destruct (collect_work s (redundant s)) as [work|] eqn:Hw;
    simpl in H; [|discriminate].
  apply collect_work_eq in Hw. fold (work_of s) in Hw. subst work.
  exists (sort_by (fun x y => reduce_less_than (snd x) (snd y)) (work_of s)).
  split; [apply sort_by_perm|]. split.
  - eapply StronglySorted_weaken; [|apply sort_by_sorted].
    + intros x y Hxy. apply reduce_less_than_false. exact Hxy.
    + intros x y. apply reduce_less_than_asym.
    + intros x y z. unfold not_after.
      rewrite !reduce_less_than_false. apply reduce_le_trans.
  - apply for_each_mark_garbage. exact H.
Qed.

(** The rule at work on five learned clauses: the candidates are clauses
    0 to 3, sorted as 1, 3, 2, 0, and clauses 1 and 3 get marked. *)
Lemma mark_redundant_clauses_spec_witness :
  mark_redundant_clauses reduce_example_state = Some reduce_example_marked /\
  is_garbage reduce_example_marked 1 = true /\
  is_garbage reduce_example_marked 3 = true /\
  is_garbage reduce_example_marked 2 = false /\
  is_garbage reduce_example_marked 0 = false /\
  (forall c, reduce_candidate reduce_example_state c = true <->
             is_candidate reduce_example_state c).
Proof.
  assert (H : mark_redundant_clauses reduce_example_state
              = Some reduce_example_marked) by (vm_compute; reflexivity).
  split; [exact H|]. do 4 (split; [reflexivity|]).
  exact (proj1 (mark_redundant_clauses_spec _ _ H)).
Defined.

(** ** The clause normalisation of the parser: [tautological] *)

Lemma lit_less_than_asym a b :
  lit_less_than a b = true -> lit_less_than b a = false.
Proof.
  unfold lit_less_than. intros H.
  apply orb_true_iff in H. apply orb_false_iff.
  rewrite andb_true_iff, Z.ltb_lt, Z.eqb_eq, Z.ltb_lt in H.
  rewrite andb_false_iff, Z.ltb_ge, Z.eqb_neq, Z.ltb_ge. lia.
Qed.

Lemma lit_less_than_trans a b c :
  not_after lit_less_than a b -> not_after lit_less_than b c ->
  not_after lit_less_than a c.
Proof.
  unfold not_after, lit_less_than. intros H1 H2.
  apply orb_false_iff in H1, H2. apply orb_false_iff.
  rewrite andb_false_iff, Z.ltb_ge, Z.eqb_neq, Z.ltb_ge in *. lia.
Qed.

(** With [prev] stuck at zero the loop copies every non-zero literal and
    never reports a tautology. *)
Lemma tautological_loop_zero l out :
  Forall (fun x => x <> 0) l -> tautological_loop 0 l out = Some (out ++ l).
Proof.
  intros H. revert out. induction H as [|x l Hx Hl IH]; intros out; simpl.
  - rewrite app_nil_r. reflexivity.
  - change (- 0) with 0.
    destruct (Z.eqb_spec x 0) as [->|_]; [contradiction|]. cbn [negb].
    rewrite IH, <- app_assoc. reflexivity.
Qed.

(** On non-zero literals [tautological] returns false and only sorts. *)
Lemma tautological_only_sorts s :
  Forall (fun x => x <> 0) (clause s) ->
  tautological s = (false, set_clause (sort_by lit_less_than (clause s)) s).
Proof.
  intros H. unfold tautological.
  rewrite tautological_loop_zero; [reflexivity|].
  rewrite sort_by_perm. exact H.
Qed.

(** The part of C9 that holds: a second application returns false and
    changes nothing. *)
Lemma tautological_idempotent s :
  Forall (fun x => x <> 0) (clause s) ->
  fst (tautological s) = false /\
  tautological (snd (tautological s)) = (false, snd (tautological s)).
Proof.
  intros H. rewrite (tautological_only_sorts s H). split; [reflexivity|].
  cbn [snd]. rewrite tautological_only_sorts.
  - cbn [clause set_clause].
    rewrite sort_by_idem; [reflexivity|apply lit_less_than_asym|].
    intros x y z. apply lit_less_than_trans.
  - cbn [clause set_clause].
    rewrite sort_by_perm. exact H.
Qed.

(** C9: the code at the failing inputs.  The clause [1 1] comes back as
    [1 1], not free of duplicates, and the tautology [1 -1] is not
    reported: [prev] is never assigned in the loop of [tautological]. *)
Theorem tautological_keeps_duplicates :
  tautological (clause_state [1; 1])
    = (false, clause_state [1; 1]) /\
  ~ NoDup (clause (snd (tautological (clause_state [1; 1])))) /\
  tautological (clause_state [1; -1])
    = (false, clause_state [-1; 1]).
Proof.
  split; [reflexivity|]. split; [|reflexivity].
  cbn. intros H. apply list.NoDup_cons in H. destruct H as [H _].
  apply H. apply elem_of_cons. left. reflexivity.
Qed.

(** ** Reduce: the sweep of the watch lists *)

Lemma for_each_app {A} (f : A -> State -> option State) l1 l2 s :
  for_each f (l1 ++ l2) s = s1 ← for_each f l1 s; for_each f l2 s1.
Proof.
  revert s. induction l1 as [|x l1 IH]; intros s; simpl; [reflexivity|].
  destruct (f x s) as [s1|]; simpl; [apply IH|reflexivity].
Qed.

Lemma for_each_heap_step {A} (f : A -> State -> option State) l :
  (forall x, heap_step (f x)) -> heap_step (for_each f l).
Proof.
  intros Hf. induction l as [|x l IH]; intros s s' H; simpl in H.
  - inversion H; subst. exists (heap s'). destruct s'; reflexivity.
  - destruct (f x s) as [s1|] eqn:E; simpl in H; [|discriminate].
    destruct (Hf x s s1 E) as [h1 ->].
    destruct (IH _ _ H) as [h2 ->]. exists h2. reflexivity.
Qed.

Lemma flag_reason_heap_step b lit : heap_step (flag_reason b lit).
Proof.
  intros s s' H. unfold flag_reason in H.
  destruct (v_reason (var s lit)) as [r|].
  2: { inversion H; subst. exists (heap s'). destruct s'; reflexivity. }
  destruct (negb _).
  2: { inversion H; subst. exists (heap s'). destruct s'; reflexivity. }
  destruct (heap s !! r) as [cl|]; simpl in H; [|discriminate].
  destruct (check _); simpl in H; [|discriminate].
  inversion H; subst. eexists; reflexivity.
Qed.

Lemma mark_satisfied_clause_heap_step c : heap_step (mark_satisfied_clause c).
Proof.
  intros s s' H. unfold mark_satisfied_clause in H.
  destruct (heap s !! c) as [cl|]; simpl in H; [|discriminate].
  destruct (_ && _); inversion H; subst.
  - eexists; reflexivity.
  - exists (heap s'). destruct s'; reflexivity.
Qed.

Lemma mark_garbage_heap_step c : heap_step (mark_garbage c).
Proof.
  intros s s' H. unfold mark_garbage in H.
  destruct (heap s !! c) as [cl|]; simpl in H; [|discriminate].
  inversion H; subst. eexists; reflexivity.
Qed.

(** The marking part of [reduce] leaves the watches, the assignment and
    the variables alone. *)
Lemma reduce_mark_frame s sm :
  reduce_mark s = Some sm ->
  all_literal_watches sm = all_literal_watches s /\ vals sm = vals s /\
  vars sm = vars s /\ max_var sm = max_var s /\ trail sm = trail s.
Proof.
  unfold reduce_mark, protect_reasons, unprotect_reasons,
    mark_satisfied_clauses, mark_redundant_clauses.
  intros H.
  destruct (for_each (flag_reason true) _ _) as [s1|] eqn:H1;
    simpl in H; [|discriminate].
  apply for_each_heap_step in H1; [|intros x; apply flag_reason_heap_step].
  destruct H1 as [h1 ->].
  match type of H with
  | (?m ≫= _) = _ => destruct m as [s2|] eqn:H2; simpl in H; [|discriminate]
  end.
  assert (exists h2, s2 = set_heap h2
            (upd_stats (fun st => set_reduce_count (reduce_count st + 1) st) s))
    as [h2 ->].
  { destruct (_ <? _).
    - destruct (for_each mark_satisfied_clause _ _) as [sa|] eqn:Ha;
        simpl in H2; [|discriminate].
      apply for_each_heap_step in Ha;
        [|intros x; apply mark_satisfied_clause_heap_step].
      destruct Ha as [ha ->].
      apply for_each_heap_step in H2;
        [|intros x; apply mark_satisfied_clause_heap_step].
      destruct H2 as [hb ->]. eexists; reflexivity.
    - inversion H2; subst. eexists; reflexivity. }
  destruct (collect_work _ _) as [work|]; simpl in H; [|discriminate].
  match type of H with
  | (?m ≫= _) = _ => destruct m as [s3|] eqn:H3; simpl in H; [|discriminate]
  end.
  apply for_each_heap_step in H3; [|intros x; apply mark_garbage_heap_step].
  destruct H3 as [h3 ->].
  apply for_each_heap_step in H; [|intros x; apply flag_reason_heap_step].
  destruct H as [h4 ->]. repeat split; reflexivity.
Qed.

Lemma flush_list_eq s ws ws' :
  flush_list s ws = Some ws' -> ws' = live_watches s ws.
Proof.
  revert ws'. induction ws as [|w ws IH]; intros ws' H; simpl in H.
  - inversion H. reflexivity.
  - destruct (heap s !! w_clause w) as [cl|] eqn:Hc; simpl in H;
      [|discriminate].
    destruct (flush_list s ws) as [r|]; simpl in H; [|discriminate].
    specialize (IH r eq_refl). subst r. inversion H; subst ws'.
    assert (Hg : is_garbage s (w_clause w) = c_garbage cl)
      by (unfold is_garbage; rewrite Hc; reflexivity).
    unfold live_watches. rewrite filter_cons, Hg. destruct (c_garbage cl).
    + rewrite decide_False by discriminate. reflexivity.
    + rewrite decide_True by reflexivity. reflexivity.
Qed.

(** [flush_var] writes the two watch lists of its variable and nothing
    else. *)
Lemma flush_var_spec idx s s' :
  flush_var idx s = Some s' -> idx <> 0 ->
  (exists W, s' = set_all_literal_watches W s) /\
  (forall l, l <> idx -> l <> - idx -> watches s' l = watches s l) /\
  (fixed s idx <> 0 -> watches s' idx = [] /\ watches s' (- idx) = []) /\
  (fixed s idx = 0 ->
   watches s' idx = live_watches s (watches s idx) /\
   watches s' (- idx) = live_watches s (watches s (- idx))).
Proof.
  intros H Hidx. unfold flush_var in H.
  assert (Hne : idx <> - idx) by lia.
  replace (-1 * idx) with (- idx) in H by lia.
  replace (1 * idx) with idx in H by lia.
  destruct (Z.eqb_spec (fixed s idx) 0) as [Hf|Hf]; cbn [negb] in H.
  - destruct (flush_list s (watches s (- idx))) as [ws1|] eqn:H1;
      simpl in H; [|discriminate].
    match type of H with
    | (?m ≫= _) = _ => destruct m as [ws2|] eqn:H2; simpl in H; [|discriminate]
    end.
    inversion H; subst s'; clear H.
    apply flush_list_eq in H1, H2.
    unfold watches, set_watches in *. cbn in *.
    rewrite fn_lookup_insert_ne in H2 by lia.
    split; [eexists; reflexivity|]. split; [|split].
    + intros l Hl1 Hl2. rewrite !fn_lookup_insert_ne by congruence.
      reflexivity.
    + intros Hc. contradiction.
    + intros _. rewrite fn_lookup_insert.
      rewrite fn_lookup_insert_ne, fn_lookup_insert by lia.
      split; assumption.
  - inversion H; subst s'; clear H.
    unfold watches, set_watches. cbn.
    split; [eexists; reflexivity|]. split; [|split].
    + intros l Hl1 Hl2. rewrite !fn_lookup_insert_ne by congruence.
      reflexivity.
    + intros _. rewrite fn_lookup_insert_ne, !fn_lookup_insert by lia.
      split; reflexivity.
    + intros Hc. contradiction.
Qed.

Lemma flush_each_spec idxs : forall s s',
  for_each flush_var idxs s = Some s' ->
  NoDup idxs -> Forall (fun i => 0 < i) idxs ->
  (exists W, s' = set_all_literal_watches W s) /\
  (forall l, l ∉ idxs -> - l ∉ idxs -> watches s' l = watches s l) /\
  (forall idx, idx ∈ idxs ->
   (fixed s idx <> 0 -> watches s' idx = [] /\ watches s' (- idx) = []) /\
   (fixed s idx = 0 ->
    watches s' idx = live_watches s (watches s idx) /\
    watches s' (- idx) = live_watches s (watches s (- idx)))).
Proof.
  induction idxs as [|i idxs IH]; intros s s' H Hnd Hpos; simpl in H.
  - inversion H; subst. split; [|split].
    + exists (all_literal_watches s'). destruct s'; reflexivity.
    + reflexivity.
    + intros idx Hin. apply elem_of_nil in Hin. contradiction.
  - destruct (flush_var i s) as [s1|] eqn:H1; simpl in H; [|discriminate].
    apply list.NoDup_cons in Hnd. destruct Hnd as [Hni Hnd].
    apply list.Forall_cons in Hpos. destruct Hpos as [Hi Hpos].
    apply flush_var_spec in H1; [|lia].
    destruct H1 as ([W1 ->] & Hfr1 & Hfx1 & Hnf1).
    destruct (IH _ _ H Hnd Hpos) as ([W2 ->] & Hfr2 & Hsp2).
    assert (Hneg : - i ∉ idxs).
    { intros Hin. rewrite list.Forall_forall in Hpos.
      specialize (Hpos _ Hin). lia. }
    split; [eexists; reflexivity|]. split; [|].
    + intros l Hl1 Hl2. rewrite not_elem_of_cons in Hl1, Hl2.
      rewrite Hfr2 by tauto. apply Hfr1; [tauto|]. lia.
    + intros idx Hin. apply elem_of_cons in Hin.
      destruct Hin as [->|Hin].
      * rewrite !Hfr2; [tauto|assumption|rewrite Z.opp_involutive; assumption
                       |assumption|].
        intros Hin. rewrite list.Forall_forall in Hpos.
        specialize (Hpos _ Hin). lia.
      * assert (Hidx : 0 < idx)
          by (rewrite list.Forall_forall in Hpos; exact (Hpos _ Hin)).
        destruct (Hsp2 idx Hin) as [Hfx2 Hnf2].
        change (fixed (set_all_literal_watches W1 s) idx) with (fixed s idx)
          in *.
        change (live_watches (set_all_literal_watches W1 s))
          with (live_watches s) in *.
        assert (Hne1 : idx <> i) by (intros ->; contradiction).
        rewrite !Hfr1 in Hnf2 by lia. tauto.
Qed.

Lemma collect_list_watches ids : forall s kept s',
  collect_list ids s = Some (kept, s') ->
  all_literal_watches s' = all_literal_watches s /\ vals s' = vals s /\
  vars s' = vars s /\ max_var s' = max_var s.
Proof.
  induction ids as [|c ids IH]; intros s kept s' H; simpl in H.
  - inversion H; subst. repeat split; reflexivity.
  - destruct (heap s !! c) as [cl|]; simpl in H; [|discriminate].
    destruct (c_garbage cl); cbn [negb] in H.
    + apply IH in H. exact H.
    + destruct (collect_list ids s) as [[k s1]|] eqn:E; simpl in H;
        [|discriminate].
      inversion H; subst. exact (IH _ _ _ E).
Qed.

(** C10: after [reduce], the watch lists of both polarities of every
    root-fixed variable are empty, whatever clauses they watched, garbage
    or not; for every other variable the watch lists are those from before
    without the watches of the clauses marked garbage, in the same order. *)
Theorem reduce_flushes_watches (s s' : State) :
  reduce s = Some s' ->
  exists sm : State,
    reduce_mark s = Some sm /\
    forall idx : Z, 1 <= idx <= max_var s ->
      (fixed s' idx <> 0 -> watches s' idx = [] /\ watches s' (- idx) = []) /\
      (fixed s' idx = 0 ->
       watches s' idx = live_watches sm (watches s idx) /\
       watches s' (- idx) = live_watches sm (watches s (- idx))).
Proof.
  unfold reduce. intros H.
  destruct (reduce_mark s) as [sm|] eqn:Hm; simpl in H; [|discriminate].
  exists sm. split; [reflexivity|].
  destruct (reduce_mark_frame _ _ Hm) as (HW & Hvals & Hvars & Hmax & _).
  unfold reduce_sweep in H.
  destruct (flush_watches sm) as [s5|] eqn:H5; simpl in H; [|discriminate].
  unfold flush_watches in H5.
  apply flush_each_spec in H5.
  2: { apply NoDup_seqZ. }
  2: { apply list.Forall_forall. intros i Hi. apply elem_of_seqZ in Hi. lia. }
  destruct H5 as ([W5 ->] & _ & Hsp).
  match type of H with
  | (?m ≫= _) = _ => destruct m as [s6|] eqn:H6; simpl in H; [|discriminate]
  end.
  assert (H6' : all_literal_watches s6 = W5 /\ vals s6 = vals sm /\
                vars s6 = vars sm).
  { destruct (_ <? _).
    - destruct (collect_list _ _) as [[k sa]|] eqn:E; simpl in H6;
        [|discriminate].
      inversion H6; subst s6. apply collect_list_watches in E.
      cbn in *. tauto.
    - inversion H6; subst s6. cbn. tauto. }
  destruct H6' as (HW6 & Hvals6 & Hvars6).
  destruct (collect_list (redundant s6) s6) as [[k s7]|] eqn:H7;
    simpl in H; [|discriminate].
  apply collect_list_watches in H7.
  destruct H7 as (HW7 & Hvals7 & Hvars7 & _).
  inversion H; subst s'; clear H.
  intros idx Hidx.
  assert (Hin : idx ∈ seqZ 1 (max_var sm))
    by (apply elem_of_seqZ; rewrite Hmax; lia).
  specialize (Hsp idx Hin).
  unfold fixed, watches in *. cbn in *.
  rewrite HW7, HW6, Hvals7, Hvals6, Hvars7, Hvars6, <- HW. exact Hsp.
Qed.

(** ** Restart: trail reuse *)

Lemma next_decision_variable_frame fuel : forall s idx s1,
  next_decision_variable fuel s = Some (idx, s1) ->
  exists q n, s1 = upd_stats (set_searched n) (set_queue q s).
Proof.
  induction fuel as [|fuel IH]; intros s idx s1 H; simpl in H;
    [discriminate|].
  destruct (check _); simpl in H; [|discriminate].
  destruct (val s (q_next (queue s)) =? 0).
  - inversion H; subst. exists (queue s1), (searched (stats s1)).
    destruct s1 as [? ? ? ? ? ? ? ? ? ? ? ? ? ? ? ? ? ? ? ? st ? ? ? ?].
    destruct st. reflexivity.
  - apply IH in H. destruct H as (q & n & ->). exists q, n. reflexivity.
Qed.


Lemma unassign_frame lit s s' :
  unassign lit s = Some s' ->
  exists v q, s' = set_queue q (set_vals v s).
Proof.
  unfold unassign. intros H.
  destruct (check _); simpl in H; [|discriminate].
  destruct (_ >=? _); inversion H; subst.
  - exists (<[vidx lit := 0]> (vals s)), (queue s). reflexivity.
  - exists (<[vidx lit := 0]> (vals s)), (set_q_next (vidx lit) (queue s)).
    reflexivity.
Qed.

Lemma backtrack_loop_frame n : forall dec s s',
  backtrack_loop n dec s = Some s' ->
  exists v q t, s' = set_trail t (set_queue q (set_vals v s)).
Proof.
  induction n as [|n IH]; intros dec s s' H; simpl in H; [discriminate|].
  destruct (list.last (trail s)) as [lit|]; simpl in H; [|discriminate].
  destruct (unassign lit s) as [s1|] eqn:Hu; simpl in H; [|discriminate].
  apply unassign_frame in Hu. destruct Hu as (v & q & ->).
  destruct (lit =? dec).
  - inversion H; subst. eexists _, _, _. reflexivity.
  - apply IH in H. destruct H as (v' & q' & t' & ->).
    eexists _, _, _. reflexivity.
Qed.

Lemma backtrack_level target s s' :
  backtrack target s = Some s' ->
  level s' = target /\ stats s' = stats s /\ limits s' = limits s /\
  opts s' = opts s.
Proof.
  unfold backtrack. intros H.
  destruct (check _); simpl in H; [|discriminate].
  destruct (Nat.eqb_spec target (level s)) as [->|Hne].
  - inversion H; subst. repeat split; reflexivity.
  - destruct (levels s !! S target) as [lv|]; simpl in H; [|discriminate].
    destruct (backtrack_loop _ _ _) as [s1|] eqn:Hl; simpl in H;
      [|discriminate].
    apply backtrack_loop_frame in Hl. destruct Hl as (v & q & t & ->).
    inversion H; subst s'; clear H.
    destruct (_ <? _)%nat; repeat split; reflexivity.
Qed.



(** The clearing of the watches of a fixed variable at work: after
    [reduce] the lists of 1 and [-1] are empty, and the clause [-1 2 3],
    which was watched by [-1] and is not garbage, is left with one watch. *)
Lemma reduce_flushes_watches_witness :
  watches flush_example_state (- 1) = [mkWatch 2 3 1] /\
  fixed flush_example_reduced 1 <> 0 /\
  watches flush_example_reduced 1 = [] /\
  watches flush_example_reduced (- 1) = [].
Proof.
  assert (H : reduce flush_example_state = Some flush_example_reduced)
    by (vm_compute; reflexivity).
  destruct (reduce_flushes_watches _ _ H) as (sm & _ & Hsp).
  assert (Hf : fixed flush_example_reduced 1 <> 0)
    by (vm_compute; discriminate).
  split; [reflexivity|]. split; [exact Hf|].
  apply (proj1 (Hsp 1 ltac:(vm_compute; split; discriminate))). exact Hf.
Defined.

(** ** Propagation: the visit of a watch of a long clause *)

Lemma scan_spec s : forall rest k v0 k' v,
  scan s k rest v0 = (k', v) ->
  match list_find (fun l => ~ val s l < 0) rest with
  | Some (i, l) =>
      k' = (k + i)%nat /\ v = val s l /\ rest !! i = Some l /\ ~ v < 0
  | None => (rest = [] /\ v = v0 /\ k' = k) \/ (rest <> [] /\ v < 0)
  end.
Proof.
  induction rest as [|l rest IH]; intros k v0 k' v H; simpl in H.
  - inversion H; subst. left. auto.
  - cbn [list_find]. destruct (Z.ltb_spec (val s l) 0) as [Hneg|Hnn].
    + rewrite decide_False by lia. apply IH in H.
      destruct (list_find _ rest) as [[i l']|]; simpl.
      * destruct H as (-> & -> & Hl & Hv). repeat split; [lia|exact Hl|exact Hv].
      * right. split; [discriminate|]. destruct H as [(_ & -> & _)|[_ H]];
          assumption.
    + rewrite decide_True by lia. inversion H; subst.
      repeat split; lia.
Qed.





(** ** Propagation at a fixpoint *)

(** C8: the code at the failing input [1 1 2 0 / -2 0].  The duplicate
    literal survives the parser ([tautological] never assigns [prev]), so
    both watches of the clause [1 1 2] are on the literal 1 and none is on
    2.  Propagating the unit [-2] visits no clause: [propagate] returns
    without a conflict, [propagate_next] is the trail length, and the
    clause, which is not garbage, is unit under the assignment. *)
Theorem propagate_misses_unit :
  propagate 10 missed_unit_state = Some (true, missed_unit_propagated) /\
  propagate_next missed_unit_propagated
    = length (trail missed_unit_propagated) /\
  trail missed_unit_propagated = [-2] /\
  exists c : Clause,
    heap missed_unit_propagated !! 0%nat = Some c /\
    c_garbage c = false /\ literals c = [1; 1; 2] /\
    unit_under missed_unit_propagated c.
Proof.
  split; [vm_compute; reflexivity|]. split; [reflexivity|].
  split; [reflexivity|].
  exists (mkClause false false false 0 0 [1; 1; 2]).
  split; [vm_compute; reflexivity|]. split; [reflexivity|].
  split; [reflexivity|].
  exists 1. split; [apply elem_of_cons; left; reflexivity|].
  split; [reflexivity|].
  intros x Hx. cbn in Hx. rewrite !elem_of_cons, elem_of_nil in Hx.
  destruct Hx as [->|[->|[->|[]]]]; [left; reflexivity..|right; reflexivity].
Qed.

(** * The invariants are kept *)

From Stdlib Require Import FunctionalExtensionality.

(** ** Values and the trail *)

Lemma sign_cases l : (l < 0 /\ sign l = -1) \/ (0 <= l /\ sign l = 1).
Proof. unfold sign. destruct (Z.ltb_spec l 0); lia. Qed.

Lemma val_kval s l : val s l = kval (core s) l.
Proof. reflexivity. Qed.

Lemma llv_opp k l : llv k (- l) = llv k l.
Proof. unfold llv. rewrite Z.abs_opp. reflexivity. Qed.

Lemma kval_true k l : trail_ok k -> (0 < kval k l <-> l ∈ k_trail k).
Proof.
  intros Ht. unfold kval. split.
  - intros Hv.
    assert (Hnz : k_vals k (Z.abs l) <> 0)
      by (destruct (l <? 0); lia).
    destruct (tr_val k Ht _ Hnz) as (l' & Hin & Habs).
    destruct (tr_lit k Ht _ Hin) as [[Hl0 _] Hs].
    rewrite Habs in Hs. rewrite Hs in Hv.
    destruct (sign_cases l') as [[? E]|[? E]]; rewrite E in Hv;
      destruct (Z.ltb_spec l 0); try lia;
      replace l with l' by lia; exact Hin.
  - intros Hin. destruct (tr_lit k Ht _ Hin) as [[Hl0 _] Hs].
    rewrite Hs. destruct (sign_cases l) as [[? E]|[? E]]; rewrite E;
      destruct (Z.ltb_spec l 0); lia.
Qed.

Lemma kval_opp k l : trail_ok k -> kval k (- l) = - kval k l.
Proof.
  intros Ht. unfold kval. rewrite Z.abs_opp.
  destruct (Z.eq_dec l 0) as [->|Hl].
  - assert (E : k_vals k 0 = 0).
    { destruct (Z.eq_dec (k_vals k 0) 0) as [E|Hnz]; [exact E|].
      destruct (tr_val k Ht _ Hnz) as (l' & Hin & Habs).
      destruct (tr_lit k Ht _ Hin) as [[Hl0 _] _]. lia. }
    change (Z.abs 0) with 0. change (- 0) with 0. cbv zeta.
    rewrite E. reflexivity.
  - destruct (Z.ltb_spec l 0), (Z.ltb_spec (- l) 0); lia.
Qed.

Lemma kval_false k l : trail_ok k -> (kval k l < 0 <-> - l ∈ k_trail k).
Proof.
  intros Ht. rewrite <- (kval_true k (- l) Ht), (kval_opp k l Ht). lia.
Qed.

Lemma trail_abs_ne k l t :
  trail_ok k -> k_vals k (Z.abs l) = 0 -> t ∈ k_trail k ->
  Z.abs t <> Z.abs l.
Proof.
  intros Ht Hz Hin E. destruct (tr_lit k Ht _ Hin) as [_ Hs].
  rewrite E, Hz in Hs. destruct (sign_cases t); lia.
Qed.

(** ** Counting watches *)

Lemma wcount_nil id : wcount [] id = 0%nat.
Proof. reflexivity. Qed.

Lemma wcount_cons w ws id :
  wcount (w :: ws) id
  = ((if Nat.eq_dec (w_clause w) id then 1 else 0) + wcount ws id)%nat.
Proof.
  unfold wcount. rewrite filter_cons.
  destruct (Nat.eq_dec (w_clause w) id) as [E|E].
  - rewrite decide_True by exact E. reflexivity.
  - rewrite decide_False by exact E. reflexivity.
Qed.

Lemma wcount_app ws1 ws2 id :
  wcount (ws1 ++ ws2) id = (wcount ws1 id + wcount ws2 id)%nat.
Proof. unfold wcount. rewrite list.filter_app, length_app. reflexivity. Qed.

Lemma wcount_pos ws id :
  (1 <= wcount ws id)%nat -> exists w, w ∈ ws /\ w_clause w = id.
Proof.
  unfold wcount. intros H.
  destruct (filter (fun w => w_clause w = id) ws) as [|w l] eqn:E;
    [simpl in H; lia|].
  assert (Hin : w ∈ filter (fun w => w_clause w = id) ws)
    by (rewrite E; apply elem_of_cons; left; reflexivity).
  apply list_elem_of_filter in Hin. exists w. tauto.
Qed.

Lemma pcount_pos l lits i :
  (i < 2)%nat -> lits !! i = Some l -> (1 <= pcount l lits)%nat.
Proof.
  intros Hi Hl. unfold pcount.
  assert (Hin : l ∈ filter (fun x => x = l) (take 2 lits)).
  { apply list_elem_of_filter. split; [reflexivity|].
    apply list_elem_of_lookup. exists i. rewrite lookup_take_lt by lia.
    exact Hl. }
  destruct (filter _ _); [apply elem_of_nil in Hin; contradiction|].
  simpl. lia.
Qed.

(** ** The invariant and the exemptions *)

Lemma J_mono (ex ex' : nat -> CClause -> Z -> Prop) k :
  (forall id c l, ex id c l -> ex' id c l) -> J ex k -> J ex' k.
Proof.
  intros Hex HJ id c i l Hc Hi Hl Hp.
  destruct (HJ id c i l Hc Hi Hl Hp) as [H|H]; [left; auto|right; exact H].
Qed.

Lemma CInvX_mono (ex ex' : nat -> CClause -> Z -> Prop) k :
  (forall id c l, ex id c l -> ex' id c l) -> CInvX ex k -> CInvX ex' k.
Proof.
  intros Hex [H1 H2 H3 H4]. split; try assumption.
  eapply J_mono; eassumption.
Qed.

(** ** [assign] *)

Lemma core_assign l r s s' :
  assign l r s = Some s' ->
  vals s (Z.abs l) = 0 /\ core s' = K_assign l (core s).
Proof.
  unfold assign. intros H.
  destruct (Z.eqb_spec (vals s (vidx l)) 0) as [Hz|]; simpl in H;
    [|discriminate].
  split; [exact Hz|]. inversion H; subst s'; clear H.
  unfold core, K_assign. cbn.
  destruct (level s =? 0)%nat; cbn; f_equal;
    apply functional_extensionality; intros idx; unfold vidx;
    unfold insert, fn_insert; destruct (decide_rel _ _ _); reflexivity.
Qed.

(** The parts of the invariant that do not speak about the grouping of
    the trail by levels. *)
Lemma assign_parts ex k l :
  trail_ok k -> watches_ok k -> J ex k ->
  (k_pn k <= length (k_trail k))%nat ->
  k_vals k (Z.abs l) = 0 -> in_range k l ->
  trail_ok (K_assign l k) /\ watches_ok (K_assign l k) /\
  J ex (K_assign l k).
Proof.
  intros Ht Hw HJ Hpn Hz Hr.
  assert (Hne : forall t, t ∈ k_trail k -> Z.abs t <> Z.abs l)
    by (intros t; apply trail_abs_ne; assumption).
  assert (Hlv : forall t, t ∈ k_trail k -> llv (K_assign l k) t = llv k t).
  { intros t Hin. unfold llv. cbn. rewrite fn_lookup_insert_ne; [reflexivity|].
    intros E. exact (Hne t Hin (eq_sym E)). }
  assert (Hlvl : llv (K_assign l k) l = k_level k).
  { unfold llv. cbn. rewrite fn_lookup_insert. reflexivity. }
  split; [|split].
  - (* trail_ok *)
    split; cbn.
    + rewrite fmap_app. apply list.NoDup_app. split; [apply (tr_nodup k Ht)|].
      split; [|apply list.NoDup_singleton].
      intros x Hx Hx'. apply list_elem_of_singleton in Hx'. subst x.
      apply list_elem_of_fmap in Hx. destruct Hx as (t & E & Hin).
      exact (Hne t Hin (eq_sym E)).
    + intros t Hin. apply elem_of_app in Hin. destruct Hin as [Hin|Hin].
      * rewrite fn_lookup_insert_ne
          by (intros E; exact (Hne t Hin (eq_sym E))).
        exact (tr_lit k Ht t Hin).
      * apply list_elem_of_singleton in Hin. subst t.
        rewrite fn_lookup_insert. split; [exact Hr|reflexivity].
    + intros idx Hnz. destruct (Z.eq_dec idx (Z.abs l)) as [->|Hi].
      * exists l. split; [|reflexivity].
        apply elem_of_app. right. apply list_elem_of_singleton. reflexivity.
      * rewrite fn_lookup_insert_ne in Hnz by congruence.
        destruct (tr_val k Ht idx Hnz) as (t & Hin & E).
        exists t. split; [apply elem_of_app; left; exact Hin|exact E].
    + intros idx Hi. destruct (Z.eq_dec idx (Z.abs l)) as [->|Hne'].
      * rewrite fn_lookup_insert. destruct (sign_cases l); lia.
      * rewrite fn_lookup_insert_ne by congruence. exact (tr_ph k Ht idx Hi).
  - (* watches_ok *)
    split; cbn [k_W k_heap k_nref K_assign].
    + exact (w_wf k Hw).
    + exact (w_cl k Hw).
    + intros id c x Hc. destruct (w_pres k Hw id c x Hc) as [H|H];
        [left; exact H|right].
      destruct H as (t & Ht1 & Ht2 & Ht3). exists t.
      split; [exact Ht1|]. split.
      * cbn. apply elem_of_app. left. exact Ht2.
      * rewrite Hlv by exact Ht2. exact Ht3.
    + exact (w_fresh k Hw).
  - (* J *)
    intros id c i x Hc Hi Hx Hp.
    assert (Hp' : propagated k (- x)).
    { destruct Hp as (j & Hj & Hlk). exists j. split; [exact Hj|].
      cbn in Hlk. rewrite lookup_app_l in Hlk; [exact Hlk|].
      cbn in Hj. lia. }
    destruct (HJ id c i x Hc Hi Hx Hp') as [H|H]; [left; exact H|right].
    destruct H as (t & Ht1 & Ht2 & Ht3). exists t.
    split; [exact Ht1|]. split.
    + cbn. apply elem_of_app. left. exact Ht2.
    + rewrite Hlv by exact Ht2.
      destruct Hp' as (j & _ & Hlk).
      apply list_elem_of_lookup_2 in Hlk.
      rewrite <- (llv_opp _ x), Hlv by exact Hlk. rewrite llv_opp.
      exact Ht3.
Qed.

Lemma CInv_assign ex k l :
  CInvX ex k -> k_vals k (Z.abs l) = 0 -> in_range k l ->
  CInvX ex (K_assign l k).
Proof.
  intros [Ht Hl Hw HJ] Hz Hr.
  destruct (assign_parts ex k l Ht Hw HJ (lv_pn k Hl) Hz Hr) as (P1 & P2 & P3).
  assert (Hne : forall t, t ∈ k_trail k -> Z.abs t <> Z.abs l)
    by (intros t; apply trail_abs_ne; assumption).
  assert (Hlv : forall t, t ∈ k_trail k -> llv (K_assign l k) t = llv k t).
  { intros t Hin. unfold llv. cbn. rewrite fn_lookup_insert_ne; [reflexivity|].
    intros E. exact (Hne t Hin (eq_sym E)). }
  assert (Hlvl : llv (K_assign l k) l = k_level k).
  { unfold llv. cbn. rewrite fn_lookup_insert. reflexivity. }
  split; [exact P1| |exact P2|exact P3].
  split; cbn [k_decs k_level k_trail k_pn K_assign].
  + exact (lv_len k Hl).
  + intros t Hin. apply elem_of_app in Hin. destruct Hin as [Hin|Hin].
    * rewrite Hlv by exact Hin. exact (lv_le k Hl t Hin).
    * apply list_elem_of_singleton in Hin. subst t. rewrite Hlvl. lia.
  + intros n d Hn Hd.
    destruct (lv_dec k Hl n d Hn Hd) as (Hdl & pre & post & E & Hpre & Hpost).
    assert (Hdin : d ∈ k_trail k).
    { rewrite E. apply elem_of_app. right. apply elem_of_cons. left.
      reflexivity. }
    split; [rewrite Hlv by exact Hdin; exact Hdl|].
    exists pre, (post ++ [l]). split; [rewrite E, <- app_assoc; reflexivity|].
    split.
    * intros t Hin. rewrite Hlv; [apply Hpre, Hin|].
      rewrite E. apply elem_of_app. left. exact Hin.
    * intros t Hin. apply elem_of_app in Hin. destruct Hin as [Hin|Hin].
      -- rewrite Hlv; [apply Hpost, Hin|].
         rewrite E. apply elem_of_app. right. apply elem_of_cons. right.
         exact Hin.
      -- apply list_elem_of_singleton in Hin. subst t. rewrite Hlvl.
         apply lookup_lt_Some in Hd. rewrite (lv_len k Hl) in Hd. lia.
  + intros i t Hi Hlk.
    destruct (Nat.lt_ge_cases i (length (k_trail k))) as [Hlt|Hge].
    * rewrite lookup_app_l in Hlk by exact Hlt.
      rewrite Hlv by (eapply list_elem_of_lookup_2; exact Hlk).
      exact (lv_unprop k Hl i t Hi Hlk).
    * rewrite lookup_app_r in Hlk by exact Hge.
      apply list_lookup_singleton_Some in Hlk. destruct Hlk as [_ <-].
      exact Hlvl.
  + rewrite length_app. pose proof (lv_pn k Hl). simpl. lia.
Qed.

(** ** [backtrack] *)

Lemma filter_all {A} (P : A -> Prop) `{forall x, Decision (P x)} (l : list A) :
  (forall x, x ∈ l -> P x) -> filter P l = l.
Proof.
  induction l as [|x l IH]; intros Hall; [reflexivity|].
  rewrite filter_cons, decide_True, IH; [reflexivity| |].
  - intros y Hy. apply Hall. apply elem_of_cons. right. exact Hy.
  - apply Hall. apply elem_of_cons. left. reflexivity.
Qed.

Lemma filter_none {A} (P : A -> Prop) `{forall x, Decision (P x)} (l : list A) :
  (forall x, x ∈ l -> ~ P x) -> filter P l = [].
Proof.
  induction l as [|x l IH]; intros Hall; [reflexivity|].
  rewrite filter_cons, decide_False, IH; [reflexivity| |].
  - intros y Hy. apply Hall. apply elem_of_cons. right. exact Hy.
  - apply Hall. apply elem_of_cons. left. reflexivity.
Qed.

(** With the trail grouped by level, the literals up to level [t] are the
    ones before the decision of level [t + 1]. *)
Lemma filter_trail_pre k t d pre post :
  (forall l, l ∈ pre -> (llv k l < S t)%nat) ->
  (forall l, l ∈ d :: post -> (S t <= llv k l)%nat) ->
  filter (fun l => (llv k l <= t)%nat) (pre ++ d :: post) = pre.
Proof.
  intros Hpre Hpost. rewrite list.filter_app.
  rewrite (filter_all _ pre), (filter_none _ (d :: post)).
  - apply app_nil_r.
  - intros x Hx Hle. specialize (Hpost x Hx). lia.
  - intros x Hx. specialize (Hpre x Hx). lia.
Qed.

(** The pop loop: it removes the decision [d] and what follows it. *)
Lemma backtrack_loop_spec d : forall n s s' pre post,
  backtrack_loop n d s = Some s' ->
  trail s = pre ++ d :: post -> d ∉ post ->
  trail s' = pre /\
  (forall idx, vals s' idx
               = if bool_decide (idx ∈ Z.abs <$> d :: post) then 0
                 else vals s idx) /\
  phases s' = phases s /\ vars s' = vars s /\ level s' = level s /\
  levels s' = levels s /\ propagate_next s' = propagate_next s /\
  all_literal_watches s' = all_literal_watches s /\ heap s' = heap s /\
  next_ref s' = next_ref s /\ unsat s' = unsat s /\
  conflict s' = conflict s /\ max_var s' = max_var s.
Proof.
  induction n as [|n IH]; intros s s' pre post H Htr Hd; simpl in H;
    [discriminate|].
  destruct (list.last (trail s)) as [lit|] eqn:Hlast; simpl in H;
    [|discriminate].
  destruct (unassign lit s) as [s1|] eqn:Hu; simpl in H; [|discriminate].
  assert (Hs1 : exists q, s1 = set_queue q
                  (set_vals (<[Z.abs lit := 0]> (vals s)) s)).
  { unfold unassign in Hu. destruct (check _); simpl in Hu; [|discriminate].
    destruct (_ >=? _); inversion Hu; eexists; reflexivity. }
  destruct Hs1 as [q ->]. cbn [trail set_queue set_vals set_trail] in H.
  destruct post as [|x post _] using rev_ind.
  - (* the decision itself is popped *)
    rewrite Htr, last_snoc in Hlast. inversion Hlast; subst lit.
    rewrite Z.eqb_refl in H. inversion H; subst s'; clear H.
    cbn. rewrite Htr, removelast_last.
    repeat split; try reflexivity.
    intros idx. unfold insert, fn_insert.
    destruct (decide_rel _ _ _) as [->|Hne].
    + rewrite bool_decide_eq_true_2; [reflexivity|].
      apply list_elem_of_singleton. reflexivity.
    + rewrite bool_decide_eq_false_2; [reflexivity|].
      intros Hin. apply list_elem_of_singleton in Hin. congruence.
  - rewrite Htr, app_comm_cons, app_assoc, last_snoc in Hlast.
    inversion Hlast; subst lit.
    apply not_elem_of_app in Hd. destruct Hd as [Hd Hx].
    destruct (Z.eqb_spec x d) as [->|Hne].
    { exfalso. apply Hx. apply list_elem_of_singleton. reflexivity. }
    apply (IH _ _ pre post) in H; [|cbn|exact Hd].
    2: { rewrite Htr, app_comm_cons, app_assoc, removelast_last.
         reflexivity. }
    destruct H as (Ht & Hv & H). cbn in H.
    split; [exact Ht|]. split; [|exact H].
    intros idx. rewrite Hv. cbn [vals set_vals set_queue set_trail].
    assert (Hiff : idx ∈ Z.abs <$> d :: (post ++ [x]) <->
                   idx ∈ Z.abs <$> d :: post \/ idx = Z.abs x)
      by set_solver.
    unfold insert, fn_insert.
    destruct (bool_decide (idx ∈ Z.abs <$> d :: post)) eqn:E1.
    + apply bool_decide_eq_true in E1.
      rewrite bool_decide_eq_true_2; [reflexivity|]. apply Hiff. tauto.
    + apply bool_decide_eq_false in E1.
      destruct (decide_rel _ _ _) as [Heq|Hne'].
      * rewrite bool_decide_eq_true_2; [reflexivity|]. apply Hiff.
        right. congruence.
      * rewrite bool_decide_eq_false_2; [reflexivity|].
        intros Hin. apply Hiff in Hin. destruct Hin; [contradiction|].
        congruence.
Qed.

Lemma NoDup_abs_NoDup (l : list Z) : NoDup (Z.abs <$> l) -> NoDup l.
Proof. apply NoDup_fmap_1. Qed.

Lemma core_backtrack t s s' :
  trail_ok (core s) -> levels_ok (core s) ->
  backtrack t s = Some s' ->
  (t <= level s)%nat /\
  (t = level s -> s' = s) /\
  ((t < level s)%nat -> core s' = K_backtrack t (core s)).
Proof.
  intros Ht Hl H. unfold backtrack in H.
  destruct (Nat.leb_spec t (level s)) as [Hle|]; simpl in H; [|discriminate].
  split; [exact Hle|].
  destruct (Nat.eqb_spec t (level s)) as [E|Hne].
  { inversion H; subst s'. split; [reflexivity|]. intros Hlt. lia. }
  split; [intros E; contradiction|]. intros Hlt.
  destruct (levels s !! S t) as [lv|] eqn:Hlv; simpl in H; [|discriminate].
  destruct (backtrack_loop _ _ _) as [s1|] eqn:Hloop; simpl in H;
    [|discriminate].
  assert (Hd : k_decs (core s) !! S t = Some (decision lv))
    by (cbn; rewrite list_lookup_fmap, Hlv; reflexivity).
  destruct (lv_dec _ Hl (S t) _ ltac:(lia) Hd)
    as (Hdl & pre & post & Etr & Hpre & Hpost).
  cbn in Etr.
  assert (Hnd : decision lv ∉ post).
  { pose proof (NoDup_abs_NoDup _ (tr_nodup _ Ht)) as Hn. cbn in Hn.
    rewrite Etr in Hn. apply list.NoDup_app in Hn.
    destruct Hn as (_ & _ & Hn). apply list.NoDup_cons in Hn. tauto. }
  destruct (backtrack_loop_spec _ _ _ _ pre post Hloop Etr Hnd)
    as (Htr1 & Hv1 & Hph & Hvars & Hlev & Hlevs & Hpn & HW & Hh & Hnr & Hu
        & Hc & Hm).
  assert (Hpost' : forall l, l ∈ decision lv :: post ->
                             (S t <= llv (core s) l)%nat).
  { intros l Hin. apply elem_of_cons in Hin. destruct Hin as [->|Hin];
      [lia|apply Hpost, Hin]. }
  assert (Hfil : filter (fun l => (llv (core s) l <= t)%nat)
                        (k_trail (core s)) = pre).
  { cbn [k_trail core]. rewrite Etr. apply filter_trail_pre; assumption. }
  inversion H; subst s'; clear H.
  assert (Hvals : vals s1 = fun idx =>
            if (t <? v_level (vars s idx))%nat then 0 else vals s idx).
  { apply functional_extensionality. intros idx. rewrite Hv1.
    destruct (bool_decide _) eqn:E.
    - apply bool_decide_eq_true in E. apply list_elem_of_fmap in E.
      destruct E as (l & -> & Hin). specialize (Hpost' l Hin).
      unfold llv in Hpost'. cbn in Hpost'.
      destruct (Nat.ltb_spec t (v_level (vars s (Z.abs l)))); [reflexivity|].
      lia.
    - apply bool_decide_eq_false in E.
      destruct (Nat.ltb_spec t (v_level (vars s idx))) as [Hgt|];
        [|reflexivity].
      destruct (Z.eq_dec (vals s idx) 0) as [Hz|Hnz]; [exact Hz|].
      destruct (tr_val _ Ht idx Hnz) as (l & Hin & Habs). cbn in Hin.
      rewrite Etr in Hin. apply elem_of_app in Hin.
      destruct Hin as [Hin|Hin].
      + specialize (Hpre l Hin). unfold llv in Hpre. cbn in Hpre.
        rewrite Habs in Hpre. lia.
      + exfalso. apply E. apply list_elem_of_fmap. exists l.
        split; [congruence|exact Hin]. }
  unfold K_backtrack. rewrite Hfil.
  cbn [k_max k_vals k_ph k_lv k_pn k_decs k_W k_heap k_nref k_unsat k_conf
       core].
  rewrite <- Htr1, <- Hpn.
  destruct (length (trail s1) <? propagate_next s1)%nat;
    unfold core, has_conflict; cbn;
    rewrite Hvals, Hph, Hvars, Hlevs, HW, Hh, Hnr, Hu, Hc, Hm, fmap_take;
    reflexivity.
Qed.


Lemma CInv_backtrack (ex ex' : nat -> CClause -> Z -> Prop) k t :
  CInvX ex k -> (t < k_level k)%nat ->
  (forall id c x, ex id c x -> (llv k x <= t)%nat -> ex' id c x) ->
  CInvX ex' (K_backtrack t k).
Proof.
  intros [Ht Hl Hw HJ] Hlt Hex.
  assert (Hd : exists d, k_decs k !! S t = Some d).
  { apply lookup_lt_is_Some. rewrite (lv_len k Hl). lia. }
  destruct Hd as [d Hd].
  destruct (lv_dec k Hl (S t) d ltac:(lia) Hd)
    as (Hdl & pre & post & Etr & Hpre & Hpost).
  assert (Hfil : filter (fun l => (llv k l <= t)%nat) (k_trail k) = pre).
  { rewrite Etr. apply filter_trail_pre; [exact Hpre|].
    intros l Hin. apply elem_of_cons in Hin. destruct Hin as [->|Hin];
      [lia|apply Hpost, Hin]. }
  assert (F1 : forall l, l ∈ pre <-> l ∈ k_trail k /\ (llv k l <= t)%nat).
  { intros l. rewrite <- Hfil, list_elem_of_filter. tauto. }
  assert (F2 : forall i l, pre !! i = Some l -> k_trail k !! i = Some l).
  { intros i l Hi. rewrite Etr. rewrite lookup_app_l; [exact Hi|].
    apply lookup_lt_Some in Hi. exact Hi. }
  assert (Etr' : k_trail (K_backtrack t k) = pre) by exact Hfil.
  assert (Epn : k_pn (K_backtrack t k)
                = if (length pre <? k_pn k)%nat then length pre else k_pn k)
    by (unfold K_backtrack; cbn [k_pn]; rewrite Hfil; reflexivity).
  split.
  - (* trail_ok *)
    split; rewrite ?Etr'; cbn [K_backtrack k_vals k_max k_ph].
    + pose proof (tr_nodup k Ht) as Hn. rewrite Etr, fmap_app in Hn.
      apply list.NoDup_app in Hn. tauto.
    + intros l Hin. apply F1 in Hin. destruct Hin as [Hin Hle].
      destruct (tr_lit k Ht l Hin) as [Hr Hs]. split; [exact Hr|].
      unfold llv in Hle.
      destruct (Nat.ltb_spec t (k_lv k (Z.abs l))); [lia|exact Hs].
    + intros idx Hnz.
      destruct (Nat.ltb_spec t (k_lv k idx)) as [|Hle]; [congruence|].
      destruct (tr_val k Ht idx Hnz) as (l & Hin & Habs).
      exists l. split; [|exact Habs]. apply F1. split; [exact Hin|].
      unfold llv. rewrite Habs. exact Hle.
    + exact (tr_ph k Ht).
  - (* levels_ok *)
    split; rewrite ?Etr'; change (llv (K_backtrack t k)) with (llv k);
      cbn [K_backtrack k_decs k_level].
    + rewrite length_take. rewrite (lv_len k Hl). lia.
    + intros l Hin. apply F1 in Hin. exact (proj2 Hin).
    + intros n d' Hn Hd'. apply lookup_take_Some in Hd'.
      destruct Hd' as [Hd' Hnt].
      destruct (lv_dec k Hl n d' Hn Hd')
        as (Hdl' & pre' & post' & Etr'' & Hpre' & Hpost').
      split; [exact Hdl'|].
      exists pre', (filter (fun l => (llv k l <= t)%nat) post').
      split; [|split].
      * rewrite <- Hfil, Etr'', list.filter_app, filter_cons.
        rewrite decide_True by (change (llv k d' <= t)%nat; lia).
        rewrite (filter_all _ pre'); [reflexivity|].
        intros x Hx. specialize (Hpre' x Hx). lia.
      * exact Hpre'.
      * intros l Hin. apply list_elem_of_filter in Hin.
        apply Hpost'. tauto.
    + intros i l Hi Hlk. exfalso.
      pose proof (lookup_lt_Some _ _ _ Hlk) as Hlen.
      assert (Hin : l ∈ pre) by (eapply list_elem_of_lookup_2; exact Hlk).
      apply F1 in Hin. destruct Hin as [_ Hle].
      rewrite Epn in Hi.
      destruct (Nat.ltb_spec (length pre) (k_pn k)); [lia|].
      pose proof (lv_unprop k Hl i l Hi (F2 _ _ Hlk)). lia.
    + rewrite Epn. destruct (Nat.ltb_spec (length pre) (k_pn k)); lia.
  - (* watches_ok *)
    split; cbn [K_backtrack k_W k_heap k_nref k_max].
    + exact (w_wf k Hw).
    + exact (w_cl k Hw).
    + intros id c x Hc. destruct (w_pres k Hw id c x Hc) as [H|H];
        [left; exact H|right].
      destruct H as (t0 & Ht1 & Ht2 & Ht3). exists t0.
      split; [exact Ht1|]. split; [|exact Ht3].
      rewrite Etr'. apply F1. split; [exact Ht2|]. lia.
    + exact (w_fresh k Hw).
  - (* J *)
    intros id c i x Hc Hi Hx Hp.
    destruct Hp as (j & Hj & Hlk). rewrite Etr' in Hlk. rewrite Epn in Hj.
    assert (Hp' : propagated k (- x)).
    { exists j. split; [|apply F2, Hlk].
      destruct (Nat.ltb_spec (length pre) (k_pn k)); lia. }
    assert (Hxle : (llv k x <= t)%nat).
    { rewrite <- llv_opp. apply F1. eapply list_elem_of_lookup_2. exact Hlk. }
    destruct (HJ id c i x Hc Hi Hx Hp') as [H|H].
    + left. apply Hex; assumption.
    + right. destruct H as (t0 & Ht1 & Ht2 & Ht3). exists t0.
      split; [exact Ht1|]. split; [|exact Ht3].
      rewrite Etr'. apply F1. split; [exact Ht2|]. lia.
Qed.

(** ** Steps on the watches of the literal being propagated *)

Lemma pcount_two l a b tl :
  pcount l (a :: b :: tl)
  = ((if Z.eq_dec a l then 1 else 0) + (if Z.eq_dec b l then 1 else 0))%nat.
Proof.
  unfold pcount. change (take 2 (a :: b :: tl)) with [a; b].
  rewrite !filter_cons, filter_nil.
  repeat case_decide; destruct (Z.eq_dec a l), (Z.eq_dec b l);
    try contradiction; reflexivity.
Qed.

Lemma lookup_two {A} (l : list A) i x :
  (i < 2)%nat -> l !! i = Some x ->
  (exists tl, l = x :: tl /\ i = 0%nat) \/
  (exists a tl, l = a :: x :: tl /\ i = 1%nat).
Proof.
  intros Hi Hl. destruct i as [|[|i]]; [|  |lia].
  - destruct l as [|a tl]; [discriminate|]. left. exists tl.
    inversion Hl. auto.
  - destruct l as [|a [|b tl]]; try discriminate. right. exists a, tl.
    inversion Hl. auto.
Qed.

Lemma elem_of_insert_swap (tl : list Z) j lk b x :
  tl !! j = Some lk ->
  (x ∈ lk :: <[j := b]> tl <-> x ∈ b :: tl).
Proof.
  intros Hj.
  rewrite <- (take_drop_middle tl j lk Hj) at 2.
  rewrite insert_take_drop by (eapply lookup_lt_Some; exact Hj).
  set_solver.
Qed.

Lemma Jwit_llv k c l l' :
  llv k l = llv k l' -> Jwit k c l -> Jwit k c l'.
Proof.
  intros E (t & H1 & H2 & H3). exists t. rewrite <- E. auto.
Qed.

(** The visited watch stays: its clause has a true literal. *)
Lemma loop_advance lit w rest k :
  CInvX (ex_loop lit (w :: rest) false) k ->
  (forall c, k_heap k !! w_clause w = Some c ->
             exists t, t ∈ cc_lits c /\ t ∈ k_trail k) ->
  llv k lit = k_level k ->
  CInvX (ex_loop lit rest false) k.
Proof.
  intros [Ht Hl Hw HJ] Hwit Hlit. split; try assumption.
  intros id c i l Hc Hi Hx Hp.
  destruct (HJ id c i l Hc Hi Hx Hp) as [[-> [H|H]]|H];
    [discriminate| |right; exact H].
  rewrite wcount_cons in H.
  destruct (Nat.eq_dec (w_clause w) id) as [E|E].
  - right. subst id. destruct (Hwit c Hc) as (t & Ht1 & Ht2).
    exists t. split; [exact Ht1|]. split; [exact Ht2|].
    rewrite llv_opp, Hlit. exact (lv_le k Hl t Ht2).
  - left. split; [reflexivity|]. right. exact H.
Qed.

(** The visited watch gets another blocking literal. *)
Lemma watch_replace ex l0 acc w w' rest k :
  CInvX ex k -> k_W k l0 = acc ++ w :: rest ->
  w_clause w' = w_clause w -> w_size w' = w_size w ->
  (forall c, k_heap k !! w_clause w = Some c -> blit w' ∈ cc_lits c) ->
  CInvX ex (K_setW l0 (acc ++ w' :: rest) k).
Proof.
  intros [Ht Hl Hw HJ] HW Hcl Hsz Hb.
  assert (Hcnt : forall id, wcount (acc ++ w' :: rest) id
                            = wcount (acc ++ w :: rest) id).
  { intros id. rewrite !wcount_app, !wcount_cons, Hcl. reflexivity. }
  split.
  - destruct Ht; split; assumption.
  - destruct Hl; split; assumption.
  - split; cbn [K_setW k_W k_heap k_nref k_max].
    + intros l x Hx. unfold insert, fn_insert in Hx.
      destruct (decide_rel _ _ _) as [<-|Hne]; [|exact (w_wf k Hw l x Hx)].
      apply elem_of_app in Hx. rewrite elem_of_cons in Hx.
      destruct Hx as [Hx|[->|Hx]].
      * apply (w_wf k Hw l0 x). rewrite HW. set_solver.
      * destruct (w_wf k Hw l0 w) as (c & H1 & H2 & H3 & H4);
          [rewrite HW; set_solver|].
        exists c. rewrite Hcl, Hsz. repeat split; auto.
      * apply (w_wf k Hw l0 x). rewrite HW. set_solver.
    + exact (w_cl k Hw).
    + intros id c l Hc. unfold insert, fn_insert.
      destruct (w_pres k Hw id c l Hc) as [H|H]; [left|right; exact H].
      destruct (decide_rel _ _ _) as [<-|Hne]; [|exact H].
      rewrite Hcnt, <- HW. exact H.
    + exact (w_fresh k Hw).
  - exact HJ.
Qed.

(** The visited clause is the conflict. *)
Lemma loop_conflict lit rest rest' k :
  CInvX (ex_loop lit rest false) k ->
  CInvX (ex_loop lit rest' true) (K_conf true k).
Proof.
  intros [Ht Hl Hw HJ]. split.
  - destruct Ht; split; assumption.
  - destruct Hl; split; assumption.
  - destruct Hw; split; assumption.
  - intros id c i l Hc Hi Hx Hp.
    destruct (HJ id c i l Hc Hi Hx Hp) as [[-> _]|H];
      [left; split; auto|right; exact H].
Qed.

(** The two watched literals of the visited clause change places. *)
Lemma loop_reorder lit rest conf id0 c a b tl k :
  CInvX (ex_loop lit rest conf) k ->
  k_heap k !! id0 = Some c -> cc_lits c = a :: b :: tl ->
  CInvX (ex_loop lit rest conf)
        (K_put id0 (mkCC (b :: a :: tl) (cc_red c) (cc_garb c)) k).
Proof.
  intros [Ht Hl Hw HJ] Hc0 Hlits.
  set (c' := mkCC (b :: a :: tl) (cc_red c) (cc_garb c)).
  assert (Hmem : forall x, x ∈ cc_lits c' <-> x ∈ cc_lits c)
    by (intros x; rewrite Hlits; cbn; set_solver).
  assert (Hpc : forall l, pcount l (cc_lits c') = pcount l (cc_lits c))
    by (intros l; rewrite Hlits; cbn [cc_lits c']; rewrite !pcount_two; lia).
  assert (Hlk : forall id cc, k_heap (K_put id0 c' k) !! id = Some cc ->
            (id = id0 /\ cc = c') \/ (id <> id0 /\ k_heap k !! id = Some cc)).
  { intros id cc H. cbn in H. destruct (Nat.eq_dec id id0) as [->|Hne].
    - rewrite lookup_insert_eq in H. left. split; congruence.
    - rewrite lookup_insert_ne in H by congruence. right. auto. }
  split.
  - destruct Ht; split; assumption.
  - destruct Hl; split; assumption.
  - split; cbn [K_put k_W k_heap k_nref k_max].
    + intros l w Hin. destruct (w_wf k Hw l w Hin) as (cc & H1 & H2 & H3 & H4).
      destruct (Nat.eq_dec (w_clause w) id0) as [E|E].
      * exists c'. rewrite E, lookup_insert_eq. rewrite E, Hc0 in H1.
        inversion H1; subst cc. rewrite !Hmem. repeat split; auto.
        rewrite H2, Hlits. reflexivity.
      * exists cc. rewrite lookup_insert_ne by congruence. auto.
    + intros id cc H. apply Hlk in H. destruct H as [[-> ->]|[_ H]];
        [|exact (w_cl k Hw id cc H)].
      destruct (w_cl k Hw id0 c Hc0) as (H1 & H2 & H3).
      split; [rewrite Hlits in H1; exact H1|]. split; [exact H2|].
      intros x Hx. apply H3, Hmem, Hx.
    + intros id cc l H. apply Hlk in H. destruct H as [[-> ->]|[_ H]];
        [|exact (w_pres k Hw id cc l H)].
      rewrite Hpc. destruct (w_pres k Hw id0 c l Hc0) as [H|H];
        [left; exact H|right].
      destruct H as (t & H1 & H2 & H3). exists t. rewrite Hmem. auto.
    + intros id Hid. rewrite lookup_insert_ne; [exact (w_fresh k Hw id Hid)|].
      intros ->. rewrite (w_fresh k Hw id Hid) in Hc0. discriminate.
  - intros id cc i l H Hi Hx Hp. apply Hlk in H.
    destruct H as [[-> ->]|[_ H]]; [|exact (HJ id cc i l H Hi Hx Hp)].
    assert (Hold : exists i', (i' < 2)%nat /\ cc_lits c !! i' = Some l).
    { rewrite Hlits. cbn in Hx. destruct i as [|[|i]]; [| |lia].
      - exists 1%nat. split; [lia|exact Hx].
      - exists 0%nat. split; [lia|exact Hx]. }
    destruct Hold as (i' & Hi' & Hx').
    destruct (HJ id0 c i' l Hc0 Hi' Hx' Hp) as [[-> H]|H].
    + left. split; [reflexivity|]. rewrite Hpc. exact H.
    + right. destruct H as (t & H1 & H2 & H3). exists t. rewrite Hmem. auto.
Qed.


(** The visited watch moves to an unassigned literal of its clause. *)
Lemma loop_migrate lit acc w rest c a tl j lk k :
  CInvX (ex_loop lit (w :: rest) false) k ->
  k_W k (- lit) = acc ++ w :: rest ->
  k_heap k !! w_clause w = Some c ->
  cc_lits c = a :: - lit :: tl -> tl !! j = Some lk ->
  kval k lk = 0 -> lit ∈ k_trail k ->
  CInvX (ex_loop lit rest false)
    (K_setW lk (k_W k lk ++ [mkWatch (- lit) (w_size w) (w_clause w)])
       (K_put (w_clause w)
          (mkCC (a :: lk :: <[j := - lit]> tl) (cc_red c) (cc_garb c))
          (K_setW (- lit) (acc ++ rest) k))).
Proof.
  intros [Ht Hl Hw HJ] HW Hc0 Hlits Hj Hlk Hlit.
  set (id0 := w_clause w) in *.
  set (c' := mkCC (a :: lk :: <[j := - lit]> tl) (cc_red c) (cc_garb c)).
  set (nw := mkWatch (- lit) (w_size w) id0).
  set (k' := K_setW lk _ _).
  assert (Hne : lk <> - lit).
  { intros ->. assert (kval k (- lit) < 0); [|lia].
    apply kval_false; [exact Ht|]. rewrite Z.opp_involutive. exact Hlit. }
  assert (Hmem : forall x, x ∈ cc_lits c' <-> x ∈ cc_lits c).
  { intros x. rewrite Hlits. cbn [cc_lits c'].
    rewrite !elem_of_cons, <- (elem_of_cons tl x (- lit)),
      <- (elem_of_insert_swap tl j lk (- lit) x Hj), !elem_of_cons. tauto. }
  assert (Hlen : length (cc_lits c') = length (cc_lits c))
    by (rewrite Hlits; cbn; rewrite length_insert; reflexivity).
  assert (Hpc' : forall l, pcount l (cc_lits c')
            = ((if Z.eq_dec a l then 1 else 0)
               + (if Z.eq_dec lk l then 1 else 0))%nat)
    by (intros l; apply pcount_two).
  assert (Hpc : forall l, pcount l (cc_lits c)
            = ((if Z.eq_dec a l then 1 else 0)
               + (if Z.eq_dec (- lit) l then 1 else 0))%nat)
    by (intros l; rewrite Hlits; apply pcount_two).
  assert (HW' : forall l, k_W k' l
            = if Z.eq_dec l lk then k_W k lk ++ [nw]
              else if Z.eq_dec l (- lit) then acc ++ rest else k_W k l).
  { intros l. cbn. unfold insert, fn_insert.
    destruct (decide_rel _ _ _) as [E|E], (Z.eq_dec l lk) as [E1|E1];
      try congruence; [reflexivity|].
    destruct (decide_rel _ _ _) as [E2|E2], (Z.eq_dec l (- lit)) as [E3|E3];
      try congruence; reflexivity. }
  assert (Hhp : k_heap k' = <[id0 := c']> (k_heap k)) by reflexivity.
  assert (Hlk' : forall id cc, k_heap k' !! id = Some cc ->
            (id = id0 /\ cc = c') \/ (id <> id0 /\ k_heap k !! id = Some cc)).
  { intros id cc H. rewrite Hhp in H.
    destruct (Nat.eq_dec id id0) as [->|Hn].
    - rewrite lookup_insert_eq in H. left. split; congruence.
    - rewrite lookup_insert_ne in H by congruence. right. auto. }
  assert (Hwsz : w_size w = length (cc_lits c)).
  { destruct (w_wf k Hw (- lit) w) as (cc & H1 & H2 & _);
      [rewrite HW; set_solver|].
    fold id0 in H1. rewrite Hc0 in H1. inversion H1; subst cc. exact H2. }
  assert (Hwf_old : forall l x, x ∈ k_W k l ->
            exists cc, k_heap k' !! w_clause x = Some cc /\
                       w_size x = length (cc_lits cc) /\
                       l ∈ cc_lits cc /\ blit x ∈ cc_lits cc).
  { intros l x Hin. destruct (w_wf k Hw l x Hin) as (cc & H1 & H2 & H3 & H4).
    rewrite Hhp. destruct (Nat.eq_dec (w_clause x) id0) as [E|E].
    - exists c'. rewrite E, lookup_insert_eq. rewrite E, Hc0 in H1.
      inversion H1; subst cc. rewrite Hlen, !Hmem. auto.
    - exists cc. rewrite lookup_insert_ne by congruence. auto. }
  assert (Hcw : forall id, wcount (acc ++ w :: rest) id
            = ((if Nat.eq_dec id0 id then 1 else 0)
               + wcount (acc ++ rest) id)%nat).
  { intros id. rewrite !wcount_app, wcount_cons. fold id0. lia. }
  split.
  - destruct Ht; split; assumption.
  - destruct Hl; split; assumption.
  - split.
    + intros l x Hin. rewrite HW' in Hin.
      destruct (Z.eq_dec l lk) as [->|E1].
      * apply elem_of_app in Hin. destruct Hin as [Hin|Hin];
          [exact (Hwf_old lk x Hin)|].
        apply list_elem_of_singleton in Hin. subst x.
        exists c'. rewrite Hhp. cbn [w_clause nw w_size blit].
        rewrite lookup_insert_eq, Hlen, !Hmem.
        split; [reflexivity|]. split; [exact Hwsz|]. rewrite Hlits.
        split; [|set_solver].
        rewrite !elem_of_cons. right. right.
        eapply list_elem_of_lookup_2. exact Hj.
      * destruct (Z.eq_dec l (- lit)) as [->|E2];
          [|exact (Hwf_old l x Hin)].
        apply (Hwf_old (- lit) x). rewrite HW. set_solver.
    + intros id cc H. apply Hlk' in H. destruct H as [[-> ->]|[_ H]];
        [|exact (w_cl k Hw id cc H)].
      destruct (w_cl k Hw id0 c Hc0) as (H1 & H2 & H3).
      split; [rewrite Hlen; exact H1|]. split; [exact H2|].
      intros x Hx. apply H3, Hmem, Hx.
    + intros id cc l H. apply Hlk' in H. rewrite HW'.
      destruct H as [[-> ->]|[Hnid H]].
      * destruct (w_pres k Hw id0 c l Hc0) as [Hp|Hp].
        2: { right. destruct Hp as (t & H1 & H2 & H3). exists t.
             rewrite Hmem. auto. }
        left. rewrite Hpc', Hpc in *.
        destruct (Z.eq_dec l lk) as [->|E1].
        -- rewrite wcount_app, wcount_cons, wcount_nil. cbn [w_clause nw].
           destruct (Z.eq_dec (- lit) lk); [congruence|].
           destruct (Nat.eq_dec id0 id0); [|congruence].
           destruct (Z.eq_dec lk lk); [|congruence]. lia.
        -- destruct (Z.eq_dec lk l); [congruence|].
           destruct (Z.eq_dec l (- lit)) as [->|E2].
           ++ rewrite HW, Hcw in Hp.
              destruct (Z.eq_dec (- lit) (- lit)); [|congruence].
              destruct (Nat.eq_dec id0 id0); [|congruence]. lia.
           ++ destruct (Z.eq_dec (- lit) l); [congruence|]. exact Hp.
      * destruct (w_pres k Hw id cc l H) as [Hp|Hp]; [left|right; exact Hp].
        destruct (Z.eq_dec l lk) as [->|E1].
        -- rewrite wcount_app. lia.
        -- destruct (Z.eq_dec l (- lit)) as [->|E2]; [|exact Hp].
           rewrite HW, Hcw in Hp.
           destruct (Nat.eq_dec id0 id); [congruence|]. exact Hp.
    + intros id Hid. rewrite Hhp.
      rewrite lookup_insert_ne; [exact (w_fresh k Hw id Hid)|].
      intros <-. rewrite (w_fresh k Hw id0 Hid) in Hc0. discriminate.
  - intros id cc i l H Hi Hx Hp. apply Hlk' in H.
    destruct H as [[-> ->]|[Hnid H]].
    + apply lookup_two in Hx; [|exact Hi].
      destruct Hx as [(tl' & E & ->)|(a' & tl' & E & ->)];
        cbn [cc_lits c'] in E; inversion E; subst.
      * assert (Hx' : cc_lits c !! 0%nat = Some l)
          by (rewrite Hlits; reflexivity).
        destruct (HJ id0 c 0%nat l Hc0 ltac:(lia) Hx' Hp) as [[-> [H|H]]|H];
          [discriminate| |].
        -- left. split; [reflexivity|]. right.
           rewrite Hpc'. rewrite Hpc, wcount_cons in H. fold id0 in H.
           destruct (Z.eq_dec lk (- lit)); [congruence|].
           destruct (Z.eq_dec (- lit) (- lit)); [|congruence].
           destruct (Nat.eq_dec id0 id0); [|congruence]. lia.
        -- right. destruct H as (t & H1 & H2 & H3). exists t.
           rewrite Hmem. auto.
      * exfalso. destruct Hp as (j' & _ & Hj').
        apply list_elem_of_lookup_2 in Hj'.
        apply (kval_false k l Ht) in Hj'. lia.
    + destruct (HJ id cc i l H Hi Hx Hp) as [[-> [H'|H']]|H'];
        [discriminate| |right; exact H'].
      left. split; [reflexivity|]. right.
      rewrite wcount_cons in H'. fold id0 in H'.
      destruct (Nat.eq_dec id0 id); [congruence|]. exact H'.
Qed.

(** ** [propagate]: a visit keeps the loop invariant *)

Lemma core_ext k1 k2 :
  k_max k1 = k_max k2 -> k_vals k1 = k_vals k2 -> k_ph k1 = k_ph k2 ->
  k_lv k1 = k_lv k2 -> k_trail k1 = k_trail k2 -> k_pn k1 = k_pn k2 ->
  k_level k1 = k_level k2 -> k_decs k1 = k_decs k2 ->
  (forall l, k_W k1 l = k_W k2 l) -> k_heap k1 = k_heap k2 ->
  k_nref k1 = k_nref k2 -> k_unsat k1 = k_unsat k2 ->
  k_conf k1 = k_conf k2 -> k1 = k2.
Proof.
  destruct k1, k2. cbn. intros. subst.
  f_equal. apply functional_extensionality. assumption.
Qed.

Ltac core_eq :=
  apply core_ext; try reflexivity;
  let l := fresh "l" in
  intros l; cbn; unfold insert, fn_insert;
  repeat (destruct (decide_rel _ _ _)); try congruence; try reflexivity.

Lemma K_setW_setW l ws ws' k : K_setW l ws (K_setW l ws' k) = K_setW l ws k.
Proof. core_eq. Qed.

Lemma K_put_same id c k : k_heap k !! id = Some c -> K_put id c k = k.
Proof.
  intros H. apply core_ext; try reflexivity. cbn. apply insert_id. exact H.
Qed.

Lemma core_heap_lookup s id cc :
  k_heap (core s) !! id = Some cc <->
  exists c, heap s !! id = Some c /\ cc = cview c.
Proof.
  cbn. rewrite lookup_fmap. destruct (heap s !! id) as [c|]; cbn.
  - split; [intros H; exists c; split; congruence|].
    intros (c' & H1 & H2). congruence.
  - split; [discriminate|]. intros (c' & H1 & _). discriminate.
Qed.

Lemma core_set_lits s id c lits :
  core (set_heap (<[id := set_literals lits c]> (heap s)) s)
  = K_put id (mkCC lits (c_redundant c) (c_garbage c)) (core s).
Proof.
  apply core_ext; try reflexivity. cbn. rewrite fmap_insert. reflexivity.
Qed.

(** The visited watch stays, maybe with another blocking literal, which
    is true. *)
Lemma ls_keep lit acc w w' rest s :
  LoopSt lit acc (w :: rest) s -> has_conflict s = false ->
  w_clause w' = w_clause w -> w_size w' = w_size w ->
  0 < val s (blit w') ->
  (forall c, heap s !! w_clause w = Some c -> blit w' ∈ literals c) ->
  LoopSt lit (acc ++ [w']) rest s.
Proof.
  intros (Hinv & Hlit & Hlv) Hcf Hcl Hsz Hv Hb.
  unfold LoopSt. rewrite Hcf in *. split; [|split; assumption].
  rewrite <- app_assoc. cbn [app].
  assert (Hb' : forall c, k_heap (core s) !! w_clause w = Some c ->
                          blit w' ∈ cc_lits c).
  { intros c Hc. apply core_heap_lookup in Hc.
    destruct Hc as (c0 & H1 & ->). apply Hb, H1. }
  apply (watch_replace _ (- lit) acc w w' rest) in Hinv;
    [|cbn; apply fn_lookup_insert|exact Hcl|exact Hsz|exact Hb'].
  rewrite K_setW_setW in Hinv.
  apply (loop_advance lit w' rest); [|..].
  - eapply CInvX_mono; [|exact Hinv].
    intros id c l [-> [H|H]]; [discriminate|].
    split; [reflexivity|]. right.
    rewrite wcount_cons, Hcl. rewrite wcount_cons in H. exact H.
  - intros c Hc. exists (blit w'). rewrite Hcl in Hc.
    split; [apply Hb', Hc|].
    apply (kval_true _ _ (ci_trail _ _ Hinv)). exact Hv.
  - exact Hlv.
Qed.

(** The visited clause is the conflict. *)
Lemma ls_conflict lit acc w rest s :
  LoopSt lit acc (w :: rest) s -> has_conflict s = false ->
  LoopSt lit (acc ++ [w]) rest (set_conflict (Some (w_clause w)) s).
Proof.
  intros (Hinv & Hlit & Hlv) Hcf. unfold LoopSt. rewrite Hcf in *.
  split; [|split; assumption].
  rewrite <- app_assoc. cbn [app].
  apply (loop_conflict lit (w :: rest) rest) in Hinv. exact Hinv.
Qed.

(** The visited clause is unit: its unassigned literal is assigned. *)
Lemma ls_assign lit acc w rest s x s1 :
  LoopSt lit acc (w :: rest) s -> has_conflict s = false ->
  assign x (Some (w_clause w)) s = Some s1 ->
  (forall c, heap s !! w_clause w = Some c -> x ∈ literals c) ->
  (exists c, heap s !! w_clause w = Some c) ->
  LoopSt lit (acc ++ [w]) rest s1.
Proof.
  intros (Hinv & Hlit & Hlv) Hcf Ha Hx [c Hc]. unfold LoopSt.
  rewrite Hcf in *.
  apply core_assign in Ha. destruct Ha as [Hz Hcore].
  assert (Hxin : x ∈ cc_lits (cview c)) by (apply Hx, Hc).
  assert (Hcc : k_heap (core s) !! w_clause w = Some (cview c))
    by (apply core_heap_lookup; eauto).
  assert (Hr : in_range (core s) x)
    by (apply (proj2 (proj2 (w_cl _ (ci_watches _ _ Hinv) _ _ Hcc))), Hxin).
  assert (Hne : Z.abs lit <> Z.abs x).
  { apply (trail_abs_ne (core s)); [|exact Hz|exact Hlit].
    destruct (ci_trail _ _ Hinv); split; assumption. }
  assert (Hlv1 : llv (K_assign x (core s)) lit = level s).
  { unfold llv. cbn. rewrite fn_lookup_insert_ne by congruence. exact Hlv. }
  apply (CInv_assign _ _ x) in Hinv; [|exact Hz|exact Hr].
  assert (Hcf1 : has_conflict s1 = false).
  { change (k_conf (core s1) = false). rewrite Hcore. exact Hcf. }
  split; [|split].
  - rewrite Hcf1, Hcore, <- app_assoc. cbn [app].
    apply (loop_advance lit w rest) in Hinv; [exact Hinv| |exact Hlv1].
    intros c' Hc'. exists x. split.
    + cbn in Hc'. change (k_heap (core s) !! w_clause w = Some c') in Hc'.
      rewrite Hcc in Hc'. inversion Hc'; subst c'. exact Hxin.
    + cbn. apply elem_of_app. right. apply list_elem_of_singleton.
      reflexivity.
  - change (lit ∈ k_trail (core s1)). rewrite Hcore. cbn.
    apply elem_of_app. left. exact Hlit.
  - change (llv (core s1) lit = k_level (core s1)). rewrite Hcore.
    exact Hlv1.
Qed.

(** The two watched literals of the visited clause change places. *)
Lemma ls_reorder lit acc rest s id c a b tl :
  LoopSt lit acc rest s ->
  heap s !! id = Some c -> literals c = a :: b :: tl ->
  LoopSt lit acc rest
         (set_heap (<[id := set_literals (b :: a :: tl) c]> (heap s)) s).
Proof.
  intros (Hinv & Hlit & Hlv) Hc Hlits. unfold LoopSt.
  split; [|split; assumption].
  rewrite core_set_lits.
  apply (loop_reorder lit rest _ id (cview c) a b tl) in Hinv;
    [exact Hinv| |exact Hlits].
  change (k_heap (core s) !! id = Some (cview c)).
  apply core_heap_lookup. eauto.
Qed.

(** The visited watch moves to an unassigned literal. *)
Lemma ls_migrate lit acc w rest s c a tl j lk :
  LoopSt lit acc (w :: rest) s -> has_conflict s = false ->
  heap s !! w_clause w = Some c ->
  literals c = a :: - lit :: tl -> tl !! j = Some lk -> val s lk = 0 ->
  c_size c = w_size w ->
  LoopSt lit acc rest
    (watch_literal lk (- lit) (w_clause w) (c_size c)
       (set_heap (<[w_clause w
                    := set_literals (a :: lk :: <[j := - lit]> tl) c]>
                    (heap s)) s)).
Proof.
  intros (Hinv & Hlit & Hlv) Hcf Hc Hlits Hj Hlk Hsz. unfold LoopSt.
  match goal with
  | |- CInvX (ex_loop _ _ ?b) _ /\ _ => change b with (has_conflict s)
  end.
  rewrite Hcf in *. split; [|split; assumption].
  assert (Hne : lk <> - lit).
  { intros ->. assert (kval (core s) (- lit) < 0);
      [|rewrite val_kval in Hlk; lia].
    apply kval_false; [destruct (ci_trail _ _ Hinv); split; assumption|].
    rewrite Z.opp_involutive. exact Hlit. }
  apply (loop_migrate lit acc w rest (cview c) a tl j lk) in Hinv;
    [|cbn; apply fn_lookup_insert
     |change (k_heap (core s) !! w_clause w = Some (cview c));
      apply core_heap_lookup; eauto
     |exact Hlits|exact Hj|exact Hlk|exact Hlit].
  match goal with
  | H : CInvX _ ?k1 |- CInvX _ ?k2 =>
      replace k2 with k1; [exact H|]
  end.
  apply core_ext; try reflexivity.
  - intros l. cbn. unfold watches, insert, fn_insert. cbn. rewrite Hsz.
    repeat (destruct (decide_rel _ _ _)); try congruence; reflexivity.
  - cbn. rewrite fmap_insert. reflexivity.
Qed.

(** The positioning of the visited clause: [- lit] comes to slot 1. *)
Lemma ls_position lit acc rest s id c a0 a1 lits l0 :
  LoopSt lit acc rest s -> heap s !! id = Some c ->
  literals c !! 0%nat = Some a0 -> literals c !! 1%nat = Some a1 ->
  (if a1 =? - lit then Some (literals c) else swap_lits 0 1 (literals c))
    = Some lits ->
  lits !! 0%nat = Some l0 -> lits !! 1%nat = Some (- lit) ->
  exists tl, lits = l0 :: - lit :: tl /\ length lits = c_size c /\
    LoopSt lit acc rest
           (set_heap (<[id := set_literals lits c]> (heap s)) s).
Proof.
  intros HL Hc H0 H1 Hl Hl0 Hl1.
  destruct (literals c) as [|b0 [|b1 tl]] eqn:Hlits; try discriminate.
  cbn in H0, H1. inversion H0; inversion H1; subst b0 b1. exists tl.
  destruct (a1 =? - lit).
  - inversion Hl; subst lits. cbn in Hl0, Hl1.
    inversion Hl0; inversion Hl1; subst.
    split; [reflexivity|]. split; [unfold c_size; rewrite Hlits; reflexivity|].
    destruct HL as (Hinv & Hlit & Hlv). unfold LoopSt.
    split; [|split; assumption].
    rewrite core_set_lits, K_put_same; [exact Hinv|].
    apply core_heap_lookup. exists c. split; [exact Hc|].
    unfold cview. rewrite Hlits. reflexivity.
  - cbn in Hl. inversion Hl; subst lits. cbn in Hl0, Hl1.
    inversion Hl0; inversion Hl1; subst.
    split; [reflexivity|]. split; [unfold c_size; rewrite Hlits; reflexivity|].
    apply (ls_reorder lit acc rest s id c (- lit) l0 tl HL Hc Hlits).
Qed.

Lemma visit_LoopSt lit w acc rest s r s' :
  LoopSt lit acc (w :: rest) s -> has_conflict s = false ->
  visit lit w s = Some (r, s') ->
  LoopSt lit (acc ++ option_list r) rest s'.
Proof.
  intros HL Hcf H.
  assert (Hwf : exists c, heap s !! w_clause w = Some c /\
                          w_size w = c_size c /\ blit w ∈ literals c).
  { destruct HL as (Hinv & _ & _).
    destruct (w_wf _ (ci_watches _ _ Hinv) (- lit) w) as (cc & H1 & H2 & _ & H4).
    - cbn. rewrite fn_lookup_insert. set_solver.
    - change (k_heap (core s) !! w_clause w = Some cc) in H1.
      apply core_heap_lookup in H1. destruct H1 as (c & H1 & ->).
      exists c. auto. }
  destruct Hwf as (c & Hc & Hsz & Hb).
  assert (Hbc : forall c', heap s !! w_clause w = Some c' ->
                           blit w ∈ literals c')
    by (intros c' Hc'; rewrite Hc in Hc'; inversion Hc'; subst; exact Hb).
  unfold visit in H.
  destruct (Z.ltb_spec 0 (val s (blit w))) as [Hpos|Hnpos].
  { inversion H; subst. apply (ls_keep lit acc w w rest s' HL Hcf); auto. }
  destruct (Nat.eqb_spec (w_size w) 2) as [Hbin|Hnbin].
  { destruct (Z.ltb_spec (val s (blit w)) 0).
    - inversion H; subst. apply ls_conflict; assumption.
    - destruct (assign (blit w) _ s) as [s1|] eqn:Ha; cbn in H;
        [|discriminate].
      inversion H; subst. apply (ls_assign _ _ _ _ _ _ _ HL Hcf Ha Hbc).
      eauto. }
  rewrite Hc in H. cbn [mbind option_bind] in H.
  destruct (Nat.eqb_spec (c_size c) (w_size w)) as [_|];
    cbn [check mbind option_bind] in H; [|discriminate].
  destruct (literals c !! 0%nat) as [a0|] eqn:Ha0;
    cbn [mbind option_bind] in H; [|discriminate].
  destruct (literals c !! 1%nat) as [a1|] eqn:Ha1;
    cbn [mbind option_bind] in H; [|discriminate].
  match type of H with
  | (?m ≫= _) = _ =>
      destruct m as [lits|] eqn:Hl; cbn [mbind option_bind] in H;
        [|discriminate]
  end.
  destruct (lits !! 0%nat) as [l0|] eqn:Hl0; cbn [mbind option_bind] in H;
    [|discriminate].
  destruct (lits !! 1%nat) as [l1|] eqn:Hl1; cbn [mbind option_bind] in H;
    [|discriminate].
  destruct (Z.eqb_spec l1 (- lit)) as [->|]; cbn [check mbind option_bind] in H;
    [|discriminate].
  destruct (ls_position _ _ _ _ _ _ _ _ _ _ HL Hc Ha0 Ha1 Hl Hl0 Hl1)
    as (tl & Elits & Hlen & HL1).
  set (c1 := set_literals lits c) in *.
  set (s1 := set_heap (<[w_clause w := c1]> (heap s)) s) in *.
  assert (Hc1 : heap s1 !! w_clause w = Some c1)
    by (cbn; apply lookup_insert_eq).
  assert (Hcf1 : has_conflict s1 = false) by exact Hcf.
  assert (Hin1 : forall x, x ∈ lits ->
            forall c', heap s1 !! w_clause w = Some c' -> x ∈ literals c').
  { intros x Hx c' Hc'. rewrite Hc1 in Hc'. inversion Hc'; subst c'.
    exact Hx. }
  destruct (Z.ltb_spec 0 (val s1 l0)) as [Hu|Hu].
  { inversion H; subst r s'.
    apply (ls_keep lit acc w (set_blit l0 w) rest s1 HL1 Hcf1); auto.
    apply Hin1. rewrite Elits. set_solver. }
  destruct (scan s1 2 (drop 2 lits) 0) as [k v] eqn:Hs.
  apply scan_spec in Hs. rewrite Elits in Hs.
  change (drop 2 (l0 :: - lit :: tl)) with tl in Hs.
  destruct (list_find (fun l => ~ val s1 l < 0) tl) as [[j lk]|];
    cbv beta iota in Hs.
  - destruct Hs as (-> & -> & Hj & Hnn).
    assert (Hlkj : lits !! (2 + j)%nat = Some lk)
      by (rewrite Elits; exact Hj).
    destruct (Z.ltb_spec 0 (val s1 lk)) as [Hv|Hv].
    { rewrite Hlkj in H. cbn [mbind option_bind] in H.
      inversion H; subst r s'.
      apply (ls_keep lit acc w (set_blit lk w) rest s1 HL1 Hcf1); auto.
      apply Hin1. eapply list_elem_of_lookup_2. exact Hlkj. }
    destruct (Z.eqb_spec (val s1 lk) 0) as [Hz|Hnz]; [|lia].
    assert (Hsw : swap_lits 1 (2 + j) lits
                  = Some (l0 :: lk :: <[j := - lit]> tl)).
    { unfold swap_lits. rewrite Hl1, Hlkj. cbn. rewrite Elits. reflexivity. }
    rewrite Hsw in H. cbn [mbind option_bind lookup list_lookup] in H.
    inversion H; subst r s'. cbn [option_list]. rewrite app_nil_r.
    pose proof (ls_migrate lit acc w rest s1 c1 l0 tl j lk HL1 Hcf1 Hc1
                  Elits Hj Hz) as HM.
    assert (Ecs : c_size c1 = c_size c)
      by (unfold c_size at 1; cbn; exact Hlen).
    rewrite Ecs in HM. exact (HM (eq_sym Hsz)).
  - destruct Hs as [(Hnil & -> & ->)|(_ & Hv)].
    { exfalso. cbn in H. unfold swap_lits in H.
      rewrite Hl1 in H. cbn in H.
      destruct (lits !! 2%nat) eqn:E2; [|discriminate].
      rewrite Elits in E2. cbn in E2.
      match goal with Hnil : tl = [] |- _ => rewrite Hnil in E2 end.
      discriminate. }
    destruct (Z.ltb_spec 0 v); [lia|].
    destruct (Z.eqb_spec v 0); [lia|].
    destruct (Z.eqb_spec (val s1 l0) 0).
    + destruct (assign l0 _ s1) as [s2|] eqn:Ha; cbn in H; [|discriminate].
      inversion H; subst r s'.
      apply (ls_assign _ _ _ _ _ _ _ HL1 Hcf1 Ha); [|eauto].
      apply Hin1. rewrite Elits. set_solver.
    + inversion H; subst r s'. apply ls_conflict; assumption.
Qed.

(** ** [propagate] keeps the invariant *)

Lemma visit_all_LoopSt lit : forall ws acc s ws' s',
  LoopSt lit acc ws s -> visit_all lit ws acc s = Some (ws', s') ->
  exists acc' rest',
    ws' = acc' ++ rest' /\ LoopSt lit acc' rest' s' /\
    (has_conflict s' = false -> rest' = []).
Proof.
  induction ws as [|w rest IH]; intros acc s ws' s' HL H; simpl in H.
  - inversion H; subst. exists ws', []. rewrite app_nil_r. auto.
  - destruct (has_conflict s) eqn:Hcf.
    + inversion H; subst. exists acc, (w :: rest).
      split; [reflexivity|]. split; [exact HL|]. congruence.
    + destruct (visit lit w s) as [[r s1]|] eqn:Hv; simpl in H;
        [|discriminate].
      apply (IH _ _ _ _ (visit_LoopSt _ _ _ _ _ _ _ HL Hcf Hv) H).
Qed.

Lemma J_weaken (ex ex' : nat -> CClause -> Z -> Prop) k :
  (forall id c i l,
     k_heap k !! id = Some c -> (i < 2)%nat -> cc_lits c !! i = Some l ->
     ex id c l -> ex' id c l \/ Jwit k c l) ->
  J ex k -> J ex' k.
Proof.
  intros Hex HJ id c i l Hc Hi Hl Hp.
  destruct (HJ id c i l Hc Hi Hl Hp) as [H|H]; [|right; exact H].
  exact (Hex id c i l Hc Hi Hl H).
Qed.

(** Picking the next literal of the trail starts the loop. *)
Lemma LoopSt_start s lit :
  CInvX (ex_conf (core s)) (core s) -> has_conflict s = false ->
  trail s !! propagate_next s = Some lit ->
  LoopSt lit [] (watches s (- lit))
         (set_propagate_next (S (propagate_next s)) s).
Proof.
  intros [Ht Hl Hw HJ] Hcf Hlit.
  set (s2 := set_propagate_next (S (propagate_next s)) s).
  assert (Hk : K_setW (- lit) ([] ++ watches s (- lit)) (core s2)
               = K_pn (S (propagate_next s)) (core s)).
  { apply core_ext; try reflexivity. intros l. cbn.
    unfold watches, insert, fn_insert.
    destruct (decide_rel _ _ _) as [<-|]; reflexivity. }
  assert (Hlv : llv (core s) lit = level s)
    by (apply (lv_unprop _ Hl (propagate_next s)); [cbn; lia|exact Hlit]).
  split; [|split].
  - rewrite Hk. change (has_conflict s2) with (has_conflict s). rewrite Hcf.
    split.
    + destruct Ht; split; assumption.
    + destruct Hl as [H1 H2 H3 H4 H5]. split; try assumption.
      * intros i l Hi Hlk. apply (H4 i l); [cbn in *; lia|exact Hlk].
      * cbn in *. apply lookup_lt_Some in Hlit. lia.
    + destruct Hw; split; assumption.
    + intros id c i l Hc Hi Hx (j & Hj & Hlk). cbn in Hj, Hlk.
      destruct (Nat.eq_dec j (propagate_next s)) as [->|Hne].
      * assert (El : l = - lit)
          by (rewrite Hlit in Hlk; inversion Hlk; lia).
        subst l. clear Hlk.
        destruct (w_pres _ Hw id c (- lit) Hc) as [H|H].
        -- left. split; [reflexivity|]. right. exact H.
        -- right. destruct H as (t & H1 & H2 & H3). exists t.
           split; [exact H1|]. split; [exact H2|].
           change (llv (core s) t <= llv (core s) (- lit))%nat. lia.
      * destruct (HJ id c i l Hc Hi Hx) as [[H _]|H].
        -- exists j. split; [cbn; lia|exact Hlk].
        -- cbn in H. congruence.
        -- right. exact H.
  - eapply list_elem_of_lookup_2. exact Hlit.
  - exact Hlv.
Qed.

(** Writing the watch list back ends the loop. *)
Lemma LoopSt_end lit acc rest s :
  LoopSt lit acc rest s -> (has_conflict s = false -> rest = []) ->
  CInvX (ex_conf (core (set_watches (- lit) (acc ++ rest) s)))
        (core (set_watches (- lit) (acc ++ rest) s)).
Proof.
  intros ([Ht Hl Hw HJ] & Hlit & Hlv) Hrest.
  change (core (set_watches (- lit) (acc ++ rest) s))
    with (K_setW (- lit) (acc ++ rest) (core s)).
  split; try assumption.
  eapply J_weaken; [|exact HJ].
  intros id c i l Hc Hi Hx [-> [Hcf|Hcnt]].
  - left. split; [exact Hcf|]. rewrite llv_opp. exact Hlv.
  - destruct (has_conflict s) eqn:Hcf.
    + left. split; [exact Hcf|]. rewrite llv_opp. exact Hlv.
    + rewrite (Hrest eq_refl) in Hcnt. rewrite wcount_nil in Hcnt.
      pose proof (pcount_pos _ _ _ Hi Hx). lia.
Qed.

(** ** Steps that keep the original clauses *)

Lemma core_le_refl k : core_le k k.
Proof.
  split; [reflexivity|]. split; [reflexivity|]. split; [auto|].
  intros id c Hc. exists c. auto.
Qed.

Lemma core_le_trans k1 k2 k3 : core_le k1 k2 -> core_le k2 k3 -> core_le k1 k3.
Proof.
  intros (A1 & A2 & A3 & A4) (B1 & B2 & B3 & B4).
  split; [congruence|]. split; [congruence|]. split.
  - intros t Ht Hl. destruct (A3 t Ht Hl) as [H1 H2]. exact (B3 t H1 H2).
  - intros id c Hc. destruct (A4 id c Hc) as (c' & H1 & H2 & H3).
    destruct (B4 id c' H1) as (c'' & H4 & H5 & H6).
    exists c''. split; [exact H4|]. split; [congruence|]. auto.
Qed.

Lemma orig_ok_le origs k k' : orig_ok origs k -> core_le k k' -> orig_ok origs k'.
Proof.
  intros Ho (_ & _ & Hr & Hh) cl Hcl.
  destruct (Ho cl Hcl) as [(t & H1 & H2 & H3)|(id & c & H1 & H2 & H3)].
  - left. exists t. destruct (Hr t H2 H3). auto.
  - right. destruct (Hh id c H1) as (c' & H4 & H5 & H6).
    exists id, c'. split; [exact H4|]. split; [congruence|]. auto.
Qed.

Lemma core_le_frame k k' :
  k_unsat k' = k_unsat k -> k_max k' = k_max k -> k_trail k' = k_trail k ->
  k_lv k' = k_lv k -> k_heap k' = k_heap k -> core_le k k'.
Proof.
  intros H1 H2 H3 H4 H5. split; [exact H1|]. split; [exact H2|].
  unfold llv. rewrite H3, H4, H5. split; [auto|].
  intros id c Hc. exists c. auto.
Qed.

Lemma core_le_put id c lits g k :
  k_heap k !! id = Some c -> (forall x, x ∈ lits -> x ∈ cc_lits c) ->
  core_le k (K_put id (mkCC lits (cc_red c) g) k).
Proof.
  intros Hc Hl. split; [reflexivity|]. split; [reflexivity|]. split; [auto|].
  intros id' c' Hc'. cbn. destruct (Nat.eq_dec id' id) as [->|Hne].
  - rewrite lookup_insert_eq. eexists. split; [reflexivity|].
    rewrite Hc in Hc'. inversion Hc'; subst c'. auto.
  - rewrite lookup_insert_ne by congruence. exists c'. auto.
Qed.

Lemma core_le_assign x k :
  trail_ok k -> k_vals k (Z.abs x) = 0 -> core_le k (K_assign x k).
Proof.
  intros Ht Hz. split; [reflexivity|]. split; [reflexivity|]. split.
  - intros t Hin Hl. split; [cbn; apply elem_of_app; left; exact Hin|].
    unfold llv. cbn. rewrite fn_lookup_insert_ne; [exact Hl|].
    intros E. exact (trail_abs_ne k x t Ht Hz Hin (eq_sym E)).
  - intros id c Hc. exists c. auto.
Qed.

Lemma swap_lits_mem i j l l' x :
  swap_lits i j l = Some l' -> x ∈ l' -> x ∈ l.
Proof.
  unfold swap_lits. intros H Hx.
  destruct (l !! i) as [a|] eqn:Hi; simpl in H; [|discriminate].
  destruct (l !! j) as [b|] eqn:Hj; simpl in H; [|discriminate].
  inversion H; subst l'.
  apply list_elem_of_lookup in Hx. destruct Hx as (n & Hn).
  destruct (Nat.eq_dec n j) as [->|Hnj].
  - rewrite list_lookup_insert_eq in Hn
      by (rewrite length_insert; eapply lookup_lt_Some; exact Hj).
    inversion Hn; subst. eapply list_elem_of_lookup_2; exact Hi.
  - rewrite list_lookup_insert_ne in Hn by congruence.
    destruct (Nat.eq_dec n i) as [->|Hni].
    + rewrite list_lookup_insert_eq in Hn
        by (eapply lookup_lt_Some; exact Hi).
      inversion Hn; subst. eapply list_elem_of_lookup_2; exact Hj.
    + rewrite list_lookup_insert_ne in Hn by congruence.
      eapply list_elem_of_lookup_2; exact Hn.
Qed.

Lemma trail_ok_frame k k' :
  k_trail k' = k_trail k -> k_vals k' = k_vals k -> k_max k' = k_max k ->
  k_ph k' = k_ph k -> trail_ok k -> trail_ok k'.
Proof.
  intros H1 H2 H3 H4 [A B C D]. split; unfold in_range;
    rewrite ?H1, ?H2, ?H3, ?H4; assumption.
Qed.

Lemma assign_le x r s s' :
  trail_ok (core s) -> assign x r s = Some s' ->
  core_le (core s) (core s').
Proof.
  intros Ht Ha. apply core_assign in Ha. destruct Ha as [Hz ->].
  apply core_le_assign; assumption.
Qed.

Lemma set_lits_le s id c lits :
  heap s !! id = Some c -> (forall x, x ∈ lits -> x ∈ literals c) ->
  core_le (core s)
          (core (set_heap (<[id := set_literals lits c]> (heap s)) s)).
Proof.
  intros Hc Hl. rewrite core_set_lits.
  apply (core_le_put id (cview c) lits (c_garbage c)); [|exact Hl].
  apply core_heap_lookup. eauto.
Qed.

Lemma visit_le lit w s r s' :
  trail_ok (core s) -> visit lit w s = Some (r, s') ->
  core_le (core s) (core s').
Proof.
  intros Ht H. unfold visit in H.
  destruct (0 <? val s (blit w)).
  { inversion H; subst. apply core_le_refl. }
  destruct (w_size w =? 2)%nat.
  { destruct (val s (blit w) <? 0).
    - inversion H; subst. apply core_le_frame; reflexivity.
    - destruct (assign _ _ s) as [s1|] eqn:Ha; cbn in H; [|discriminate].
      inversion H; subst. exact (assign_le _ _ _ _ Ht Ha). }
  destruct (heap s !! w_clause w) as [c|] eqn:Hc;
    cbn [mbind option_bind] in H; [|discriminate].
  destruct (check _); cbn [mbind option_bind] in H; [|discriminate].
  destruct (literals c !! 0%nat) as [a0|];
    cbn [mbind option_bind] in H; [|discriminate].
  destruct (literals c !! 1%nat) as [a1|];
    cbn [mbind option_bind] in H; [|discriminate].
  match type of H with
  | (?m ≫= _) = _ =>
      destruct m as [lits|] eqn:Hl; cbn [mbind option_bind] in H;
        [|discriminate]
  end.
  assert (Hmem : forall x, x ∈ lits -> x ∈ literals c).
  { intros x Hx. destruct (a1 =? - lit).
    - inversion Hl; subst. exact Hx.
    - eapply swap_lits_mem; eassumption. }
  destruct (lits !! 0%nat) as [l0|]; cbn [mbind option_bind] in H;
    [|discriminate].
  destruct (lits !! 1%nat) as [l1|]; cbn [mbind option_bind] in H;
    [|discriminate].
  destruct (check _); cbn [mbind option_bind] in H; [|discriminate].
  set (s1 := set_heap (<[w_clause w := set_literals lits c]> (heap s)) s) in *.
  assert (H1 : core_le (core s) (core s1)) by (apply set_lits_le; assumption).
  assert (Ht1 : trail_ok (core s1))
    by (revert Ht; apply trail_ok_frame; reflexivity).
  destruct (0 <? val s1 l0); [inversion H; subst; exact H1|].
  destruct (scan s1 2 (drop 2 lits) 0) as [k v].
  destruct (0 <? v).
  { destruct (lits !! k); cbn in H; [|discriminate].
    inversion H; subst; exact H1. }
  destruct (v =? 0).
  { destruct (swap_lits 1 k lits) as [lits'|] eqn:Hsw;
      cbn [mbind option_bind] in H; [|discriminate].
    destruct (lits' !! 1%nat); cbn [mbind option_bind] in H; [|discriminate].
    inversion H; subst r s'. eapply core_le_trans; [exact H1|].
    eapply core_le_trans; [|apply core_le_frame; reflexivity].
    apply (set_lits_le s1 (w_clause w) (set_literals lits c)).
    - cbn. apply lookup_insert_eq.
    - intros x Hx. cbn. eapply swap_lits_mem; eassumption. }
  destruct (val s1 l0 =? 0).
  - destruct (assign _ _ s1) as [s2|] eqn:Ha; cbn in H; [|discriminate].
    inversion H; subst. eapply core_le_trans; [exact H1|].
    exact (assign_le _ _ _ _ Ht1 Ha).
  - inversion H; subst. eapply core_le_trans; [exact H1|].
    apply core_le_frame; reflexivity.
Qed.

Lemma LoopSt_trail_ok lit acc rest s : LoopSt lit acc rest s -> trail_ok (core s).
Proof.
  intros ([Ht _ _ _] & _). revert Ht. apply trail_ok_frame; reflexivity.
Qed.

Lemma visit_all_le lit : forall ws acc s ws' s',
  LoopSt lit acc ws s -> visit_all lit ws acc s = Some (ws', s') ->
  core_le (core s) (core s').
Proof.
  induction ws as [|w rest IH]; intros acc s ws' s' HL H; simpl in H.
  - inversion H; subst. apply core_le_refl.
  - destruct (has_conflict s) eqn:Hcf.
    + inversion H; subst. apply core_le_refl.
    + destruct (visit lit w s) as [[r s1]|] eqn:Hv; simpl in H;
        [|discriminate].
      eapply core_le_trans.
      * exact (visit_le _ _ _ _ _ (LoopSt_trail_ok _ _ _ _ HL) Hv).
      * exact (IH _ _ _ _ (visit_LoopSt _ _ _ _ _ _ _ HL Hcf Hv) H).
Qed.

Lemma propagate_loop_Inv : forall fuel s s',
  CInvX (ex_conf (core s)) (core s) ->
  propagate_loop fuel s = Some s' ->
  CInvX (ex_conf (core s')) (core s') /\
  (has_conflict s' = false -> propagate_next s' = length (trail s')) /\
  core_le (core s) (core s').
Proof.
  induction fuel as [|fuel IH]; intros s s' Hinv H; simpl in H;
    [discriminate|].
  destruct (has_conflict s) eqn:Hcf.
  { inversion H; subst. split; [exact Hinv|].
    split; [congruence|apply core_le_refl]. }
  destruct (Nat.ltb_spec (propagate_next s) (length (trail s))) as [Hlt|Hge];
    cbn [negb] in H.
  2: { inversion H; subst. split; [exact Hinv|]. split; [|apply core_le_refl].
       intros _. pose proof (lv_pn _ (ci_levels _ _ Hinv)) as Hp.
       cbn in Hp. lia. }
  destruct (trail s !! propagate_next s) as [lit|] eqn:Hlit; simpl in H;
    [|discriminate].
  destruct (check _); simpl in H; [|discriminate].
  match type of H with
  | (?m ≫= _) = _ => destruct m as [[ws s3]|] eqn:Hva; simpl in H;
                       [|discriminate]
  end.
  pose proof (LoopSt_start s lit Hinv Hcf Hlit) as HL.
  assert (Hle := Hva). apply (visit_all_le lit _ [] _ ws s3) in Hle;
    [|exact HL].
  apply (visit_all_LoopSt lit _ [] _ ws s3) in Hva; [|exact HL].
  destruct Hva as (acc' & rest' & -> & HL' & Hrest).
  apply IH in H; [|apply LoopSt_end; assumption].
  destruct H as (H1 & H2 & H3). split; [exact H1|]. split; [exact H2|].
  eapply core_le_trans; [|exact H3].
  eapply core_le_trans; [|eapply core_le_trans; [exact Hle|]];
    apply core_le_frame; reflexivity.
Qed.

Lemma propagate_Inv fuel s ok s' :
  CInvX (ex_conf (core s)) (core s) ->
  propagate fuel s = Some (ok, s') ->
  CInvX (ex_conf (core s')) (core s') /\
  core_le (core s) (core s') /\
  has_conflict s' = negb ok /\
  (ok = true -> propagate_next s' = length (trail s')).
Proof.
  intros Hinv H. unfold propagate in H.
  destruct (check _); simpl in H; [|discriminate].
  destruct (propagate_loop fuel s) as [s1|] eqn:Hp; simpl in H;
    [|discriminate].
  destruct (propagate_loop_Inv _ _ _ Hinv Hp) as (H1 & H2 & H3).
  unfold has_conflict in *.
  destruct (conflict s1) eqn:Hc; inversion H; subst ok s'.
  - split; [|split; [|split]].
    + assert (E : core (upd_stats (fun st => set_conflicts (conflicts st + 1) st) s1)
                  = core s1).
      { unfold core, has_conflict. cbn. rewrite Hc. reflexivity. }
      rewrite E. exact H1.
    + eapply core_le_trans; [exact H3|].
      apply core_le_frame; reflexivity.
    + cbn. rewrite Hc. reflexivity.
    + discriminate.
  - split; [exact H1|]. split; [exact H3|]. rewrite Hc.
    split; [reflexivity|]. intros _. apply H2. reflexivity.
Qed.
(** ** Adding a clause *)

Lemma levels_ok_frame k k' :
  k_trail k' = k_trail k -> k_lv k' = k_lv k -> k_pn k' = k_pn k ->
  k_level k' = k_level k -> k_decs k' = k_decs k ->
  levels_ok k -> levels_ok k'.
Proof.
  intros H1 H2 H3 H4 H5 [A B C D E].
  split; unfold llv; rewrite ?H1, ?H2, ?H3, ?H4, ?H5; assumption.
Qed.

Lemma core_new red glue s c s1 s2 :
  new_clause red glue s = (c, s1) -> watch_clause c s1 = Some s2 ->
  exists l0 l1,
    clause s !! 0%nat = Some l0 /\ clause s !! 1%nat = Some l1 /\
    c = next_ref s /\
    core s2 = K_new (clause s) red l0 l1 (core s).
Proof.
  intros Hn Hw. unfold new_clause in Hn.
  assert (Ec : c = next_ref s) by (inversion Hn; reflexivity).
  assert (Hh : heap s1 = <[c := mkClause red false false glue
                                 (conflicts (stats s)) (clause s)]> (heap s)
               /\ max_var s1 = max_var s /\ vals s1 = vals s
               /\ phases s1 = phases s /\ vars s1 = vars s
               /\ trail s1 = trail s /\ propagate_next s1 = propagate_next s
               /\ level s1 = level s /\ levels s1 = levels s
               /\ all_literal_watches s1 = all_literal_watches s
               /\ next_ref s1 = S c /\ unsat s1 = unsat s
               /\ conflict s1 = conflict s).
  { destruct red; inversion Hn; subst; cbn; repeat split; reflexivity. }
  clear Hn.
  destruct Hh as (Hh & E1 & E2 & E3 & E4 & E5 & E6 & E7 & E8 & E9 & E10
                  & E11 & E12).
  unfold watch_clause in Hw. rewrite Hh, lookup_insert_eq in Hw.
  cbn [mbind option_bind] in Hw.
  destruct (check _); cbn [mbind option_bind] in Hw; [|discriminate].
  cbn [literals] in Hw.
  destruct (clause s !! 0%nat) as [l0|] eqn:H0;
    cbn [mbind option_bind] in Hw; [|discriminate].
  destruct (clause s !! 1%nat) as [l1|] eqn:H1;
    cbn [mbind option_bind] in Hw; [|discriminate].
  exists l0, l1. split; [reflexivity|]. split; [reflexivity|].
  split; [exact Ec|]. inversion Hw; subst s2. clear Hw.
  apply core_ext; cbn; try congruence.
  - rewrite E4. reflexivity.
  - intros l. unfold watches. rewrite E9, Ec. reflexivity.
  - rewrite Hh, fmap_insert, Ec. reflexivity.
  - unfold has_conflict. cbn. rewrite E12. reflexivity.
Qed.

Lemma wcount_fresh k l id :
  watches_ok k -> (k_nref k <= id)%nat -> wcount (k_W k l) id = 0%nat.
Proof.
  intros Hw Hid. destruct (wcount (k_W k l) id) eqn:E; [reflexivity|].
  destruct (wcount_pos (k_W k l) id) as (w & Hin & Hc); [lia|].
  destruct (w_wf _ Hw l w Hin) as (c & Hc' & _).
  rewrite Hc, (w_fresh _ Hw id Hid) in Hc'. discriminate.
Qed.

Lemma root_sat_frame k k' lits :
  k_trail k' = k_trail k -> k_lv k' = k_lv k ->
  root_sat k lits -> root_sat k' lits.
Proof.
  intros H1 H2 (t & A & B & C). exists t. unfold llv.
  rewrite H1, H2. auto.
Qed.

Lemma Jwit_frame k k' c l :
  k_trail k' = k_trail k -> k_lv k' = k_lv k -> Jwit k c l -> Jwit k' c l.
Proof.
  intros H1 H2 (t & A & B & C). exists t. unfold llv.
  rewrite H1, H2. auto.
Qed.

Lemma K_new_W lits red l0 l1 k l :
  k_W (K_new lits red l0 l1 k) l
  = k_W k l
    ++ (if Z.eq_dec l0 l then [mkWatch l1 (length lits) (k_nref k)] else [])
    ++ (if Z.eq_dec l1 l then [mkWatch l0 (length lits) (k_nref k)] else []).
Proof.
  cbn. unfold insert, fn_insert.
  destruct (Z.eq_dec l0 l), (Z.eq_dec l1 l);
    repeat (match goal with
            | |- context [base.decide ?P] => destruct (base.decide P)
            end); try congruence; subst; cbn;
    rewrite ?app_nil_r, <- ?app_assoc; reflexivity.
Qed.

Lemma CInv_new ex k lits red l0 l1 :
  CInvX ex k -> lits !! 0%nat = Some l0 -> lits !! 1%nat = Some l1 ->
  (forall x, x ∈ lits -> in_range k x) ->
  CInvX (ex_new (k_nref k) ex) (K_new lits red l0 l1 k).
Proof.
  intros [Ht Hl Hw HJ] H0 H1 Hr.
  assert (Hlits : exists tl, lits = l0 :: l1 :: tl).
  { destruct lits as [|a [|b tl]]; try discriminate.
    inversion H0; inversion H1; subst. eauto. }
  destruct Hlits as (tl & ->).
  assert (Hfr : k_heap k !! k_nref k = None) by (apply (w_fresh _ Hw); lia).
  split.
  - revert Ht. apply trail_ok_frame; reflexivity.
  - revert Hl. apply levels_ok_frame; reflexivity.
  - split.
    + intros l w Hin. rewrite K_new_W in Hin.
      rewrite !elem_of_app in Hin. destruct Hin as [Hin|[Hin|Hin]].
      * destruct (w_wf _ Hw l w Hin) as (c & Hc & Hrest).
        exists c. split; [|exact Hrest]. cbn.
        rewrite lookup_insert_ne; [exact Hc|]. congruence.
      * destruct (Z.eq_dec l0 l) as [<-|]; [|inversion Hin].
        apply list_elem_of_singleton in Hin. subst w. cbn.
        rewrite lookup_insert_eq. eexists. split; [reflexivity|]. cbn.
        split; [reflexivity|]. rewrite !elem_of_cons. auto.
      * destruct (Z.eq_dec l1 l) as [<-|]; [|inversion Hin].
        apply list_elem_of_singleton in Hin. subst w. cbn.
        rewrite lookup_insert_eq. eexists. split; [reflexivity|]. cbn.
        split; [reflexivity|]. rewrite !elem_of_cons. auto.
    + intros id c Hc. cbn in Hc.
      destruct (Nat.eq_dec id (k_nref k)) as [->|Hne].
      * rewrite lookup_insert_eq in Hc. inversion Hc; subst c. cbn.
        split; [lia|]. split; [reflexivity|]. exact Hr.
      * rewrite lookup_insert_ne in Hc by congruence.
        exact (w_cl _ Hw id c Hc).
    + intros id c l Hc. cbn in Hc. rewrite K_new_W, !wcount_app.
      destruct (Nat.eq_dec id (k_nref k)) as [->|Hne].
      * rewrite lookup_insert_eq in Hc. inversion Hc; subst c. cbn [cc_lits].
        left. rewrite pcount_two.
        destruct (Z.eq_dec l0 l), (Z.eq_dec l1 l);
          rewrite ?wcount_cons, ?wcount_nil; cbn [w_clause];
          destruct (Nat.eq_dec (k_nref k) (k_nref k)); try congruence; lia.
      * rewrite lookup_insert_ne in Hc by congruence.
        destruct (w_pres _ Hw id c l Hc) as [H|H]; [left; lia|right].
        revert H. apply root_sat_frame; reflexivity.
    + intros id Hid. cbn in *. rewrite lookup_insert_ne by lia.
      apply (w_fresh _ Hw). lia.
  - intros id c i l Hc Hi Hx Hp. cbn in Hc.
    destruct (Nat.eq_dec id (k_nref k)) as [->|Hne]; [left; left; reflexivity|].
    rewrite lookup_insert_ne in Hc by congruence.
    destruct (HJ id c i l Hc Hi Hx Hp) as [H|H].
    + left. right. exact H.
    + right. revert H. apply Jwit_frame; reflexivity.
Qed.

Lemma core_le_new lits red l0 l1 k :
  k_heap k !! k_nref k = None -> core_le k (K_new lits red l0 l1 k).
Proof.
  intros Hfr. split; [reflexivity|]. split; [reflexivity|]. split; [auto|].
  intros id c Hc. exists c. cbn. rewrite lookup_insert_ne; [auto|].
  congruence.
Qed.
(** ** [analyze] keeps the invariant *)

Lemma CInvX_conf ex b k : CInvX ex k -> CInvX ex (K_conf b k).
Proof.
  intros [Ht Hl Hw HJ]. split.
  - revert Ht. apply trail_ok_frame; reflexivity.
  - revert Hl. apply levels_ok_frame; reflexivity.
  - destruct Hw; split; assumption.
  - exact HJ.
Qed.

Lemma core_le_backtrack t k : core_le k (K_backtrack t k).
Proof.
  split; [reflexivity|]. split; [reflexivity|]. split.
  - intros x Hx Hl. split; [|exact Hl]. cbn.
    apply list_elem_of_filter. split; [lia|exact Hx].
  - intros id c Hc. exists c. auto.
Qed.

Lemma trail_not_both k l :
  trail_ok k -> l ∈ k_trail k -> - l ∈ k_trail k -> False.
Proof.
  intros Ht H1 H2. apply (kval_true k l Ht) in H1.
  apply (kval_true k (- l) Ht) in H2. rewrite (kval_opp k l Ht) in H2. lia.
Qed.

(** The learned clause after the jump: its first literal is assigned at
    the level of its second one. *)
Lemma CInv_learned k lits l0 l1 :
  CInvX (ex_conf k) k ->
  lits !! 0%nat = Some l0 -> lits !! 1%nat = Some l1 ->
  (forall x, x ∈ lits -> in_range k x) ->
  (llv k l1 < k_level k)%nat ->
  k_vals (K_backtrack (llv k l1) (K_new lits true l0 l1 k)) (Z.abs l0) = 0 ->
  CInvX ex_none
    (K_conf false
       (K_assign l0 (K_backtrack (llv k l1) (K_new lits true l0 l1 k)))).
Proof.
  intros Hinv H0 H1 Hr Hlt Hz.
  set (k1 := K_new lits true l0 l1 k).
  set (k2 := K_backtrack (llv k l1) k1) in *.
  assert (I1 : CInvX (ex_new (k_nref k) (ex_conf k)) k1)
    by (apply CInv_new; assumption).
  assert (I2 : CInvX (ex_new (k_nref k) ex_none) k2).
  { apply (CInv_backtrack (ex_new (k_nref k) (ex_conf k))); [exact I1|exact Hlt|].
    intros id c x [E|[_ E]] Hle; [left; exact E|].
    change (llv k1 x) with (llv k x) in Hle. lia. }
  assert (Hr0 : in_range k2 l0).
  { apply Hr. eapply list_elem_of_lookup_2. exact H0. }
  assert (I3 : CInvX (ex_new (k_nref k) ex_none) (K_assign l0 k2))
    by (apply CInv_assign; assumption).
  apply CInvX_conf with (b := false) in I3.
  destruct I3 as [Ht Hl Hw HJ]. split; try assumption.
  eapply J_weaken; [|exact HJ].
  intros id c i l Hc Hi Hx [->|[]]. right.
  cbn in Hc. rewrite lookup_insert_eq in Hc. inversion Hc; subst c.
  cbn [cc_lits] in *.
  assert (Hin0 : l0 ∈ k_trail (K_conf false (K_assign l0 k2)))
    by (cbn; apply elem_of_app; right; apply list_elem_of_singleton;
        reflexivity).
  exists l0. split; [eapply list_elem_of_lookup_2; exact H0|].
  split; [exact Hin0|].
  destruct (lookup_two _ _ _ Hi Hx) as [(tl & E & ->)|(a & tl & E & ->)].
  - rewrite E in H0. inversion H0; subst. lia.
  - rewrite E in H1. cbn in H1. inversion H1; subst l.
    unfold llv. cbn. rewrite fn_lookup_insert.
    destruct (Z.eq_dec (Z.abs l1) (Z.abs l0)) as [Ea|Ea].
    + rewrite Ea, fn_lookup_insert. lia.
    + rewrite fn_lookup_insert_ne by congruence. unfold llv. lia.
Qed.

(** The learned unit after the jump to the root level. *)
Lemma CInv_learned_unit k l0 :
  CInvX (ex_conf k) k -> in_range k l0 -> (0 < k_level k)%nat ->
  k_vals (K_backtrack 0 k) (Z.abs l0) = 0 ->
  CInvX ex_none (K_conf false (K_assign l0 (K_backtrack 0 k))).
Proof.
  intros Hinv Hr Hlt Hz.
  apply CInvX_conf. apply CInv_assign; [|exact Hz|exact Hr].
  apply (CInv_backtrack (ex_conf k)); [exact Hinv|exact Hlt|].
  intros id c x [_ E] Hle. lia.
Qed.

Lemma core_same s s' :
  max_var s' = max_var s -> vals s' = vals s -> phases s' = phases s ->
  (forall idx, v_level (vars s' idx) = v_level (vars s idx)) ->
  trail s' = trail s -> propagate_next s' = propagate_next s ->
  level s' = level s -> decision <$> levels s' = decision <$> levels s ->
  all_literal_watches s' = all_literal_watches s ->
  cview <$> heap s' = cview <$> heap s -> next_ref s' = next_ref s ->
  unsat s' = unsat s -> conflict s' = conflict s ->
  core s' = core s.
Proof.
  intros H1 H2 H3 H4 H5 H6 H7 H8 H9 H10 H11 H12 H13.
  apply core_ext; cbn; try congruence.
  - apply functional_extensionality. exact H4.
  - unfold has_conflict. rewrite H13. reflexivity.
Qed.

Lemma upd_var_level idx f s :
  (forall v, v_level (f v) = v_level v) ->
  forall i, v_level (vars (upd_var idx f s) i) = v_level (vars s i).
Proof.
  intros Hf i. unfold upd_var. cbn. unfold insert, fn_insert.
  destruct (decide_rel _ _ _) as [<-|]; [apply Hf|reflexivity].
Qed.

Lemma fmap_insert_same {A B} (f : A -> B) (l : list A) i x y :
  l !! i = Some x -> f y = f x -> f <$> <[i := y]> l = f <$> l.
Proof.
  intros Hl Hf. rewrite list_fmap_insert, Hf.
  apply list_insert_id. rewrite list_lookup_fmap, Hl. reflexivity.
Qed.

Lemma heap_insert_same (h : gmap nat Clause) id c c' :
  h !! id = Some c -> cview c' = cview c ->
  cview <$> <[id := c']> h = cview <$> h.
Proof.
  intros Hl Hc. rewrite fmap_insert, Hc.
  apply insert_id. rewrite lookup_fmap, Hl. reflexivity.
Qed.

Lemma bump_clause_core c s s' :
  bump_clause c s = Some s' ->
  core s' = core s /\ trail s' = trail s /\
  (forall id, literals <$> heap s' !! id = literals <$> heap s !! id).
Proof.
  unfold bump_clause. intros H.
  destruct (heap s !! c) as [cl|] eqn:Hc; cbn in H; [|discriminate].
  destruct (c_redundant cl); cbn in H; inversion H; subst s'; clear H.
  - split; [|split; [reflexivity|]].
    + apply core_same; try reflexivity. cbn.
      eapply heap_insert_same; [exact Hc|reflexivity].
    + intros id. cbn. destruct (Nat.eq_dec id c) as [->|Hne].
      * rewrite lookup_insert_eq, Hc. reflexivity.
      * rewrite lookup_insert_ne by congruence. reflexivity.
  - auto.
Qed.

Lemma analyze_literal_frame lit s b s' :
  analyze_literal lit s = Some (b, s') ->
  core s' = core s /\ heap s' = heap s /\ trail s' = trail s /\
  (forall x, x ∈ clause s' -> x ∈ clause s \/ x = lit).
Proof.
  unfold analyze_literal. intros H.
  destruct (v_seen (var s lit)); [inversion H; subst; auto|].
  destruct (v_level (var s lit) =? 0)%nat; [inversion H; subst; auto|].
  destruct (check _); cbn [mbind option_bind] in H; [|discriminate].
  match type of H with
  | (levels ?s1 !! _ ≫= _) = _ =>
      assert (Hs1 : levels s1 = levels s /\ core s1 = core s /\
                    heap s1 = heap s /\ trail s1 = trail s /\
                    forall x, x ∈ clause s1 -> x ∈ clause s \/ x = lit);
      [|set (s1' := s1) in *]
  end.
  { destruct (_ <? _)%nat; cbn; repeat split; auto.
    intros x Hx. apply elem_of_app in Hx.
    rewrite list_elem_of_singleton in Hx. exact Hx. }
  destruct Hs1 as (E1 & E2 & E3 & E4 & E5).
  destruct (levels s1' !! v_level (var s lit)) as [lv|] eqn:Hlv;
    cbn [mbind option_bind] in H; [|discriminate].
  inversion H; subst b s'. clear H.
  split; [|split; [|split]].
  - rewrite <- E2. apply core_same;
      try (destruct (l_seen lv =? 0); reflexivity).
    + intros idx. destruct (l_seen lv =? 0); cbn;
        unfold insert, fn_insert;
        (destruct (decide_rel _ _ _) as [<-|]; reflexivity).
    + destruct (l_seen lv =? 0); cbn;
        (eapply fmap_insert_same; [exact Hlv|reflexivity]).
  - rewrite <- E3. destruct (l_seen lv =? 0); reflexivity.
  - rewrite <- E4. destruct (l_seen lv =? 0); reflexivity.
  - intros x Hx. apply E5. destruct (l_seen lv =? 0); exact Hx.
Qed.

Lemma analyze_reason_frame : forall lits open s open' s',
  analyze_reason lits open s = Some (open', s') ->
  core s' = core s /\ heap s' = heap s /\ trail s' = trail s /\
  (forall x, x ∈ clause s' -> x ∈ clause s \/ x ∈ lits).
Proof.
  induction lits as [|lit rest IH]; intros open s open' s' H; simpl in H.
  - inversion H; subst. auto.
  - destruct (analyze_literal lit s) as [[b s1]|] eqn:Hl; simpl in H;
      [|discriminate].
    apply analyze_literal_frame in Hl. destruct Hl as (A1 & A2 & A3 & A4).
    apply IH in H. destruct H as (B1 & B2 & B3 & B4).
    split; [congruence|]. split; [congruence|]. split; [congruence|].
    intros x Hx. rewrite elem_of_cons.
    destruct (B4 x Hx) as [H|H]; [|auto].
    destruct (A4 x H); auto.
Qed.

Lemma find_seen_trail s : forall i i' uip,
  find_seen i s = Some (i', uip) -> uip ∈ trail s.
Proof.
  induction i as [|i IH]; intros i' uip H; simpl in H; [discriminate|].
  destruct (trail s !! i) as [u|] eqn:Hu; simpl in H; [|discriminate].
  destruct (v_seen (var s u)).
  - inversion H; subst. eapply list_elem_of_lookup_2. exact Hu.
  - eapply IH. exact H.
Qed.

Lemma analyze_loop_frame : forall fuel reason open i s uip s',
  analyze_loop fuel reason open i s = Some (uip, s') ->
  core s' = core s /\ heap s' = heap s /\ uip ∈ trail s /\
  (forall x, x ∈ clause s' ->
     x ∈ clause s \/ exists id c, heap s !! id = Some c /\ x ∈ literals c).
Proof.
  induction fuel as [|fuel IH]; intros reason open i s uip s' H; simpl in H;
    [discriminate|].
  destruct (heap s !! reason) as [cl|] eqn:Hcl; simpl in H; [|discriminate].
  destruct (analyze_reason (literals cl) open s) as [[open1 s1]|] eqn:Hr;
    simpl in H; [|discriminate].
  apply analyze_reason_frame in Hr. destruct Hr as (A1 & A2 & A3 & A4).
  destruct (find_seen i s1) as [[i1 u]|] eqn:Hf; simpl in H; [|discriminate].
  apply find_seen_trail in Hf. rewrite A3 in Hf.
  assert (A5 : forall x, x ∈ clause s1 ->
     x ∈ clause s \/ exists id c, heap s !! id = Some c /\ x ∈ literals c).
  { intros x Hx. destruct (A4 x Hx); [auto|right; eauto]. }
  destruct (open1 - 1 =? 0).
  - inversion H; subst. auto.
  - destruct (v_reason (var s1 u)) as [r|]; simpl in H; [|discriminate].
    apply IH in H. destruct H as (B1 & B2 & B3 & B4).
    split; [congruence|]. split; [congruence|].
    split; [rewrite <- A3; exact B3|].
    intros x Hx. destruct (B4 x Hx) as [Hc|(id & c & Hc & Hin)].
    + apply A5. exact Hc.
    + right. rewrite A2 in Hc. eauto.
Qed.

Lemma core_upd_var idx f s :
  (forall v, v_level (f v) = v_level v) -> core (upd_var idx f s) = core s.
Proof.
  intros Hf. apply core_same; try reflexivity.
  apply upd_var_level. exact Hf.
Qed.

Lemma core_dequeue idx s : core (dequeue idx s) = core s.
Proof.
  unfold dequeue. cbv zeta.
  repeat match goal with
         | |- context [if ?b then _ else _] => destruct b
         end;
    rewrite ?core_upd_var by reflexivity; try reflexivity;
    change (core (upd_queue ?f ?s)) with (core s);
    rewrite ?core_upd_var by reflexivity; reflexivity.
Qed.

Lemma core_enqueue idx s : core (enqueue idx s) = core s.
Proof.
  unfold enqueue. cbv zeta.
  rewrite core_upd_var by reflexivity.
  change (core (upd_queue ?f ?s)) with (core s).
  destruct (negb _); rewrite ?core_upd_var by reflexivity;
    try reflexivity.
  change (core (upd_queue ?f ?s)) with (core s).
  rewrite core_upd_var by reflexivity. reflexivity.
Qed.

Lemma core_if_queue (b : bool) f s :
  core (if b then upd_queue f s else s) = core s.
Proof. destruct b; reflexivity. Qed.

Lemma core_upd_stats f s : core (upd_stats f s) = core s.
Proof. reflexivity. Qed.

Lemma core_bump_literal uip lit s : core (bump_literal uip lit s) = core s.
Proof.
  unfold bump_literal. cbv zeta.
  set (s1 := upd_var (vidx lit) (set_v_marks false) s).
  assert (E1 : core s1 = core s) by (apply core_upd_var; reflexivity).
  destruct (v_next (vars s1 (vidx lit)) =? 0); [exact E1|].
  rewrite core_if_queue.
  rewrite core_upd_var by reflexivity.
  rewrite core_upd_stats, core_enqueue, core_dequeue, core_if_queue.
  exact E1.
Qed.

Lemma core_bump_and_clear uip s :
  core (bump_and_clear_seen_literals uip s) = core s.
Proof.
  unfold bump_and_clear_seen_literals. cbv zeta.
  change (core (set_seen_literals ?x ?s)) with (core s).
  generalize (sort_by (bumped_earlier s) (seen_literals s)).
  generalize (if uip <? 0 then - uip else uip). intros u l. revert s.
  induction l as [|x l IH]; intros s; simpl; [reflexivity|].
  rewrite IH. apply core_bump_literal.
Qed.

Lemma fmap_alter_seen (ls : list Level) : forall i,
  decision <$> alter (set_l_seen 0) i ls = decision <$> ls.
Proof.
  induction ls as [|a ls IH]; intros [|i]; cbn; try reflexivity.
  f_equal. apply IH.
Qed.

Lemma core_clear_levels s : core (clear_levels s) = core s.
Proof.
  unfold clear_levels. cbv zeta. apply core_same; try reflexivity. cbn.
  generalize (levels s). induction (seen_levels s) as [|x l IH];
    intros ls; simpl; [reflexivity|].
  rewrite IH. apply fmap_alter_seen.
Qed.

Lemma learn_core uip glue s dc jump s' :
  learn uip glue s = Some (dc, jump, s') ->
  (dc = None /\ jump = 0%nat /\ core s' = core s) \/
  (exists lits l1,
     lits !! 0%nat = Some (- uip) /\ lits !! 1%nat = Some l1 /\
     (forall x, x ∈ lits -> x ∈ clause s) /\
     jump = llv (core s) l1 /\ (jump < level s)%nat /\
     core s' = K_new lits true (- uip) l1 (core s)).
Proof.
  unfold learn. intros H.
  destruct (length (clause s) =? 1)%nat.
  { inversion H; subst. left. auto. }
  right. cbv zeta in H.
  set (lits := sort_by (level_greater_than s) (clause s)) in *.
  set (s1 := set_clause lits s) in *.
  change (clause s1) with lits in H.
  destruct (lits !! 0%nat) as [c0|] eqn:H0; cbn [mbind option_bind] in H;
    [|discriminate].
  destruct (Z.eqb_spec c0 (- uip)) as [->|]; cbn [check mbind option_bind] in H;
    [|discriminate].
  unfold new_learned_clause in H.
  destruct (new_clause true glue s1) as [c s2] eqn:Hn.
  destruct (watch_clause c s2) as [s3|] eqn:Hw; cbn [mbind option_bind] in H;
    [|discriminate].
  destruct (core_new _ _ _ _ _ _ Hn Hw) as (l0 & l1 & A0 & A1 & Ec & Ecore).
  change (clause s1) with lits in A0, A1.
  rewrite H0 in A0. inversion A0; subst l0.
  assert (Ecl : clause s3 = lits).
  { unfold new_clause in Hn. inversion Hn; subst s2. clear Hn.
    unfold watch_clause in Hw.
    destruct (heap _ !! c) as [cl|]; cbn [mbind option_bind] in Hw;
      [|discriminate].
    destruct (check _); cbn [mbind option_bind] in Hw; [|discriminate].
    destruct (literals cl !! 0%nat); cbn [mbind option_bind] in Hw;
      [|discriminate].
    destruct (literals cl !! 1%nat); cbn [mbind option_bind] in Hw;
      [|discriminate].
    inversion Hw; subst s3. reflexivity. }
  rewrite Ecl, A1 in H. cbn [mbind option_bind] in H.
  destruct (Nat.ltb_spec (v_level (var s3 l1)) (level s3)) as [Hlt|];
    cbn [check mbind option_bind] in H; [|discriminate].
  inversion H; subst dc jump s'. clear H.
  assert (Elv : v_level (var s3 l1) = llv (core s) l1).
  { change (v_level (var s3 l1)) with (llv (core s3) l1).
    rewrite Ecore. reflexivity. }
  assert (Elev : level s3 = level s).
  { change (level s3) with (k_level (core s3)). rewrite Ecore. reflexivity. }
  exists lits, l1. split; [exact H0|]. split; [exact A1|]. split.
  - intros x Hx. unfold lits in Hx. rewrite sort_by_perm in Hx. exact Hx.
  - split; [exact Elv|]. split; [lia|]. exact Ecore.
Qed.

Lemma heap_in_range s id c x :
  watches_ok (core s) -> heap s !! id = Some c -> x ∈ literals c ->
  in_range (core s) x.
Proof.
  intros Hw Hc Hx.
  destruct (w_cl _ Hw id (cview c)) as (_ & _ & H).
  - apply core_heap_lookup. eauto.
  - apply H. exact Hx.
Qed.

Lemma in_range_opp k x : in_range k x -> in_range k (- x).
Proof. unfold in_range. intros [H1 H2]. split; lia. Qed.

Lemma analyze_Inv s s' :
  CInvX (ex_conf (core s)) (core s) -> analyze s = Some s' ->
  unsat s' = true \/
  (CInvX ex_none (core s') /\ core_le (core s) (core s') /\
   has_conflict s' = false).
Proof.
  intros Hinv H. unfold analyze in H.
  destruct (conflict s) as [cf|] eqn:Hcf; cbn [mbind option_bind] in H;
    [|discriminate].
  destruct (Nat.eqb_spec (level s) 0) as [Hl0|Hl0].
  { unfold learn_empty_clause in H.
    destruct (check _); cbn [mbind option_bind] in H; [|discriminate].
    inversion H; subst. left. reflexivity. }
  right.
  destruct (bump_clause cf s) as [s1|] eqn:Hb; cbn [mbind option_bind] in H;
    [|discriminate].
  destruct (bump_clause_core _ _ _ Hb) as (E1 & T1 & L1).
  destruct (bool_decide_reflect (clause s1 = [])) as [Hc1|];
    cbn [check mbind option_bind] in H; [|discriminate].
  destruct (bool_decide_reflect (seen_literals s1 = [])) as [Hc2|];
    cbn [check mbind option_bind] in H; [|discriminate].
  destruct (bool_decide_reflect (seen_levels s1 = [])) as [Hc3|];
    cbn [check mbind option_bind] in H; [|discriminate].
  destruct (analyze_loop _ cf 0 _ s1) as [[uip s2]|] eqn:Ha;
    cbn [mbind option_bind] in H; [|discriminate].
  destruct (analyze_loop_frame _ _ _ _ _ _ _ Ha) as (E2 & Hh2 & Hu & Hcl).
  rewrite T1 in Hu.
  rewrite <- E1 in Hinv.
  assert (Hr : forall x, x ∈ clause s2 ++ [- uip] -> in_range (core s1) x).
  { intros x Hx. apply elem_of_app in Hx. destruct Hx as [Hx|Hx].
    - destruct (Hcl x Hx) as [Hx'|(id & c & Hc & Hin)].
      + rewrite Hc1 in Hx'. inversion Hx'.
      + exact (heap_in_range _ _ _ _ (ci_watches _ _ Hinv) Hc Hin).
    - apply list_elem_of_singleton in Hx. subst x. apply in_range_opp.
      apply (tr_lit _ (ci_trail _ _ Hinv)). rewrite E1. exact Hu. }
  match type of H with
  | context [learn uip ?g ?s4] =>
      destruct (learn uip g s4) as [[[dc jump] s5]|] eqn:Hl;
        cbn [mbind option_bind] in H; [|discriminate];
      assert (E4 : core s4 = core s1) by (rewrite <- E2; reflexivity);
      assert (C4 : clause s4 = clause s2 ++ [- uip]) by reflexivity;
      assert (L4 : level s4 = level s)
        by (change (level s4) with (k_level (core s4)); rewrite E4, E1;
            reflexivity);
      apply learn_core in Hl; rewrite E4, C4, L4 in Hl
  end.
  match type of H with
  | context [backtrack jump ?s6] =>
      destruct (backtrack jump s6) as [s7|] eqn:Hbt;
        cbn [mbind option_bind] in H; [|discriminate];
      assert (E6 : core s6 = core s5) by reflexivity
  end.
  destruct (assign (- uip) dc s7) as [s8|] eqn:Has;
    cbn [mbind option_bind] in H; [|discriminate].
  apply core_assign in Has. destruct Has as [Hz E8].
  change (vals s7 (Z.abs (- uip))) with (k_vals (core s7) (Z.abs (- uip))) in Hz.
  inversion H; subst s'. clear H.
  match goal with
  | |- CInvX _ (core ?sf) /\ _ =>
      assert (Ef : core sf = K_conf false (core s8))
  end.
  { match goal with
    | |- core (set_conflict None ?x) = _ =>
        change (core (set_conflict None x)) with (K_conf false (core x))
    end.
    rewrite core_clear_levels.
    change (core (set_clause [] ?x)) with (core x).
    rewrite core_bump_and_clear. reflexivity. }
  rewrite Ef, E8. clear Ef E8.
  assert (Hr0 : in_range (core s1) (- uip)).
  { apply Hr. apply elem_of_app. right.
    apply list_elem_of_singleton. reflexivity. }
  assert (Hlv : (0 < k_level (core s1))%nat) by (rewrite E1; cbn; lia).
  destruct Hl as [(-> & -> & E5)|(lits & l1 & A0 & A1 & Asub & Ej & Hlt & E5)].
  - assert (T5 : trail_ok (core s5)) by (rewrite E5; apply Hinv).
    assert (L5 : levels_ok (core s5)) by (rewrite E5; apply Hinv).
    pose proof (fun T L => core_backtrack 0 _ _ T L Hbt) as E7.
    destruct (E7 T5 L5) as (_ & _ & E7a). clear E7. rename E7a into E7.
    assert (E7' : core s7 = K_backtrack 0 (core s1)).
    { rewrite <- E5. apply E7. change (0 < k_level (core s5))%nat.
      rewrite E5. exact Hlv. }
    clear E7. rewrite E7' in *.
    assert (I7 : CInvX ex_none (K_backtrack 0 (core s1))).
    { apply (CInv_backtrack (ex_conf (core s1))); [exact Hinv|exact Hlv|].
      intros id c x [_ E] Hle. lia. }
    split; [apply CInv_learned_unit; assumption|].
    split; [|reflexivity]. rewrite <- E1.
    eapply core_le_trans; [apply (core_le_backtrack 0)|].
    eapply core_le_trans; [|apply core_le_frame; reflexivity].
    apply core_le_assign; [exact (ci_trail _ _ I7)|exact Hz].
  - assert (Hrl : forall x, x ∈ lits -> in_range (core s1) x)
      by (intros x Hx; apply Hr, Asub, Hx).
    assert (I5 : CInvX (ex_new (k_nref (core s1)) (ex_conf (core s1)))
                       (core s5))
      by (rewrite E5; apply CInv_new; assumption).
    pose proof (fun T L => core_backtrack jump _ _ T L Hbt) as E7.
    destruct (E7 (ci_trail _ _ I5) (ci_levels _ _ I5)) as (_ & _ & E7a).
    clear E7. rename E7a into E7.
    assert (Hlt' : (jump < k_level (core s1))%nat)
      by (rewrite E1; cbn; exact Hlt).
    assert (E7' : core s7 = K_backtrack jump (core s5)).
    { apply E7. change (jump < k_level (core s5))%nat. rewrite E5. exact Hlt'. }
    clear E7. rewrite E7' in *. rewrite E5 in *. rewrite Ej in *.
    assert (I7 : trail_ok
              (K_backtrack (llv (core s1) l1)
                 (K_new lits true (- uip) l1 (core s1)))).
    { refine (ci_trail _ _
                (CInv_backtrack _ (fun _ _ _ => True) _ _ I5 _ _));
        [exact Hlt'|auto]. }
    split; [apply CInv_learned; assumption|].
    split; [|reflexivity]. rewrite <- E1.
    eapply core_le_trans.
    { apply (core_le_new lits true (- uip) l1).
      apply (w_fresh _ (ci_watches _ _ Hinv)). lia. }
    eapply core_le_trans; [apply (core_le_backtrack (llv (core s1) l1))|].
    eapply core_le_trans; [|apply core_le_frame; reflexivity].
    apply core_le_assign; [exact I7|exact Hz].
Qed.
(** ** [decide] keeps the invariant *)

Lemma CInv_decide ex k dec :
  CInvX ex k -> k_pn k = length (k_trail k) ->
  k_vals k (Z.abs dec) = 0 -> in_range k dec ->
  CInvX ex (K_assign dec (K_push dec k)).
Proof.
  intros [Ht Hl Hw HJ] Hpn Hz Hr.
  assert (Ht' : trail_ok (K_push dec k))
    by (revert Ht; apply trail_ok_frame; reflexivity).
  assert (Hw' : watches_ok (K_push dec k))
    by (destruct Hw; split; assumption).
  destruct (assign_parts ex (K_push dec k) dec Ht' Hw' HJ) as (P1 & P2 & P3);
    [cbn; lia|exact Hz|exact Hr|].
  split; [exact P1| |exact P2|exact P3].
  assert (Hne : forall t, t ∈ k_trail k -> Z.abs t <> Z.abs dec)
    by (intros t; apply trail_abs_ne; assumption).
  assert (Hlv : forall t, t ∈ k_trail k ->
                  llv (K_assign dec (K_push dec k)) t = llv k t).
  { intros t Hin. unfold llv. cbn. rewrite fn_lookup_insert_ne; [reflexivity|].
    intros E. exact (Hne t Hin (eq_sym E)). }
  assert (Hlvl : llv (K_assign dec (K_push dec k)) dec = S (k_level k)).
  { unfold llv. cbn. rewrite fn_lookup_insert. reflexivity. }
  split; cbn [k_decs k_level k_trail k_pn K_assign K_push].
  - rewrite length_app, (lv_len k Hl). simpl. lia.
  - intros t Hin. apply elem_of_app in Hin. destruct Hin as [Hin|Hin].
    + rewrite Hlv by exact Hin. pose proof (lv_le k Hl t Hin). lia.
    + apply list_elem_of_singleton in Hin. subst t. rewrite Hlvl. lia.
  - intros n d Hn Hd.
    destruct (Nat.lt_ge_cases n (length (k_decs k))) as [Hlt|Hge].
    + rewrite lookup_app_l in Hd by exact Hlt.
      destruct (lv_dec k Hl n d Hn Hd)
        as (Hdl & pre & post & E & Hpre & Hpost).
      assert (Hdin : d ∈ k_trail k).
      { rewrite E. apply elem_of_app. right. apply elem_of_cons. left.
        reflexivity. }
      split; [rewrite Hlv by exact Hdin; exact Hdl|].
      exists pre, (post ++ [dec]).
      split; [rewrite E, <- app_assoc; reflexivity|]. split.
      * intros t Hin. rewrite Hlv; [apply Hpre, Hin|].
        rewrite E. apply elem_of_app. left. exact Hin.
      * intros t Hin. apply elem_of_app in Hin. destruct Hin as [Hin|Hin].
        -- rewrite Hlv; [apply Hpost, Hin|].
           rewrite E. apply elem_of_app. right. apply elem_of_cons. right.
           exact Hin.
        -- apply list_elem_of_singleton in Hin. subst t. rewrite Hlvl.
           rewrite (lv_len k Hl) in Hlt. lia.
    + rewrite lookup_app_r in Hd by exact Hge.
      apply list_lookup_singleton_Some in Hd. destruct Hd as [Hn0 <-].
      assert (En : n = S (k_level k)) by (rewrite (lv_len k Hl) in *; lia).
      split; [rewrite Hlvl; lia|].
      exists (k_trail k), []. split; [reflexivity|]. split.
      * intros t Hin. rewrite Hlv by exact Hin.
        pose proof (lv_le k Hl t Hin). lia.
      * intros t Hin. inversion Hin.
  - intros i t Hi Hlk. rewrite Hpn in Hi.
    rewrite lookup_app_r in Hlk by exact Hi.
    apply list_lookup_singleton_Some in Hlk. destruct Hlk as [_ <-].
    exact Hlvl.
  - rewrite length_app. simpl. lia.
Qed.

Lemma core_le_push dec k : core_le k (K_push dec k).
Proof. apply core_le_frame; reflexivity. Qed.

Lemma CInvX_none_conf k : CInvX ex_none k -> CInvX (ex_conf k) k.
Proof. apply CInvX_mono. intros id c l []. Qed.

Lemma CInvX_conf_none k : k_conf k = false -> CInvX (ex_conf k) k -> CInvX ex_none k.
Proof.
  intros Hc. apply CInvX_mono. intros id c l [H _]. congruence.
Qed.
(** ** The links of the queue stay variable indices *)

Lemma qok_eq s s' :
  vars s' = vars s -> queue s' = queue s -> queue_ok s -> queue_ok s'.
Proof. unfold queue_ok. intros -> ->. auto. Qed.

Lemma qok_upd_var idx f s :
  (forall v, 0 <= v_prev v -> 0 <= v_next v ->
             0 <= v_prev (f v) /\ 0 <= v_next (f v)) ->
  queue_ok s -> queue_ok (upd_var idx f s).
Proof.
  intros Hf [Hq Hv]. split; [exact Hq|].
  intros i. unfold upd_var. cbn. unfold insert, fn_insert.
  destruct (decide_rel _ _ _) as [<-|]; [|apply Hv].
  destruct (Hv idx). apply Hf; assumption.
Qed.

Lemma qok_upd_queue f s :
  (forall q, 0 <= q_first q /\ 0 <= q_last q /\ 0 <= q_next q ->
             0 <= q_first (f q) /\ 0 <= q_last (f q) /\ 0 <= q_next (f q)) ->
  queue_ok s -> queue_ok (upd_queue f s).
Proof. intros Hf [Hq Hv]. split; [apply Hf, Hq|exact Hv]. Qed.

Lemma qok_prev s idx : queue_ok s -> 0 <= v_prev (vars s idx).
Proof. intros [_ H]. apply H. Qed.

Lemma qok_next s idx : queue_ok s -> 0 <= v_next (vars s idx).
Proof. intros [_ H]. apply H. Qed.

Lemma qok_set_next x s :
  0 <= x -> queue_ok s -> queue_ok (upd_queue (set_q_next x) s).
Proof. intros Hx. apply qok_upd_queue. cbn. intros q (A & B & C). auto. Qed.

Lemma qok_set_first x s :
  0 <= x -> queue_ok s -> queue_ok (upd_queue (set_q_first x) s).
Proof. intros Hx. apply qok_upd_queue. cbn. intros q (A & B & C). auto. Qed.

Lemma qok_set_last x s :
  0 <= x -> queue_ok s -> queue_ok (upd_queue (set_q_last x) s).
Proof. intros Hx. apply qok_upd_queue. cbn. intros q (A & B & C). auto. Qed.

Lemma qok_var_prev idx x s :
  0 <= x -> queue_ok s -> queue_ok (upd_var idx (set_v_prev x) s).
Proof. intros Hx. apply qok_upd_var. cbn. auto. Qed.

Lemma qok_var_next idx x s :
  0 <= x -> queue_ok s -> queue_ok (upd_var idx (set_v_next x) s).
Proof. intros Hx. apply qok_upd_var. cbn. auto. Qed.

Lemma qok_var_same idx f s :
  (forall v, v_prev (f v) = v_prev v /\ v_next (f v) = v_next v) ->
  queue_ok s -> queue_ok (upd_var idx f s).
Proof.
  intros Hf. apply qok_upd_var. intros v H1 H2. destruct (Hf v) as [-> ->].
  auto.
Qed.

Lemma vidx_nonneg l : 0 <= vidx l.
Proof. unfold vidx. lia. Qed.

Lemma assign_qok l r s s' : assign l r s = Some s' -> queue_ok s -> queue_ok s'.
Proof.
  unfold assign. intros H Hq.
  destruct (check _); cbn [mbind option_bind] in H; [|discriminate].
  inversion H; subst s'. clear H.
  destruct (level s =? 0)%nat;
    (apply (qok_var_same (vidx l) (set_v_assigned (level s) r));
     [intros v; split; reflexivity|exact Hq]).
Qed.

Lemma unassign_qok l s s' : unassign l s = Some s' -> queue_ok s -> queue_ok s'.
Proof.
  unfold unassign. intros H Hq.
  destruct (check _); cbn [mbind option_bind] in H; [|discriminate].
  destruct (_ >=? _); inversion H; subst s'; clear H.
  - exact Hq.
  - apply qok_set_next; [apply vidx_nonneg|exact Hq].
Qed.

Lemma backtrack_loop_qok d : forall n s s',
  backtrack_loop n d s = Some s' -> queue_ok s -> queue_ok s'.
Proof.
  induction n as [|n IH]; intros s s' H Hq; simpl in H; [discriminate|].
  destruct (list.last (trail s)) as [l|]; simpl in H; [|discriminate].
  destruct (unassign l s) as [s1|] eqn:Hu; simpl in H; [|discriminate].
  apply unassign_qok in Hu; [|exact Hq].
  destruct (l =? d).
  - inversion H; subst. exact Hu.
  - eapply IH; [exact H|exact Hu].
Qed.

Lemma backtrack_qok t s s' : backtrack t s = Some s' -> queue_ok s -> queue_ok s'.
Proof.
  unfold backtrack. intros H Hq.
  destruct (check _); cbn [mbind option_bind] in H; [|discriminate].
  destruct (t =? level s)%nat; [inversion H; subst; exact Hq|].
  destruct (levels s !! S t); cbn [mbind option_bind] in H; [|discriminate].
  destruct (backtrack_loop _ _ s) as [s1|] eqn:Hb;
    cbn [mbind option_bind] in H; [|discriminate].
  apply backtrack_loop_qok in Hb; [|exact Hq].
  inversion H; subst s'. destruct (_ <? _)%nat; exact Hb.
Qed.

Lemma visit_qok lit w s r s' :
  visit lit w s = Some (r, s') -> queue_ok s -> queue_ok s'.
Proof.
  intros H Hq. unfold visit in H.
  destruct (0 <? val s (blit w)); [inversion H; subst; exact Hq|].
  destruct (w_size w =? 2)%nat.
  { destruct (val s (blit w) <? 0).
    - inversion H; subst. exact Hq.
    - destruct (assign _ _ s) as [s1|] eqn:Ha; cbn in H; [|discriminate].
      inversion H; subst. exact (assign_qok _ _ _ _ Ha Hq). }
  destruct (heap s !! w_clause w) as [c|] eqn:Hc;
    cbn [mbind option_bind] in H; [|discriminate].
  destruct (check _); cbn [mbind option_bind] in H; [|discriminate].
  destruct (literals c !! 0%nat) as [a0|];
    cbn [mbind option_bind] in H; [|discriminate].
  destruct (literals c !! 1%nat) as [a1|];
    cbn [mbind option_bind] in H; [|discriminate].
  match type of H with
  | (?m ≫= _) = _ =>
      destruct m as [lits|] eqn:Hl; cbn [mbind option_bind] in H;
        [|discriminate]
  end.
  destruct (lits !! 0%nat) as [l0|]; cbn [mbind option_bind] in H;
    [|discriminate].
  destruct (lits !! 1%nat) as [l1|]; cbn [mbind option_bind] in H;
    [|discriminate].
  destruct (check _); cbn [mbind option_bind] in H; [|discriminate].
  set (s1 := set_heap (<[w_clause w := set_literals lits c]> (heap s)) s) in *.
  assert (H1 : queue_ok s1) by exact Hq.
  destruct (0 <? val s1 l0); [inversion H; subst; exact H1|].
  destruct (scan s1 2 (drop 2 lits) 0) as [k v].
  destruct (0 <? v).
  { destruct (lits !! k); cbn in H; [|discriminate].
    inversion H; subst; exact H1. }
  destruct (v =? 0).
  { destruct (swap_lits 1 k lits) as [lits'|] eqn:Hsw;
      cbn [mbind option_bind] in H; [|discriminate].
    destruct (lits' !! 1%nat); cbn [mbind option_bind] in H; [|discriminate].
    inversion H; subst r s'. exact Hq. }
  destruct (val s1 l0 =? 0).
  - destruct (assign _ _ s1) as [s2|] eqn:Ha; cbn in H; [|discriminate].
    inversion H; subst. exact (assign_qok _ _ _ _ Ha H1).
  - inversion H; subst. exact H1.
Qed.

Lemma visit_all_qok lit : forall ws acc s ws' s',
  visit_all lit ws acc s = Some (ws', s') -> queue_ok s -> queue_ok s'.
Proof.
  induction ws as [|w rest IH]; intros acc s ws' s' H Hq; simpl in H.
  - inversion H; subst. exact Hq.
  - destruct (has_conflict s).
    + inversion H; subst. exact Hq.
    + destruct (visit lit w s) as [[r s1]|] eqn:Hv; simpl in H;
        [|discriminate].
      eapply IH; [exact H|]. exact (visit_qok _ _ _ _ _ Hv Hq).
Qed.

Lemma propagate_loop_qok : forall fuel s s',
  propagate_loop fuel s = Some s' -> queue_ok s -> queue_ok s'.
Proof.
  induction fuel as [|fuel IH]; intros s s' H Hq; simpl in H; [discriminate|].
  destruct (has_conflict s); [inversion H; subst; exact Hq|].
  destruct (negb _); [inversion H; subst; exact Hq|].
  destruct (trail s !! propagate_next s) as [lit|]; simpl in H;
    [|discriminate].
  destruct (check _); simpl in H; [|discriminate].
  match type of H with
  | (?m ≫= _) = _ => destruct m as [[ws s3]|] eqn:Hva; simpl in H;
                       [|discriminate]
  end.
  apply visit_all_qok in Hva; [|exact Hq].
  eapply IH; [exact H|exact Hva].
Qed.

Lemma propagate_qok fuel s ok s' :
  propagate fuel s = Some (ok, s') -> queue_ok s -> queue_ok s'.
Proof.
  unfold propagate. intros H Hq.
  destruct (check _); simpl in H; [|discriminate].
  destruct (propagate_loop fuel s) as [s1|] eqn:Hp; simpl in H;
    [|discriminate].
  apply propagate_loop_qok in Hp; [|exact Hq].
  destruct (conflict s1); inversion H; subst; exact Hp.
Qed.

Lemma dequeue_qok idx s : queue_ok s -> queue_ok (dequeue idx s).
Proof.
  intros Hq. unfold dequeue. cbv zeta.
  assert (H1 : queue_ok
            (if negb (v_prev (vars s idx) =? 0)
             then upd_var (vidx (v_prev (vars s idx)))
                          (set_v_next (v_next (vars s idx))) s
             else upd_queue (set_q_first (v_next (vars s idx))) s)).
  { destruct (negb _).
    - apply qok_var_next; [apply qok_next|]; exact Hq.
    - apply qok_set_first; [apply qok_next|]; exact Hq. }
  revert H1. generalize (if negb (v_prev (vars s idx) =? 0)
             then upd_var (vidx (v_prev (vars s idx)))
                          (set_v_next (v_next (vars s idx))) s
             else upd_queue (set_q_first (v_next (vars s idx))) s).
  intros s1 H1. destruct (negb _).
  - apply qok_var_prev; [apply qok_prev|]; exact H1.
  - apply qok_set_last; [apply qok_prev|]; exact H1.
Qed.

Lemma enqueue_qok idx s : 0 <= idx -> queue_ok s -> queue_ok (enqueue idx s).
Proof.
  intros Hi Hq. unfold enqueue. cbv zeta.
  apply qok_var_next; [lia|]. apply qok_set_last; [exact Hi|].
  assert (H1 : queue_ok (upd_var idx (set_v_prev (q_last (queue s))) s))
    by (apply qok_var_prev; [apply Hq|exact Hq]).
  revert H1. generalize (upd_var idx (set_v_prev (q_last (queue s))) s).
  intros s1 H1. destruct (negb _).
  - apply qok_var_next; [exact Hi|exact H1].
  - apply qok_set_first; [exact Hi|exact H1].
Qed.

Lemma bump_literal_qok uip lit s :
  queue_ok s -> queue_ok (bump_literal uip lit s).
Proof.
  intros Hq. unfold bump_literal. cbv zeta.
  assert (H1 : queue_ok (upd_var (vidx lit) (set_v_marks false) s))
    by (apply qok_var_same; [intros v; split; reflexivity|exact Hq]).
  revert H1. generalize (upd_var (vidx lit) (set_v_marks false) s).
  intros s1 H1. destruct (v_next (vars s1 (vidx lit)) =? 0); [exact H1|].
  assert (H2 : queue_ok
            (if q_next (queue s1) =? vidx lit
             then upd_queue
                    (set_q_next
                       (if negb (v_prev (vars s1 (vidx lit)) =? 0)
                        then v_prev (vars s1 (vidx lit))
                        else v_next (vars s1 (vidx lit)))) s1
             else s1)).
  { destruct (q_next (queue s1) =? vidx lit); [|exact H1].
    apply qok_set_next; [|exact H1].
    destruct (negb _); [apply qok_prev|apply qok_next]; exact H1. }
  revert H2. generalize (if q_next (queue s1) =? vidx lit
             then upd_queue
                    (set_q_next
                       (if negb (v_prev (vars s1 (vidx lit)) =? 0)
                        then v_prev (vars s1 (vidx lit))
                        else v_next (vars s1 (vidx lit)))) s1
             else s1).
  intros s2 H2.
  assert (H3 : queue_ok (enqueue (vidx lit) (dequeue (vidx lit) s2)))
    by (apply enqueue_qok; [apply vidx_nonneg|apply dequeue_qok; exact H2]).
  revert H3. generalize (enqueue (vidx lit) (dequeue (vidx lit) s2)).
  intros s3 H3.
  assert (H5 : queue_ok
            (upd_var (vidx lit) (set_v_bumped (bumped (stats s3) + 1))
               (upd_stats (set_bumped (bumped (stats s3) + 1)) s3))).
  { apply qok_var_same; [intros v; split; reflexivity|exact H3]. }
  revert H5. generalize (upd_var (vidx lit) (set_v_bumped (bumped (stats s3) + 1))
               (upd_stats (set_bumped (bumped (stats s3) + 1)) s3)).
  intros s5 H5. destruct (_ && _); [|exact H5].
  apply qok_set_next; [apply vidx_nonneg|exact H5].
Qed.

Lemma bump_and_clear_qok uip s :
  queue_ok s -> queue_ok (bump_and_clear_seen_literals uip s).
Proof.
  unfold bump_and_clear_seen_literals. cbv zeta.
  generalize (sort_by (bumped_earlier s) (seen_literals s)).
  generalize (if uip <? 0 then - uip else uip). intros u l. revert s.
  induction l as [|x l IH]; intros s Hq; simpl; [exact Hq|].
  apply IH. apply bump_literal_qok. exact Hq.
Qed.

Lemma analyze_literal_qok lit s b s' :
  analyze_literal lit s = Some (b, s') -> queue_ok s -> queue_ok s'.
Proof.
  unfold analyze_literal. intros H Hq.
  destruct (v_seen (var s lit)); [inversion H; subst; auto|].
  destruct (v_level (var s lit) =? 0)%nat; [inversion H; subst; auto|].
  destruct (check _); cbn [mbind option_bind] in H; [|discriminate].
  match type of H with
  | (?m ≫= _) = _ =>
      destruct m as [lv|]; cbn [mbind option_bind] in H; [|discriminate]
  end.
  inversion H; subst b s'. clear H.
  destruct (l_seen lv =? 0); destruct (_ <? _)%nat;
    (apply (qok_var_same (vidx lit) (set_v_seen true));
     [intros v; split; reflexivity|exact Hq]).
Qed.

Lemma analyze_reason_qok : forall lits open s open' s',
  analyze_reason lits open s = Some (open', s') -> queue_ok s -> queue_ok s'.
Proof.
  induction lits as [|lit rest IH]; intros open s open' s' H Hq; simpl in H.
  - inversion H; subst. exact Hq.
  - destruct (analyze_literal lit s) as [[b s1]|] eqn:Hl; simpl in H;
      [|discriminate].
    eapply IH; [exact H|]. exact (analyze_literal_qok _ _ _ _ Hl Hq).
Qed.

Lemma analyze_loop_qok : forall fuel reason open i s uip s',
  analyze_loop fuel reason open i s = Some (uip, s') ->
  queue_ok s -> queue_ok s'.
Proof.
  induction fuel as [|fuel IH]; intros reason open i s uip s' H Hq;
    simpl in H; [discriminate|].
  destruct (heap s !! reason) as [cl|]; simpl in H; [|discriminate].
  destruct (analyze_reason (literals cl) open s) as [[open1 s1]|] eqn:Hr;
    simpl in H; [|discriminate].
  apply analyze_reason_qok in Hr; [|exact Hq].
  destruct (find_seen i s1) as [[i1 u]|]; simpl in H; [|discriminate].
  destruct (open1 - 1 =? 0).
  - inversion H; subst. exact Hr.
  - destruct (v_reason (var s1 u)) as [r|]; simpl in H; [|discriminate].
    eapply IH; [exact H|exact Hr].
Qed.

Lemma new_watch_qok red glue s c s1 s2 :
  new_clause red glue s = (c, s1) -> watch_clause c s1 = Some s2 ->
  queue_ok s -> queue_ok s2.
Proof.
  intros Hn Hw Hq. unfold new_clause in Hn.
  assert (H1 : queue_ok s1) by (destruct red; inversion Hn; subst; exact Hq).
  unfold watch_clause in Hw.
  destruct (heap s1 !! c) as [cl|]; cbn [mbind option_bind] in Hw;
    [|discriminate].
  destruct (check _); cbn [mbind option_bind] in Hw; [|discriminate].
  destruct (literals cl !! 0%nat); cbn [mbind option_bind] in Hw;
    [|discriminate].
  destruct (literals cl !! 1%nat); cbn [mbind option_bind] in Hw;
    [|discriminate].
  inversion Hw; subst. exact H1.
Qed.

Lemma learn_qok uip glue s dc jump s' :
  learn uip glue s = Some (dc, jump, s') -> queue_ok s -> queue_ok s'.
Proof.
  unfold learn. intros H Hq.
  destruct (length (clause s) =? 1)%nat; [inversion H; subst; exact Hq|].
  cbv zeta in H.
  destruct (clause _ !! 0%nat) as [c0|]; cbn [mbind option_bind] in H;
    [|discriminate].
  destruct (check _); cbn [mbind option_bind] in H; [|discriminate].
  unfold new_learned_clause in H.
  destruct (new_clause true glue _) as [c s2] eqn:Hn.
  destruct (watch_clause c s2) as [s3|] eqn:Hw; cbn [mbind option_bind] in H;
    [|discriminate].
  pose proof (new_watch_qok _ _ _ _ _ _ Hn Hw Hq) as H3.
  destruct (clause s3 !! 1%nat); cbn [mbind option_bind] in H; [|discriminate].
  destruct (check _); cbn [mbind option_bind] in H; [|discriminate].
  inversion H; subst. exact H3.
Qed.

Lemma bump_clause_qok c s s' :
  bump_clause c s = Some s' -> queue_ok s -> queue_ok s'.
Proof.
  unfold bump_clause. intros H Hq.
  destruct (heap s !! c) as [cl|]; cbn in H; [|discriminate].
  destruct (c_redundant cl); cbn in H; inversion H; subst s'; exact Hq.
Qed.

Lemma analyze_qok s s' : analyze s = Some s' -> queue_ok s -> queue_ok s'.
Proof.
  intros H Hq. unfold analyze in H.
  destruct (conflict s) as [cf|]; cbn [mbind option_bind] in H;
    [|discriminate].
  destruct (level s =? 0)%nat.
  { unfold learn_empty_clause in H.
    destruct (check _); cbn [mbind option_bind] in H; [|discriminate].
    inversion H; subst. exact Hq. }
  destruct (bump_clause cf s) as [s1|] eqn:Hb; cbn [mbind option_bind] in H;
    [|discriminate].
  apply bump_clause_qok in Hb; [|exact Hq].
  destruct (bool_decide_reflect (clause s1 = []));
    cbn [check mbind option_bind] in H; [|discriminate].
  destruct (bool_decide_reflect (seen_literals s1 = []));
    cbn [check mbind option_bind] in H; [|discriminate].
  destruct (bool_decide_reflect (seen_levels s1 = []));
    cbn [check mbind option_bind] in H; [|discriminate].
  destruct (analyze_loop _ cf 0 _ s1) as [[uip s2]|] eqn:Ha;
    cbn [mbind option_bind] in H; [|discriminate].
  apply analyze_loop_qok in Ha; [|exact Hb].
  match type of H with
  | context [learn uip ?g ?s4] =>
      destruct (learn uip g s4) as [[[dc jump] s5]|] eqn:Hl;
        cbn [mbind option_bind] in H; [|discriminate];
      apply learn_qok in Hl; [|exact Ha]
  end.
  match type of H with
  | context [backtrack jump ?s6] =>
      destruct (backtrack jump s6) as [s7|] eqn:Hbt;
        cbn [mbind option_bind] in H; [|discriminate];
      apply backtrack_qok in Hbt; [|exact Hl]
  end.
  destruct (assign (- uip) dc s7) as [s8|] eqn:Has;
    cbn [mbind option_bind] in H; [|discriminate].
  apply assign_qok in Has; [|exact Hbt].
  inversion H; subst s'.
  exact (bump_and_clear_qok uip s8 Has).
Qed.

Lemma next_decision_variable_qok : forall fuel s idx s',
  next_decision_variable fuel s = Some (idx, s') -> queue_ok s ->
  queue_ok s' /\ core s' = core s /\
  1 <= idx <= max_var s /\ vals s idx = 0.
Proof.
  induction fuel as [|fuel IH]; intros s idx s' H Hq; simpl in H;
    [discriminate|].
  destruct (vidx_ok s (q_next (queue s))) eqn:Hok; cbn in H; [|discriminate].
  destruct (Z.eqb_spec (val s (q_next (queue s))) 0) as [Hv|Hv].
  - inversion H; subst idx s'. split; [exact Hq|]. split; [reflexivity|].
    unfold vidx_ok in Hok. apply andb_prop in Hok. destruct Hok as [Hn Hm].
    assert (0 <= q_next (queue s)) by apply Hq.
    assert (q_next (queue s) <> 0)
      by (destruct (Z.eqb_spec (q_next (queue s)) 0); [discriminate|assumption]).
    apply Z.leb_le in Hm. split; [lia|].
    unfold val, vidx in Hv. rewrite Z.abs_eq in Hv by lia.
    destruct (q_next (queue s) <? 0); lia.
  - apply IH in H.
    + destruct H as (A & B & C & D). split; [exact A|]. split; [exact B|].
      split; [exact C|exact D].
    + apply (qok_set_next (v_prev (var s (q_next (queue s)))) s);
        [apply qok_prev|]; exact Hq.
Qed.
(** ** The rounds of the search loop *)

Lemma decide_Inv fuel s s' :
  CInvX ex_none (core s) -> has_conflict s = false ->
  propagate_next s = length (trail s) -> queue_ok s ->
  decide fuel s = Some s' ->
  CInvX ex_none (core s') /\ core_le (core s) (core s') /\
  has_conflict s' = false /\ queue_ok s'.
Proof.
  intros Hinv Hcf Hpn Hq H. unfold decide in H. cbv zeta in H.
  match type of H with
  | (next_decision_variable fuel ?s2 ≫= _) = _ =>
      destruct (next_decision_variable fuel s2) as [[idx s3]|] eqn:Hn;
        cbn [mbind option_bind] in H; [|discriminate];
      destruct (next_decision_variable_qok _ _ _ _ Hn Hq)
        as (Hq3 & E3 & Hidx & Hv)
  end.
  cbn [max_var vals upd_stats set_stats set_level] in Hidx, Hv.
  set (dec := phases s3 idx * idx) in *.
  assert (Hph : phases s3 idx = 1 \/ phases s3 idx = -1).
  { change (phases s3) with (k_ph (core s3)). rewrite E3.
    apply (tr_ph _ (ci_trail _ _ Hinv)). exact Hidx. }
  assert (Habs : Z.abs dec = idx) by (unfold dec; destruct Hph as [-> | ->]; lia).
  assert (Hr : in_range (core s) dec).
  { unfold in_range. rewrite Habs. cbn. split; [|lia].
    unfold dec. destruct Hph as [-> | ->]; lia. }
  set (s4 := set_levels (levels s3 ++ [mkLevel dec 0]) s3) in *.
  assert (E4 : core s4 = K_push dec (core s)).
  { transitivity
      ((fun k => {| k_max := k_max k; k_vals := k_vals k; k_ph := k_ph k;
                    k_lv := k_lv k; k_trail := k_trail k; k_pn := k_pn k;
                    k_level := k_level k; k_decs := k_decs k ++ [dec];
                    k_W := k_W k; k_heap := k_heap k; k_nref := k_nref k;
                    k_unsat := k_unsat k; k_conf := k_conf k |}) (core s3)).
    - unfold core. cbn. rewrite fmap_app. reflexivity.
    - rewrite E3. reflexivity. }
  assert (Hq' := assign_qok _ _ _ _ H Hq3).
  apply core_assign in H. destruct H as [_ E].
  change (has_conflict s') with (k_conf (core s')).
  rewrite E, E4.
  assert (Hz : k_vals (K_push dec (core s)) (Z.abs dec) = 0)
    by (rewrite Habs; exact Hv).
  split; [apply CInv_decide; assumption|].
  split; [|split; [exact Hcf|exact Hq']].
  eapply core_le_trans; [apply (core_le_push dec)|].
  apply core_le_assign; [|exact Hz].
  generalize (ci_trail _ _ Hinv). apply trail_ok_frame; reflexivity.
Qed.

Lemma backtrack_Inv t s s' :
  CInvX ex_none (core s) -> backtrack t s = Some s' ->
  CInvX ex_none (core s') /\ core_le (core s) (core s') /\
  has_conflict s' = has_conflict s.
Proof.
  intros Hinv H.
  destruct (core_backtrack t s s' (ci_trail _ _ Hinv) (ci_levels _ _ Hinv) H)
    as (Hle & Heq & Hlt).
  destruct (Nat.eq_dec t (level s)) as [E|E].
  - rewrite (Heq E). split; [exact Hinv|]. split; [apply core_le_refl|].
    reflexivity.
  - assert (Hlt' : (t < level s)%nat) by lia.
    change (has_conflict s') with (k_conf (core s')).
    rewrite (Hlt Hlt'). split; [|split; [apply core_le_backtrack|reflexivity]].
    apply (CInv_backtrack ex_none); [exact Hinv|exact Hlt'|auto].
Qed.

Lemma reusetrail_frame fuel s r s' :
  reusetrail fuel s = Some (r, s') -> queue_ok s ->
  queue_ok s' /\ core s' = core s.
Proof.
  unfold reusetrail. intros H Hq.
  destruct (negb _); [inversion H; subst; auto|].
  destruct (next_decision_variable fuel s) as [[idx s1]|] eqn:Hn;
    cbn [mbind option_bind] in H; [|discriminate].
  destruct (next_decision_variable_qok _ _ _ _ Hn Hq) as (Hq1 & E1 & _).
  destruct (reuse_loop _ _ _ s1); cbn [mbind option_bind] in H;
    [|discriminate].
  destruct (negb _); inversion H; subst; auto.
Qed.

Lemma restart_Inv fuel s s' :
  CInvX ex_none (core s) -> queue_ok s -> restart fuel s = Some s' ->
  CInvX ex_none (core s') /\ core_le (core s) (core s') /\
  has_conflict s' = has_conflict s /\ queue_ok s'.
Proof.
  intros Hinv Hq H. unfold restart in H. cbv zeta in H.
  match type of H with
  | (reusetrail fuel ?s1 ≫= _) = _ =>
      destruct (reusetrail fuel s1) as [[r s2]|] eqn:Hr;
        cbn [mbind option_bind] in H; [|discriminate];
      destruct (reusetrail_frame _ _ _ _ Hr Hq) as (Hq2 & E2)
  end.
  destruct (backtrack r s2) as [s3|] eqn:Hb; cbn [mbind option_bind] in H;
    [|discriminate].
  inversion H; subst s'. clear H.
  assert (I2 : CInvX ex_none (core s2)) by (rewrite E2; exact Hinv).
  destruct (backtrack_Inv _ _ _ I2 Hb) as (A & B & C).
  split; [exact A|]. split; [rewrite E2 in B; exact B|].
  split; [|exact (backtrack_qok _ _ _ Hb Hq2)].
  change (has_conflict s3 = has_conflict s). rewrite C.
  change (k_conf (core s2) = k_conf (core s)). rewrite E2. reflexivity.
Qed.

Lemma restarting_frame s b s' :
  restarting s = (b, s') ->
  core s' = core s /\ vars s' = vars s /\ queue s' = queue s.
Proof.
  unfold restarting. intros H.
  repeat match type of H with
         | (if ?c then _ else _) = _ => destruct c
         end; inversion H; subst; auto.
Qed.
(** ** [reduce] keeps the invariant *)

Lemma pcount_inv l lits :
  (1 <= pcount l lits)%nat -> exists i, (i < 2)%nat /\ lits !! i = Some l.
Proof.
  unfold pcount. intros H.
  destruct (filter (fun x => x = l) (take 2 lits)) as [|y tl] eqn:E;
    [simpl in H; lia|].
  assert (Hy : y ∈ filter (fun x => x = l) (take 2 lits))
    by (rewrite E; apply elem_of_cons; left; reflexivity).
  apply list_elem_of_filter in Hy. destruct Hy as [-> Hin].
  apply list_elem_of_lookup in Hin. destruct Hin as (i & Hi).
  apply lookup_take_Some in Hi. destruct Hi as [Hi Hlt].
  exists i. split; [lia|exact Hi].
Qed.

Lemma wcount_filter (P : Watch -> Prop) `{forall w, Decision (P w)} ws id :
  (forall w, w_clause w = id -> P w) ->
  wcount (filter P ws) id = wcount ws id.
Proof.
  intros HP. unfold wcount. induction ws as [|w ws IH]; [reflexivity|].
  rewrite !filter_cons. destruct (base.decide (P w)) as [Hp|Hp].
  - rewrite !filter_cons. destruct (base.decide (w_clause w = id)); simpl;
      rewrite IH; reflexivity.
  - destruct (base.decide (w_clause w = id)) as [E|E]; [|exact IH].
    exfalso. apply Hp, HP, E.
Qed.

Lemma fixed_root k l :
  trail_ok k -> K_fixed k l ->
  (l ∈ k_trail k \/ - l ∈ k_trail k) /\ llv k l = 0%nat.
Proof.
  intros Ht [Hv Hl]. split; [|exact Hl].
  destruct (tr_val k Ht _ Hv) as (t & Hin & Habs).
  destruct (Z.eq_dec t l) as [->|Hne]; [left; exact Hin|].
  right. replace (- l) with t by lia. exact Hin.
Qed.

Lemma in_range_dec k l : {in_range k l} + {~ in_range k l}.
Proof.
  unfold in_range. destruct (Z.eq_dec l 0); [right; tauto|].
  destruct (Z_le_dec (Z.abs l) (k_max k)); [left|right]; tauto.
Qed.

Lemma K_fixed_dec k l : {K_fixed k l} + {~ K_fixed k l}.
Proof.
  unfold K_fixed. destruct (Z.eq_dec (k_vals k (Z.abs l)) 0); [right; tauto|].
  destruct (Nat.eq_dec (k_lv k (Z.abs l)) 0%nat); [left|right]; tauto.
Qed.

Lemma CInv_reduce g k k' origs :
  CInvX ex_none k -> k_pn k = length (k_trail k) -> reduced g k k' ->
  orig_ok origs k ->
  CInvX ex_none k' /\ orig_ok origs k'.
Proof.
  intros [Ht Hl Hw HJ] Hpn R Ho.
  assert (Hsub : forall id c, k_heap k' !! id = Some c ->
                   k_heap k !! id = Some c /\ g id = false).
  { intros id c Hc. destruct (g id) eqn:Hg.
    - rewrite (rd_drop _ _ _ R id Hg) in Hc. discriminate.
    - rewrite (rd_keep _ _ _ R id Hg) in Hc. auto. }
  assert (Hrs : forall lits, root_sat k lits -> root_sat k' lits).
  { intros lits. apply root_sat_frame; [apply R|apply R]. }
  split; [split|].
  - revert Ht. apply trail_ok_frame; apply R.
  - revert Hl. apply levels_ok_frame; apply R.
  - split.
    + intros l w Hin.
      assert (Hold : w ∈ k_W k l /\ g (w_clause w) = false \/
                     (w ∈ k_W k l /\ ~ in_range k l)).
      { destruct (in_range_dec k l) as [Hr|Hr].
        - destruct (K_fixed_dec k l) as [Hf|Hf].
          + rewrite (rd_fixed _ _ _ R l Hr Hf) in Hin. inversion Hin.
          + rewrite (rd_live _ _ _ R l Hr Hf) in Hin.
            apply list_elem_of_filter in Hin. left. tauto.
        - rewrite (rd_out _ _ _ R l Hr) in Hin. right. auto. }
      destruct Hold as [[Hin' Hg]|[Hin' Hr]].
      * destruct (w_wf k Hw l w Hin') as (c & Hc & Hrest).
        exists c. split; [|exact Hrest].
        rewrite (rd_keep _ _ _ R _ Hg). exact Hc.
      * exfalso. apply Hr.
        destruct (w_wf k Hw l w Hin') as (c & Hc & _ & Hl' & _).
        destruct (w_cl k Hw _ c Hc) as (_ & _ & Hrg). apply Hrg, Hl'.
    + intros id c Hc. destruct (Hsub id c Hc) as [Hc' _].
      destruct (w_cl k Hw id c Hc') as (A & B & C).
      split; [exact A|]. split; [exact B|].
      intros x Hx. unfold in_range. rewrite (rd_max _ _ _ R). apply C, Hx.
    + intros id c l Hc. destruct (Hsub id c Hc) as [Hc' Hg].
      destruct (w_pres k Hw id c l Hc') as [Hp|Hp]; [|right; apply Hrs, Hp].
      destruct (Nat.eq_dec (pcount l (cc_lits c)) 0%nat) as [E0|E0];
        [left; lia|].
      destruct (pcount_inv l (cc_lits c)) as (i & Hi & Hlk); [lia|].
      assert (Hr : in_range k l).
      { apply (w_cl k Hw id c Hc'). eapply list_elem_of_lookup_2. exact Hlk. }
      destruct (K_fixed_dec k l) as [Hf|Hf].
      * right. apply Hrs.
        destruct (fixed_root k l Ht Hf) as [[Hin|Hin] Hlv].
        -- exists l. split; [eapply list_elem_of_lookup_2; exact Hlk|]. auto.
        -- destruct (HJ id c i l Hc' Hi Hlk) as [[]|(t & A & B & C)].
           ++ apply list_elem_of_lookup in Hin. destruct Hin as (j & Hj).
              exists j. split; [|exact Hj]. rewrite Hpn.
              eapply lookup_lt_Some. exact Hj.
           ++ exists t. split; [exact A|]. split; [exact B|]. lia.
      * left. rewrite (rd_live _ _ _ R l Hr Hf).
        rewrite wcount_filter; [exact Hp|]. intros w ->. exact Hg.
    + intros id Hid. rewrite (rd_nref _ _ _ R) in Hid.
      destruct (k_heap k' !! id) as [c|] eqn:Hc; [|reflexivity].
      destruct (Hsub id c Hc) as [Hc' _].
      rewrite (w_fresh k Hw id Hid) in Hc'. discriminate.
  - intros id c i l Hc Hi Hx Hp. destruct (Hsub id c Hc) as [Hc' _].
    assert (Hp' : propagated k (- l)).
    { destruct Hp as (j & Hj & Hlk). exists j.
      rewrite <- (rd_pn _ _ _ R), <- (rd_trail _ _ _ R). auto. }
    destruct (HJ id c i l Hc' Hi Hx Hp') as [[]|H]. right.
    revert H. apply Jwit_frame; apply R.
  - intros cl Hcl.
    destruct (Ho cl Hcl) as [H|(id & c & Hc & Hred & Hsubl)];
      [left; apply Hrs, H|].
    destruct (g id) eqn:Hg.
    + left. apply Hrs.
      destruct (rd_why _ _ _ R id c Hc Hg) as [E|(t & A & B & C)];
        [congruence|].
      exists t. split; [apply Hsubl, A|]. auto.
    + right. exists id, c. rewrite (rd_keep _ _ _ R id Hg). auto.
Qed.

Lemma crls_lits s c c' :
  literals c' = literals c ->
  clause_root_level_satisfied s c' = clause_root_level_satisfied s c.
Proof. unfold clause_root_level_satisfied. intros ->. reflexivity. Qed.

Lemma marks_refl s P h : marks_ok s P h h.
Proof.
  intros id. destruct (h !! id) as [c|]; [|exact I]. tauto.
Qed.

Lemma marks_trans s P h1 h2 h3 :
  marks_ok s P h1 h2 -> marks_ok s P h2 h3 -> marks_ok s P h1 h3.
Proof.
  intros H12 H23 id. specialize (H12 id). specialize (H23 id).
  destruct (h1 !! id) as [c1|], (h2 !! id) as [c2|], (h3 !! id) as [c3|];
    try tauto.
  destruct H12 as (A1 & A2 & A3 & A4), H23 as (B1 & B2 & B3 & B4).
  split; [congruence|]. split; [congruence|]. split; [tauto|].
  intros Hg. destruct (B4 Hg) as [Hg2|[HP Hw]]; [exact (A4 Hg2)|].
  right. split; [exact HP|].
  rewrite A2, (crls_lits s c1 c2 A1) in Hw. exact Hw.
Qed.

Lemma marks_reason s P h r cl b :
  h !! r = Some cl -> marks_ok s P h (<[r := set_c_reason b cl]> h).
Proof.
  intros Hr id. destruct (Nat.eq_dec id r) as [->|Hne].
  - rewrite lookup_insert_eq, Hr. cbn. tauto.
  - rewrite lookup_insert_ne by congruence. apply marks_refl.
Qed.

Lemma marks_garbage s (P : nat -> Prop) h c cl :
  h !! c = Some cl -> P c ->
  c_redundant cl = true \/ clause_root_level_satisfied s cl = true ->
  marks_ok s P h (<[c := set_c_garbage true cl]> h).
Proof.
  intros Hc HP Hw id. destruct (Nat.eq_dec id c) as [->|Hne].
  - rewrite lookup_insert_eq, Hc. cbn. tauto.
  - rewrite lookup_insert_ne by congruence. apply marks_refl.
Qed.

Lemma set_heap_id s : set_heap (heap s) s = s.
Proof. destruct s; reflexivity. Qed.

Lemma for_each_mark_step {A} s0 P (f : A -> State -> option State) l :
  (forall x, x ∈ l -> mark_step s0 P (f x)) -> mark_step s0 P (for_each f l).
Proof.
  induction l as [|x l IH]; intros Hf s s' H Hv Hr; simpl in H.
  - inversion H; subst. exists (heap s'). split; [|apply marks_refl].
    symmetry. apply set_heap_id.
  - destruct (f x s) as [s1|] eqn:E; simpl in H; [|discriminate].
    destruct (Hf x ltac:(apply elem_of_cons; left; reflexivity) s s1 E Hv Hr)
      as (h1 & -> & M1).
    destruct (IH ltac:(intros y Hy; apply Hf, elem_of_cons; right; exact Hy)
                 _ _ H Hv Hr) as (h2 & -> & M2).
    exists h2. split; [reflexivity|]. eapply marks_trans; eassumption.
Qed.

Lemma flag_reason_mark_step s0 P b lit : mark_step s0 P (flag_reason b lit).
Proof.
  intros s s' H _ _. unfold flag_reason in H.
  destruct (v_reason (var s lit)) as [r|].
  2: { inversion H; subst. exists (heap s').
       split; [symmetry; apply set_heap_id|apply marks_refl]. }
  destruct (negb _).
  2: { inversion H; subst. exists (heap s').
       split; [symmetry; apply set_heap_id|apply marks_refl]. }
  destruct (heap s !! r) as [cl|] eqn:Hr; simpl in H; [|discriminate].
  destruct (check _); simpl in H; [|discriminate].
  inversion H; subst. eexists. split; [reflexivity|].
  apply marks_reason. exact Hr.
Qed.

Lemma crls_frame s s0 c :
  vals s = vals s0 -> vars s = vars s0 ->
  clause_root_level_satisfied s c = clause_root_level_satisfied s0 c.
Proof.
  intros Hv Hr. unfold clause_root_level_satisfied, fixed.
  rewrite Hv, Hr. reflexivity.
Qed.

Lemma mark_satisfied_mark_step s0 (P : nat -> Prop) c :
  P c -> mark_step s0 P (mark_satisfied_clause c).
Proof.
  intros HP s s' H Hv Hr. unfold mark_satisfied_clause in H.
  destruct (heap s !! c) as [cl|] eqn:Hc; simpl in H; [|discriminate].
  destruct (negb (c_reason cl)); cbn [andb] in H.
  2: { inversion H; subst. exists (heap s').
       split; [symmetry; apply set_heap_id|apply marks_refl]. }
  destruct (clause_root_level_satisfied s cl) eqn:Hs.
  - inversion H; subst. eexists. split; [reflexivity|].
    apply marks_garbage; [exact Hc|exact HP|]. right.
    rewrite <- (crls_frame s s0 cl Hv Hr). exact Hs.
  - inversion H; subst. exists (heap s').
    split; [symmetry; apply set_heap_id|apply marks_refl].
Qed.

Lemma collect_work_red s : forall ids work,
  collect_work s ids = Some work ->
  forall c cl, (c, cl) ∈ work ->
    c ∈ ids /\ heap s !! c = Some cl /\ c_redundant cl = true.
Proof.
  induction ids as [|c0 ids IH]; intros work H c cl Hin; simpl in H.
  - inversion H; subst. inversion Hin.
  - destruct (heap s !! c0) as [cl0|] eqn:Hc0; simpl in H; [|discriminate].
    destruct (c_redundant cl0) eqn:Hred; simpl in H; [|discriminate].
    destruct (collect_work s ids) as [w|]; simpl in H; [|discriminate].
    inversion H; subst work. clear H.
    assert (Hcase : (c, cl) = (c0, cl0) \/ (c, cl) ∈ w).
    { destruct (reduce_candidate s cl0); [|right; exact Hin].
      apply elem_of_cons in Hin. exact Hin. }
    destruct Hcase as [E|Hw].
    + inversion E; subst. split; [apply elem_of_cons; left; reflexivity|].
      auto.
    + destruct (IH w eq_refl c cl Hw) as (A & B & C).
      split; [apply elem_of_cons; right; exact A|]. auto.
Qed.

Lemma mark_redundant_marks s0 (P : nat -> Prop) s s' :
  mark_redundant_clauses s = Some s' ->
  (forall id, id ∈ redundant s -> P id) ->
  exists h, s' = set_heap h s /\ marks_ok s0 P (heap s) h.
Proof.
  unfold mark_redundant_clauses. intros H HP.
  destruct (collect_work s (redundant s)) as [work|] eqn:Hw; simpl in H;
    [|discriminate].
  pose proof (collect_work_red _ _ _ Hw) as Hred.
  pose proof (for_each_mark_garbage _ _ _ H) as Hh.
  apply for_each_heap_step in H; [|intros x; apply mark_garbage_heap_step].
  destruct H as [h ->]. exists h. split; [reflexivity|].
  intros id. cbn [heap set_heap] in Hh. rewrite (Hh id).
  match goal with
  | |- context [bool_decide ?Q] =>
      destruct (bool_decide_reflect Q) as [Hin|Hin]
  end.
  - apply list_elem_of_fmap in Hin. destruct Hin as ([c cl] & -> & Hin).
    apply elem_of_take in Hin. destruct Hin as (i & Hin & _).
    apply list_elem_of_lookup_2 in Hin. rewrite sort_by_perm in Hin.
    destruct (Hred c cl Hin) as (A & B & C). cbn [fst].
    rewrite B.
    change (set_c_garbage true <$> Some cl) with (Some (set_c_garbage true cl)).
    cbv beta iota. cbn [literals c_redundant c_garbage set_c_garbage].
    split; [reflexivity|]. split; [reflexivity|].
    split; [reflexivity|]. intros _. right. split; [apply HP, A|left; exact C].
  - apply marks_refl.
Qed.

Lemma reduce_mark_marks s sm :
  reduce_mark s = Some sm ->
  exists h,
    sm = set_heap h
           (upd_stats (fun st => set_reduce_count (reduce_count st + 1) st) s)
    /\ marks_ok s (reduce_listed s) (heap s) h.
Proof.
  unfold reduce_mark, protect_reasons, unprotect_reasons,
    mark_satisfied_clauses.
  intros H. cbv zeta in H.
  set (P := reduce_listed s).
  set (s0 := upd_stats (fun st => set_reduce_count (reduce_count st + 1) st) s)
    in *.
  destruct (for_each (flag_reason true) _ _) as [s1|] eqn:H1;
    simpl in H; [|discriminate].
  destruct (for_each_mark_step s P _ _
              (fun x _ => flag_reason_mark_step s P true x)
              _ _ H1 eq_refl eq_refl) as (h1 & -> & M1).
  match type of H with
  | (?m ≫= _) = _ => destruct m as [s2|] eqn:H2; simpl in H; [|discriminate]
  end.
  assert (exists h2, s2 = set_heap h2 s0 /\ marks_ok s P h1 h2)
    as (h2 & -> & M2).
  { destruct (reduce_fixed (limits (set_heap h1 s0))
              <? fixed_count (stats (set_heap h1 s0))) eqn:Hcond.
    - destruct (for_each mark_satisfied_clause _ _) as [sa|] eqn:Ha;
        simpl in H2; [|discriminate].
      assert (Hs1 : forall x, x ∈ irredundant s ->
                      mark_step s P (mark_satisfied_clause x)).
      { intros x Hx. apply mark_satisfied_mark_step. right.
        split; [exact Hcond|exact Hx]. }
      destruct (for_each_mark_step s P _ _ Hs1 _ _ Ha eq_refl eq_refl)
        as (ha & -> & Ma).
      assert (Hs2 : forall x, x ∈ redundant s ->
                      mark_step s P (mark_satisfied_clause x)).
      { intros x Hx. apply mark_satisfied_mark_step. left. exact Hx. }
      destruct (for_each_mark_step s P _ _ Hs2 _ _ H2 eq_refl eq_refl)
        as (hb & -> & Mb).
      exists hb. split; [reflexivity|]. eapply marks_trans; eassumption.
    - inversion H2; subst. exists h1. split; [reflexivity|apply marks_refl]. }
  match type of H with
  | (?m ≫= _) = _ => destruct m as [s3|] eqn:H3; simpl in H; [|discriminate]
  end.
  apply (mark_redundant_marks s P) in H3; [|intros id Hid; left; exact Hid].
  destruct H3 as (h3 & -> & M3).
  destruct (for_each_mark_step s P _ _
              (fun x _ => flag_reason_mark_step s P false x)
              _ _ H eq_refl eq_refl) as (h4 & -> & M4).
  exists h4. split; [reflexivity|].
  eapply marks_trans; [exact M1|]. eapply marks_trans; [exact M2|].
  eapply marks_trans; [exact M3|exact M4].
Qed.

Lemma is_garbage_delete c h s id :
  h = delete c (heap s) ->
  is_garbage (set_heap h s) id
  = if Nat.eq_dec id c then false else is_garbage s id.
Proof.
  intros ->. unfold is_garbage. cbn [heap set_heap].
  destruct (Nat.eq_dec id c) as [->|Hne].
  - rewrite lookup_delete_eq. reflexivity.
  - rewrite lookup_delete_ne by congruence. reflexivity.
Qed.

(** [collect_clauses] deletes the garbage clauses of its list and no
    other clause. *)
Lemma collect_list_spec : forall ids s kept s',
  collect_list ids s = Some (kept, s') ->
  exists h st,
    s' = set_stats st (set_heap h s) /\
    (forall id, h !! id = heap s !! id \/
                (h !! id = None /\ is_garbage s id = true)) /\
    (forall id, id ∈ ids -> is_garbage s id = true -> h !! id = None).
Proof.
  induction ids as [|c ids IH]; intros s kept s' H; simpl in H.
  - inversion H; subst. exists (heap s'), (stats s').
    split; [destruct s'; reflexivity|]. split; [auto|].
    intros id Hin. inversion Hin.
  - destruct (heap s !! c) as [cl|] eqn:Hc; simpl in H; [|discriminate].
    destruct (c_garbage cl) eqn:Hg; cbn [negb] in H.
    + apply IH in H. destruct H as (h & st & -> & F1 & F2).
      exists h, st. split; [reflexivity|].
      assert (Hgc : is_garbage s c = true)
        by (unfold is_garbage; rewrite Hc; exact Hg).
      assert (Hd : forall id,
                is_garbage (delete_clause c
                  (upd_stats (fun st => set_reduce_clauses
                                          (reduce_clauses st + 1) st) s)) id
                = if Nat.eq_dec id c then false else is_garbage s id).
      { intros id. unfold is_garbage, delete_clause. cbn [heap set_heap upd_stats set_stats].
        destruct (Nat.eq_dec id c) as [->|Hne].
        - rewrite lookup_delete_eq. reflexivity.
        - rewrite lookup_delete_ne by congruence. reflexivity. }
      assert (Hhc : h !! c = None).
      { destruct (F1 c) as [E|[E _]]; [|exact E].
        rewrite E. cbn. apply lookup_delete_eq. }
      split.
      * intros id. destruct (Nat.eq_dec id c) as [->|Hne]; [right; auto|].
        destruct (F1 id) as [E|[E G]].
        -- left. rewrite E. cbn. apply lookup_delete_ne. congruence.
        -- right. split; [exact E|]. rewrite Hd in G.
           destruct (Nat.eq_dec id c); [congruence|exact G].
      * intros id Hin Hgi. destruct (Nat.eq_dec id c) as [->|Hne];
          [exact Hhc|].
        apply elem_of_cons in Hin. destruct Hin as [->|Hin]; [congruence|].
        apply F2; [exact Hin|]. rewrite Hd.
        destruct (Nat.eq_dec id c); [congruence|exact Hgi].
    + destruct (collect_list ids s) as [[k s1]|] eqn:E; simpl in H;
        [|discriminate].
      inversion H; subst kept s'. clear H.
      apply IH in E. destruct E as (h & st & -> & F1 & F2).
      exists h, st. split; [reflexivity|]. split; [exact F1|].
      intros id Hin Hgi. apply elem_of_cons in Hin.
      destruct Hin as [->|Hin]; [|exact (F2 id Hin Hgi)].
      unfold is_garbage in Hgi. rewrite Hc in Hgi. congruence.
Qed.

Lemma fixed_K_fixed s idx :
  0 < idx -> (fixed s idx <> 0 <-> K_fixed (core s) idx).
Proof.
  intros Hi. unfold fixed, K_fixed, vidx. cbn.
  destruct (Z.ltb_spec idx 0); [lia|].
  destruct (Z.eqb_spec (vals s (Z.abs idx)) 0) as [E|E]; cbn [negb andb].
  - rewrite E. tauto.
  - destruct (Nat.eqb_spec (v_level (vars s (Z.abs idx))) 0) as [E'|E'];
      cbn [negb]; tauto.
Qed.

Lemma K_fixed_opp k l : K_fixed k (- l) <-> K_fixed k l.
Proof. unfold K_fixed. rewrite Z.abs_opp. tauto. Qed.

Lemma crls_root_sat s c :
  trail_ok (core s) -> clause_root_level_satisfied s c = true ->
  root_sat (core s) (literals c).
Proof.
  intros Ht H. unfold clause_root_level_satisfied in H.
  apply existsb_exists in H. destruct H as (lit & Hin & Hf).
  apply list_elem_of_In in Hin. apply Z.ltb_lt in Hf.
  exists lit. split; [exact Hin|].
  unfold fixed in Hf.
  destruct (negb (vals s (vidx lit) =? 0) &&
            negb (v_level (vars s (vidx lit)) =? 0)%nat) eqn:Hb.
  { destruct (lit <? 0); lia. }
  assert (Hv : 0 < val s lit) by exact Hf.
  rewrite val_kval in Hv. split; [apply (kval_true _ _ Ht), Hv|].
  apply andb_false_iff in Hb. destruct Hb as [Hb|Hb].
  - apply negb_false_iff, Z.eqb_eq in Hb. unfold kval in Hv.
    change (k_vals (core s) (Z.abs lit)) with (vals s (vidx lit)) in Hv.
    rewrite Hb in Hv. destruct (lit <? 0); lia.
  - apply negb_false_iff, Nat.eqb_eq in Hb. exact Hb.
Qed.

Lemma reduce_reduced s s' :
  CInvX ex_none (core s) -> reduce s = Some s' ->
  exists g, reduced g (core s) (core s') /\
            vars s' = vars s /\ queue s' = queue s.
Proof.
  intros Hinv H. unfold reduce in H.
  destruct (reduce_mark s) as [sm|] eqn:Hm; simpl in H; [|discriminate].
  destruct (reduce_mark_marks _ _ Hm) as (hm & Esm & M). clear Hm.
  set (s0 := upd_stats (fun st => set_reduce_count (reduce_count st + 1) st) s)
    in *.
  unfold reduce_sweep in H.
  destruct (flush_watches sm) as [s5|] eqn:H5; simpl in H; [|discriminate].
  unfold flush_watches in H5.
  apply flush_each_spec in H5.
  2: { apply NoDup_seqZ. }
  2: { apply list.Forall_forall. intros i Hi. apply elem_of_seqZ in Hi. lia. }
  destruct H5 as ([W5 E5] & Hout & Hsp).
  match type of H with
  | (?m ≫= _) = _ => destruct m as [s6|] eqn:H6; simpl in H; [|discriminate]
  end.
  assert (H6' : exists h6 st6 irr,
            s6 = set_irredundant irr (set_stats st6 (set_heap h6 s5)) /\
            (forall id, h6 !! id = hm !! id \/
                        (h6 !! id = None /\ is_garbage sm id = true)) /\
            (forall id, (reduce_fixed (limits s) <? fixed_count (stats s))
                        = true ->
                        id ∈ irredundant s -> is_garbage sm id = true ->
                        h6 !! id = None)).
  { assert (Hconv : (reduce_fixed (limits s5) <? fixed_count (stats s5))
                    = (reduce_fixed (limits s) <? fixed_count (stats s)))
      by (subst s5 sm; reflexivity).
    rewrite Hconv in H6. clear Hconv.
    assert (Hirr : irredundant s5 = irredundant s)
      by (subst s5 sm; reflexivity).
    rewrite Hirr in H6. clear Hirr.
    assert (Hh5 : heap s5 = hm) by (subst s5 sm; reflexivity).
    assert (Hg5 : is_garbage s5 = is_garbage sm)
      by (subst s5 sm; reflexivity).
    destruct (reduce_fixed (limits s) <? fixed_count (stats s)) eqn:Hcond.
    - destruct (collect_list _ _) as [[k sa]|] eqn:E; simpl in H6;
        [|discriminate].
      inversion H6; subst s6. clear H6.
      apply collect_list_spec in E. destruct E as (h & st & -> & F1 & F2).
      rewrite Hh5, Hg5 in F1. rewrite Hg5 in F2.
      exists h, st, k. split; [reflexivity|]. split; [exact F1|].
      intros id _ Hin Hg. exact (F2 id Hin Hg).
    - inversion H6; subst s6. clear H6.
      exists hm, (stats s5), (irredundant s5). split.
      + rewrite <- Hh5. destruct s5; reflexivity.
      + split; [auto|]. intros id Hc. discriminate. }
  clear H6. destruct H6' as (h6 & st6 & irr & E6 & F61 & F62).
  destruct (collect_list (redundant s6) s6) as [[k s7]|] eqn:H7;
    simpl in H; [|discriminate].
  apply collect_list_spec in H7. destruct H7 as (h7 & st7 & E7 & F71 & F72).
  inversion H; subst s'. clear H.
  subst s7 s6 s5 sm.
  cbn [heap set_heap set_stats set_irredundant set_all_literal_watches
       redundant upd_stats s0] in F71, F72.
  set (sm := set_heap hm s0) in *.
  assert (Hg6 : forall id, is_garbage
                  (set_irredundant irr (set_stats st6
                     (set_heap h6 (set_all_literal_watches W5 sm)))) id = true
                -> is_garbage sm id = true).
  { intros id. unfold is_garbage. cbn [heap set_heap set_stats set_irredundant
      set_all_literal_watches sm].
    destruct (F61 id) as [E|[E _]]; rewrite E; [auto|discriminate]. }
  assert (Hw := ci_watches _ _ Hinv).
  assert (Hclean : forall id c, heap s !! id = Some c -> c_garbage c = false).
  { intros id c Hc.
    destruct (w_cl _ Hw id (cview c)) as (_ & G & _); [|exact G].
    apply core_heap_lookup. eauto. }
  exists (is_garbage sm). split; [|split; reflexivity].
  split; try reflexivity.
  - (* kept *)
    intros id Hg. cbn. rewrite !lookup_fmap.
    assert (E : h7 !! id = hm !! id).
    { destruct (F71 id) as [E|[_ G]].
      - rewrite E. destruct (F61 id) as [E'|[_ G']]; [exact E'|congruence].
      - apply Hg6 in G. congruence. }
    rewrite E. specialize (M id). unfold is_garbage in Hg. cbn in Hg.
    destruct (heap s !! id) as [c|] eqn:Hc, (hm !! id) as [c'|] eqn:Hc';
      try contradiction; [|reflexivity].
    destruct M as (A & B & _). cbn. f_equal. unfold cview.
    rewrite A, B, Hg, (Hclean id c Hc). reflexivity.
  - (* dropped *)
    intros id Hg. cbn. rewrite lookup_fmap.
    assert (Hm := M id). unfold is_garbage in Hg. cbn in Hg.
    destruct (hm !! id) as [c'|] eqn:Hc'; [|discriminate].
    destruct (heap s !! id) as [c|] eqn:Hc; [|contradiction].
    destruct Hm as (_ & _ & _ & D).
    destruct (D Hg) as [G|[HP _]]; [rewrite (Hclean id c Hc) in G; discriminate|].
    assert (Hgm : is_garbage sm id = true)
      by (unfold is_garbage; cbn; rewrite Hc'; exact Hg).
    assert (E : h7 !! id = None); [|rewrite E; reflexivity].
    destruct HP as [Hred|[Hcond Hirr]].
    + destruct (F71 id) as [E|[E _]]; [|exact E].
      destruct (h6 !! id) as [c6|] eqn:Hc6; [|exact E].
      apply F72; [exact Hred|]. unfold is_garbage. cbn.
      destruct (F61 id) as [E6|[E6 _]]; [|congruence].
      rewrite Hc6. rewrite Hc6, Hc' in E6. inversion E6; subst. exact Hg.
    + pose proof (F62 id Hcond Hirr Hgm) as E6.
      destruct (F71 id) as [E|[E _]]; [rewrite E; exact E6|exact E].
  - (* why *)
    intros id c Hc Hg.
    apply core_heap_lookup in Hc. destruct Hc as (c0 & Hc0 & ->).
    assert (Hm := M id). unfold is_garbage in Hg. cbn in Hg.
    rewrite Hc0 in Hm.
    destruct (hm !! id) as [c'|] eqn:Hc'; [|discriminate].
    destruct Hm as (_ & _ & _ & D).
    destruct (D Hg) as [G|[_ [R|R]]];
      [rewrite (Hclean id c0 Hc0) in G; discriminate|left; exact R|right].
    apply crls_root_sat; [exact (ci_trail _ _ Hinv)|exact R].
  - (* fixed *)
    intros l Hr Hf. cbn.
    assert (Hin : Z.abs l ∈ seqZ 1 (max_var sm)).
    { apply elem_of_seqZ. destruct Hr as [Hr1 Hr2]. cbn in Hr2. cbn. lia. }
    destruct (Hsp _ Hin) as [Hfx _].
    assert (Hfa : fixed sm (Z.abs l) <> 0).
    { apply (fixed_K_fixed sm); [destruct Hr; lia|].
      unfold K_fixed in *. rewrite Z.abs_involutive. exact Hf. }
    destruct (Hfx Hfa) as [E1 E2]. unfold watches in E1, E2.
    cbn in E1, E2.
    destruct (Z.abs_spec l) as [[_ E]|[_ E]]; rewrite E in *.
    + exact E1.
    + rewrite Z.opp_involutive in E2. exact E2.
  - (* live *)
    intros l Hr Hf. cbn.
    assert (Hin : Z.abs l ∈ seqZ 1 (max_var sm)).
    { apply elem_of_seqZ. destruct Hr as [Hr1 Hr2]. cbn in Hr2. cbn. lia. }
    destruct (Hsp _ Hin) as [_ Hnf].
    assert (Hfa : fixed sm (Z.abs l) = 0).
    { destruct (Z.eq_dec (fixed sm (Z.abs l)) 0) as [E|E]; [exact E|].
      exfalso. apply Hf. apply (fixed_K_fixed sm) in E; [|destruct Hr; lia].
      unfold K_fixed in *. rewrite Z.abs_involutive in E. exact E. }
    destruct (Hnf Hfa) as [E1 E2]. unfold watches in E1, E2.
    cbn in E1, E2.
    destruct (Z.abs_spec l) as [[_ E]|[_ E]]; rewrite E in *.
    + exact E1.
    + rewrite Z.opp_involutive in E2. exact E2.
  - (* out of range *)
    intros l Hr. cbn.
    assert (E : watches (set_all_literal_watches W5 sm) l = watches sm l).
    { apply Hout.
      - intros Hin. apply elem_of_seqZ in Hin. apply Hr.
        split; [lia|]. cbn in *. lia.
      - intros Hin. apply elem_of_seqZ in Hin. apply Hr.
        split; [lia|]. cbn in *. lia. }
    exact E.
Qed.

Lemma reduce_Inv V origs s s' :
  Inv V origs s -> unsat s = false ->
  propagate_next s = length (trail s) -> reduce s = Some s' ->
  Inv V origs s' /\ unsat s' = false.
Proof.
  intros [Hq HI] Hu Hpn H. destruct (HI Hu) as (Hinv & Hcf & Hmax & Ho).
  destruct (reduce_reduced _ _ Hinv H) as (g & R & Ev & Eq).
  destruct (CInv_reduce g _ _ origs Hinv Hpn R Ho) as [Hinv' Ho'].
  assert (Hu' : unsat s' = false).
  { change (k_unsat (core s') = false). rewrite (rd_unsat _ _ _ R). exact Hu. }
  split; [|exact Hu']. split; [exact (qok_eq _ _ Ev Eq Hq)|].
  intros _. split; [exact Hinv'|]. split; [|split; [|exact Ho']].
  - change (k_conf (core s') = false). rewrite (rd_conf _ _ _ R). exact Hcf.
  - change (k_max (core s') = V). rewrite (rd_max _ _ _ R). exact Hmax.
Qed.

(** ** One round of the search loop keeps the invariant *)

Lemma Inv_le V origs s s' :
  CInvX ex_none (core s') -> has_conflict s' = false -> queue_ok s' ->
  core_le (core s) (core s') -> max_var s = V -> orig_ok origs (core s) ->
  Inv V origs s'.
Proof.
  intros Hinv Hcf Hq Hle Hmax Ho. split; [exact Hq|]. intros _.
  split; [exact Hinv|]. split; [exact Hcf|]. split.
  - destruct Hle as (_ & E & _). cbn in E. congruence.
  - exact (orig_ok_le _ _ _ Ho Hle).
Qed.

Lemma search_step_Inv fuel V origs s res s' :
  Inv V origs s -> search_step fuel s = Some (res, s') ->
  Inv V origs s' /\
  (res = 10 ->
   unsat s' = false /\ propagate_next s' = length (trail s') /\
   Z.of_nat (length (trail s')) = max_var s').
Proof.
  intros HI H. unfold search_step in H.
  destruct (unsat s) eqn:Hu.
  { inversion H; subst. split; [exact HI|]. discriminate. }
  destruct HI as [Hq HI]. destruct (HI Hu) as (Hinv & Hcf & Hmax & Ho).
  destruct (propagate fuel s) as [[ok s1]|] eqn:Hp;
    cbn [mbind option_bind] in H; [|discriminate].
  destruct (propagate_Inv _ _ _ _ (CInvX_none_conf _ Hinv) Hp)
    as (I1 & L1 & C1 & P1).
  pose proof (propagate_qok _ _ _ _ Hp Hq) as Q1.
  destruct ok; cbn [negb] in H, C1.
  2: { destruct (analyze s1) as [s2|] eqn:Ha; cbn [mbind option_bind] in H;
         [|discriminate].
       inversion H; subst res s'. clear H.
       split; [|discriminate].
       pose proof (analyze_qok _ _ Ha Q1) as Q2.
       destruct (analyze_Inv _ _ I1 Ha) as [Hu2|(I2 & L2 & C2)].
       - split; [exact Q2|]. congruence.
       - apply (Inv_le V origs s); try assumption.
         eapply core_le_trans; eassumption. }
  specialize (P1 eq_refl).
  assert (I1' : CInvX ex_none (core s1))
    by (apply CInvX_conf_none; [exact C1|exact I1]).
  assert (HI1 : Inv V origs s1)
    by (apply (Inv_le V origs s); assumption).
  assert (Hu1 : unsat s1 = false).
  { change (k_unsat (core s1) = false). destruct L1 as (E & _).
    rewrite E. exact Hu. }
  destruct (iterating s1).
  { inversion H; subst res s'. split; [|discriminate].
    apply (Inv_le V origs s); assumption. }
  destruct (satisfied s1) eqn:Hsat.
  { inversion H; subst res s'. split; [exact HI1|]. intros _.
    split; [exact Hu1|]. split; [exact P1|].
    unfold satisfied in Hsat. apply Z.eqb_eq in Hsat. exact Hsat. }
  destruct (restarting s1) as [r s2] eqn:Hr.
  destruct (restarting_frame _ _ _ Hr) as (E2 & Ev2 & Eq2).
  pose proof (qok_eq _ _ Ev2 Eq2 Q1) as Q2.
  assert (I2 : CInvX ex_none (core s2)) by (rewrite E2; exact I1').
  assert (L2 : core_le (core s) (core s2)) by (rewrite E2; exact L1).
  assert (C2 : has_conflict s2 = false)
    by (change (k_conf (core s2) = false); rewrite E2; exact C1).
  destruct r.
  { destruct (restart fuel s2) as [s3|] eqn:Hrs; cbn [mbind option_bind] in H;
      [|discriminate].
    inversion H; subst res s'. split; [|discriminate].
    destruct (restart_Inv _ _ _ I2 Q2 Hrs) as (I3 & L3 & C3 & Q3).
    apply (Inv_le V origs s); try assumption; [congruence|].
    eapply core_le_trans; eassumption. }
  destruct (reducing s2).
  { destruct (reduce s2) as [s3|] eqn:Hrd; cbn [mbind option_bind] in H;
      [|discriminate].
    inversion H; subst res s'. split; [|discriminate].
    assert (HI2 : Inv V origs s2) by (apply (Inv_le V origs s); assumption).
    assert (Hu2 : unsat s2 = false)
      by (change (k_unsat (core s2) = false); rewrite E2; exact Hu1).
    assert (P2 : propagate_next s2 = length (trail s2)).
    { change (k_pn (core s2) = length (k_trail (core s2))). rewrite E2.
      exact P1. }
    exact (proj1 (reduce_Inv _ _ _ _ HI2 Hu2 P2 Hrd)). }
  destruct (decide fuel s2) as [s3|] eqn:Hd; cbn [mbind option_bind] in H;
    [|discriminate].
  inversion H; subst res s'. split; [|discriminate].
  assert (P2 : propagate_next s2 = length (trail s2)).
  { change (k_pn (core s2) = length (k_trail (core s2))). rewrite E2.
    exact P1. }
  destruct (decide_Inv _ _ _ I2 C2 P2 Q2 Hd) as (I3 & L3 & C3 & Q3).
  apply (Inv_le V origs s); try assumption.
  eapply core_le_trans; eassumption.
Qed.

Lemma search_loop_Inv fuel V origs : forall n s res s',
  Inv V origs s -> search_loop n fuel s = Some (res, s') ->
  Inv V origs s' /\
  (res = 10 ->
   unsat s' = false /\ propagate_next s' = length (trail s') /\
   Z.of_nat (length (trail s')) = max_var s').
Proof.
  induction n as [|n IH]; intros s res s' HI H; simpl in H; [discriminate|].
  destruct (search_step fuel s) as [[r s1]|] eqn:Hs; simpl in H;
    [|discriminate].
  destruct (search_step_Inv _ _ _ _ _ _ HI Hs) as [HI1 H10].
  destruct (Z.eqb_spec r 0).
  - exact (IH _ _ _ HI1 H).
  - inversion H; subst. auto.
Qed.
(** ** The parser establishes the invariant *)

Lemma fold_insert_const (v : Z) (l : list Z) : forall (f : Z -> Z) x,
  fold_left (fun g i => <[i := v]> g) l f x
  = if bool_decide (x ∈ l) then v else f x.
Proof.
  induction l as [|i l IH]; intros f x; cbn [fold_left].
  - rewrite bool_decide_eq_false_2 by apply not_elem_of_nil. reflexivity.
  - rewrite IH. destruct (bool_decide_reflect (x ∈ l)) as [Hin|Hin].
    + rewrite bool_decide_eq_true_2; [reflexivity|].
      apply elem_of_cons. right. exact Hin.
    + destruct (Z.eq_dec x i) as [->|Hne].
      * rewrite bool_decide_eq_true_2
          by (apply elem_of_cons; left; reflexivity).
        apply fn_lookup_insert.
      * rewrite bool_decide_eq_false_2
          by (rewrite elem_of_cons; tauto).
        apply fn_lookup_insert_ne. congruence.
Qed.

Lemma init_vmtf_var_spec prev i s :
  0 <= prev -> 0 <= i -> queue_ok s ->
  queue_ok (init_vmtf_var prev i s) /\
  core (init_vmtf_var prev i s) = core s.
Proof.
  intros Hp Hi Hq. unfold init_vmtf_var. cbv zeta.
  assert (H1 : queue_ok (upd_var i (set_v_prev prev) s) /\
               core (upd_var i (set_v_prev prev) s) = core s).
  { split; [apply qok_var_prev; assumption|].
    apply core_upd_var. reflexivity. }
  revert H1. generalize (upd_var i (set_v_prev prev) s). intros s1 [Q1 E1].
  assert (H2 : queue_ok (if negb (prev =? 0)
                         then upd_var (vidx prev) (set_v_next i) s1
                         else upd_queue (set_q_first i) s1) /\
               core (if negb (prev =? 0)
                     then upd_var (vidx prev) (set_v_next i) s1
                     else upd_queue (set_q_first i) s1) = core s).
  { destruct (negb _).
    - split; [apply qok_var_next; assumption|].
      rewrite core_upd_var by reflexivity. exact E1.
    - split; [apply qok_set_first; assumption|exact E1]. }
  revert H2. generalize (if negb (prev =? 0)
                         then upd_var (vidx prev) (set_v_next i) s1
                         else upd_queue (set_q_first i) s1).
  intros s2 [Q2 E2]. split.
  - apply qok_var_same; [intros v; split; reflexivity|exact Q2].
  - rewrite core_upd_var by reflexivity. exact E2.
Qed.

Lemma init_vmtf_queue_spec s :
  queue_ok s ->
  queue_ok (init_vmtf_queue s) /\ core (init_vmtf_queue s) = core s.
Proof.
  intros Hq. unfold init_vmtf_queue.
  assert (Hfold : forall l prev st,
            Forall (fun i => 0 <= i) l -> 0 <= prev -> queue_ok st ->
            let r := fold_left
                       (fun '(prev, st) i => (i, init_vmtf_var prev i st))
                       l (prev, st) in
            0 <= fst r /\ queue_ok (snd r) /\ core (snd r) = core st).
  { induction l as [|i l IH]; intros prev st Hl Hp Hst; simpl.
    - auto.
    - apply list.Forall_cons in Hl. destruct Hl as [Hi Hl].
      destruct (init_vmtf_var_spec prev i st Hp Hi Hst) as [Q E].
      destruct (IH i (init_vmtf_var prev i st) Hl Hi Q) as (A & B & C).
      split; [exact A|]. split; [exact B|]. rewrite <- E. exact C. }
  specialize (Hfold (seqZ 1 (max_var s)) 0 s).
  destruct (fold_left _ _ _) as [prev s1]. cbn [fst snd] in Hfold.
  destruct Hfold as (A & B & C); [|lia|exact Hq|].
  { apply list.Forall_forall. intros i Hi. apply elem_of_seqZ in Hi. lia. }
  split; [|exact C].
  apply qok_set_next; [exact A|]. apply qok_set_last; [exact A|exact B].
Qed.

Lemma init_PInv o V :
  PInv V [] (init_variables (set_max_var V (State_init o))).
Proof.
  set (s00 := set_max_var V (State_init o)).
  unfold init_variables. cbv zeta.
  set (vs := fold_left (fun f i => <[i := 0]> f) (seqZ 1 (max_var s00))
               (vals s00)).
  set (s1 := set_vals vs s00).
  set (ps := fold_left (fun f i => <[i := -1]> f) (seqZ 1 (max_var s00))
               (phases s1)).
  set (s2 := set_phases ps s1).
  assert (Hq2 : queue_ok s2).
  { split; [cbn; lia|]. intros idx. cbn. lia. }
  destruct (init_vmtf_queue_spec s2 Hq2) as [Q3 E3].
  set (s3 := init_vmtf_queue s2) in *.
  assert (Hvs : forall x, vs x = 0).
  { intros x. unfold vs. rewrite fold_insert_const.
    destruct (bool_decide _); reflexivity. }
  assert (Hps : forall x, 1 <= x <= V -> ps x = -1).
  { intros x Hx. unfold ps. rewrite fold_insert_const.
    rewrite bool_decide_eq_true_2; [reflexivity|].
    apply elem_of_seqZ. cbn. lia. }
  assert (Ecore : core (set_levels (levels s3 ++ [mkLevel 0 0]) s3)
                  = {| k_max := V; k_vals := vs; k_ph := ps;
                       k_lv := fun _ => 0%nat; k_trail := []; k_pn := 0;
                       k_level := 0; k_decs := [0]; k_W := fun _ => [];
                       k_heap := ∅; k_nref := 0; k_unsat := false;
                       k_conf := false |}).
  { transitivity
      ((fun k => {| k_max := k_max k; k_vals := k_vals k; k_ph := k_ph k;
                    k_lv := k_lv k; k_trail := k_trail k; k_pn := k_pn k;
                    k_level := k_level k; k_decs := k_decs k ++ [0];
                    k_W := k_W k; k_heap := k_heap k; k_nref := k_nref k;
                    k_unsat := k_unsat k; k_conf := k_conf k |}) (core s3)).
    - unfold core. cbn. rewrite fmap_app. reflexivity.
    - rewrite E3. unfold core. cbn. rewrite fmap_empty. reflexivity. }
  assert (Hmax : max_var (set_levels (levels s3 ++ [mkLevel 0 0]) s3) = V).
  { change (k_max (core (set_levels (levels s3 ++ [mkLevel 0 0]) s3)) = V).
    rewrite Ecore. reflexivity. }
  assert (Hun : unsat (set_levels (levels s3 ++ [mkLevel 0 0]) s3) = false).
  { change (k_unsat (core (set_levels (levels s3 ++ [mkLevel 0 0]) s3))
            = false).
    rewrite Ecore. reflexivity. }
  split; [|split; [exact Hmax|]].
  - split; [exact Q3|]. intros _.
    split; [|split; [|split; [exact Hmax|]]].
    + rewrite Ecore. split.
      * split; cbn.
        -- constructor.
        -- intros l Hl. inversion Hl.
        -- intros idx Hv. rewrite Hvs in Hv. congruence.
        -- intros idx Hi. right. apply Hps. exact Hi.
      * split; cbn.
        -- reflexivity.
        -- intros l Hl. inversion Hl.
        -- intros n d Hn Hd. destruct n; [lia|]. discriminate.
        -- intros i l _ Hl. discriminate.
        -- lia.
      * split; cbn.
        -- intros l w Hw. inversion Hw.
        -- intros id c Hc. rewrite lookup_empty in Hc. discriminate.
        -- intros id c l Hc. rewrite lookup_empty in Hc. discriminate.
        -- intros id _. apply lookup_empty.
      * intros id c i l Hc. cbn in Hc. rewrite lookup_empty in Hc.
        discriminate.
    + change (k_conf (core (set_levels (levels s3 ++ [mkLevel 0 0]) s3))
              = false).
      rewrite Ecore. reflexivity.
    + intros cl Hcl. inversion Hcl.
  - intros _.
    change (k_level (core (set_levels (levels s3 ++ [mkLevel 0 0]) s3))
            = 0%nat /\
            k_pn (core (set_levels (levels s3 ++ [mkLevel 0 0]) s3))
            = 0%nat).
    rewrite Ecore. split; reflexivity.
Qed.

Lemma orig_ok_app origs cl k :
  orig_ok origs k ->
  (root_sat k cl \/
   exists id c, k_heap k !! id = Some c /\ cc_red c = false /\
                forall x, x ∈ cc_lits c -> x ∈ cl) ->
  orig_ok (origs ++ [cl]) k.
Proof.
  intros Ho Hcl c Hc. apply elem_of_app in Hc. destruct Hc as [Hc|Hc].
  - exact (Ho c Hc).
  - apply list_elem_of_singleton in Hc. subst c. exact Hcl.
Qed.

Lemma PInv_unsat V origs s :
  queue_ok s -> max_var s = V -> unsat s = true -> PInv V origs s.
Proof.
  intros Hq Hm Hu. split; [split; [exact Hq|]|split; [exact Hm|]];
    intros E; congruence.
Qed.

Lemma add_clause_PInv V origs s s2 cl :
  PInv V origs s ->
  (forall x, x ∈ clause s -> x ∈ cl) ->
  (forall x, x ∈ clause s -> x <> 0 /\ Z.abs x <= V) ->
  add_new_original_clause s = Some s2 ->
  PInv V (origs ++ [cl]) s2.
Proof.
  intros ([Hq HI] & Hmax & Hlv) Hsub Hrng H.
  unfold add_new_original_clause in H.
  destruct (clause s) as [|u [|v tl]] eqn:Ecl.
  - (* the empty clause *)
    inversion H; subst s2. apply PInv_unsat; [exact Hq|exact Hmax|reflexivity].
  - (* a unit *)
    assert (Hu_in : u ∈ cl)
      by (apply Hsub, elem_of_cons; left; reflexivity).
    assert (Hu_r : in_range (core s) u).
    { unfold in_range. cbn. rewrite Hmax. apply Hrng.
      apply elem_of_cons. left. reflexivity. }
    destruct (unsat s) eqn:Hu.
    { assert (Hs2 : queue_ok s2 /\ max_var s2 = V /\ unsat s2 = true).
      { destruct (val s u =? 0).
        - pose proof (assign_qok _ _ _ _ H Hq) as Q.
          apply core_assign in H. destruct H as [_ E].
          split; [exact Q|].
          change (k_max (core s2) = V /\ k_unsat (core s2) = true).
          rewrite E. cbn. auto.
        - destruct (val s u <? 0); inversion H; subst; auto. }
      destruct Hs2 as (A & B & C). apply PInv_unsat; assumption. }
    destruct (HI eq_refl) as (Hinv & Hcf & _ & Ho).
    destruct (Hlv eq_refl) as [Hl0 Hp0].
    destruct (Z.eqb_spec (val s u) 0) as [Hv|Hv].
    + pose proof (assign_qok _ _ _ _ H Hq) as Q.
      apply core_assign in H. destruct H as [Hz E].
      assert (I2 : CInvX ex_none (K_assign u (core s)))
        by (apply CInv_assign; assumption).
      assert (L2 : core_le (core s) (K_assign u (core s)))
        by (apply core_le_assign; [exact (ci_trail _ _ Hinv)|exact Hz]).
      split; [split; [exact Q|]|split].
      * intros _. rewrite E. split; [exact I2|].
        split; [|split].
        -- change (k_conf (core s2) = false). rewrite E. exact Hcf.
        -- change (k_max (core s2) = V). rewrite E. exact Hmax.
        -- apply orig_ok_app; [exact (orig_ok_le _ _ _ Ho L2)|].
           left. exists u. split; [exact Hu_in|]. split.
           ++ cbn. apply elem_of_app. right. apply list_elem_of_singleton.
              reflexivity.
           ++ unfold llv. cbn. rewrite fn_lookup_insert. exact Hl0.
      * change (k_max (core s2) = V). rewrite E. exact Hmax.
      * intros _. change (k_level (core s2) = 0%nat /\ k_pn (core s2) = 0%nat).
        rewrite E. cbn. auto.
    + destruct (Z.ltb_spec (val s u) 0) as [Hneg|Hpos].
      * unfold learn_empty_clause in H.
        destruct (check _); cbn in H; [|discriminate].
        inversion H; subst s2.
        apply PInv_unsat; [exact Hq|exact Hmax|reflexivity].
      * inversion H; subst s2. clear H.
        split; [split; [exact Hq|]|split; [exact Hmax|auto]].
        intros _. split; [exact Hinv|]. split; [exact Hcf|].
        split; [exact Hmax|].
        apply orig_ok_app; [exact Ho|]. left. exists u.
        split; [exact Hu_in|].
        assert (Hin : u ∈ k_trail (core s)).
        { apply (kval_true _ _ (ci_trail _ _ Hinv)). rewrite <- val_kval. lia. }
        split; [exact Hin|].
        pose proof (lv_le _ (ci_levels _ _ Hinv) u Hin) as Hle.
        change (k_level (core s)) with (level s) in Hle. lia.
  - (* two literals or more *)
    destruct (new_clause false 0 s) as [c s1] eqn:Hn.
    rewrite <- Ecl in *.
    pose proof (new_watch_qok _ _ _ _ _ _ Hn H Hq) as Q.
    destruct (core_new _ _ _ _ _ _ Hn H) as (l0 & l1 & A0 & A1 & Ec & E).
    destruct (unsat s) eqn:Hu.
    { apply PInv_unsat; [exact Q| |].
      - change (k_max (core s2) = V). rewrite E. exact Hmax.
      - change (k_unsat (core s2) = true). rewrite E. exact Hu. }
    destruct (HI eq_refl) as (Hinv & Hcf & _ & Ho).
    destruct (Hlv eq_refl) as [Hl0 Hp0].
    assert (Hr : forall x, x ∈ clause s -> in_range (core s) x).
    { intros x Hx. unfold in_range. cbn. rewrite Hmax. apply Hrng, Hx. }
    pose proof (CInv_new ex_none _ _ false _ _ Hinv A0 A1 Hr) as I2.
    assert (Hfr : k_heap (core s) !! k_nref (core s) = None)
      by (apply (w_fresh _ (ci_watches _ _ Hinv)); lia).
    split; [split; [exact Q|]|split].
    + intros _.
      change (has_conflict s2) with (k_conf (core s2)).
      change (max_var s2) with (k_max (core s2)).
      rewrite E. split; [|split; [|split]].
      * destruct I2 as [Ht Hl Hw HJ]. split; try assumption.
        intros id cc i l Hc Hi Hx (j & Hj & _). cbn in Hj. lia.
      * exact Hcf.
      * exact Hmax.
      * apply orig_ok_app.
        -- apply (orig_ok_le _ _ _ Ho). apply core_le_new. exact Hfr.
        -- right. exists (k_nref (core s)), (mkCC (clause s) false false).
           split; [cbn; apply lookup_insert_eq|]. split; [reflexivity|].
           exact Hsub.
    + change (k_max (core s2) = V). rewrite E. exact Hmax.
    + intros _. change (k_level (core s2) = 0%nat /\ k_pn (core s2) = 0%nat).
      rewrite E. cbn. auto.
Qed.

Lemma parse_loop_PInv V : forall tokens lit parsed num s s' origs,
  PInv V origs s ->
  (forall x, x ∈ clause s -> x <> 0 /\ Z.abs x <= V) ->
  parse_loop tokens lit parsed num s = Some s' ->
  PInv V (origs ++ dimacs_clauses (clause s) (pushed tokens)) s'.
Proof.
  induction tokens as [|[t c] rest IH];
    intros lit parsed num s s' origs HP Hrng H; simpl in H.
  - destruct (lit =? 0); cbn in H; [|discriminate].
    destruct (num <=? parsed); cbn in H; [|discriminate].
    inversion H; subst s'. simpl. rewrite app_nil_r. exact HP.
  - assert (Hmax : max_var s = V) by apply HP.
    destruct (Z.leb_spec (Z.abs t) (max_var s)) as [Ht|];
      cbn [check mbind option_bind] in H; [|discriminate].
    destruct c; [exact (IH _ _ _ _ _ _ HP Hrng H)|].
    simpl. destruct (Z.eqb_spec t 0) as [->|Hne]; cbn [negb] in H.
    + rewrite tautological_only_sorts in H.
      2: { apply list.Forall_forall. intros x Hx. apply (Hrng x Hx). }
      cbn [negb] in H.
      match type of H with
      | (add_new_original_clause ?s1 ≫= _) = _ =>
          destruct (add_new_original_clause s1) as [s2|] eqn:Ha;
            cbn [mbind option_bind] in H; [|discriminate];
          apply (add_clause_PInv V origs s1 s2 (clause s)) in Ha
      end.
      * destruct (parsed <? num); cbn [check mbind option_bind] in H;
          [|discriminate].
        apply (IH _ _ _ _ _ (origs ++ [clause s])) in H.
        -- rewrite <- app_assoc in H. exact H.
        -- exact Ha.
        -- intros x Hx. inversion Hx.
      * exact HP.
      * intros x Hx. cbn [clause set_clause] in Hx.
        rewrite sort_by_perm in Hx. exact Hx.
      * intros x Hx. cbn [clause set_clause] in Hx.
        rewrite sort_by_perm in Hx. exact (Hrng x Hx).
    + apply (IH _ _ _ _ _ origs) in H.
      * exact H.
      * exact HP.
      * intros x Hx. cbn [clause set_clause] in Hx.
        apply elem_of_app in Hx. destruct Hx as [Hx|Hx]; [exact (Hrng x Hx)|].
        apply list_elem_of_singleton in Hx. subst x. split; [exact Hne|lia].
Qed.

Lemma init_clause o V :
  clause (init_variables (set_max_var V (State_init o))) = [].
Proof.
  unfold init_variables, init_vmtf_queue. cbv zeta.
  destruct (fold_left _ _ _) as [prev s1] eqn:Hf. cbn.
  assert (Hgen : forall l p st p' st',
            fold_left (fun '(prev, st) i => (i, init_vmtf_var prev i st))
                      l (p, st) = (p', st') -> clause st' = clause st).
  { clear. induction l as [|i l IH]; intros p st p' st' H; simpl in H.
    - inversion H; subst. reflexivity.
    - apply IH in H. rewrite H. unfold init_vmtf_var.
      destruct (negb _); reflexivity. }
  rewrite (Hgen _ _ _ _ _ Hf). reflexivity.
Qed.

Lemma parse_dimacs_PInv o V num tokens s :
  parse_dimacs o V num tokens = Some s ->
  PInv V (dimacs_clauses [] (pushed tokens)) s.
Proof.
  unfold parse_dimacs. intros H.
  apply (parse_loop_PInv V _ _ _ _ _ _ [] (init_PInv o V)) in H.
  - rewrite init_clause in H. exact H.
  - intros x Hx. rewrite init_clause in Hx. inversion Hx.
Qed.
(** ** A SAT answer comes with a model *)

Lemma val_trail s l :
  trail_ok (core s) -> l ∈ trail s -> val s l = 1.
Proof.
  intros Ht Hin. destruct (tr_lit _ Ht l Hin) as [[Hn _] Hv].
  unfold val, vidx. cbn in Hv. rewrite Hv. unfold sign.
  destruct (l <? 0); lia.
Qed.

(** With as many literals on the trail as there are variables, every
    variable is on the trail. *)
Lemma trail_total s idx :
  trail_ok (core s) -> Z.of_nat (length (trail s)) = max_var s ->
  1 <= idx <= max_var s ->
  exists t, t ∈ trail s /\ Z.abs t = idx.
Proof.
  intros Ht Hlen Hidx.
  assert (Hsub : Z.abs <$> trail s ⊆+ seqZ 1 (max_var s)).
  { apply NoDup_submseteq; [exact (tr_nodup _ Ht)|].
    intros x Hx. apply list_elem_of_fmap in Hx. destruct Hx as (t & -> & Hin).
    destruct (tr_lit _ Ht t Hin) as [[Hn Hm] _]. cbn in Hm.
    apply elem_of_seqZ. lia. }
  assert (Hperm : Z.abs <$> trail s ≡ₚ seqZ 1 (max_var s)).
  { apply submseteq_length_Permutation; [exact Hsub|].
    rewrite length_seqZ, length_fmap. lia. }
  assert (Hin : idx ∈ Z.abs <$> trail s).
  { rewrite Hperm. apply elem_of_seqZ. lia. }
  apply list_elem_of_fmap in Hin. destruct Hin as (t & E & Hin).
  exists t. auto.
Qed.

Lemma heap_clause_true s id c :
  CInvX ex_none (core s) -> propagate_next s = length (trail s) ->
  Z.of_nat (length (trail s)) = max_var s ->
  k_heap (core s) !! id = Some c ->
  exists L, L ∈ cc_lits c /\ L ∈ trail s.
Proof.
  intros Hinv Hpn Hlen Hc.
  destruct (w_cl _ (ci_watches _ _ Hinv) id c Hc) as (Hlen2 & _ & Hr).
  destruct (cc_lits c) as [|l tl] eqn:El; [simpl in Hlen2; lia|].
  assert (Hl : l ∈ cc_lits c) by (rewrite El; apply elem_of_cons; auto).
  destruct (Hr l ltac:(apply elem_of_cons; auto)) as [Hn Hm]. cbn in Hm.
  destruct (trail_total s (Z.abs l) (ci_trail _ _ Hinv) Hlen) as (t & Hin & E);
    [lia|].
  destruct (Z.eq_dec t l) as [->|Hne].
  - exists l. rewrite <- El. auto.
  - assert (Et : t = - l) by lia. subst t.
    destruct (ci_J _ _ Hinv id c 0%nat l Hc) as [[]|(u & A & B & _)].
    + lia.
    + rewrite El. reflexivity.
    + apply list_elem_of_lookup in Hin. destruct Hin as (j & Hj).
      exists j. split; [|exact Hj]. cbn. rewrite Hpn.
      eapply lookup_lt_Some. exact Hj.
    + exists u. rewrite <- El. auto.
Qed.

Lemma init_solving_Inv V origs s : Inv V origs s -> Inv V origs (init_solving s).
Proof. intros H. exact H. Qed.

(** C1: whenever [cadical] answers SAT (the result 10) on a DIMACS file,
    the final assignment gives every variable 1..V the value 1 or -1,
    every clause made of the integers the parser keeps has a literal of
    value 1 (the parser drops no clause; it keeps every integer of the file
    that is not directly followed by 'c'), and the witness printed is
    this assignment: it lists the variables in order, each with the sign
    of its value, so its literals are exactly those of value 1. *)
Theorem cadical_sat_model (o : Opts) (fuel : nat) (V num : Z)
  (tokens : list Token) (s : State) :
  cadical o fuel V num tokens = Some (10, s) ->
  max_var s = V /\
  (forall idx : Z, 1 <= idx <= V -> vals s idx = 1 \/ vals s idx = -1) /\
  (forall cl : list Z, cl ∈ dimacs_clauses [] (pushed tokens) ->
     exists L : Z, L ∈ cl /\ val s L = 1) /\
  Z.abs <$> print_witness s = seqZ 1 V /\
  (forall L : Z, L ∈ print_witness s <-> 1 <= Z.abs L <= V /\ val s L = 1).
Proof.
  unfold cadical, solve, search. intros H.
  destruct (parse_dimacs o V num tokens) as [s0|] eqn:Hp;
    cbn [mbind option_bind] in H; [|discriminate].
  apply parse_dimacs_PInv in Hp. destruct Hp as (HI0 & _ & _).
  apply init_solving_Inv in HI0.
  destruct (search_loop_Inv _ _ _ _ _ _ _ HI0 H) as [[Hq HI] H10].
  destruct (H10 eq_refl) as (Hu & Hpn & Hlen).
  destruct (HI Hu) as (Hinv & Hcf & Hmax & Ho).
  assert (Ht := ci_trail _ _ Hinv).
  assert (Hvals : forall idx, 1 <= idx <= V ->
                    vals s idx = 1 \/ vals s idx = -1).
  { intros idx Hidx. rewrite <- Hmax in Hidx.
    destruct (trail_total s idx Ht Hlen Hidx) as (t & Hin & E).
    destruct (tr_lit _ Ht t Hin) as [_ Hv]. cbn in Hv. rewrite E in Hv.
    rewrite Hv. unfold sign. destruct (t <? 0); auto. }
  split; [exact Hmax|]. split; [exact Hvals|]. split; [|split].
  - intros cl Hcl.
    destruct (Ho cl Hcl) as [(t & A & B & _)|(id & c & Hc & _ & Hsub)].
    + exists t. split; [exact A|]. apply val_trail; assumption.
    + destruct (heap_clause_true s id c Hinv Hpn Hlen Hc) as (L & A & B).
      exists L. split; [apply Hsub, A|]. apply val_trail; assumption.
  - unfold print_witness. rewrite Hmax, <- list_fmap_compose.
    rewrite <- (list_fmap_id (seqZ 1 V)) at 2.
    apply list_fmap_ext. intros i x Hx. cbn.
    apply list_elem_of_lookup_2, elem_of_seqZ in Hx.
    destruct (val s x <? 0); lia.
  - intros L. unfold print_witness. rewrite Hmax. split.
    + intros Hin. apply list_elem_of_fmap in Hin.
      destruct Hin as (i & -> & Hi). apply elem_of_seqZ in Hi.
      assert (Hv : vals s i = 1 \/ vals s i = -1) by (apply Hvals; lia).
      assert (Ea : Z.abs i = i) by lia.
      destruct (Z.ltb_spec (val s i) 0) as [Hneg|Hpos].
      * split; [lia|]. unfold val, vidx in *. rewrite Z.abs_opp, Ea in *.
        destruct (Z.ltb_spec i 0); [lia|].
        destruct (Z.ltb_spec (- i) 0); lia.
      * split; [lia|]. unfold val, vidx in *. rewrite Ea in *.
        destruct (Z.ltb_spec i 0); lia.
    + intros [Hr Hv]. apply list_elem_of_fmap. exists (Z.abs L).
      split; [|apply elem_of_seqZ; lia].
      unfold val, vidx in *. rewrite Z.abs_involutive.
      destruct (Z.ltb_spec L 0) as [Hn|Hp].
      * destruct (Z.ltb_spec (Z.abs L) 0); [lia|].
        destruct (Z.ltb_spec (vals s (Z.abs L)) 0); lia.
      * destruct (Z.ltb_spec (Z.abs L) 0); [lia|].
        destruct (Z.ltb_spec (vals s (Z.abs L)) 0); lia.
Qed.

Lemma cadical_sat_model_witness :
  cadical default_opts 50 3 4 (plain sat_example_tokens)
    = Some (10, sat_example_state) /\
  print_witness sat_example_state = [-1; 2; -3] /\
  forall cl : list Z,
    cl ∈ dimacs_clauses [] (pushed (plain sat_example_tokens)) ->
    exists L : Z, L ∈ cl /\ val sat_example_state L = 1.
Proof.
  assert (H : cadical default_opts 50 3 4 (plain sat_example_tokens)
              = Some (10, sat_example_state)) by (vm_compute; reflexivity).
  split; [exact H|]. split; [vm_compute; reflexivity|].
  exact (proj1 (proj2 (proj2
           (cadical_sat_model default_opts 50 3 4 (plain sat_example_tokens)
              sat_example_state H)))).
Defined.
(** ** What [analyze] learns *)

Lemma nondecreasing_spec (l : list nat) :
  nondecreasing l = true ->
  forall p q a b, (p <= q)%nat -> l !! p = Some a -> l !! q = Some b ->
                  (a <= b)%nat.
Proof.
  induction l as [|x l IH]; intros H p q a b Hpq Hp Hq; [discriminate|].
  assert (Hl : nondecreasing l = true /\
               forall y, l !! 0%nat = Some y -> (x <= y)%nat).
  { destruct l as [|y l']; [split; [reflexivity|discriminate]|].
    simpl in H. apply andb_prop in H. destruct H as [H1 H2].
    split; [exact H2|]. intros z Hz. inversion Hz; subst.
    apply Nat.leb_le. exact H1. }
  destruct Hl as [Hnd Hhd].
  assert (Hall : forall j y, l !! j = Some y -> (x <= y)%nat).
  { intros j y Hj. destruct l as [|z l']; [discriminate|].
    specialize (Hhd z eq_refl).
    destruct j as [|j]; [inversion Hj; subst; exact Hhd|].
    pose proof (IH Hnd 0%nat (S j) z y ltac:(lia) eq_refl Hj). lia. }
  destruct p as [|p], q as [|q]; simpl in Hp, Hq.
  - inversion Hp; inversion Hq; subst. lia.
  - inversion Hp; subst. exact (Hall q b Hq).
  - lia.
  - apply (IH Hnd p q); [lia|exact Hp|exact Hq].
Qed.

Lemma existsb_eqb_opp x (l : list Z) :
  existsb (Z.eqb (- x)) l = true -> - x ∈ l.
Proof.
  intros H. apply existsb_exists in H. destruct H as (y & Hin & E).
  apply Z.eqb_eq in E. subst y. apply list_elem_of_In. exact Hin.
Qed.

Lemma forallb_elem {A} (f : A -> bool) (l : list A) x :
  forallb f l = true -> x ∈ l -> f x = true.
Proof.
  intros H Hin. rewrite forallb_forall in H. apply H.
  apply list_elem_of_In. exact Hin.
Qed.

Lemma analyze_ready_spec s : analyze_ready s = true -> ARdy s.
Proof.
  unfold analyze_ready. intros H.
  repeat (apply andb_prop in H; destruct H as [H ?]).
  rename H into H1, H5 into H2, H4 into H3, H3 into H4', H2 into H5',
         H1 into H6', H0 into H7.
  split.
  - apply bool_decide_eq_true in H1. exact H1.
  - intros p q t u Hpq Hp Hq.
    apply (nondecreasing_spec _ H2 p q); [exact Hpq| |];
      rewrite list_lookup_fmap; [rewrite Hp|rewrite Hq]; reflexivity.
  - intros t Ht. apply Nat.leb_le. exact (forallb_elem _ _ _ H3 Ht).
  - intros t Ht. apply negb_true_iff. exact (forallb_elem _ _ _ H4' Ht).
  - intros lv Hlv. apply Z.eqb_eq. exact (forallb_elem _ _ _ H5' Hlv).
  - intros p u r Hp Hr Hl.
    assert (Hin : (p, u) ∈ imap pair (trail s)).
    { apply elem_of_lookup_imap. exists p, u. auto. }
    pose proof (forallb_elem _ _ _ H6' Hin) as Hrr. cbn in Hrr.
    unfold reason_ready in Hrr. rewrite Hr in Hrr.
    destruct (Nat.eqb_spec (lvl s u) 0); [contradiction|]. cbn in Hrr.
    destruct (heap s !! r) as [c|] eqn:Hc; [|discriminate].
    exists c. split; [reflexivity|]. intros x Hx.
    pose proof (forallb_elem _ _ _ Hrr Hx) as Hxx. cbn in Hxx.
    apply orb_prop in Hxx. destruct Hxx as [E|E].
    + left. apply Z.eqb_eq. exact E.
    + right. apply existsb_eqb_opp. exact E.
  - unfold conflict_ready in H7.
    destruct (conflict s) as [cf|] eqn:Hcf; [|discriminate].
    destruct (heap s !! cf) as [c|] eqn:Hc; [|discriminate].
    apply andb_prop in H7. destruct H7 as [Ha Hb].
    exists cf, c. split; [reflexivity|]. split; [exact Hc|]. split.
    + intros x Hx. apply existsb_eqb_opp. exact (forallb_elem _ _ _ Ha Hx).
    + apply existsb_exists in Hb. destruct Hb as (x & Hin & E).
      exists x. split; [apply list_elem_of_In; exact Hin|].
      apply Nat.eqb_eq. exact E.
Qed.

Lemma filter_length_ext (P P' : Z -> Prop) `{forall x, Decision (P x)}
  `{forall x, Decision (P' x)} (l : list Z) :
  (forall t, t ∈ l -> (P' t <-> P t)) ->
  length (filter P' l) = length (filter P l).
Proof.
  induction l as [|a l IH]; intros Hext; [reflexivity|].
  assert (Ha : P' a <-> P a) by (apply Hext, elem_of_cons; auto).
  assert (Hl : length (filter P' l) = length (filter P l))
    by (apply IH; intros t Ht; apply Hext, elem_of_cons; auto).
  rewrite !filter_cons.
  destruct (base.decide (P' a)), (base.decide (P a)); simpl; tauto || lia.
Qed.

Lemma filter_length_mark (P P' : Z -> Prop) `{forall x, Decision (P x)}
  `{forall x, Decision (P' x)} (l : list Z) (t0 : Z) :
  NoDup (Z.abs <$> l) -> t0 ∈ l -> ~ P t0 -> P' t0 ->
  (forall t, t ∈ l -> Z.abs t <> Z.abs t0 -> (P' t <-> P t)) ->
  length (filter P' l) = S (length (filter P l)).
Proof.
  induction l as [|a l IH]; intros Hnd Hin Hn Hp Hext; [inversion Hin|].
  rewrite fmap_cons in Hnd. apply list.NoDup_cons in Hnd.
  destruct Hnd as [Hna Hnd].
  assert (Hne : forall t, t ∈ l -> Z.abs t <> Z.abs a).
  { intros t Ht E. apply Hna. rewrite <- E. apply list_elem_of_fmap.
    exists t. auto. }
  rewrite !filter_cons.
  destruct (Z.eq_dec a t0) as [->|Hat].
  - rewrite decide_True by exact Hp. rewrite decide_False by exact Hn.
    simpl. f_equal. apply filter_length_ext. intros t Ht.
    apply Hext; [apply elem_of_cons; auto|]. apply Hne, Ht.
  - apply elem_of_cons in Hin. destruct Hin as [E|Hin]; [congruence|].
    assert (Ha : P' a <-> P a).
    { apply Hext; [apply elem_of_cons; auto|].
      intros E. exact (Hne t0 Hin (eq_sym E)). }
    assert (Hl : length (filter P' l) = S (length (filter P l))).
    { apply IH; try assumption.
      intros t Ht. apply Hext, elem_of_cons. auto. }
    destruct (base.decide (P' a)), (base.decide (P a)); simpl; tauto || lia.
Qed.

(** What one call of [analyze_literal] does. *)
Lemma analyze_literal_spec lit s bb s' :
  analyze_literal lit s = Some (bb, s') ->
  ((v_seen (var s lit) = true \/ lvl s lit = 0%nat) /\ s' = s /\ bb = false)
  \/
  (v_seen (var s lit) = false /\ lvl s lit <> 0%nat /\ val s lit < 0 /\
   exists lv, levels s !! lvl s lit = Some lv /\
     bb = (lvl s lit =? level s)%nat /\
     trail s' = trail s /\ level s' = level s /\ heap s' = heap s /\
     vals s' = vals s /\
     vars s' = <[vidx lit := set_v_seen true (vars s (vidx lit))]> (vars s) /\
     clause s' = (if (lvl s lit <? level s)%nat then clause s ++ [lit]
                  else clause s) /\
     levels s' = <[lvl s lit := set_l_seen (l_seen lv + 1) lv]> (levels s) /\
     seen_levels s' = (if l_seen lv =? 0 then seen_levels s ++ [lvl s lit]
                       else seen_levels s) /\
     seen_literals s' = seen_literals s ++ [lit] /\
     next_ref s' = next_ref s /\ redundant s' = redundant s).
Proof.
  unfold analyze_literal, lvl. intros H.
  destruct (v_seen (var s lit)) eqn:Hs; [inversion H; subst; auto|].
  destruct (Nat.eqb_spec (v_level (var s lit)) 0) as [E0|E0];
    [inversion H; subst; auto|].
  right.
  destruct (Z.ltb_spec (val s lit) 0) as [Hv|];
    cbn [check mbind option_bind] in H; [|discriminate].
  split; [reflexivity|]. split; [exact E0|]. split; [exact Hv|].
  destruct (v_level (var s lit) <? level s)%nat eqn:Hlt.
  - cbn [levels set_clause] in H.
    destruct (levels s !! v_level (var s lit)) as [lv|] eqn:Hlv;
      cbn [mbind option_bind] in H; [|discriminate].
    exists lv. split; [reflexivity|].
    inversion H; subst bb s'. clear H.
    destruct (l_seen lv =? 0); cbn; repeat split; reflexivity.
  - destruct (levels s !! v_level (var s lit)) as [lv|] eqn:Hlv;
      cbn [mbind option_bind] in H; [|discriminate].
    exists lv. split; [reflexivity|].
    inversion H; subst bb s'. clear H.
    destruct (l_seen lv =? 0); cbn; repeat split; reflexivity.
Qed.

Lemma NoDup_abs_eq (l : list Z) a b :
  NoDup (Z.abs <$> l) -> a ∈ l -> b ∈ l -> Z.abs a = Z.abs b -> a = b.
Proof.
  intros Hnd Ha Hb E.
  apply list_elem_of_lookup in Ha, Hb. destruct Ha as (i & Hi), Hb as (j & Hj).
  assert (Eij : i = j).
  { eapply NoDup_lookup; [exact Hnd| |];
      rewrite list_lookup_fmap; [rewrite Hi|rewrite Hj]; cbn;
      [reflexivity|rewrite E; reflexivity]. }
  subst j. congruence.
Qed.

Lemma NoDup_abs_take (l : list Z) i :
  NoDup (Z.abs <$> l) -> NoDup (Z.abs <$> take i l).
Proof.
  intros H. rewrite fmap_take. eapply sublist_NoDup; [exact H|].
  apply sublist_take.
Qed.

Lemma elem_of_take_elem {A} (l : list A) i x : x ∈ take i l -> x ∈ l.
Proof.
  intros H. apply elem_of_take in H. destruct H as (j & Hj & _).
  eapply list_elem_of_lookup_2. exact Hj.
Qed.

Lemma vidx_opp l : vidx (- l) = vidx l.
Proof. unfold vidx. apply Z.abs_opp. Qed.

Lemma analyze_literal_AInv b s i lit bb s' :
  NoDup (Z.abs <$> trail b) -> AInv b s ->
  (v_seen (var s lit) = true \/ - lit ∈ take i (trail b)) ->
  analyze_literal lit s = Some (bb, s') ->
  AInv b s' /\
  open_count s' i = (open_count s i + (if bb then 1 else 0))%nat /\
  (v_seen (var s' lit) = true \/ lvl b lit = 0%nat) /\
  (forall x, v_seen (var s x) = true -> v_seen (var s' x) = true).
Proof.
  intros Hnd HA Hpre H.
  assert (Elvl : forall x, lvl s x = lvl b x)
    by (intros x; apply (ai_lvl _ _ HA)).
  apply analyze_literal_spec in H.
  destruct H as [(Hskip & -> & ->)|
                 (Hs & Hl0 & Hv & lv & Hlv & -> & Et & El & Eh & Eva & Evars
                  & Ecl & Elvs & Esl & Esls & Enr & Erd)].
  { split; [exact HA|]. split; [lia|]. split; [|intros x Hx; exact Hx].
    destruct Hskip as [Hs|Hl]; [left; exact Hs|right].
    rewrite <- Elvl. exact Hl. }
  destruct Hpre as [Hc|Hin]; [congruence|].
  assert (Hseen' : forall x, v_seen (var s' x)
                    = if Z.eq_dec (vidx x) (vidx lit) then true
                      else v_seen (var s x)).
  { intros x. unfold var. rewrite Evars. unfold insert, fn_insert.
    destruct (decide_rel _ _ _) as [E|E];
      destruct (Z.eq_dec (vidx x) (vidx lit)) as [E'|E']; try congruence;
      reflexivity. }
  assert (Evl : forall idx, v_level (vars s' idx) = v_level (vars s idx)).
  { intros idx. rewrite Evars. unfold insert, fn_insert.
    destruct (decide_rel _ _ _) as [<-|]; reflexivity. }
  assert (Evr : forall idx, v_reason (vars s' idx) = v_reason (vars s idx)).
  { intros idx. rewrite Evars. unfold insert, fn_insert.
    destruct (decide_rel _ _ _) as [<-|]; reflexivity. }
  assert (HinT : - lit ∈ trail b) by (eapply elem_of_take_elem; exact Hin).
  assert (Hmono : forall x, v_seen (var s x) = true ->
                            v_seen (var s' x) = true).
  { intros x Hx. rewrite Hseen'. destruct (Z.eq_dec _ _); auto. }
  destruct (ai_cnt _ _ HA _ _ Hlv) as [Hnn Hz].
  assert (Hsl' : forall l, l ∈ seen_levels s' <->
                           l ∈ seen_levels s \/ l = lvl s lit).
  { intros l. rewrite Esl. destruct (Z.eqb_spec (l_seen lv) 0) as [E0|E0].
    - rewrite elem_of_app, list_elem_of_singleton. tauto.
    - split; [auto|]. intros [Hl| ->]; [exact Hl|].
      destruct (decide_rel elem_of (lvl s lit) (seen_levels s)) as [Hi|Hni];
        [exact Hi|].
      apply Hz in Hni. contradiction. }
  split; [split|split; [|split; [left; rewrite Hseen'|exact Hmono]]].
  - rewrite Et. apply HA.
  - rewrite El. apply HA.
  - rewrite Eh. apply HA.
  - rewrite Eva. apply HA.
  - intros idx. rewrite Evl. apply HA.
  - intros idx. rewrite Evr. apply HA.
  - intros x Hx. rewrite Esls in Hx. apply elem_of_app in Hx.
    destruct Hx as [Hx|Hx].
    + destruct (ai_seen _ _ HA x Hx) as (A & B & C & D).
      split; [apply Hmono, A|auto].
    + apply list_elem_of_singleton in Hx. subst x.
      split; [rewrite Hseen'; destruct (Z.eq_dec _ _); congruence|].
      split; [exact HinT|]. split; [rewrite <- Elvl; exact Hl0|].
      unfold val in *. rewrite <- (ai_vals _ _ HA). exact Hv.
  - intros t Ht Hst. rewrite Esls, elem_of_app, list_elem_of_singleton.
    rewrite Hseen' in Hst.
    destruct (Z.eq_dec (vidx t) (vidx lit)) as [E|E].
    + right.
      assert (t = - lit); [|lia].
      apply (NoDup_abs_eq (trail b)); try assumption.
      unfold vidx in E. rewrite Z.abs_opp. exact E.
    + left. apply (ai_marked _ _ HA t Ht Hst).
  - rewrite Ecl, Esls, list.filter_app, (ai_clause _ _ HA).
    rewrite Elvl, (ai_level _ _ HA).
    destruct (Nat.ltb_spec (lvl b lit) (level b)) as [Hlt|Hge].
    + rewrite filter_cons, decide_True by exact Hlt. reflexivity.
    + rewrite filter_cons, decide_False by lia.
      rewrite filter_nil, app_nil_r. reflexivity.
  - rewrite Esl. destruct (Z.eqb_spec (l_seen lv) 0) as [E0|E0];
      [|apply HA].
    apply list.NoDup_app. split; [apply HA|]. split.
    + intros x Hx Hx'. apply list_elem_of_singleton in Hx'. subst x.
      apply Hz in E0. contradiction.
    + apply list.NoDup_singleton.
  - intros l. rewrite Hsl', (ai_sl _ _ HA), Esls. split.
    + intros [(x & Hx & E)|E].
      * exists x. split; [apply elem_of_app; left; exact Hx|exact E].
      * exists lit. split; [apply elem_of_app; right;
                            apply list_elem_of_singleton; reflexivity|].
        rewrite <- Elvl. auto.
    + intros (x & Hx & E). apply elem_of_app in Hx.
      destruct Hx as [Hx|Hx]; [left; eauto|right].
      apply list_elem_of_singleton in Hx. subst x. rewrite Elvl. auto.
  - intros l lv' Hl'. rewrite Elvs in Hl'. rewrite Hsl'.
    destruct (Nat.eq_dec l (lvl s lit)) as [->|Hne].
    + rewrite list_lookup_insert_eq in Hl'
        by (eapply lookup_lt_Some; exact Hlv).
      inversion Hl'; subst lv'. cbn. split; [lia|].
      split; [lia|]. intros Hn. exfalso. apply Hn. auto.
    + rewrite list_lookup_insert_ne in Hl' by congruence.
      destruct (ai_cnt _ _ HA _ _ Hl') as [A B].
      split; [exact A|]. rewrite B. tauto.
  - rewrite Enr. apply HA.
  - rewrite Erd. apply HA.
  - (* the count *)
    unfold open_count. rewrite Et, El, (ai_trail _ _ HA).
    destruct (Nat.eqb_spec (lvl s lit) (level s)) as [EL|EL].
    + rewrite Nat.add_1_r.
      apply (filter_length_mark _ _ (take i (trail b)) (- lit)).
      * apply NoDup_abs_take, Hnd.
      * exact Hin.
      * intros [A _]. unfold var in A, Hs. rewrite vidx_opp in A. congruence.
      * split.
        -- rewrite Hseen'. rewrite vidx_opp.
           destruct (Z.eq_dec _ _); congruence.
        -- unfold lvl, var. rewrite Evl, vidx_opp. exact EL.
      * intros t Ht Hne. rewrite Hseen'. unfold lvl at 1, var at 2.
        rewrite Evl.
        destruct (Z.eq_dec (vidx t) (vidx lit)) as [E|E].
        -- exfalso. apply Hne. unfold vidx in E. rewrite Z.abs_opp. exact E.
        -- reflexivity.
    + rewrite Nat.add_0_r. apply filter_length_ext.
      intros t Ht. rewrite Hseen'. unfold lvl at 1, var at 2. rewrite Evl.
      destruct (Z.eq_dec (vidx t) (vidx lit)) as [E|E]; [|reflexivity].
      unfold lvl, var in *. rewrite E. split; intros [_ A]; congruence.
  - destruct (Z.eq_dec _ _); congruence.
Qed.

Lemma analyze_reason_AInv b i :
  NoDup (Z.abs <$> trail b) ->
  forall lits open s open' s',
  AInv b s ->
  (forall x, x ∈ lits -> v_seen (var s x) = true \/ - x ∈ take i (trail b)) ->
  analyze_reason lits open s = Some (open', s') ->
  AInv b s' /\
  open' = open + Z.of_nat (open_count s' i) - Z.of_nat (open_count s i) /\
  (open_count s i <= open_count s' i)%nat /\
  (forall x, x ∈ lits -> v_seen (var s' x) = true \/ lvl b x = 0%nat) /\
  (forall x, v_seen (var s x) = true -> v_seen (var s' x) = true).
Proof.
  intros Hnd. induction lits as [|lit rest IH];
    intros open s open' s' HA Hpre H; simpl in H.
  - inversion H; subst. split; [exact HA|]. split; [lia|]. split; [lia|].
    split; [intros x Hx; inversion Hx|auto].
  - destruct (analyze_literal lit s) as [[bb s1]|] eqn:Hl; simpl in H;
      [|discriminate].
    destruct (analyze_literal_AInv b s i lit bb s1 Hnd HA) as (A1 & C1 & S1 & M1);
      [apply Hpre, elem_of_cons; auto|exact Hl|].
    assert (Hpre1 : forall x, x ∈ rest ->
              v_seen (var s1 x) = true \/ - x ∈ take i (trail b)).
    { intros x Hx. destruct (Hpre x) as [Hs|Hin];
        [apply elem_of_cons; auto|left; apply M1, Hs|right; exact Hin]. }
    destruct (IH _ _ _ _ A1 Hpre1 H) as (A2 & C2 & L2 & S2 & M2).
    split; [exact A2|]. split; [|split; [lia|split]].
    + rewrite C2, C1. destruct bb; lia.
    + intros x Hx. apply elem_of_cons in Hx. destruct Hx as [->|Hx].
      * destruct S1 as [Hs|Hz]; [left; apply M2, Hs|right; exact Hz].
      * apply S2, Hx.
    + intros x Hx. apply M2, M1, Hx.
Qed.

Lemma open_count_S s i u :
  trail s !! i = Some u ->
  open_count s (S i)
  = (open_count s i
     + (if v_seen (var s u) && (lvl s u =? level s)%nat then 1 else 0))%nat.
Proof.
  intros Hu. unfold open_count. rewrite (take_S_r _ _ _ Hu).
  rewrite list.filter_app, length_app, filter_cons.
  destruct (v_seen (var s u)) eqn:Hs; cbn [andb].
  - destruct (Nat.eqb_spec (lvl s u) (level s)) as [E|E].
    + rewrite decide_True by auto. reflexivity.
    + rewrite decide_False by tauto. reflexivity.
  - rewrite decide_False by (intros [A _]; congruence). reflexivity.
Qed.

Lemma find_seen_spec s : forall (i i1 : nat) (uip : Z),
  find_seen i s = Some (i1, uip) ->
  (i1 < i)%nat /\ trail s !! i1 = Some uip /\ v_seen (var s uip) = true /\
  open_count s i = open_count s (S i1).
Proof.
  induction i as [|i IH]; intros i1 uip H; simpl in H; [discriminate|].
  destruct (trail s !! i) as [u|] eqn:Hu; simpl in H; [|discriminate].
  destruct (v_seen (var s u)) eqn:Hs.
  - inversion H; subst. auto.
  - destruct (IH _ _ H) as (A & B & C & D).
    split; [lia|]. split; [exact B|]. split; [exact C|].
    rewrite (open_count_S s i u Hu), Hs. cbn [andb]. lia.
Qed.

(** With a marked literal of the current level at [i1] or below, the
    literal at [i1] is of the current level. *)
Lemma find_seen_level b s i1 uip :
  ARdy b -> AInv b s -> (1 <= open_count s (S i1))%nat ->
  trail b !! i1 = Some uip ->
  lvl b uip = level b.
Proof.
  intros HR HA Hc Hu. unfold open_count in Hc.
  rewrite (ai_trail _ _ HA), (ai_level _ _ HA) in Hc.
  destruct (filter _ (take (S i1) (trail b))) as [|t tl] eqn:E;
    [simpl in Hc; lia|].
  assert (Ht : t ∈ filter (fun t => v_seen (var s t) = true /\
                                    lvl s t = level b)
                          (take (S i1) (trail b)))
    by (rewrite E; apply elem_of_cons; auto).
  apply list_elem_of_filter in Ht. destruct Ht as [[_ Hl] Hin].
  apply elem_of_take in Hin. destruct Hin as (p & Hp & Hlt).
  pose proof (ar_mono _ HR p i1 t uip ltac:(lia) Hp Hu) as Hm.
  pose proof (ar_le _ HR uip ltac:(eapply list_elem_of_lookup_2; exact Hu)).
  assert (lvl s t = lvl b t) by apply (ai_lvl _ _ HA).
  lia.
Qed.

Lemma open_count_pos b s i x :
  AInv b s -> - x ∈ take i (trail b) -> v_seen (var s x) = true ->
  lvl b x = level b -> (1 <= open_count s i)%nat.
Proof.
  intros HA Hin Hs Hl. unfold open_count.
  rewrite (ai_trail _ _ HA), (ai_level _ _ HA).
  assert (Hf : - x ∈ filter (fun t => v_seen (var s t) = true /\
                                      lvl s t = level b)
                            (take i (trail b))).
  { apply list_elem_of_filter. split; [|exact Hin]. split.
    - unfold var in *. rewrite vidx_opp. exact Hs.
    - unfold lvl, var in *. rewrite vidx_opp, (ai_lvl _ _ HA). exact Hl. }
  destruct (filter _ _); [inversion Hf|simpl; lia].
Qed.

(** The loop of [analyze] stops at a literal of the current level. *)
Lemma analyze_loop_AInv b :
  ARdy b -> (0 < level b)%nat ->
  forall fuel r open i s uip s',
  AInv b s -> open = Z.of_nat (open_count s i) ->
  (forall c, heap b !! r = Some c -> forall x, x ∈ literals c ->
     v_seen (var s x) = true \/ - x ∈ take i (trail b)) ->
  ((1 <= open_count s i)%nat \/
   exists c x, heap b !! r = Some c /\ x ∈ literals c /\
               lvl b x = level b /\ - x ∈ take i (trail b)) ->
  analyze_loop fuel r open i s = Some (uip, s') ->
  AInv b s' /\ uip ∈ trail b /\ lvl b uip = level b /\
  v_seen (var s' uip) = true.
Proof.
  intros HR HL. induction fuel as [|fuel IH];
    intros r open i s uip s' HA Hopen Hpre Hcnt H; simpl in H; [discriminate|].
  rewrite (ai_heap _ _ HA) in H.
  destruct (heap b !! r) as [cl|] eqn:Hcl; simpl in H; [|discriminate].
  destruct (analyze_reason (literals cl) open s) as [[open1 s1]|] eqn:Hr;
    simpl in H; [|discriminate].
  destruct (analyze_reason_AInv b i (ar_nodup _ HR) _ _ _ _ _ HA
              (Hpre cl eq_refl) Hr) as (A1 & C1 & L1 & S1 & M1).
  assert (Hc1 : (1 <= open_count s1 i)%nat).
  { destruct Hcnt as [Hc|(c & x & Hc & Hx & Hlx & Hin)]; [lia|].
    inversion Hc; subst c.
    apply (open_count_pos b s1 i x A1 Hin); [|exact Hlx].
    destruct (S1 x Hx) as [Hs|Hz]; [exact Hs|lia]. }
  destruct (find_seen i s1) as [[i1 u]|] eqn:Hf; simpl in H; [|discriminate].
  destruct (find_seen_spec _ _ _ _ Hf) as (Hlt & Hu & Hsu & Hci).
  rewrite (ai_trail _ _ A1) in Hu.
  assert (Hlu : lvl b u = level b)
    by (apply (find_seen_level b s1 i1 u HR A1); [lia|exact Hu]).
  assert (Hin : u ∈ trail b) by (eapply list_elem_of_lookup_2; exact Hu).
  assert (Hc2 : open_count s1 (S i1) = S (open_count s1 i1)).
  { rewrite (open_count_S s1 i1 u) by (rewrite (ai_trail _ _ A1); exact Hu).
    rewrite Hsu. cbn [andb].
    assert (E : lvl s1 u = level s1).
    { unfold lvl, var. rewrite (ai_lvl _ _ A1), (ai_level _ _ A1). exact Hlu. }
    rewrite E, Nat.eqb_refl. lia. }
  assert (Hopen2 : open1 - 1 = Z.of_nat (open_count s1 i1)) by lia.
  destruct (Z.eqb_spec (open1 - 1) 0) as [E0|E0].
  { inversion H; subst. auto. }
  destruct (v_reason (var s1 u)) as [r'|] eqn:Hru; simpl in H; [|discriminate].
  apply (IH r' (open1 - 1) i1 s1 uip s' A1 Hopen2); [| |exact H].
  - unfold var in Hru. rewrite (ai_reason _ _ A1) in Hru.
    destruct (ar_reason _ HR i1 u r' Hu Hru ltac:(lia)) as (c & Hc & Hx).
    intros c' Hc' x Hxin. rewrite Hc in Hc'. inversion Hc'; subst c'.
    destruct (Hx x Hxin) as [Ea|Hb]; [left|right; exact Hb].
    unfold var, vidx in *. rewrite Ea. exact Hsu.
  - left. lia.
Qed.

(** *** The steps after the loop *)

Lemma queue_step_refl s : queue_step s s.
Proof. unfold queue_step. auto 10. Qed.

Lemma queue_step_trans s1 s2 s3 :
  queue_step s1 s2 -> queue_step s2 s3 -> queue_step s1 s3.
Proof.
  intros (A1 & A2 & A3 & A4 & A5 & A6 & A7 & A8)
         (B1 & B2 & B3 & B4 & B5 & B6 & B7 & B8).
  unfold queue_step. repeat split; try congruence.
  - rewrite (proj1 (B8 idx)). apply A8.
  - rewrite (proj2 (B8 idx)). apply A8.
Qed.

Lemma queue_step_upd_var idx f s :
  (forall v, v_level (f v) = v_level v /\ v_reason (f v) = v_reason v) ->
  queue_step s (upd_var idx f s).
Proof.
  intros Hf. unfold queue_step. repeat split; try reflexivity;
    unfold upd_var; cbn; unfold insert, fn_insert;
    (destruct (decide_rel _ _ _) as [<-|]; [apply Hf|reflexivity]).
Qed.

Lemma queue_step_if (c : bool) s s1 s2 :
  queue_step s s1 -> queue_step s s2 -> queue_step s (if c then s1 else s2).
Proof. destruct c; auto. Qed.

Lemma queue_step_dequeue idx s : queue_step s (dequeue idx s).
Proof.
  unfold dequeue. cbv zeta.
  eapply queue_step_trans.
  2: { apply queue_step_if.
       - apply queue_step_upd_var. intros v. split; reflexivity.
       - unfold queue_step. cbn. auto 10. }
  apply queue_step_if.
  - apply queue_step_upd_var. intros v. split; reflexivity.
  - unfold queue_step. cbn. auto 10.
Qed.

Lemma queue_step_enqueue idx s : queue_step s (enqueue idx s).
Proof.
  unfold enqueue. cbv zeta.
  eapply queue_step_trans;
    [|apply queue_step_upd_var; intros v; split; reflexivity].
  eapply queue_step_trans; [|unfold queue_step; cbn; auto 10].
  eapply queue_step_trans;
    [apply (queue_step_upd_var idx (set_v_prev (q_last (queue s))));
     intros v; split; reflexivity|].
  apply queue_step_if.
  - apply queue_step_upd_var. intros v. split; reflexivity.
  - unfold queue_step. cbn. auto 10.
Qed.

Lemma queue_step_bump_literal uip lit s : queue_step s (bump_literal uip lit s).
Proof.
  unfold bump_literal. cbv zeta.
  eapply queue_step_trans;
    [apply (queue_step_upd_var (vidx lit) (set_v_marks false));
     intros v; split; reflexivity|].
  generalize (upd_var (vidx lit) (set_v_marks false) s). intros s1.
  apply queue_step_if; [apply queue_step_refl|].
  assert (H2 : queue_step s1
            (if q_next (queue s1) =? vidx lit
             then upd_queue
                    (set_q_next
                       (if negb (v_prev (vars s1 (vidx lit)) =? 0)
                        then v_prev (vars s1 (vidx lit))
                        else v_next (vars s1 (vidx lit)))) s1
             else s1)).
  { apply queue_step_if; [unfold queue_step; cbn; auto 10|].
    apply queue_step_refl. }
  revert H2. generalize (if q_next (queue s1) =? vidx lit
             then upd_queue
                    (set_q_next
                       (if negb (v_prev (vars s1 (vidx lit)) =? 0)
                        then v_prev (vars s1 (vidx lit))
                        else v_next (vars s1 (vidx lit)))) s1
             else s1).
  intros s2 H2.
  assert (H3 : queue_step s1 (enqueue (vidx lit) (dequeue (vidx lit) s2))).
  { eapply queue_step_trans; [exact H2|].
    eapply queue_step_trans; [apply queue_step_dequeue|].
    apply queue_step_enqueue. }
  revert H3. generalize (enqueue (vidx lit) (dequeue (vidx lit) s2)).
  intros s3 H3.
  assert (H5 : queue_step s1
            (upd_var (vidx lit) (set_v_bumped (bumped (stats s3) + 1))
               (upd_stats (set_bumped (bumped (stats s3) + 1)) s3))).
  { eapply queue_step_trans; [exact H3|].
    eapply queue_step_trans;
      [|apply queue_step_upd_var; intros v; split; reflexivity].
    unfold queue_step. cbn. auto 10. }
  revert H5. generalize (upd_var (vidx lit) (set_v_bumped (bumped (stats s3) + 1))
               (upd_stats (set_bumped (bumped (stats s3) + 1)) s3)).
  intros s5 H5. apply queue_step_if; [|exact H5].
  eapply queue_step_trans; [exact H5|]. unfold queue_step. cbn. auto 10.
Qed.

Lemma queue_step_bump_and_clear uip s :
  queue_step s (bump_and_clear_seen_literals uip s).
Proof.
  unfold bump_and_clear_seen_literals. cbv zeta.
  eapply queue_step_trans; [|unfold queue_step; cbn; auto 10].
  generalize (sort_by (bumped_earlier s) (seen_literals s)).
  generalize (if uip <? 0 then - uip else uip). intros u l. revert s.
  induction l as [|x l IH]; intros s; simpl; [apply queue_step_refl|].
  eapply queue_step_trans; [apply (queue_step_bump_literal u x)|apply IH].
Qed.

Lemma bump_clause_frame c s b :
  bump_clause c s = Some b ->
  exists h e, b = set_ema e (set_heap h s) /\
    forall id, literals <$> h !! id = literals <$> heap s !! id.
Proof.
  unfold bump_clause. intros H.
  destruct (heap s !! c) as [cl|] eqn:Hc; cbn in H; [|discriminate].
  destruct (c_redundant cl); cbn in H; inversion H; subst b; clear H.
  - eexists _, _. split; [reflexivity|]. intros id.
    destruct (Nat.eq_dec id c) as [->|Hne].
    + rewrite lookup_insert_eq, Hc. reflexivity.
    + rewrite lookup_insert_ne by congruence. reflexivity.
  - exists (heap s), (ema s). split; [destruct s; reflexivity|auto].
Qed.

Lemma ARdy_frame s h e :
  (forall id, literals <$> h !! id = literals <$> heap s !! id) ->
  ARdy s -> ARdy (set_ema e (set_heap h s)).
Proof.
  intros Hl [A B C D E F G]. split; try assumption.
  - intros p u r Hp Hr Hz. destruct (F p u r Hp Hr Hz) as (c & Hc & Hx).
    pose proof (Hl r) as E'. cbn [heap set_ema set_heap].
    rewrite Hc in E'. destruct (h !! r) as [c'|]; [|discriminate].
    exists c'. split; [reflexivity|]. inversion E' as [E'']. rewrite E''.
    exact Hx.
  - destruct G as (cf & c & Hcf & Hc & Hx & Hy).
    pose proof (Hl cf) as E'. rewrite Hc in E'.
    destruct (h !! cf) as [c'|] eqn:Hc'; [|discriminate].
    exists cf, c'. split; [exact Hcf|]. split; [exact Hc'|].
    inversion E' as [E'']. rewrite E''. auto.
Qed.

Lemma AInv_start b :
  ARdy b -> clause b = [] -> seen_literals b = [] -> seen_levels b = [] ->
  AInv b b /\ open_count b (length (trail b)) = 0%nat.
Proof.
  intros HR Hc Hsl Hsv. split; [split; try reflexivity|].
  - intros x Hx. rewrite Hsl in Hx. inversion Hx.
  - intros t Ht Hs. rewrite (ar_unseen _ HR t Ht) in Hs. discriminate.
  - rewrite Hc, Hsl. reflexivity.
  - rewrite Hsv. constructor.
  - intros l. rewrite Hsv, Hsl. split; [intros H; inversion H|].
    intros (x & Hx & _). inversion Hx.
  - intros l lv Hl. rewrite Hsv.
    rewrite (ar_lseen _ HR lv) by (eapply list_elem_of_lookup_2; exact Hl).
    split; [lia|]. split; [intros _ H; inversion H|reflexivity].
  - unfold open_count. rewrite filter_none; [reflexivity|].
    intros t Ht [Hs _]. apply elem_of_take_elem in Ht.
    rewrite (ar_unseen _ HR t Ht) in Hs. discriminate.
Qed.

(** The glue: [seen_levels] lists the levels of the learned literals,
    each once. *)
Lemma glue_distinct b s uip lits :
  ARdy b -> AInv b s -> uip ∈ trail b -> lvl b uip = level b ->
  v_seen (var s uip) = true ->
  (forall x, x ∈ lits <-> x ∈ clause s ++ [- uip]) ->
  length (seen_levels s) = length (remove_dups (lvl b <$> lits)).
Proof.
  intros HR HA Hu Hlu Hsu Hlits. apply Permutation_length.
  apply NoDup_Permutation; [apply HA|apply NoDup_remove_dups|].
  intros l. rewrite elem_of_remove_dups, list_elem_of_fmap, (ai_sl _ _ HA).
  split.
  - intros (x & Hx & E).
    destruct (ai_seen _ _ HA x Hx) as (_ & Hin & _).
    destruct (Nat.lt_ge_cases (lvl b x) (level b)) as [Hlt|Hge].
    + exists x. split; [auto|]. apply Hlits, elem_of_app. left.
      rewrite (ai_clause _ _ HA). apply list_elem_of_filter. auto.
    + exists (- uip). split.
      * pose proof (ar_le _ HR _ Hin) as Hle. unfold lvl, var in *.
        rewrite vidx_opp in *. lia.
      * apply Hlits, elem_of_app. right. apply list_elem_of_singleton.
        reflexivity.
  - intros (x & -> & Hx). apply Hlits, elem_of_app in Hx.
    destruct Hx as [Hx|Hx].
    + rewrite (ai_clause _ _ HA) in Hx. apply list_elem_of_filter in Hx.
      exists x. tauto.
    + apply list_elem_of_singleton in Hx. subst x.
      exists (- uip). split; [|reflexivity].
      pose proof (ai_marked _ _ HA uip Hu Hsu) as Hm. exact Hm.
Qed.

Lemma learn_spec uip glue s dc jump s' :
  learn uip glue s = Some (dc, jump, s') ->
  (length (clause s) = 1%nat /\ dc = None /\ jump = 0%nat /\
   s' = upd_stats (fun st => set_learned_units (learned_units st + 1) st) s)
  \/
  (length (clause s) <> 1%nat /\
   exists l1 tl,
     sort_by (level_greater_than s) (clause s) = - uip :: l1 :: tl /\
     dc = Some (next_ref s) /\ jump = lvl s l1 /\ (jump < level s)%nat /\
     heap s' = <[next_ref s := mkClause true false false glue
                                 (conflicts (stats s)) (- uip :: l1 :: tl)]>
                 (heap s) /\
     redundant s' = redundant s ++ [next_ref s] /\
     next_ref s' = S (next_ref s) /\
     vars s' = vars s /\ vals s' = vals s /\ trail s' = trail s /\
     level s' = level s /\ levels s' = levels s /\
     propagate_next s' = propagate_next s /\ queue s' = queue s).
Proof.
  unfold learn. intros H.
  destruct (Nat.eqb_spec (length (clause s)) 1) as [E1|E1].
  { inversion H; subst. left. auto. }
  right. split; [exact E1|]. cbv zeta in H.
  set (lits := sort_by (level_greater_than s) (clause s)) in *.
  change (clause (set_clause lits s)) with lits in H.
  destruct (lits !! 0%nat) as [c0|] eqn:H0; cbn [mbind option_bind] in H;
    [|discriminate].
  destruct (Z.eqb_spec c0 (- uip)) as [->|]; cbn [check mbind option_bind] in H;
    [|discriminate].
  unfold new_learned_clause, new_clause in H. cbn [fst snd] in H.
  match type of H with
  | context [watch_clause ?c ?s2] =>
      destruct (watch_clause c s2) as [s3|] eqn:Hw;
        cbn [mbind option_bind] in H; [|discriminate]
  end.
  unfold watch_clause in Hw. cbn [heap set_redundant set_next_ref set_heap
    next_ref set_clause] in Hw.
  rewrite lookup_insert_eq in Hw. cbn [mbind option_bind] in Hw.
  destruct (check _); cbn [mbind option_bind] in Hw; [|discriminate].
  cbn [literals clause set_clause] in Hw. rewrite H0 in Hw.
  cbn [mbind option_bind] in Hw.
  destruct (lits !! 1%nat) as [l1|] eqn:H1; cbn [mbind option_bind] in Hw;
    [|discriminate].
  inversion Hw; subst s3. clear Hw.
  cbn [clause watch_literal set_watches set_all_literal_watches
       set_redundant set_next_ref set_heap set_clause] in H.
  rewrite H1 in H. cbn [mbind option_bind] in H.
  match type of H with
  | context [check ?c] =>
      destruct c eqn:Hlt; cbn [check mbind option_bind] in H; [|discriminate]
  end.
  inversion H; subst dc jump s'. clear H.
  assert (El : exists tl, lits = - uip :: l1 :: tl).
  { destruct lits as [|a [|b' tl]]; try discriminate.
    inversion H0; inversion H1; subst. eauto. }
  destruct El as (tl & El). exists l1, tl.
  split; [exact El|]. split; [reflexivity|]. split; [reflexivity|].
  split; [apply Nat.ltb_lt; exact Hlt|].
  rewrite <- El. cbn. repeat split; reflexivity.
Qed.

Lemma backtrack_frame t s s' :
  backtrack t s = Some s' ->
  heap s' = heap s /\ vars s' = vars s /\ next_ref s' = next_ref s /\
  redundant s' = redundant s /\ conflict s' = conflict s /\ level s' = t.
Proof.
  intros H. pose proof (backtrack_level _ _ _ H) as (Hl & _).
  unfold backtrack in H.
  destruct (check _); cbn [mbind option_bind] in H; [|discriminate].
  destruct (t =? level s)%nat; [inversion H; subst; auto 10|].
  destruct (levels s !! S t); cbn [mbind option_bind] in H; [|discriminate].
  destruct (backtrack_loop _ _ s) as [s1|] eqn:Hb;
    cbn [mbind option_bind] in H; [|discriminate].
  apply backtrack_loop_frame in Hb. destruct Hb as (v & q & tr & ->).
  inversion H; subst s'. destruct (_ <? _)%nat; cbn; auto 10.
Qed.

Lemma assign_spec l r s s' :
  assign l r s = Some s' ->
  heap s' = heap s /\ trail s' = trail s ++ [l] /\
  vals s' = <[vidx l := sign l]> (vals s) /\ level s' = level s /\
  next_ref s' = next_ref s /\ redundant s' = redundant s /\
  conflict s' = conflict s /\
  vars s' = <[vidx l := set_v_assigned (level s) r (vars s (vidx l))]>
              (vars s).
Proof.
  unfold assign. intros H.
  destruct (check _); cbn [mbind option_bind] in H; [|discriminate].
  inversion H; subst s'. destruct (level s =? 0)%nat; cbn; auto 10.
Qed.

Lemma level_greater_than_asym s x y :
  level_greater_than s x y = true -> level_greater_than s y x = false.
Proof.
  unfold level_greater_than. intros H. apply Nat.ltb_lt in H.
  apply Nat.ltb_ge. lia.
Qed.

Lemma level_greater_than_trans s x y z :
  not_after (level_greater_than s) x y ->
  not_after (level_greater_than s) y z ->
  not_after (level_greater_than s) x z.
Proof.
  unfold not_after, level_greater_than. intros H1 H2.
  apply Nat.ltb_ge in H1, H2. apply Nat.ltb_ge. lia.
Qed.

(** C3: [analyze], called at a conflict above the root level, takes the
    literal [uip] its loop stops at (the first UIP), which is of the
    current level, and learns the clause made of [- uip] and of false
    literals of lower levels.  If that is [- uip] alone no clause is added
    and the solver backtracks to the root level.  Otherwise a redundant
    clause with these literals, two or more, is added: slot 0 holds
    [- uip], slot 1 a literal of the highest level below the current one
    among them, the glue of the clause is the number of distinct levels of
    its literals, and the solver backtracks to the level of slot 1.  In
    both cases [- uip] is then assigned, last on the trail, at the level
    the solver is in, with the new clause as reason, or none for a unit,
    and the conflict is reset. *)
Theorem analyze_learns (s s' : State) :
  analyze_ready s = true -> (0 < level s)%nat -> analyze s = Some s' ->
  exists (cf : nat) (b s2 : State) (uip : Z) (lits : list Z),
    conflict s = Some cf /\ bump_clause cf s = Some b /\
    analyze_loop (S (length (trail s))) cf 0 (length (trail s)) b
      = Some (uip, s2) /\
    uip ∈ trail s /\ lvl s uip = level s /\
    lits ≡ₚ clause s2 ++ [- uip] /\
    lits !! 0%nat = Some (- uip) /\
    (forall x, x ∈ drop 1 lits ->
       val s x < 0 /\ (0 < lvl s x < level s)%nat) /\
    ((lits = [- uip] /\ next_ref s' = next_ref s /\
      redundant s' = redundant s /\ level s' = 0%nat /\
      v_reason (var s' uip) = None)
     \/
     (exists (l1 : Z) (c : Clause),
        lits !! 1%nat = Some l1 /\
        heap s' !! next_ref s = Some c /\ next_ref s' = S (next_ref s) /\
        redundant s' = redundant s ++ [next_ref s] /\
        c_redundant c = true /\ literals c = lits /\
        c_glue c = Z.of_nat (length (remove_dups (lvl s <$> lits))) /\
        (forall x, x ∈ drop 1 lits -> (lvl s x <= lvl s l1)%nat) /\
        (lvl s l1 < level s)%nat /\ level s' = lvl s l1 /\
        v_reason (var s' uip) = Some (next_ref s))) /\
    list.last (trail s') = Some (- uip) /\ val s' (- uip) = 1 /\
    lvl s' uip = level s' /\ conflict s' = None.
Proof.
  intros Hrdy HL H. apply analyze_ready_spec in Hrdy.
  unfold analyze in H.
  destruct (conflict s) as [cf|] eqn:Hcf; cbn [mbind option_bind] in H;
    [|discriminate].
  destruct (Nat.eqb_spec (level s) 0) as [|_]; [lia|].
  destruct (bump_clause cf s) as [b|] eqn:Hb; cbn [mbind option_bind] in H;
    [|discriminate].
  destruct (bump_clause_frame _ _ _ Hb) as (h & e & Eb & Hlit).
  assert (HRb : ARdy b) by (rewrite Eb; apply ARdy_frame; assumption).
  assert (Etr : trail b = trail s) by (rewrite Eb; reflexivity).
  assert (Elev : level b = level s) by (rewrite Eb; reflexivity).
  assert (Evars : vars b = vars s) by (rewrite Eb; reflexivity).
  assert (Evals : vals b = vals s) by (rewrite Eb; reflexivity).
  assert (Enr : next_ref b = next_ref s) by (rewrite Eb; reflexivity).
  assert (Ered : redundant b = redundant s) by (rewrite Eb; reflexivity).
  assert (Ecf : conflict b = Some cf) by (rewrite Eb; exact Hcf).
  assert (Elvl : forall x, lvl b x = lvl s x)
    by (intros x; unfold lvl, var; rewrite Evars; reflexivity).
  assert (Eval : forall x, val b x = val s x)
    by (intros x; unfold val; rewrite Evals; reflexivity).
  clear Eb Hlit.
  destruct (bool_decide_reflect (clause b = [])) as [Hc1|];
    cbn [check mbind option_bind] in H; [|discriminate].
  destruct (bool_decide_reflect (seen_literals b = [])) as [Hc2|];
    cbn [check mbind option_bind] in H; [|discriminate].
  destruct (bool_decide_reflect (seen_levels b = [])) as [Hc3|];
    cbn [check mbind option_bind] in H; [|discriminate].
  destruct (analyze_loop _ cf 0 _ b) as [[uip s2]|] eqn:Ha;
    cbn [mbind option_bind] in H; [|discriminate].
  destruct (AInv_start b HRb Hc1 Hc2 Hc3) as [HA0 Hcount0].
  destruct (ar_conflict _ HRb) as (cf' & cc & Hcf' & Hcc & Hfalse & xl & Hxl & Hxlv).
  rewrite Ecf in Hcf'. inversion Hcf'; subst cf'. clear Hcf'.
  assert (HLb : (0 < level b)%nat) by lia.
  destruct (analyze_loop_AInv b HRb HLb (S (length (trail b))) cf 0
              (length (trail b)) b uip s2 HA0)
    as (HA & Hu & Hlu & Hsu); [lia| | |exact Ha|].
  { intros c Hc x Hx. rewrite Hcc in Hc. inversion Hc; subst c.
    right. rewrite take_ge by lia. apply Hfalse, Hx. }
  { right. exists cc, xl. split; [exact Hcc|]. split; [exact Hxl|].
    split; [exact Hxlv|]. rewrite take_ge by lia. apply Hfalse, Hxl. }
  (* the learned clause *)
  match type of H with
  | context [learn uip ?g ?s4] =>
      destruct (learn uip g s4) as [[[dc jump] s5]|] eqn:Hl;
        cbn [mbind option_bind] in H; [|discriminate];
      apply learn_spec in Hl
  end.
  cbn [clause set_clause upd_ema set_ema seen_levels] in Hl.
  match type of H with
  | context [backtrack jump ?s6] =>
      destruct (backtrack jump s6) as [s7|] eqn:Hbt;
        cbn [mbind option_bind] in H; [|discriminate];
      apply backtrack_frame in Hbt;
      cbn [heap vars next_ref redundant conflict upd_ema set_ema] in Hbt;
      destruct Hbt as (B1 & B2 & B3 & B4 & B5 & B6)
  end.
  destruct (assign (- uip) dc s7) as [s8|] eqn:Has;
    cbn [mbind option_bind] in H; [|discriminate].
  apply assign_spec in Has.
  destruct Has as (S1 & S2 & S3 & S4 & S5 & S6 & S7 & S8).
  inversion H; subst s'. clear H.
  destruct (queue_step_bump_and_clear uip s8)
    as (Q1 & Q2 & Q3 & Q4 & Q5 & Q6 & Q7 & Q8).
  set (s9 := bump_and_clear_seen_literals uip s8) in *.
  cbn [heap vals trail level redundant next_ref conflict vars
       set_conflict clear_levels set_seen_levels set_levels set_clause].
  assert (Hclause : forall x, x ∈ clause s2 ->
            val s x < 0 /\ (0 < lvl s x < level s)%nat).
  { intros x Hx. rewrite (ai_clause _ _ HA) in Hx.
    apply list_elem_of_filter in Hx. destruct Hx as [Hlt Hx].
    destruct (ai_seen _ _ HA x Hx) as (_ & _ & Hnz & Hv).
    rewrite <- Eval, <- Elvl, <- Elev. split; [exact Hv|lia]. }
  assert (Hfinal :
    list.last (trail s9) = Some (- uip) /\
    (let res := vals s9 (vidx (- uip)) in
     if - uip <? 0 then - res else res) = 1 /\
    v_level (vars s9 (vidx uip)) = level s9 /\
    v_reason (vars s9 (vidx uip)) = dc /\ level s9 = jump).
  { rewrite Q3, Q2, Q4, (proj1 (Q8 _)), (proj2 (Q8 _)), S2, S3, S4, S8, B6.
    rewrite last_snoc. split; [reflexivity|].
    rewrite fn_lookup_insert. split.
    - unfold sign. destruct (- uip <? 0); lia.
    - rewrite <- (vidx_opp uip), fn_lookup_insert. cbn. auto. }
  destruct Hfinal as (F1 & F2 & F3 & F4 & F5).
  assert (Hperm : forall lits l1 tl,
            lits ≡ₚ clause s2 ++ [- uip] -> lits = - uip :: l1 :: tl ->
            forall x, x ∈ l1 :: tl -> x ∈ clause s2).
  { intros lits l1 tl Hp El x Hx. subst lits.
    rewrite (Permutation_app_comm (clause s2)) in Hp. cbn in Hp.
    apply Permutation_cons_inv in Hp. rewrite <- Hp. exact Hx. }
  exists cf, b, s2, uip.
  destruct Hl as [(Hlen & -> & -> & ->)|
                  (Hlen & l1 & tl & Hsort & -> & -> & Hjl & L1 & L2 & L3 & L4
                   & L5 & L6 & L7 & L8 & L9 & L10)].
  - (* a unit *)
    assert (Ecl : clause s2 = []).
    { rewrite length_app in Hlen. cbn in Hlen.
      destruct (clause s2); [reflexivity|simpl in Hlen; lia]. }
    exists [- uip]. rewrite Ecl, <- Etr.
    split; [reflexivity|]. split; [exact Hb|]. split; [exact Ha|].
    split; [exact Hu|]. split; [rewrite <- Elvl, <- Elev; exact Hlu|].
    split; [reflexivity|]. split; [reflexivity|].
    split; [intros x Hx; inversion Hx|]. split.
    + left. split; [reflexivity|].
      cbn [next_ref redundant upd_stats set_stats upd_ema set_ema set_clause]
        in B3, B4.
      split; [rewrite Q6, S5, B3, (ai_nref _ _ HA); exact Enr|].
      split; [rewrite Q5, S6, B4, (ai_red _ _ HA); exact Ered|].
      split; [exact F5|]. unfold var. exact F4.
    + split; [exact F1|]. split; [exact F2|]. split; [exact F3|reflexivity].
  - (* a clause *)
    cbn [lvl var vars set_clause upd_ema set_ema level next_ref heap
         redundant stats] in Hsort, Hjl, L1, L2, L3.
    set (lits := sort_by
                   (level_greater_than
                      (upd_ema (update_learned_glue
                                  (double_of_Z (Z.of_nat (length (seen_levels s2)))))
                         (set_clause (clause s2 ++ [- uip]) s2)))
                   (clause s2 ++ [- uip])) in *.
    assert (Hp : lits ≡ₚ clause s2 ++ [- uip]) by apply sort_by_perm.
    assert (Hsorted : StronglySorted
              (not_after (level_greater_than
                 (upd_ema (update_learned_glue
                             (double_of_Z (Z.of_nat (length (seen_levels s2)))))
                    (set_clause (clause s2 ++ [- uip]) s2)))) lits).
    { apply sort_by_sorted.
      - intros x y. apply level_greater_than_asym.
      - intros x y z. apply level_greater_than_trans. }
    assert (Elv2 : forall x, lvl s2 x = lvl s x)
      by (intros x; rewrite <- Elvl; apply (ai_lvl _ _ HA)).
    exists lits. rewrite <- Etr.
    split; [reflexivity|]. split; [exact Hb|]. split; [exact Ha|].
    split; [exact Hu|].
    split; [rewrite <- Elvl, <- Elev; exact Hlu|].
    split; [exact Hp|]. split; [rewrite Hsort; reflexivity|].
    split.
    { intros x Hx. rewrite Hsort in Hx. cbn in Hx.
      apply Hclause. exact (Hperm lits l1 tl Hp Hsort x Hx). }
    split.
    + assert (En2 : next_ref s2 = next_ref s)
        by (rewrite (ai_nref _ _ HA); exact Enr).
      rewrite En2 in *.
      right. exists l1. eexists. split; [rewrite Hsort; reflexivity|].
      split; [rewrite Q1, S1, B1, L1; apply lookup_insert_eq|].
      split; [rewrite Q6, S5, B3, L3; reflexivity|].
      split; [rewrite Q5, S6, B4, L2, (ai_red _ _ HA), Ered; reflexivity|].
      split; [reflexivity|]. split; [cbn; symmetry; exact Hsort|].
      split.
      { cbn [c_glue]. f_equal.
        rewrite (glue_distinct b s2 uip lits HRb HA Hu Hlu Hsu)
          by (intros x; rewrite Hp; reflexivity).
        f_equal. f_equal. apply list_fmap_ext. intros i x _. apply Elvl. }
      assert (E4 : forall x,
                lvl (upd_ema (update_learned_glue
                                (double_of_Z (Z.of_nat (length (seen_levels s2)))))
                       (set_clause (clause s2 ++ [- uip]) s2)) x = lvl s x)
        by (intros x; rewrite <- Elv2; reflexivity).
      split.
      { intros x Hx. rewrite Hsort in Hx. cbn in Hx. rewrite Hsort in Hsorted.
        apply StronglySorted_inv in Hsorted. destruct Hsorted as [Hs1 _].
        apply StronglySorted_inv in Hs1. destruct Hs1 as [_ Hall].
        apply elem_of_cons in Hx. destruct Hx as [->|Hx]; [lia|].
        rewrite List.Forall_forall in Hall.
        specialize (Hall x ltac:(apply list_elem_of_In; exact Hx)).
        unfold not_after, level_greater_than in Hall.
        apply Nat.ltb_ge in Hall. rewrite <- !E4. exact Hall. }
      rewrite E4 in Hjl, F5.
      split; [rewrite (ai_level _ _ HA), Elev in Hjl; exact Hjl|].
      split; [exact F5|]. unfold var.
      cbn [next_ref upd_ema set_ema set_clause] in F4. rewrite En2 in F4.
      exact F4.
    + split; [exact F1|]. split; [exact F2|]. split; [exact F3|reflexivity].
Qed.

Lemma analyze_learns_witness :
  analyze_ready conflict_example_state = true /\
  level conflict_example_state = 2%nat /\
  analyze conflict_example_state = Some conflict_example_analyzed /\
  trail conflict_example_analyzed = [-4; 3] /\
  level conflict_example_analyzed = 1%nat /\
  conflict conflict_example_analyzed = None.
Proof.
  assert (H1 : analyze_ready conflict_example_state = true)
    by (vm_compute; reflexivity).
  assert (H2 : level conflict_example_state = 2%nat)
    by (vm_compute; reflexivity).
  assert (H3 : analyze conflict_example_state
               = Some conflict_example_analyzed)
    by (vm_compute; reflexivity).
  destruct (analyze_learns conflict_example_state conflict_example_analyzed
              H1 ltac:(rewrite H2; lia) H3)
    as (cf & b & s2 & uip & lits & _ & _ & _ & _ & _ & _ & _ & _ & _ & _ & _
        & _ & Hc).
  split; [exact H1|]. split; [exact H2|]. split; [exact H3|].
  split; [vm_compute; reflexivity|]. split; [vm_compute; reflexivity|].
  exact Hc.
Defined.
(** ** Every conflict the search loop analyses is ready *)

Lemma nondecreasing_intro (l : list nat) :
  (forall p q a b, (p <= q)%nat -> l !! p = Some a -> l !! q = Some b ->
                   (a <= b)%nat) ->
  nondecreasing l = true.
Proof.
  induction l as [|a l IH]; intros H; [reflexivity|].
  assert (Hl : nondecreasing l = true).
  { apply IH. intros p q x y Hpq Hp Hq. apply (H (S p) (S q)); [lia| |];
      assumption. }
  destruct l as [|b l']; [reflexivity|].
  cbn [nondecreasing]. cbn [nondecreasing] in Hl. rewrite Hl.
  rewrite andb_true_r. apply Nat.leb_le.
  apply (H 0%nat 1%nat); [lia|reflexivity|reflexivity].
Qed.

Lemma forallb_intro {A} (f : A -> bool) (l : list A) :
  (forall x, x ∈ l -> f x = true) -> forallb f l = true.
Proof.
  intros H. apply forallb_forall. intros x Hx. apply H.
  apply list_elem_of_In. exact Hx.
Qed.

Lemma existsb_eqb_intro x (l : list Z) : - x ∈ l -> existsb (Z.eqb (- x)) l = true.
Proof.
  intros H. apply existsb_exists. exists (- x).
  split; [apply list_elem_of_In; exact H|apply Z.eqb_refl].
Qed.

(** The levels do not fall along the trail. *)
Lemma levels_mono k p q t u :
  levels_ok k -> (p <= q)%nat ->
  k_trail k !! p = Some t -> k_trail k !! q = Some u ->
  (llv k t <= llv k u)%nat.
Proof.
  intros Hl Hpq Hp Hq.
  destruct (Nat.le_gt_cases (llv k t) (llv k u)) as [Hle|Hgt]; [exact Hle|].
  exfalso.
  assert (Ht : t ∈ k_trail k) by (eapply list_elem_of_lookup_2; exact Hp).
  pose proof (lv_le k Hl t Ht) as Hlt.
  destruct (k_decs k !! llv k t) as [d|] eqn:Hd.
  2: { apply lookup_ge_None in Hd. rewrite (lv_len k Hl) in Hd. lia. }
  destruct (lv_dec k Hl (llv k t) d ltac:(lia) Hd)
    as (_ & pre & post & E & Hpre & Hpost).
  rewrite E in Hp, Hq.
  destruct (Nat.lt_ge_cases p (length pre)) as [Hp1|Hp1].
  - rewrite lookup_app_l in Hp by exact Hp1.
    apply list_elem_of_lookup_2 in Hp. apply Hpre in Hp. lia.
  - destruct (Nat.lt_ge_cases q (length pre)) as [Hq1|Hq1]; [lia|].
    rewrite lookup_app_r in Hq by exact Hq1.
    apply list_elem_of_lookup_2 in Hq.
    assert (Hu : (llv k t <= llv k u)%nat).
    { apply elem_of_cons in Hq. destruct Hq as [->|Hq].
      - destruct (lv_dec k Hl (llv k t) d ltac:(lia) Hd) as (Hdl & _). lia.
      - apply Hpost, Hq. }
    lia.
Qed.

Lemma ready s :
  trail_ok (core s) -> levels_ok (core s) -> RI s -> CRdy s ->
  has_conflict s = true -> analyze_ready s = true.
Proof.
  intros Ht Hl HR HC Hcf. unfold analyze_ready.
  repeat (apply andb_true_intro; split).
  - apply bool_decide_eq_true_2. exact (tr_nodup _ Ht).
  - apply nondecreasing_intro. intros p q a b Hpq Hp Hq.
    rewrite list_lookup_fmap in Hp, Hq.
    destruct (trail s !! p) as [t|] eqn:Etp; [|discriminate].
    destruct (trail s !! q) as [u|] eqn:Etq; [|discriminate].
    inversion Hp; inversion Hq; subst.
    exact (levels_mono (core s) p q t u Hl Hpq Etp Etq).
  - apply forallb_intro. intros t Hin. apply Nat.leb_le.
    exact (lv_le _ Hl t Hin).
  - apply forallb_intro. intros t Hin. unfold var.
    rewrite (ri_unseen _ HR). reflexivity.
  - apply forallb_intro. intros lv Hin. apply Z.eqb_eq.
    exact (ri_lseen _ HR lv Hin).
  - apply forallb_intro. intros [p u] Hin.
    apply elem_of_lookup_imap in Hin. destruct Hin as (i & x & E & Hi).
    inversion E; subst i x. unfold reason_ready.
    destruct (v_reason (var s u)) as [r|] eqn:Hr; [|reflexivity].
    destruct (Nat.eqb_spec (lvl s u) 0) as [|Hz]; [reflexivity|].
    cbn [orb].
    destruct (ri_reason _ HR p u r Hi Hr Hz) as (c & Hc & _ & Hx).
    rewrite Hc. apply forallb_intro. intros x Hxin.
    destruct (Hx x Hxin) as [E'|E'].
    + apply orb_true_intro. left. apply Z.eqb_eq. rewrite E'. reflexivity.
    + apply orb_true_intro. right. apply existsb_eqb_intro. exact E'.
  - unfold conflict_ready. unfold has_conflict in Hcf.
    destruct (conflict s) as [cf|] eqn:Ecf; [|discriminate].
    destruct (HC cf Ecf) as (c & Hc & Hx & y & Hy & Hly).
    rewrite Hc. apply andb_true_intro. split.
    + apply forallb_intro. intros x Hxin. apply existsb_eqb_intro.
      apply Hx, Hxin.
    + apply existsb_exists. exists y.
      split; [apply list_elem_of_In; exact Hy|apply Nat.eqb_eq; exact Hly].
Qed.

(** ** Reasons, binary watches and models *)

(** What [assign] leaves alone. *)
Lemma assign_more l r s s' :
  assign l r s = Some s' ->
  levels s' = levels s /\
  all_literal_watches s' = all_literal_watches s /\
  propagate_next s' = propagate_next s /\ queue s' = queue s /\
  unsat s' = unsat s /\ max_var s' = max_var s /\
  seen_literals s' = seen_literals s /\ seen_levels s' = seen_levels s /\
  clause s' = clause s /\ irredundant s' = irredundant s.
Proof.
  unfold assign. intros H.
  destruct (check _); cbn [mbind option_bind] in H; [|discriminate].
  inversion H; subst s'. destruct (level s =? 0)%nat; cbn; auto 12.
Qed.


Lemma lit_true_opp M l : l <> 0 -> lit_true M l -> lit_true M (- l) -> False.
Proof.
  unfold lit_true. intros Hl H1 H2.
  destruct (Z.ltb_spec l 0), (Z.ltb_spec (- l) 0); try lia.
  - congruence.
  - rewrite Z.opp_involutive in H2. congruence.
Qed.

Lemma swap_lits_elem i j l l' x :
  swap_lits i j l = Some l' -> (x ∈ l' <-> x ∈ l).
Proof.
  intros H. split; [exact (swap_lits_mem _ _ _ _ _ H)|].
  unfold swap_lits in H.
  destruct (l !! i) as [a|] eqn:Hi; simpl in H; [|discriminate].
  destruct (l !! j) as [b|] eqn:Hj; simpl in H; [|discriminate].
  inversion H; subst l'. intros Hx.
  apply list_elem_of_lookup in Hx. destruct Hx as (n & Hn).
  assert (Hli : (i < length l)%nat) by (eapply lookup_lt_Some; exact Hi).
  assert (Hlj : (j < length l)%nat) by (eapply lookup_lt_Some; exact Hj).
  destruct (Nat.eq_dec n i) as [->|Hni].
  - (* the old slot [i] is now in slot [j] *)
    assert (x = a) by congruence. subst x.
    apply list_elem_of_lookup. exists j.
    apply list_lookup_insert_eq. rewrite length_insert. exact Hlj.
  - destruct (Nat.eq_dec n j) as [->|Hnj].
    + assert (x = b) by congruence. subst x.
      apply list_elem_of_lookup. exists i.
      rewrite list_lookup_insert_ne by congruence.
      apply list_lookup_insert_eq. exact Hli.
    + apply list_elem_of_lookup. exists n.
      rewrite !list_lookup_insert_ne by congruence. exact Hn.
Qed.

Lemma swap_lits_length i j l l' :
  swap_lits i j l = Some l' -> length l' = length l.
Proof.
  unfold swap_lits. intros H.
  destruct (l !! i); simpl in H; [|discriminate].
  destruct (l !! j); simpl in H; [|discriminate].
  inversion H; subst. rewrite !length_insert. reflexivity.
Qed.

Lemma lits_step_refl s : lits_step s s.
Proof.
  exists (heap s). split; [symmetry; apply set_heap_id|].
  intros id. destruct (heap s !! id) as [c|]; [|exact I].
  split; [destruct c; reflexivity|]. split; [reflexivity|auto].
Qed.

Lemma lits_step_trans s1 s2 s3 :
  lits_step s1 s2 -> lits_step s2 s3 -> lits_step s1 s3.
Proof.
  intros (h2 & -> & H2) (h3 & -> & H3). exists h3.
  split; [reflexivity|]. intros id.
  specialize (H2 id). specialize (H3 id). cbn [heap set_heap] in H3.
  destruct (heap s1 !! id) as [c1|], (h2 !! id) as [c2|], (h3 !! id) as [c3|];
    try contradiction; try exact I.
  destruct H2 as (A2 & B2 & C2). destruct H3 as (A3 & B3 & C3).
  split; [|split].
  - rewrite A3. rewrite A2. reflexivity.
  - intros x. rewrite B3. apply B2.
  - intros L. rewrite C3, C2; [reflexivity|exact L|].
    rewrite C2 by exact L. exact L.
Qed.

Lemma lits_step_put s id c lits :
  heap s !! id = Some c -> (forall x, x ∈ lits <-> x ∈ literals c) ->
  (length (literals c) = 2%nat -> lits = literals c) ->
  lits_step s (set_heap (<[id := set_literals lits c]> (heap s)) s).
Proof.
  intros Hc Hel Hlen. eexists. split; [reflexivity|].
  intros id'. destruct (Nat.eq_dec id' id) as [->|Hne].
  - rewrite Hc, lookup_insert_eq. split; [reflexivity|]. split; assumption.
  - rewrite lookup_insert_ne by congruence.
    destruct (heap s !! id') as [c'|]; [|exact I].
    split; [destruct c'; reflexivity|]. split; [reflexivity|auto].
Qed.

(** What a reordering keeps. *)
Lemma lits_step_lookup s s' id c' :
  lits_step s s' -> heap s' !! id = Some c' ->
  exists c, heap s !! id = Some c /\ c' = set_literals (literals c') c /\
            (forall x, x ∈ literals c' <-> x ∈ literals c) /\
            (length (literals c) = 2%nat -> literals c' = literals c).
Proof.
  intros (h & -> & Hh) Hc'. cbn in Hc'. specialize (Hh id).
  rewrite Hc' in Hh. destruct (heap s !! id) as [c|]; [|contradiction].
  exists c. auto.
Qed.

Lemma lits_step_lookup_old s s' id c :
  lits_step s s' -> heap s !! id = Some c ->
  exists c', heap s' !! id = Some c' /\
            (forall x, x ∈ literals c' <-> x ∈ literals c).
Proof.
  intros (h & -> & Hh) Hc. cbn. specialize (Hh id).
  rewrite Hc in Hh. destruct (h !! id) as [c'|]; [|contradiction].
  exists c'. split; [reflexivity|apply Hh].
Qed.

Lemma bin_ok_lits_step s s' l w :
  lits_step s s' -> bin_ok (heap s) l w -> bin_ok (heap s') l w.
Proof.
  intros Hs Hb Hsz c' Hc'.
  destruct (lits_step_lookup _ _ _ _ Hs Hc') as (c & Hc & _ & _ & Hlen).
  specialize (Hb Hsz c Hc).
  rewrite Hlen; [exact Hb|]. destruct Hb as [-> | ->]; reflexivity.
Qed.

Lemma RI_lits_step s s' : lits_step s s' -> RI s -> RI s'.
Proof.
  intros Hs [A B C D]. pose proof Hs as (h & E & _).
  split.
  - subst s'. exact A.
  - subst s'. exact B.
  - intros p u r Hp Hr Hl.
    assert (Hp0 : trail s !! p = Some u) by (subst s'; exact Hp).
    assert (Hr0 : v_reason (var s u) = Some r) by (subst s'; exact Hr).
    assert (Hl0 : lvl s u <> 0%nat) by (subst s'; exact Hl).
    destruct (C p u r Hp0 Hr0 Hl0) as (c & Hc & Hu & Hx).
    destruct (lits_step_lookup_old _ _ _ _ Hs Hc) as (c' & Hc' & Hel).
    exists c'. split; [exact Hc'|]. split; [apply Hel; exact Hu|].
    intros x Hin. apply Hel in Hin.
    replace (trail s') with (trail s) by (subst s'; reflexivity).
    exact (Hx x Hin).
  - intros l w Hw. apply (bin_ok_lits_step s s' l w Hs). apply D.
    subst s'. exact Hw.
Qed.

Lemma Ent_lits_step origs s s' : lits_step s s' -> Ent origs s -> Ent origs s'.
Proof.
  intros Hs [A B]. split.
  - intros M HM id c' Hc'.
    destruct (lits_step_lookup _ _ _ _ Hs Hc') as (c & Hc & _ & Hel & _).
    destruct (A M HM id c Hc) as (l & Hl & Ht).
    exists l. split; [apply Hel; exact Hl|exact Ht].
  - destruct Hs as (h & -> & _). exact B.
Qed.

Lemma RI_frame s s' :
  vars s' = vars s -> levels s' = levels s -> trail s' = trail s ->
  heap s' = heap s -> all_literal_watches s' = all_literal_watches s ->
  RI s -> RI s'.
Proof.
  intros E1 E2 E3 E4 E5 [A B C D].
  split; unfold lvl, var, watches; rewrite ?E1, ?E2, ?E3, ?E4, ?E5;
    assumption.
Qed.

Lemma Ent_frame origs s s' :
  vars s' = vars s -> trail s' = trail s -> heap s' = heap s ->
  Ent origs s -> Ent origs s'.
Proof.
  intros E1 E2 E3 [A B].
  split; unfold lvl, var; rewrite ?E1, ?E2, ?E3; assumption.
Qed.

(** A literal on the trail and an unassigned one are of different
    variables. *)
Lemma assign_other l r s s' t :
  trail_ok (core s) -> assign l r s = Some s' -> t ∈ trail s ->
  vidx t <> vidx l /\ var s' t = var s t.
Proof.
  intros Ht Ha Hin. pose proof (core_assign _ _ _ _ Ha) as [Hz _].
  assert (Hne : vidx t <> vidx l)
    by exact (trail_abs_ne (core s) l t Ht Hz Hin).
  split; [exact Hne|].
  apply assign_spec in Ha. destruct Ha as (_ & _ & _ & _ & _ & _ & _ & Ev).
  unfold var. rewrite Ev, fn_lookup_insert_ne by congruence. reflexivity.
Qed.

Lemma RI_assign l r s s' :
  trail_ok (core s) -> RI s -> assign l r s = Some s' ->
  (forall id, r = Some id -> level s <> 0%nat ->
     exists c, heap s !! id = Some c /\ l ∈ literals c /\
       forall x, x ∈ literals c -> x = l \/ - x ∈ trail s) ->
  RI s'.
Proof.
  intros Ht [A B C D] Ha Hr.
  pose proof (assign_more _ _ _ _ Ha) as (M1 & M2 & _).
  pose proof (assign_spec _ _ _ _ Ha) as (S1 & S2 & _ & _ & _ & _ & _ & S8).
  split.
  - intros idx. rewrite S8. unfold insert, fn_insert.
    destruct (decide_rel _ _ _) as [<-|]; [cbn|]; apply A.
  - rewrite M1. exact B.
  - intros p u r' Hp Hr' Hl. rewrite S2 in Hp. rewrite S1, S2.
    destruct (Nat.lt_ge_cases p (length (trail s))) as [Hlt|Hge].
    + rewrite lookup_app_l in Hp by exact Hlt.
      assert (Hin : u ∈ trail s) by (eapply list_elem_of_lookup_2; exact Hp).
      destruct (assign_other _ _ _ _ u Ht Ha Hin) as [_ Ev].
      unfold lvl in Hl. rewrite Ev in Hr', Hl.
      rewrite take_app_le by lia. exact (C p u r' Hp Hr' Hl).
    + rewrite lookup_app_r in Hp by exact Hge.
      destruct (p - length (trail s))%nat as [|k] eqn:Ek; [|discriminate].
      cbn in Hp. inversion Hp; subst u.
      assert (p = length (trail s)) by lia. subst p.
      rewrite take_app_length.
      unfold lvl, var in Hl, Hr'. rewrite S8, fn_lookup_insert in Hl, Hr'.
      cbn in Hl, Hr'. exact (Hr r' Hr' Hl).
  - intros l0 w Hw. unfold watches in Hw. rewrite M2 in Hw. rewrite S1.
    exact (D l0 w Hw).
Qed.

Lemma Ent_assign origs l r s s' :
  trail_ok (core s) -> Ent origs s -> assign l r s = Some s' ->
  (level s = 0%nat -> forall M, model_of M origs -> lit_true M l) ->
  Ent origs s'.
Proof.
  intros Ht [A B] Ha Hl.
  pose proof (assign_spec _ _ _ _ Ha) as (S1 & S2 & _ & _ & _ & _ & _ & S8).
  split.
  - rewrite S1. exact A.
  - intros M HM t Hin Hlv. rewrite S2 in Hin. apply elem_of_app in Hin.
    destruct Hin as [Hin|Hin].
    + destruct (assign_other _ _ _ _ t Ht Ha Hin) as [_ Ev].
      unfold lvl in Hlv. rewrite Ev in Hlv. exact (B M HM t Hin Hlv).
    + apply list_elem_of_singleton in Hin. subst t.
      unfold lvl, var in Hlv. rewrite S8, fn_lookup_insert in Hlv.
      cbn in Hlv. exact (Hl Hlv M HM).
Qed.

Lemma RI_watch_literal l b id sz s :
  sz <> 2%nat -> RI s -> RI (watch_literal l b id sz s).
Proof.
  intros Hsz [A B C D]. split; try assumption.
  intros l0 w Hw. unfold watches, watch_literal, set_watches in Hw.
  cbn in Hw. unfold insert, fn_insert in Hw.
  destruct (decide_rel _ _ _) as [<-|].
  - apply elem_of_app in Hw. destruct Hw as [Hw|Hw]; [exact (D _ w Hw)|].
    apply list_elem_of_singleton in Hw. subst w.
    intros E. cbn in E. contradiction.
  - exact (D _ w Hw).
Qed.

(** ** The visit of a watch, by cases *)

(** What the visit of the watch [w] of [- lit] does, after reordering
    literals of long clauses: nothing more; or it moves the watch to
    another literal; or it assigns a literal of the clause, all of whose
    other literals are false; or it makes the clause, all of whose
    literals are false, the conflict. *)
Lemma visit_cases lit w s r s' :
  trail_ok (core s) -> 0 < val s lit -> bin_ok (heap s) (- lit) w ->
  visit lit w s = Some (r, s') ->
  exists s1, lits_step s s1 /\
    ((s' = s1 /\
      (r = Some w \/
       exists b, r = Some (set_blit b w) /\ w_size w <> 2%nat))
     \/
     (exists l, s' = watch_literal l (- lit) (w_clause w) (w_size w) s1 /\
                w_size w <> 2%nat /\ r = None)
     \/
     (exists u, assign u (Some (w_clause w)) s1 = Some s' /\ r = Some w /\
        forall c, heap s1 !! w_clause w = Some c ->
          u ∈ literals c /\
          forall x, x ∈ literals c -> x = u \/ val s1 x < 0)
     \/
     (s' = set_conflict (Some (w_clause w)) s1 /\ r = Some w /\
      forall c, heap s1 !! w_clause w = Some c ->
        - lit ∈ literals c /\ forall x, x ∈ literals c -> val s1 x < 0)).
Proof.
  intros Ht Hlit Hbin H.
  assert (Hneg : val s (- lit) < 0).
  { rewrite val_kval, (kval_opp _ _ Ht), <- val_kval. lia. }
  unfold visit in H.
  destruct (Z.ltb_spec 0 (val s (blit w))) as [Hpos|Hnpos].
  { inversion H; subst. exists s'. split; [apply lits_step_refl|]. auto. }
  destruct (Nat.eqb_spec (w_size w) 2) as [Hsz|Hnbin].
  { exists s. split; [apply lits_step_refl|].
    assert (Hc2 : forall c, heap s !! w_clause w = Some c ->
              blit w ∈ literals c /\ - lit ∈ literals c /\
              forall x, x ∈ literals c -> x = blit w \/ x = - lit).
    { intros c Hc. destruct (Hbin Hsz c Hc) as [-> | ->];
        (split; [set_solver|]); (split; [set_solver|]);
        intros x Hx; set_solver. }
    destruct (Z.ltb_spec (val s (blit w)) 0) as [Hb|Hb].
    - inversion H; subst. right. right. right.
      split; [reflexivity|]. split; [reflexivity|].
      intros c Hc. destruct (Hc2 c Hc) as (_ & A & B).
      split; [exact A|]. intros x Hx.
      destruct (B x Hx) as [-> | ->]; assumption.
    - destruct (assign (blit w) _ s) as [s1|] eqn:Ha; cbn in H;
        [|discriminate].
      inversion H; subst. right. right. left.
      exists (blit w). split; [exact Ha|]. split; [reflexivity|].
      intros c Hc. destruct (Hc2 c Hc) as (A & _ & B).
      split; [exact A|]. intros x Hx.
      destruct (B x Hx) as [-> | ->]; auto. }
  destruct (heap s !! w_clause w) as [c|] eqn:Hc;
    cbn [mbind option_bind] in H; [|discriminate].
  destruct (Nat.eqb_spec (c_size c) (w_size w)) as [Hcs|];
    cbn [check mbind option_bind] in H; [|discriminate].
  destruct (literals c) as [|a0 [|a1 tl0]] eqn:Elc;
    cbn [lookup list_lookup mbind option_bind] in H; try discriminate.
  match type of H with
  | (?m ≫= _) = _ =>
      destruct m as [lits|] eqn:Hl; cbn [mbind option_bind] in H;
        [|discriminate]
  end.
  assert (Hlits : (forall x, x ∈ lits <-> x ∈ literals c) /\
                  length lits = length (literals c)).
  { rewrite Elc. destruct (a1 =? - lit).
    - inversion Hl; subst lits. split; reflexivity.
    - split; [intros x; exact (swap_lits_elem _ _ _ _ x Hl)|].
      exact (swap_lits_length _ _ _ _ Hl). }
  destruct Hlits as [Hel Hlen].
  destruct lits as [|l0 [|l1 tl]];
    cbn [lookup list_lookup mbind option_bind] in H; try discriminate.
  destruct (Z.eqb_spec l1 (- lit)) as [->|];
    cbn [check mbind option_bind] in H; [|discriminate].
  set (lits := l0 :: - lit :: tl) in *.
  set (c1 := set_literals lits c) in *.
  set (s1 := set_heap (<[w_clause w := c1]> (heap s)) s) in *.
  assert (Hst1 : lits_step s s1).
  { apply lits_step_put; [exact Hc|exact Hel|].
    intros L. unfold c_size in Hcs. lia. }
  assert (Hc1 : forall c', heap s1 !! w_clause w = Some c' -> c' = c1).
  { intros c' Hc'. cbn in Hc'. rewrite lookup_insert_eq in Hc'.
    congruence. }
  destruct (Z.ltb_spec 0 (val s1 l0)) as [Hu|Hu].
  { inversion H; subst r s'. exists s1. split; [exact Hst1|].
    left. split; [reflexivity|]. right. eauto. }
  destruct (scan s1 2 (drop 2 lits) 0) as [k v] eqn:Hs.
  apply scan_spec in Hs.
  change (drop 2 lits) with tl in Hs.
  destruct (list_find (fun l => ~ val s1 l < 0) tl) as [[j lk]|] eqn:Hfind;
    cbv beta iota in Hs.
  - destruct Hs as (-> & -> & Hj & Hnn).
    assert (Hlkj : lits !! (2 + j)%nat = Some lk) by exact Hj.
    destruct (Z.ltb_spec 0 (val s1 lk)) as [Hv|Hv].
    { rewrite Hlkj in H. cbn [mbind option_bind] in H.
      inversion H; subst r s'. exists s1. split; [exact Hst1|].
      left. split; [reflexivity|]. right. eauto. }
    destruct (Z.eqb_spec (val s1 lk) 0) as [Hz|Hnz]; [|lia].
    destruct (swap_lits 1 (2 + j) lits) as [lits'|] eqn:Hsw;
      cbn [mbind option_bind] in H; [|discriminate].
    destruct (lits' !! 1%nat) as [l1'|]; cbn [mbind option_bind] in H;
      [|discriminate].
    inversion H; subst r s'. clear H.
    eexists. split; [|right; left; exists l1'; split; [|split]].
    + eapply lits_step_trans; [exact Hst1|].
      apply (lits_step_put s1 (w_clause w) c1 lits').
      * cbn. apply lookup_insert_eq.
      * intros x. exact (swap_lits_elem _ _ _ _ x Hsw).
      * intros L. unfold c1, lits in L. cbn in L.
        unfold lits in Hlen. cbn in Hlen.
        unfold c_size in Hcs. rewrite Elc in Hcs. cbn in Hcs.
        rewrite Elc in Hlen. cbn in Hlen. lia.
    + rewrite Hcs. reflexivity.
    + exact Hnbin.
    + reflexivity.
  - apply list_find_None in Hfind.
    assert (Htl : forall x, x ∈ tl -> val s1 x < 0).
    { intros x Hx. rewrite List.Forall_forall in Hfind.
      specialize (Hfind x ltac:(apply list_elem_of_In; exact Hx)).
      cbv beta in Hfind. lia. }
    destruct Hs as [(Hnil & -> & ->)|(_ & Hv)].
    { exfalso. cbn in H. unfold swap_lits in H. cbn in H.
      rewrite Hnil in H. cbn in H. discriminate. }
    destruct (Z.ltb_spec 0 v); [lia|].
    destruct (Z.eqb_spec v 0); [lia|].
    assert (Hall : forall x, x ∈ lits -> x = l0 \/ val s1 x < 0).
    { intros x Hx. unfold lits in Hx.
      apply elem_of_cons in Hx. destruct Hx as [->|Hx]; [auto|].
      apply elem_of_cons in Hx. destruct Hx as [->|Hx]; [right; exact Hneg|].
      right. exact (Htl x Hx). }
    destruct (Z.eqb_spec (val s1 l0) 0) as [Hz|Hnz].
    + destruct (assign l0 _ s1) as [s2|] eqn:Ha; cbn in H; [|discriminate].
      inversion H; subst r s'. exists s1. split; [exact Hst1|].
      right. right. left. exists l0.
      split; [exact Ha|]. split; [reflexivity|].
      intros c' Hc'. rewrite (Hc1 c' Hc'). cbn.
      split; [unfold lits; set_solver|exact Hall].
    + inversion H; subst r s'. exists s1. split; [exact Hst1|].
      right. right. right. split; [reflexivity|]. split; [reflexivity|].
      intros c' Hc'. rewrite (Hc1 c' Hc'). cbn.
      split; [unfold lits; set_solver|].
      intros x Hx. destruct (Hall x Hx) as [->|Hx']; [lia|exact Hx'].
Qed.

(** ** [propagate] keeps the reasons and finds real conflicts *)

Lemma LoopSt_facts lit acc w rest s :
  LoopSt lit acc (w :: rest) s ->
  trail_ok (core s) /\ lit ∈ trail s /\ lvl s lit = level s /\
  0 < val s lit /\ (forall t, t ∈ trail s -> (lvl s t <= level s)%nat) /\
  exists c, heap s !! w_clause w = Some c.
Proof.
  intros HL. pose proof (LoopSt_trail_ok _ _ _ _ HL) as Ht.
  destruct HL as (Hinv & Hlit & Hlv).
  split; [exact Ht|]. split; [exact Hlit|]. split; [exact Hlv|].
  split; [rewrite (val_trail s lit Ht Hlit); lia|]. split.
  - intros t Hin. exact (lv_le _ (ci_levels _ _ Hinv) t Hin).
  - destruct (w_wf _ (ci_watches _ _ Hinv) (- lit) w) as (cc & H1 & _).
    + cbn. rewrite fn_lookup_insert. set_solver.
    + change (k_heap (core s) !! w_clause w = Some cc) in H1.
      apply core_heap_lookup in H1. destruct H1 as (c & H1 & _). eauto.
Qed.

Lemma CRdy_none s : conflict s = None -> CRdy s.
Proof. intros E cf Hcf. congruence. Qed.

Lemma visit_RI origs lit w acc rest s r s' :
  LoopSt lit acc (w :: rest) s -> has_conflict s = false ->
  RI s -> Ent origs s -> bin_ok (heap s) (- lit) w ->
  visit lit w s = Some (r, s') ->
  RI s' /\ Ent origs s' /\ CRdy s' /\
  (forall w', r = Some w' -> bin_ok (heap s') (- lit) w') /\
  (forall l w', bin_ok (heap s) l w' -> bin_ok (heap s') l w').
Proof.
  intros HL Hcf HR HE Hbin Hv.
  destruct (LoopSt_facts _ _ _ _ _ HL) as (Ht & Hlit & Hlv & Hval & Hle & c0 & Hc0).
  assert (Hnone : conflict s = None).
  { unfold has_conflict in Hcf. destruct (conflict s); [discriminate|].
    reflexivity. }
  destruct (visit_cases _ _ _ _ _ Ht Hval Hbin Hv) as (s1 & Hst & Hcases).
  pose proof (RI_lits_step _ _ Hst HR) as HR1.
  pose proof (Ent_lits_step _ _ _ Hst HE) as HE1.
  destruct (lits_step_lookup_old _ _ _ _ Hst Hc0) as (c1 & Hc1 & _).
  pose proof Hst as (h & Es1 & _).
  assert (Ht1 : trail_ok (core s1))
    by (subst s1; revert Ht; apply trail_ok_frame; reflexivity).
  assert (Hfalse : forall x, val s1 x < 0 -> - x ∈ trail s1).
  { intros x Hx. rewrite val_kval in Hx.
    exact (proj1 (kval_false _ _ Ht1) Hx). }
  assert (Etr : trail s1 = trail s) by (subst s1; reflexivity).
  assert (Elv : forall x, lvl s1 x = lvl s x) by (subst s1; reflexivity).
  assert (Elev : level s1 = level s) by (subst s1; reflexivity).
  assert (Ecf : conflict s1 = None) by (subst s1; exact Hnone).
  destruct Hcases as [(-> & Hr)|[(l & -> & Hsz & ->)|
                      [(u & Ha & -> & Hu)|(-> & -> & Hx)]]].
  - split; [exact HR1|]. split; [exact HE1|].
    split; [apply CRdy_none; exact Ecf|]. split.
    + intros w' Hw'. destruct Hr as [->|(b & -> & Hsz)].
      * inversion Hw'; subst w'. exact (bin_ok_lits_step _ _ _ _ Hst Hbin).
      * inversion Hw'; subst w'. intros E. cbn in E. contradiction.
    + intros l w'. apply bin_ok_lits_step. exact Hst.
  - split; [apply RI_watch_literal; assumption|].
    split; [revert HE1; apply Ent_frame; reflexivity|].
    split; [apply CRdy_none; exact Ecf|]. split; [discriminate|].
    intros l0 w'. apply (bin_ok_lits_step s s1 l0 w' Hst).
  - destruct (Hu c1 Hc1) as (Huin & Hux).
    pose proof (assign_spec _ _ _ _ Ha) as (S1 & _ & _ & _ & _ & _ & S7 & _).
    split; [|split; [|split; [|split]]].
    + apply (RI_assign _ _ _ _ Ht1 HR1 Ha). intros id Hid _.
      inversion Hid; subst id. exists c1. split; [exact Hc1|].
      split; [exact Huin|]. intros x Hin.
      destruct (Hux x Hin) as [->|Hneg]; [auto|right; exact (Hfalse x Hneg)].
    + apply (Ent_assign _ _ _ _ _ Ht1 HE1 Ha). intros Hl0 M HM.
      destruct (en_heap _ _ HE1 M HM _ _ Hc1) as (x & Hin & Hxt).
      destruct (Hux x Hin) as [->|Hneg]; [exact Hxt|]. exfalso.
      pose proof (Hfalse x Hneg) as Hnx.
      assert (Hl : lvl s1 (- x) = 0%nat).
      { rewrite Etr in Hnx. specialize (Hle _ Hnx).
        rewrite Elv. rewrite Elev in Hl0. lia. }
      pose proof (en_root _ _ HE1 M HM _ Hnx Hl) as Hnt.
      destruct (tr_lit _ Ht1 _ Hnx) as [[Hnz _] _].
      apply (lit_true_opp M x); [lia|exact Hxt|exact Hnt].
    + apply CRdy_none. rewrite S7. exact Ecf.
    + intros w' Hw'. inversion Hw'; subst w'. rewrite S1.
      exact (bin_ok_lits_step _ _ _ _ Hst Hbin).
    + intros l0 w'. rewrite S1. apply bin_ok_lits_step. exact Hst.
  - destruct (Hx c1 Hc1) as (Hin & Hall).
    split; [revert HR1; apply RI_frame; reflexivity|].
    split; [revert HE1; apply Ent_frame; reflexivity|]. split; [|split].
    + intros cf Hcf'. cbn in Hcf'. inversion Hcf'; subst cf.
      exists c1. split; [exact Hc1|]. split.
      * intros x Hxin. exact (Hfalse x (Hall x Hxin)).
      * exists (- lit). split; [exact Hin|].
        cbn. change (lvl s1 (- lit) = level s1).
        rewrite Elv, Elev. unfold lvl, var. rewrite vidx_opp. exact Hlv.
    + intros w' Hw'. inversion Hw'; subst w'.
      exact (bin_ok_lits_step _ _ _ _ Hst Hbin).
    + intros l0 w'. apply (bin_ok_lits_step s s1 l0 w' Hst).
Qed.

Lemma visit_all_RI origs lit : forall ws acc s ws' s',
  LoopSt lit acc ws s -> RI s -> Ent origs s -> CRdy s ->
  (forall w, w ∈ acc ++ ws -> bin_ok (heap s) (- lit) w) ->
  visit_all lit ws acc s = Some (ws', s') ->
  RI s' /\ Ent origs s' /\ CRdy s' /\
  forall w, w ∈ ws' -> bin_ok (heap s') (- lit) w.
Proof.
  induction ws as [|w rest IH]; intros acc s ws' s' HL HR HE HC Hb H;
    simpl in H.
  - inversion H; subst. rewrite app_nil_r in Hb. auto.
  - destruct (has_conflict s) eqn:Hcf.
    + inversion H; subst. auto.
    + destruct (visit lit w s) as [[r s1]|] eqn:Hv; simpl in H;
        [|discriminate].
      destruct (visit_RI origs _ _ _ _ _ _ _ HL Hcf HR HE
                  ltac:(apply Hb; set_solver) Hv)
        as (HR1 & HE1 & HC1 & Hr & Hmono).
      apply (IH _ _ _ _ (visit_LoopSt _ _ _ _ _ _ _ HL Hcf Hv) HR1 HE1 HC1);
        [|exact H].
      intros w' Hw'. rewrite <- app_assoc in Hw'.
      apply elem_of_app in Hw'. destruct Hw' as [Hw'|Hw'].
      * apply Hmono, Hb. set_solver.
      * apply elem_of_app in Hw'. destruct Hw' as [Hw'|Hw'].
        -- destruct r as [w0|]; [|inversion Hw'].
           apply list_elem_of_singleton in Hw'. subst w'. apply Hr.
           reflexivity.
        -- apply Hmono, Hb. set_solver.
Qed.

Lemma propagate_loop_RI origs : forall fuel s s',
  CInvX (ex_conf (core s)) (core s) -> RI s -> Ent origs s -> CRdy s ->
  propagate_loop fuel s = Some s' ->
  RI s' /\ Ent origs s' /\ CRdy s'.
Proof.
  induction fuel as [|fuel IH]; intros s s' Hinv HR HE HC H; simpl in H;
    [discriminate|].
  destruct (has_conflict s) eqn:Hcf; [inversion H; subst; auto|].
  destruct (Nat.ltb_spec (propagate_next s) (length (trail s))) as [Hlt|Hge];
    cbn [negb] in H; [|inversion H; subst; auto].
  destruct (trail s !! propagate_next s) as [lit|] eqn:Hlit; simpl in H;
    [|discriminate].
  destruct (check _); simpl in H; [|discriminate].
  match type of H with
  | (visit_all lit ?ws [] ?s2 ≫= _) = _ =>
      destruct (visit_all lit ws [] s2) as [[ws' s3]|] eqn:Hva; simpl in H;
        [|discriminate];
      assert (HR2 : RI s2) by (revert HR; apply RI_frame; reflexivity);
      assert (HE2 : Ent origs s2) by (revert HE; apply Ent_frame; reflexivity);
      assert (HC2 : CRdy s2) by exact HC;
      assert (HL : LoopSt lit [] ws s2)
        by exact (LoopSt_start s lit Hinv Hcf Hlit)
  end.
  destruct (visit_all_RI origs lit _ [] _ ws' s3 HL HR2 HE2 HC2) as
    (HR3 & HE3 & HC3 & Hb3); [|exact Hva|].
  { intros w Hw. cbn in Hw. exact (ri_bin _ HR (- lit) w Hw). }
  apply (visit_all_LoopSt lit _ [] _ ws' s3) in Hva; [|exact HL].
  destruct Hva as (acc' & rest' & -> & HL' & Hrest).
  apply IH in H; [exact H|apply LoopSt_end; assumption| | |exact HC3].
  - destruct HR3 as [A B C D]. split; try assumption.
    intros l w Hw. unfold watches, set_watches in Hw. cbn in Hw.
    unfold insert, fn_insert in Hw.
    destruct (decide_rel _ _ _) as [<-|].
    + exact (Hb3 w Hw).
    + exact (D l w Hw).
  - revert HE3. apply Ent_frame; reflexivity.
Qed.

Lemma propagate_RI origs fuel s ok s' :
  CInvX (ex_conf (core s)) (core s) -> RI s -> Ent origs s ->
  has_conflict s = false ->
  propagate fuel s = Some (ok, s') ->
  RI s' /\ Ent origs s' /\ CRdy s'.
Proof.
  intros Hinv HR HE Hcf H. unfold propagate in H.
  destruct (check _); simpl in H; [|discriminate].
  destruct (propagate_loop fuel s) as [s1|] eqn:Hp; simpl in H;
    [|discriminate].
  assert (HC : CRdy s).
  { apply CRdy_none. unfold has_conflict in Hcf.
    destruct (conflict s); [discriminate|reflexivity]. }
  destruct (propagate_loop_RI origs fuel s s1 Hinv HR HE HC Hp)
    as (HR1 & HE1 & HC1).
  destruct (conflict s1) eqn:Hc; inversion H; subst ok s'.
  - split; [revert HR1; apply RI_frame; reflexivity|].
    split; [revert HE1; apply Ent_frame; reflexivity|].
    intros cf Hcf'. cbn in Hcf'. exact (HC1 cf Hcf').
  - auto.
Qed.

(** ** The other steps of the search loop keep the reasons *)

(** [backtrack] on a consistent state, in the terms of the state. *)
Lemma backtrack_state t s s' :
  trail_ok (core s) -> levels_ok (core s) -> backtrack t s = Some s' ->
  (t <= level s)%nat /\ level s' = t /\
  trail s' = filter (fun l => (lvl s l <= t)%nat) (trail s) /\
  (forall l, l ∈ trail s' -> val s' l = 1) /\
  (forall l, l ∈ trail s -> (t < lvl s l)%nat -> val s' l = 0) /\
  (propagate_next s' <= length (trail s'))%nat /\
  (propagate_next s' <= propagate_next s)%nat.
Proof.
  intros Ht Hl H.
  destruct (core_backtrack t s s' Ht Hl H) as (Hle & Heq & Hlt).
  split; [exact Hle|].
  destruct (Nat.eq_dec t (level s)) as [E|Hne].
  - rewrite (Heq E). split; [auto|]. split; [|split; [|split; [|split]]].
    + symmetry. apply filter_all. intros x Hx. rewrite E.
      exact (lv_le _ Hl x Hx).
    + intros l Hin. exact (val_trail s l Ht Hin).
    + intros l Hin Hgt. pose proof (lv_le _ Hl l Hin) as Hb.
      unfold lvl, var, vidx in Hgt. unfold llv in Hb. cbn in Hb. lia.
    + exact (lv_pn _ Hl).
    + lia.
  - specialize (Hlt ltac:(lia)).
    assert (Elev : level s' = t)
      by (change (k_level (core s') = t); rewrite Hlt; reflexivity).
    assert (Etr : trail s' = filter (fun l => (lvl s l <= t)%nat) (trail s))
      by (change (k_trail (core s')
                  = filter (fun l => (llv (core s) l <= t)%nat)
                           (k_trail (core s))); rewrite Hlt; reflexivity).
    assert (Evals : forall idx, vals s' idx
                    = if (t <? v_level (vars s idx))%nat then 0
                      else vals s idx).
    { intros idx.
      change (k_vals (core s') idx
              = if (t <? v_level (vars s idx))%nat then 0 else vals s idx).
      rewrite Hlt. reflexivity. }
    assert (Epn : propagate_next s'
                  = if (length (trail s') <? propagate_next s)%nat
                    then length (trail s') else propagate_next s).
    { rewrite Etr.
      change (k_pn (core s')
              = if (length (filter (fun l => (lvl s l <= t)%nat) (trail s))
                    <? propagate_next s)%nat
                then length (filter (fun l => (lvl s l <= t)%nat) (trail s))
                else propagate_next s).
      rewrite Hlt. reflexivity. }
    split; [exact Elev|]. split; [exact Etr|].
    split; [|split; [|split]].
    + intros l Hin. rewrite Etr in Hin. apply list_elem_of_filter in Hin.
      destruct Hin as [Hlv Hin].
      pose proof (val_trail s l Ht Hin) as Hv.
      unfold val in *. rewrite Evals.
      unfold lvl, var in Hlv.
      destruct (Nat.ltb_spec t (v_level (vars s (vidx l)))); [lia|exact Hv].
    + intros l Hin Hgt. unfold val. rewrite Evals.
      unfold lvl, var in Hgt.
      destruct (Nat.ltb_spec t (v_level (vars s (vidx l)))); [|lia].
      destruct (l <? 0); reflexivity.
    + rewrite Epn. destruct (Nat.ltb_spec (length (trail s'))
                               (propagate_next s)); lia.
    + rewrite Epn. destruct (Nat.ltb_spec (length (trail s'))
                               (propagate_next s)); lia.
Qed.


Lemma backtrack_shape t s s' :
  backtrack t s = Some s' ->
  s' = s \/
  exists v q tr pn,
    s' = set_level t (set_levels (take (S t) (levels s))
           (set_propagate_next pn (set_trail tr (set_queue q (set_vals v s))))).
Proof.
  unfold backtrack. intros H.
  destruct (check _); cbn [mbind option_bind] in H; [|discriminate].
  destruct (t =? level s)%nat; [inversion H; subst; auto|].
  destruct (levels s !! S t); cbn [mbind option_bind] in H; [|discriminate].
  destruct (backtrack_loop _ _ s) as [s1|] eqn:Hb;
    cbn [mbind option_bind] in H; [|discriminate].
  apply backtrack_loop_frame in Hb. destruct Hb as (v & q & tr & ->).
  inversion H; subst s'. right. exists v, q, tr.
  destruct (_ <? _)%nat; cbn; eexists; reflexivity.
Qed.

(** With the trail grouped by level, the literals of the levels up to
    [t] are a prefix of the trail. *)
Lemma filter_level_prefix k t :
  levels_ok k ->
  exists post, k_trail k = filter (fun l => (llv k l <= t)%nat) (k_trail k)
                           ++ post.
Proof.
  intros Hl. destruct (Nat.lt_ge_cases t (k_level k)) as [Hlt|Hge].
  - destruct (k_decs k !! S t) as [d|] eqn:Hd.
    2: { apply lookup_ge_None in Hd. rewrite (lv_len k Hl) in Hd. lia. }
    destruct (lv_dec k Hl (S t) d ltac:(lia) Hd)
      as (Hdl & pre & post & E & Hpre & Hpost).
    exists (d :: post). rewrite E at 2.
    rewrite (filter_trail_pre k t d pre post); [exact E|exact Hpre|].
    intros l Hin. apply elem_of_cons in Hin.
    destruct Hin as [->|Hin]; [lia|exact (Hpost l Hin)].
  - exists []. rewrite app_nil_r. symmetry. apply filter_all.
    intros x Hx. pose proof (lv_le k Hl x Hx). lia.
Qed.

Lemma backtrack_prefix t s s' :
  trail_ok (core s) -> levels_ok (core s) -> backtrack t s = Some s' ->
  (exists post, trail s = trail s' ++ post) /\
  vars s' = vars s /\ heap s' = heap s /\
  all_literal_watches s' = all_literal_watches s /\
  (forall lv, lv ∈ levels s' -> lv ∈ levels s).
Proof.
  intros Ht Hl H.
  destruct (backtrack_state t s s' Ht Hl H) as (_ & _ & Etr & _).
  split.
  { rewrite Etr. exact (filter_level_prefix (core s) t Hl). }
  destruct (backtrack_shape _ _ _ H) as [->|(v & q & tr & pn & ->)].
  - auto.
  - cbn. split; [reflexivity|]. split; [reflexivity|].
    split; [reflexivity|]. intros lv Hin.
    apply list_elem_of_lookup in Hin. destruct Hin as (i & Hi).
    apply lookup_take_Some in Hi. eapply list_elem_of_lookup_2.
    exact (proj1 Hi).
Qed.

Lemma RI_prefix s s' :
  (exists post, trail s = trail s' ++ post) ->
  vars s' = vars s -> heap s' = heap s ->
  all_literal_watches s' = all_literal_watches s ->
  (forall lv, lv ∈ levels s' -> lv ∈ levels s) ->
  RI s -> RI s'.
Proof.
  intros (post & Etr) Ev Eh Ew Hlv [A B C D]. split.
  - rewrite Ev. exact A.
  - intros lv Hin. exact (B lv (Hlv lv Hin)).
  - intros p u r Hp Hr Hl. unfold lvl, var in *. rewrite Ev in Hr, Hl.
    rewrite Eh.
    assert (Hlt : (p < length (trail s'))%nat)
      by (eapply lookup_lt_Some; exact Hp).
    assert (Hp0 : trail s !! p = Some u)
      by (rewrite Etr, lookup_app_l by exact Hlt; exact Hp).
    destruct (C p u r Hp0 Hr Hl) as (c & Hc & Hu & Hx).
    exists c. split; [exact Hc|]. split; [exact Hu|].
    intros x Hin. destruct (Hx x Hin) as [->|Hx']; [auto|right].
    rewrite Etr, take_app_le in Hx' by lia. exact Hx'.
  - intros l w Hw. unfold watches in Hw. rewrite Ew in Hw. rewrite Eh.
    exact (D l w Hw).
Qed.

Lemma Ent_prefix origs s s' :
  (exists post, trail s = trail s' ++ post) ->
  vars s' = vars s -> heap s' = heap s ->
  Ent origs s -> Ent origs s'.
Proof.
  intros (post & Etr) Ev Eh [A B]. split.
  - rewrite Eh. exact A.
  - intros M HM t Hin Hl. unfold lvl, var in *. rewrite Ev in Hl.
    apply (B M HM t); [|exact Hl]. rewrite Etr. apply elem_of_app. auto.
Qed.

Lemma backtrack_RI origs t s s' :
  trail_ok (core s) -> levels_ok (core s) -> backtrack t s = Some s' ->
  RI s -> Ent origs s -> RI s' /\ Ent origs s'.
Proof.
  intros Ht Hl H HR HE.
  destruct (backtrack_prefix _ _ _ Ht Hl H) as (A & B & C & D & E).
  split; [exact (RI_prefix _ _ A B C D E HR)|exact (Ent_prefix _ _ _ A B C HE)].
Qed.

(** [decide], in the terms of the state: the state [d] is [s] with the
    new level opened, and the decision is assigned in it. *)
Lemma decide_state fuel s s' :
  trail_ok (core s) -> queue_ok s -> decide fuel s = Some s' ->
  exists idx q st,
    1 <= idx <= max_var s /\ vals s idx = 0 /\
    (phases s idx = 1 \/ phases s idx = -1) /\
    assign (phases s idx * idx) None
      (set_levels (levels s ++ [mkLevel (phases s idx * idx) 0])
         (set_stats st (set_queue q (set_level (S (level s)) s))))
    = Some s'.
Proof.
  intros Ht Hq H. unfold decide in H. cbv zeta in H.
  match type of H with
  | (next_decision_variable fuel ?s2 ≫= _) = _ =>
      destruct (next_decision_variable fuel s2) as [[idx s3]|] eqn:Hn;
        cbn [mbind option_bind] in H; [|discriminate];
      destruct (next_decision_variable_qok _ _ _ _ Hn Hq)
        as (_ & _ & Hidx & Hv);
      destruct (next_decision_variable_frame _ _ _ _ Hn) as (q & m & E3)
  end.
  cbn [max_var vals upd_stats set_stats set_level] in Hidx, Hv.
  subst s3. cbn [phases levels upd_stats set_stats set_queue set_level] in H.
  exists idx, q. eexists.
  split; [exact Hidx|]. split; [exact Hv|].
  split; [exact (tr_ph _ Ht idx Hidx)|]. exact H.
Qed.


(** A step that leaves the variables, the levels, the trail, the clauses
    and the watches alone. *)
Lemma restarting_same s b s' :
  restarting s = (b, s') ->
  vars s' = vars s /\ levels s' = levels s /\ trail s' = trail s /\
  heap s' = heap s /\ all_literal_watches s' = all_literal_watches s.
Proof.
  unfold restarting. intros H.
  repeat match type of H with
         | (if ?c then _ else _) = _ => destruct c
         end; inversion H; subst; auto.
Qed.

Lemma reusetrail_same fuel s r s' :
  reusetrail fuel s = Some (r, s') ->
  vars s' = vars s /\ levels s' = levels s /\ trail s' = trail s /\
  heap s' = heap s /\ all_literal_watches s' = all_literal_watches s.
Proof.
  unfold reusetrail. intros H.
  destruct (negb _); [inversion H; subst; auto|].
  destruct (next_decision_variable fuel s) as [[idx s1]|] eqn:Hn;
    cbn [mbind option_bind] in H; [|discriminate].
  destruct (next_decision_variable_frame _ _ _ _ Hn) as (q & n & ->).
  destruct (reuse_loop _ _ _ _); cbn [mbind option_bind] in H;
    [|discriminate].
  destruct (negb _); inversion H; subst; auto.
Qed.

Lemma restart_RI origs fuel s s' :
  CInvX ex_none (core s) -> queue_ok s -> restart fuel s = Some s' ->
  RI s -> Ent origs s -> RI s' /\ Ent origs s'.
Proof.
  intros Hinv Hq H HR HE. unfold restart in H. cbv zeta in H.
  match type of H with
  | (reusetrail fuel ?s1 ≫= _) = _ =>
      destruct (reusetrail fuel s1) as [[r s2]|] eqn:Hr;
        cbn [mbind option_bind] in H; [|discriminate];
      destruct (reusetrail_frame _ _ _ _ Hr Hq) as (_ & E2);
      destruct (reusetrail_same _ _ _ _ Hr) as (A1 & A2 & A3 & A4 & A5)
  end.
  destruct (backtrack r s2) as [s3|] eqn:Hb; cbn [mbind option_bind] in H;
    [|discriminate].
  inversion H; subst s'. clear H.
  assert (I2 : CInvX ex_none (core s2)) by (rewrite E2; exact Hinv).
  assert (HR2 : RI s2) by (exact (RI_frame s s2 A1 A2 A3 A4 A5 HR)).
  assert (HE2 : Ent origs s2) by (exact (Ent_frame _ s s2 A1 A3 A4 HE)).
  destruct (backtrack_RI origs _ _ _ (ci_trail _ _ I2) (ci_levels _ _ I2)
              Hb HR2 HE2) as [HR3 HE3].
  split; [revert HR3; apply RI_frame; reflexivity|].
  revert HE3; apply Ent_frame; reflexivity.
Qed.

Lemma decide_RI origs fuel s s' :
  trail_ok (core s) -> queue_ok s -> decide fuel s = Some s' ->
  RI s -> Ent origs s -> RI s' /\ Ent origs s'.
Proof.
  intros Ht Hq H HR HE.
  destruct (decide_state _ _ _ Ht Hq H) as (idx & q & st & _ & _ & _ & Ha).
  match type of Ha with
  | assign _ _ ?d = _ =>
      assert (HRd : RI d);
      [|assert (HEd : Ent origs d)
          by (revert HE; apply Ent_frame; reflexivity);
        assert (Htd : trail_ok (core d))
          by (revert Ht; apply trail_ok_frame; reflexivity)]
  end.
  { destruct HR as [A B C D]. split; try assumption.
    intros lv Hin. cbn in Hin. apply elem_of_app in Hin.
    destruct Hin as [Hin|Hin]; [exact (B lv Hin)|].
    apply list_elem_of_singleton in Hin. subst lv. reflexivity. }
  split.
  - apply (RI_assign _ _ _ _ Htd HRd Ha). intros id Hid. discriminate.
  - apply (Ent_assign _ _ _ _ _ Htd HEd Ha). intros Hl. cbn in Hl.
    discriminate.
Qed.

(** ** [reduce] keeps the reasons *)

Lemma prot_ok_refl h : prot_ok h h.
Proof. intros id c Hc Hr. exists c. auto. Qed.

Lemma prot_ok_trans h1 h2 h3 : prot_ok h1 h2 -> prot_ok h2 h3 -> prot_ok h1 h3.
Proof.
  intros H1 H2 id c Hc Hr. destruct (H1 id c Hc Hr) as (c2 & A & B & C).
  destruct (H2 id c2 A B) as (c3 & A' & B' & C').
  exists c3. split; [exact A'|]. split; [exact B'|congruence].
Qed.

Lemma garb_same_refl h : garb_same h h.
Proof. intros id c Hc. exists c. auto. Qed.

Lemma garb_same_trans h1 h2 h3 : garb_same h1 h2 -> garb_same h2 h3 -> garb_same h1 h3.
Proof.
  intros H1 H2 id c Hc. destruct (H1 id c Hc) as (c2 & A & B).
  destruct (H2 id c2 A) as (c3 & A' & B').
  exists c3. split; [exact A'|congruence].
Qed.

(** Flagging a reason: the garbage marks stay, and so do the flags that
    are set when the flag is set. *)
Lemma flag_reason_garb b lit s s' :
  flag_reason b lit s = Some s' ->
  exists h, s' = set_heap h s /\ garb_same (heap s) h /\
    (b = true -> prot_ok (heap s) h /\
       forall r, v_reason (var s lit) = Some r -> lvl s lit <> 0%nat ->
         exists c, h !! r = Some c /\ c_reason c = true).
Proof.
  intros H. unfold flag_reason in H. unfold lvl.
  destruct (v_reason (var s lit)) as [r|].
  2: { inversion H; subst. exists (heap s').
       split; [symmetry; apply set_heap_id|].
       split; [apply garb_same_refl|]. intros _.
       split; [apply prot_ok_refl|discriminate]. }
  destruct (Nat.eqb_spec (v_level (var s lit)) 0) as [E|E]; cbn [negb] in H.
  { inversion H; subst. exists (heap s').
    split; [symmetry; apply set_heap_id|].
    split; [apply garb_same_refl|]. intros _.
    split; [apply prot_ok_refl|]. intros r' _ Hl. contradiction. }
  destruct (heap s !! r) as [cl|] eqn:Hr; simpl in H; [|discriminate].
  destruct (check _); simpl in H; [|discriminate].
  inversion H; subst. eexists. split; [reflexivity|]. split.
  - intros id c Hc. destruct (Nat.eq_dec id r) as [->|Hne].
    + rewrite lookup_insert_eq. eexists. split; [reflexivity|].
      cbn. congruence.
    + rewrite lookup_insert_ne by congruence. exists c. auto.
  - intros ->. split.
    + intros id c Hc Hrs. destruct (Nat.eq_dec id r) as [->|Hne].
      * rewrite lookup_insert_eq. eexists. split; [reflexivity|].
        cbn. split; [reflexivity|congruence].
      * rewrite lookup_insert_ne by congruence. exists c. auto.
    + intros r' Hr' _. inversion Hr'; subst r'.
      rewrite lookup_insert_eq. eexists. split; reflexivity.
Qed.

Lemma protect_reasons_flags : forall l s s',
  for_each (flag_reason true) l s = Some s' ->
  exists h, s' = set_heap h s /\ garb_same (heap s) h /\
    forall u r, u ∈ l -> v_reason (var s u) = Some r -> lvl s u <> 0%nat ->
      exists c, h !! r = Some c /\ c_reason c = true.
Proof.
  induction l as [|x l IH]; intros s s' H; simpl in H.
  - inversion H; subst. exists (heap s').
    split; [symmetry; apply set_heap_id|]. split; [apply garb_same_refl|].
    intros u r Hin. inversion Hin.
  - destruct (flag_reason true x s) as [s1|] eqn:E; simpl in H;
      [|discriminate].
    destruct (flag_reason_garb _ _ _ _ E) as (h1 & -> & G1 & F1).
    destruct (F1 eq_refl) as [P1 R1].
    destruct (IH _ _ H) as (h2 & -> & G2 & R2).
    cbn [heap set_heap] in G2. exists h2. split; [reflexivity|].
    split; [eapply garb_same_trans; eassumption|].
    intros u r Hin Hr Hl. apply elem_of_cons in Hin.
    destruct Hin as [->|Hin].
    + destruct (R1 r Hr Hl) as (c & Hc & Hf).
      (* the later rounds keep the flag *)
      assert (Hkeep : forall l' sa sb, for_each (flag_reason true) l' sa = Some sb ->
                prot_ok (heap sa) (heap sb)).
      { clear. induction l' as [|y l' IH']; intros sa sb Hf; simpl in Hf.
        - inversion Hf; subst. apply prot_ok_refl.
        - destruct (flag_reason true y sa) as [sc|] eqn:E; simpl in Hf;
            [|discriminate].
          destruct (flag_reason_garb _ _ _ _ E) as (h & -> & _ & F).
          eapply prot_ok_trans; [exact (proj1 (F eq_refl))|].
          exact (IH' _ _ Hf). }
      destruct (Hkeep _ _ _ H r c Hc Hf) as (c' & A & B & _).
      exists c'. auto.
    + exact (R2 u r Hin Hr Hl).
Qed.

Lemma unprotect_reasons_garb : forall l s s',
  for_each (flag_reason false) l s = Some s' ->
  exists h, s' = set_heap h s /\ garb_same (heap s) h.
Proof.
  induction l as [|x l IH]; intros s s' H; simpl in H.
  - inversion H; subst. exists (heap s').
    split; [symmetry; apply set_heap_id|apply garb_same_refl].
  - destruct (flag_reason false x s) as [s1|] eqn:E; simpl in H;
      [|discriminate].
    destruct (flag_reason_garb _ _ _ _ E) as (h1 & -> & G1 & _).
    destruct (IH _ _ H) as (h2 & -> & G2).
    exists h2. split; [reflexivity|]. eapply garb_same_trans; eassumption.
Qed.

Lemma mark_satisfied_prot : forall l s s',
  for_each mark_satisfied_clause l s = Some s' ->
  exists h, s' = set_heap h s /\ prot_ok (heap s) h.
Proof.
  induction l as [|x l IH]; intros s s' H; simpl in H.
  - inversion H; subst. exists (heap s').
    split; [symmetry; apply set_heap_id|apply prot_ok_refl].
  - destruct (mark_satisfied_clause x s) as [s1|] eqn:E; simpl in H;
      [|discriminate].
    assert (exists h1, s1 = set_heap h1 s /\ prot_ok (heap s) h1)
      as (h1 & -> & P1).
    { unfold mark_satisfied_clause in E.
      destruct (heap s !! x) as [cl|] eqn:Hx; simpl in E; [|discriminate].
      destruct (c_reason cl) eqn:Hr; cbn [negb andb] in E.
      - inversion E; subst. exists (heap s1).
        split; [symmetry; apply set_heap_id|apply prot_ok_refl].
      - destruct (clause_root_level_satisfied s cl); inversion E; subst.
        + eexists. split; [reflexivity|]. intros id c Hc Hrs.
          destruct (Nat.eq_dec id x) as [->|Hne]; [congruence|].
          rewrite lookup_insert_ne by congruence. exists c. auto.
        + exists (heap s1).
          split; [symmetry; apply set_heap_id|apply prot_ok_refl]. }
    destruct (IH _ _ H) as (h2 & -> & P2).
    exists h2. split; [reflexivity|]. eapply prot_ok_trans; eassumption.
Qed.

Lemma collect_work_candidate s : forall ids work,
  collect_work s ids = Some work ->
  forall c cl, (c, cl) ∈ work ->
    heap s !! c = Some cl /\ reduce_candidate s cl = true.
Proof.
  induction ids as [|i ids IH]; intros work H c cl Hin; simpl in H.
  - inversion H; subst. inversion Hin.
  - destruct (heap s !! i) as [ci|] eqn:Hi; simpl in H; [|discriminate].
    destruct (check _); simpl in H; [|discriminate].
    destruct (collect_work s ids) as [w|]; simpl in H; [|discriminate].
    inversion H; subst work. clear H.
    destruct (reduce_candidate s ci) eqn:Hcand.
    + apply elem_of_cons in Hin. destruct Hin as [E|Hin].
      * inversion E; subst. auto.
      * exact (IH w eq_refl c cl Hin).
    + exact (IH w eq_refl c cl Hin).
Qed.

Lemma mark_redundant_prot s s' :
  mark_redundant_clauses s = Some s' ->
  exists h, s' = set_heap h s /\ prot_ok (heap s) h.
Proof.
  unfold mark_redundant_clauses. intros H.
  destruct (collect_work s (redundant s)) as [work|] eqn:Hw; simpl in H;
    [|discriminate].
  pose proof (collect_work_candidate _ _ _ Hw) as Hcand.
  pose proof (for_each_mark_garbage _ _ _ H) as Hh.
  apply for_each_heap_step in H; [|intros x; apply mark_garbage_heap_step].
  destruct H as [h ->]. exists h. split; [reflexivity|].
  intros id c Hc Hr. cbn [heap set_heap] in Hh. rewrite (Hh id).
  match goal with
  | |- context [bool_decide ?Q] =>
      destruct (bool_decide_reflect Q) as [Hin|Hin]
  end.
  - exfalso. apply list_elem_of_fmap in Hin. destruct Hin as ([i cl] & E & Hin).
    cbn in E. subst i.
    apply elem_of_take in Hin. destruct Hin as (j & Hin & _).
    apply list_elem_of_lookup_2 in Hin. rewrite sort_by_perm in Hin.
    destruct (Hcand id cl Hin) as (A & B).
    assert (cl = c) by congruence. subst cl.
    unfold reduce_candidate in B. rewrite Hr in B. discriminate.
  - exists c. auto.
Qed.

(** The marking part of [reduce] marks no reason of a literal above the
    root level. *)
Lemma reduce_mark_keeps_reasons s sm :
  reduce_mark s = Some sm ->
  forall u r c, u ∈ trail s -> v_reason (var s u) = Some r ->
    lvl s u <> 0%nat -> heap s !! r = Some c -> c_garbage c = false ->
    exists cm, heap sm !! r = Some cm /\ c_garbage cm = false.
Proof.
  unfold reduce_mark, protect_reasons, unprotect_reasons,
    mark_satisfied_clauses.
  intros H u r c Hu Hr Hl Hc Hg. cbv zeta in H.
  set (s0 := upd_stats (fun st => set_reduce_count (reduce_count st + 1) st) s)
    in *.
  destruct (for_each (flag_reason true) _ _) as [s1|] eqn:H1;
    simpl in H; [|discriminate].
  destruct (protect_reasons_flags _ _ _ H1) as (h1 & -> & G1 & F1).
  destruct (F1 u r Hu Hr Hl) as (c1 & Hc1 & Hf1).
  destruct (G1 r c Hc) as (c1' & Hc1' & Hg1).
  assert (c1' = c1) by congruence. subst c1'.
  match type of H with
  | (?m ≫= _) = _ => destruct m as [s2|] eqn:H2; simpl in H; [|discriminate]
  end.
  assert (exists h2, s2 = set_heap h2 s0 /\ prot_ok h1 h2) as (h2 & -> & P2).
  { destruct (reduce_fixed (limits (set_heap h1 s0))
              <? fixed_count (stats (set_heap h1 s0))).
    - destruct (for_each mark_satisfied_clause _ _) as [sa|] eqn:Ha;
        simpl in H2; [|discriminate].
      destruct (mark_satisfied_prot _ _ _ Ha) as (ha & -> & Pa).
      destruct (mark_satisfied_prot _ _ _ H2) as (hb & -> & Pb).
      exists hb. split; [reflexivity|]. eapply prot_ok_trans; eassumption.
    - inversion H2; subst. exists h1. split; [reflexivity|apply prot_ok_refl]. }
  match type of H with
  | (?m ≫= _) = _ => destruct m as [s3|] eqn:H3; simpl in H; [|discriminate]
  end.
  destruct (mark_redundant_prot _ _ H3) as (h3 & -> & P3).
  destruct (unprotect_reasons_garb _ _ _ H) as (h4 & -> & G4).
  cbn [heap set_heap] in *.
  destruct (P2 r c1 Hc1 Hf1) as (c2 & Hc2 & Hf2 & Hg2).
  destruct (P3 r c2 Hc2 Hf2) as (c3 & Hc3 & Hf3 & Hg3).
  destruct (G4 r c3 Hc3) as (c4 & Hc4 & Hg4).
  exists c4. split; [exact Hc4|congruence].
Qed.

(** The sweep deletes garbage clauses only and keeps the levels. *)
Lemma reduce_sweep_shape sm s' :
  reduce_sweep sm = Some s' ->
  levels s' = levels sm /\
  forall id, heap s' !! id = heap sm !! id \/
             (heap s' !! id = None /\ is_garbage sm id = true).
Proof.
  intros H. unfold reduce_sweep in H.
  destruct (flush_watches sm) as [s5|] eqn:H5; simpl in H; [|discriminate].
  unfold flush_watches in H5.
  apply flush_each_spec in H5.
  2: { apply NoDup_seqZ. }
  2: { apply list.Forall_forall. intros i Hi. apply elem_of_seqZ in Hi. lia. }
  destruct H5 as ([W5 E5] & _ & _). subst s5.
  match type of H with
  | (?m ≫= _) = _ => destruct m as [s6|] eqn:H6; simpl in H; [|discriminate]
  end.
  assert (H6' : levels s6 = levels sm /\
            forall id, heap s6 !! id = heap sm !! id \/
                       (heap s6 !! id = None /\ is_garbage sm id = true)).
  { destruct (_ <? _).
    - destruct (collect_list _ _) as [[k sa]|] eqn:E; simpl in H6;
        [|discriminate].
      inversion H6; subst s6. clear H6.
      apply collect_list_spec in E. destruct E as (h & st & -> & F1 & _).
      split; [reflexivity|exact F1].
    - inversion H6; subst s6. split; [reflexivity|]. intros id. left.
      reflexivity. }
  clear H6. destruct H6' as (L6 & F6).
  destruct (collect_list (redundant s6) s6) as [[k s7]|] eqn:H7;
    simpl in H; [|discriminate].
  apply collect_list_spec in H7. destruct H7 as (h7 & st7 & -> & F71 & _).
  inversion H; subst s'. clear H. cbn. split; [exact L6|].
  intros id. destruct (F71 id) as [E|[E G]].
  - rewrite E. exact (F6 id).
  - right. split; [exact E|]. unfold is_garbage in *.
    destruct (F6 id) as [E6|[E6 _]]; rewrite E6 in G; [exact G|discriminate].
Qed.

Lemma reduce_RI origs s s' :
  CInvX ex_none (core s) -> reduce s = Some s' ->
  RI s -> Ent origs s -> RI s' /\ Ent origs s'.
Proof.
  intros Hinv H HR HE.
  destruct (reduce_reduced _ _ Hinv H) as (g & R & Ev & _).
  assert (Hclean : forall id c, heap s !! id = Some c -> c_garbage c = false).
  { intros id c Hc.
    destruct (w_cl _ (ci_watches _ _ Hinv) id (cview c)) as (_ & G & _);
      [|exact G].
    apply core_heap_lookup. eauto. }
  assert (Hsub : forall id c', heap s' !! id = Some c' ->
            exists c, heap s !! id = Some c /\ literals c' = literals c).
  { intros id c' Hc'.
    assert (Hk' : k_heap (core s') !! id = Some (cview c'))
      by (apply core_heap_lookup; eauto).
    destruct (g id) eqn:Hg.
    - rewrite (rd_drop _ _ _ R id Hg) in Hk'. discriminate.
    - rewrite (rd_keep _ _ _ R id Hg) in Hk'.
      apply core_heap_lookup in Hk'. destruct Hk' as (c & Hc & E).
      exists c. split; [exact Hc|exact (f_equal cc_lits E)]. }
  assert (Hwsub : forall l w, w ∈ watches s' l -> w ∈ watches s l).
  { intros l w Hw. change (w ∈ k_W (core s') l) in Hw.
    change (w ∈ k_W (core s) l).
    destruct (in_range_dec (core s) l) as [Hin|Hout].
    - destruct (K_fixed_dec (core s) l) as [Hf|Hnf].
      + rewrite (rd_fixed _ _ _ R l Hin Hf) in Hw.
        apply elem_of_nil in Hw. contradiction.
      + rewrite (rd_live _ _ _ R l Hin Hnf) in Hw.
        apply list_elem_of_filter in Hw. tauto.
    - rewrite (rd_out _ _ _ R l Hout) in Hw. exact Hw. }
  assert (Etr : trail s' = trail s) by exact (rd_trail _ _ _ R).
  unfold reduce in H.
  destruct (reduce_mark s) as [sm|] eqn:Hm; simpl in H; [|discriminate].
  destruct (reduce_sweep_shape _ _ H) as (Elv & Hheap).
  assert (Elv' : levels s' = levels s).
  { rewrite Elv. destruct (reduce_mark_marks _ _ Hm) as (hm & -> & _).
    reflexivity. }
  split.
  - destruct HR as [A B C D]. split.
    + rewrite Ev. exact A.
    + rewrite Elv'. exact B.
    + intros p u r Hp Hr Hl. rewrite Etr in Hp. rewrite Etr.
      unfold lvl, var in Hr, Hl. rewrite Ev in Hr, Hl.
      destruct (C p u r Hp Hr Hl) as (c & Hc & Hu & Hx).
      destruct (reduce_mark_keeps_reasons _ _ Hm u r c
                  ltac:(eapply list_elem_of_lookup_2; exact Hp) Hr Hl Hc
                  (Hclean r c Hc)) as (cm & Hcm & Hgm).
      destruct (Hheap r) as [E|[_ G]].
      2: { unfold is_garbage in G. rewrite Hcm in G. congruence. }
      rewrite Hcm in E.
      destruct (Hsub r cm E) as (c0 & Hc0 & El).
      assert (c0 = c) by congruence. subst c0.
      exists cm. split; [exact E|]. rewrite El. auto.
    + intros l w Hw Hsz c' Hc'.
      destruct (Hsub _ _ Hc') as (c & Hc & El). rewrite El.
      exact (D l w (Hwsub l w Hw) Hsz c Hc).
  - destruct HE as [A B]. split.
    + intros M HM id c' Hc'. destruct (Hsub _ _ Hc') as (c & Hc & El).
      rewrite El. exact (A M HM id c Hc).
    + intros M HM t Hin Hl. rewrite Etr in Hin.
      unfold lvl, var in Hl. rewrite Ev in Hl. exact (B M HM t Hin Hl).
Qed.

(** ** [analyze] keeps the reasons, and what it learns follows *)

(** *** The marks *)

Lemma analyze_literal_listed lit s bb s' :
  analyze_literal lit s = Some (bb, s') -> seen_listed s -> seen_listed s'.
Proof.
  intros H HS.
  destruct (analyze_literal_spec _ _ _ _ H)
    as [(_ & -> & _)|(_ & _ & _ & lv & _ & _ & _ & _ & _ & _ & Ev & _ & _ & _
                      & Esl & _)]; [exact HS|].
  intros idx Hs. rewrite Ev in Hs. rewrite Esl.
  unfold insert, fn_insert in Hs. destruct (decide_rel _ _ _) as [<-|].
  - exists lit. split; [set_solver|reflexivity].
  - destruct (HS idx Hs) as (x & Hx & E). exists x. split; [set_solver|exact E].
Qed.

Lemma analyze_reason_listed : forall lits open s open' s',
  analyze_reason lits open s = Some (open', s') ->
  seen_listed s -> seen_listed s'.
Proof.
  induction lits as [|lit rest IH]; intros open s open' s' H HS; simpl in H.
  - inversion H; subst. exact HS.
  - destruct (analyze_literal lit s) as [[bb s1]|] eqn:Hl; simpl in H;
      [|discriminate].
    exact (IH _ _ _ _ H (analyze_literal_listed _ _ _ _ Hl HS)).
Qed.

Lemma analyze_loop_listed : forall fuel r open i s uip s',
  analyze_loop fuel r open i s = Some (uip, s') ->
  seen_listed s -> seen_listed s'.
Proof.
  induction fuel as [|fuel IH]; intros r open i s uip s' H HS; simpl in H;
    [discriminate|].
  destruct (heap s !! r) as [cl|]; simpl in H; [|discriminate].
  destruct (analyze_reason (literals cl) open s) as [[open1 s1]|] eqn:Hr;
    simpl in H; [|discriminate].
  pose proof (analyze_reason_listed _ _ _ _ _ Hr HS) as HS1.
  destruct (find_seen i s1) as [[i1 u]|]; simpl in H; [|discriminate].
  destruct (open1 - 1 =? 0); [inversion H; subst; exact HS1|].
  destruct (v_reason (var s1 u)); simpl in H; [|discriminate].
  exact (IH _ _ _ _ _ _ H HS1).
Qed.

Lemma find_seen_between s : forall (i i1 : nat) (uip : Z),
  find_seen i s = Some (i1, uip) ->
  forall j t, (i1 < j < i)%nat -> trail s !! j = Some t ->
    v_seen (var s t) = false.
Proof.
  induction i as [|i IH]; intros i1 uip H j t Hj Ht; simpl in H;
    [discriminate|].
  destruct (trail s !! i) as [u|] eqn:Hu; simpl in H; [|discriminate].
  destruct (v_seen (var s u)) eqn:Hs.
  - inversion H; subst. lia.
  - destruct (Nat.eq_dec j i) as [->|Hne].
    + congruence.
    + apply (IH _ _ H j t); [|exact Ht].
      destruct (find_seen_spec _ _ _ _ H) as (A & _). lia.
Qed.

(** *** Clearing the marks *)

Lemma unmark_step_refl s : unmark_step s s.
Proof.
  exists (vars s), (queue s), (stats s). split; [destruct s; reflexivity|auto].
Qed.

Lemma unmark_step_trans s1 s2 s3 :
  unmark_step s1 s2 -> unmark_step s2 s3 -> unmark_step s1 s3.
Proof.
  intros (v2 & q2 & t2 & -> & H2) (v3 & q3 & t3 & -> & H3).
  exists v3, q3, t3. split; [reflexivity|]. intros idx Hs. apply H2, H3, Hs.
Qed.

Lemma unmark_step_upd_var idx f s :
  (forall v, v_seen (f v) = true -> v_seen v = true) ->
  unmark_step s (upd_var idx f s).
Proof.
  intros Hf. exists (<[idx := f (vars s idx)]> (vars s)), (queue s), (stats s).
  split; [destruct s; reflexivity|]. intros i Hs.
  unfold insert, fn_insert in Hs. destruct (decide_rel _ _ _) as [<-|].
  - apply Hf, Hs.
  - exact Hs.
Qed.

Lemma unmark_step_upd_queue f s : unmark_step s (upd_queue f s).
Proof.
  exists (vars s), (f (queue s)), (stats s).
  split; [destruct s; reflexivity|auto].
Qed.

Lemma unmark_step_upd_stats f s : unmark_step s (upd_stats f s).
Proof.
  exists (vars s), (queue s), (f (stats s)).
  split; [destruct s; reflexivity|auto].
Qed.

Lemma unmark_step_if (c : bool) s s1 s2 :
  unmark_step s s1 -> unmark_step s s2 -> unmark_step s (if c then s1 else s2).
Proof. destruct c; auto. Qed.

Lemma unmark_step_dequeue idx s : unmark_step s (dequeue idx s).
Proof.
  unfold dequeue. cbv zeta.
  assert (H1 : unmark_step s
            (if negb (v_prev (vars s idx) =? 0)
             then upd_var (vidx (v_prev (vars s idx)))
                    (set_v_next (v_next (vars s idx))) s
             else upd_queue (set_q_first (v_next (vars s idx))) s)).
  { apply unmark_step_if; [apply unmark_step_upd_var; auto|
                           apply unmark_step_upd_queue]. }
  revert H1. generalize (if negb (v_prev (vars s idx) =? 0)
             then upd_var (vidx (v_prev (vars s idx)))
                    (set_v_next (v_next (vars s idx))) s
             else upd_queue (set_q_first (v_next (vars s idx))) s).
  intros s1 H1. eapply unmark_step_trans; [exact H1|].
  apply unmark_step_if; [apply unmark_step_upd_var; auto|
                         apply unmark_step_upd_queue].
Qed.

Lemma unmark_step_enqueue idx s : unmark_step s (enqueue idx s).
Proof.
  unfold enqueue. cbv zeta.
  eapply unmark_step_trans; [|apply unmark_step_upd_var; auto].
  eapply unmark_step_trans; [|apply unmark_step_upd_queue].
  eapply unmark_step_trans;
    [apply (unmark_step_upd_var idx (set_v_prev (q_last (queue s))));
     auto|].
  apply unmark_step_if; [apply unmark_step_upd_var; auto|
                         apply unmark_step_upd_queue].
Qed.

Lemma unmark_step_seen s s' idx :
  unmark_step s s' -> v_seen (vars s idx) = false ->
  v_seen (vars s' idx) = false.
Proof.
  intros (vf & q & st & -> & H) Hs. cbn.
  destruct (v_seen (vf idx)) eqn:E; [|reflexivity].
  rewrite (H idx E) in Hs. discriminate.
Qed.

(** One round of the loop clears the marks of its variable and sets
    none. *)
Lemma bump_literal_unmark uip lit s :
  unmark_step s (bump_literal uip lit s) /\
  v_seen (vars (bump_literal uip lit s) (vidx lit)) = false.
Proof.
  unfold bump_literal. cbv zeta.
  assert (H1 : unmark_step s (upd_var (vidx lit) (set_v_marks false) s) /\
               v_seen (vars (upd_var (vidx lit) (set_v_marks false) s)
                            (vidx lit)) = false).
  { split; [apply unmark_step_upd_var; cbn; intros; discriminate|].
    cbn. rewrite fn_lookup_insert. reflexivity. }
  revert H1. generalize (upd_var (vidx lit) (set_v_marks false) s).
  intros s1 [H1 Hs1].
  assert (Hgen : forall s2, unmark_step s1 s2 ->
            unmark_step s s2 /\ v_seen (vars s2 (vidx lit)) = false).
  { intros s2 H2. split; [eapply unmark_step_trans; eassumption|].
    exact (unmark_step_seen _ _ _ H2 Hs1). }
  destruct (v_next (vars s1 (vidx lit)) =? 0);
    [apply Hgen, unmark_step_refl|].
  apply Hgen.
  assert (H2 : unmark_step s1
            (if q_next (queue s1) =? vidx lit
             then upd_queue
                    (set_q_next
                       (if negb (v_prev (vars s1 (vidx lit)) =? 0)
                        then v_prev (vars s1 (vidx lit))
                        else v_next (vars s1 (vidx lit)))) s1
             else s1)).
  { apply unmark_step_if; [apply unmark_step_upd_queue|apply unmark_step_refl]. }
  revert H2. generalize (if q_next (queue s1) =? vidx lit
             then upd_queue
                    (set_q_next
                       (if negb (v_prev (vars s1 (vidx lit)) =? 0)
                        then v_prev (vars s1 (vidx lit))
                        else v_next (vars s1 (vidx lit)))) s1
             else s1).
  intros s2 H2.
  assert (H3 : unmark_step s1 (enqueue (vidx lit) (dequeue (vidx lit) s2))).
  { eapply unmark_step_trans; [exact H2|].
    eapply unmark_step_trans; [apply unmark_step_dequeue|].
    apply unmark_step_enqueue. }
  revert H3. generalize (enqueue (vidx lit) (dequeue (vidx lit) s2)).
  intros s3 H3.
  assert (H5 : unmark_step s1
            (upd_var (vidx lit) (set_v_bumped (bumped (stats s3) + 1))
               (upd_stats (set_bumped (bumped (stats s3) + 1)) s3))).
  { eapply unmark_step_trans; [exact H3|].
    eapply unmark_step_trans;
      [apply unmark_step_upd_stats|apply unmark_step_upd_var; auto]. }
  revert H5. generalize (upd_var (vidx lit) (set_v_bumped (bumped (stats s3) + 1))
               (upd_stats (set_bumped (bumped (stats s3) + 1)) s3)).
  intros s5 H5. apply unmark_step_if; [|exact H5].
  eapply unmark_step_trans; [exact H5|apply unmark_step_upd_queue].
Qed.

Lemma bump_and_clear_unmark uip s :
  seen_listed s ->
  exists vf q st,
    bump_and_clear_seen_literals uip s
    = set_seen_literals [] (set_stats st (set_queue q (set_vars vf s))) /\
    forall idx, v_seen (vf idx) = false.
Proof.
  intros HS. unfold bump_and_clear_seen_literals. cbv zeta.
  assert (Hgen : forall l s0, unmark_step s s0 ->
            (forall idx, v_seen (vars s0 idx) = true ->
               exists x, x ∈ l /\ vidx x = idx) ->
            forall u,
            unmark_step s (fold_left (fun st lit => bump_literal u lit st) l s0)
            /\ forall idx,
                 v_seen (vars (fold_left (fun st lit => bump_literal u lit st)
                                 l s0) idx) = false).
  { induction l as [|x l IH]; intros s0 H0 Hl u; simpl.
    - split; [exact H0|]. intros idx.
      destruct (v_seen (vars s0 idx)) eqn:E; [|reflexivity].
      destruct (Hl idx E) as (y & Hy & _). inversion Hy.
    - destruct (bump_literal_unmark u x s0) as [Hb Hx].
      apply IH; [eapply unmark_step_trans; eassumption|].
      intros idx Hs.
      destruct (v_seen (vars s0 idx)) eqn:E.
      + destruct (Hl idx E) as (y & Hy & Ey). apply elem_of_cons in Hy.
        destruct Hy as [->|Hy]; [|eauto].
        rewrite <- Ey in Hs. congruence.
      + rewrite (unmark_step_seen _ _ _ Hb E) in Hs. discriminate. }
  destruct (Hgen (sort_by (bumped_earlier s) (seen_literals s)) s
              (unmark_step_refl s)) with (u := if uip <? 0 then - uip else uip)
    as [(vf & q & st & E & _) Hall].
  { intros idx Hs. destruct (HS idx Hs) as (x & Hx & Ex).
    exists x. split; [rewrite sort_by_perm; exact Hx|exact Ex]. }
  exists vf, q, st. rewrite E in *. split; [reflexivity|]. exact Hall.
Qed.

(** *** What is learned follows from the clauses *)

Lemma seen_literals_mono b s s1 :
  AInv b s -> AInv b s1 ->
  (forall x, v_seen (var s x) = true -> v_seen (var s1 x) = true) ->
  forall x, x ∈ seen_literals s -> x ∈ seen_literals s1.
Proof.
  intros HA HA1 Hm x Hx.
  destruct (ai_seen _ _ HA x Hx) as (Hs & Hin & _).
  apply Hm in Hs.
  pose proof (ai_marked _ _ HA1 (- x) Hin) as H.
  rewrite Z.opp_involutive in H. apply H.
  unfold var in *. rewrite vidx_opp. exact Hs.
Qed.

(** The invariant of the loop of [analyze] under a model [M] of the
    stored clauses and of the root level: a literal marked so far that is
    still to resolve or to keep is true, or a literal of the clause about
    to be resolved is. *)
Lemma analyze_loop_Ent b M :
  ARdy b -> (0 < level b)%nat -> trail_ok (core b) ->
  (forall p u r, trail b !! p = Some u -> v_reason (var b u) = Some r ->
     lvl b u <> 0%nat ->
     exists c, heap b !! r = Some c /\
       forall x, x ∈ literals c -> x = u \/ - x ∈ take p (trail b)) ->
  (forall id c, heap b !! id = Some c -> clause_true M (literals c)) ->
  (forall t, t ∈ trail b -> lvl b t = 0%nat -> lit_true M t) ->
  forall fuel r open i s uip s',
  AInv b s -> open = Z.of_nat (open_count s i) ->
  (forall c, heap b !! r = Some c -> forall x, x ∈ literals c ->
     v_seen (var s x) = true \/ - x ∈ take i (trail b)) ->
  ((1 <= open_count s i)%nat \/
   exists c x, heap b !! r = Some c /\ x ∈ literals c /\
               lvl b x = level b /\ - x ∈ take i (trail b)) ->
  ((exists x, x ∈ seen_literals s /\
              ((lvl b x < level b)%nat \/ - x ∈ take i (trail b)) /\
              lit_true M x) \/
   (exists c x, heap b !! r = Some c /\ x ∈ literals c /\ lit_true M x /\
                lvl b x <> 0%nat /\ - x ∈ take i (trail b))) ->
  analyze_loop fuel r open i s = Some (uip, s') ->
  clause_true M (clause s' ++ [- uip]).
Proof.
  intros HR HL Ht Hstrong Hheap Hroot. induction fuel as [|fuel IH];
    intros r open i s uip s' HA Hopen Hpre Hcnt HI H; simpl in H;
    [discriminate|].
  rewrite (ai_heap _ _ HA) in H.
  destruct (heap b !! r) as [cl|] eqn:Hcl; simpl in H; [|discriminate].
  destruct (analyze_reason (literals cl) open s) as [[open1 s1]|] eqn:Hr;
    simpl in H; [|discriminate].
  destruct (analyze_reason_AInv b i (ar_nodup _ HR) _ _ _ _ _ HA
              (Hpre cl eq_refl) Hr) as (A1 & C1 & L1 & S1 & M1).
  assert (Hc1 : (1 <= open_count s1 i)%nat).
  { destruct Hcnt as [Hc|(c & x & Hc & Hx & Hlx & Hin)]; [lia|].
    inversion Hc; subst c.
    apply (open_count_pos b s1 i x A1 Hin); [|exact Hlx].
    destruct (S1 x Hx) as [Hs|Hz]; [exact Hs|lia]. }
  (* after the clause is merged, a marked literal is true *)
  assert (HI1 : exists x, x ∈ seen_literals s1 /\
              ((lvl b x < level b)%nat \/ - x ∈ take i (trail b)) /\
              lit_true M x).
  { destruct HI as [(x & Hx & Hd & Hx')|(c & x & Hc & Hx & Hx' & Hnz & Hin)].
    - exists x. split; [|auto].
      exact (seen_literals_mono b s s1 HA A1 M1 x Hx).
    - inversion Hc; subst c. exists x. split; [|auto].
      destruct (S1 x Hx) as [Hs|Hz]; [|contradiction].
      pose proof (ai_marked _ _ A1 (- x) (elem_of_take_elem _ _ _ Hin)) as Hm.
      rewrite Z.opp_involutive in Hm. apply Hm.
      unfold var in *. rewrite vidx_opp. exact Hs. }
  clear HI.
  destruct (find_seen i s1) as [[i1 u]|] eqn:Hf; simpl in H; [|discriminate].
  destruct (find_seen_spec _ _ _ _ Hf) as (Hlt & Hu & Hsu & Hci).
  pose proof (find_seen_between _ _ _ _ Hf) as Hbetween.
  rewrite (ai_trail _ _ A1) in Hu, Hbetween.
  assert (Hlu : lvl b u = level b)
    by (apply (find_seen_level b s1 i1 u HR A1); [lia|exact Hu]).
  assert (Hin : u ∈ trail b) by (eapply list_elem_of_lookup_2; exact Hu).
  assert (Hc2 : open_count s1 (S i1) = S (open_count s1 i1)).
  { rewrite (open_count_S s1 i1 u) by (rewrite (ai_trail _ _ A1); exact Hu).
    rewrite Hsu. cbn [andb].
    assert (E : lvl s1 u = level s1).
    { unfold lvl, var. rewrite (ai_lvl _ _ A1), (ai_level _ _ A1). exact Hlu. }
    rewrite E, Nat.eqb_refl. lia. }
  assert (Hopen2 : open1 - 1 = Z.of_nat (open_count s1 i1)) by lia.
  (* a marked literal of the current level below [i] and not below [i1]
     is the negation of [u] *)
  assert (Hpos : forall x, x ∈ seen_literals s1 -> - x ∈ take i (trail b) ->
            - x ∈ take i1 (trail b) \/ x = - u).
  { intros x Hx Hxin. apply elem_of_take in Hxin.
    destruct Hxin as (p & Hp & Hpi).
    destruct (Nat.lt_ge_cases p i1) as [Hp1|Hp1].
    - left. apply elem_of_take. exists p. auto.
    - right. destruct (Nat.eq_dec p i1) as [->|Hne].
      + rewrite Hu in Hp. inversion Hp. lia.
      + exfalso. destruct (ai_seen _ _ A1 x Hx) as (Hs & _).
        pose proof (Hbetween p (- x) ltac:(lia) Hp) as Hns.
        unfold var in *. rewrite vidx_opp in Hns. congruence. }
  destruct (Z.eqb_spec (open1 - 1) 0) as [E0|E0].
  { inversion H; subst uip s'. clear H.
    destruct HI1 as (x & Hx & Hd & Hx').
    exists x. split; [|exact Hx'].
    destruct (Nat.lt_ge_cases (lvl b x) (level b)) as [Hlow|Hhigh].
    - apply elem_of_app. left. rewrite (ai_clause _ _ A1).
      apply list_elem_of_filter. auto.
    - destruct Hd as [Hd|Hd]; [lia|].
      destruct (Hpos x Hx Hd) as [Hb|Ex].
      2: { subst x. apply elem_of_app. right. apply list_elem_of_singleton.
           reflexivity. }
      exfalso. destruct (ai_seen _ _ A1 x Hx) as (Hs & Hxt & _).
        pose proof (ar_le _ HR _ Hxt) as Hle.
        unfold lvl, var in Hle. rewrite vidx_opp in Hle.
        assert (El : lvl b x = level b) by (unfold lvl, var in *; lia).
        pose proof (open_count_pos b s1 i1 x A1 Hb Hs El). lia. }
  destruct (v_reason (var s1 u)) as [r'|] eqn:Hru; simpl in H; [|discriminate].
  unfold var in Hru. rewrite (ai_reason _ _ A1) in Hru.
  destruct (Hstrong i1 u r' Hu Hru ltac:(lia)) as (c & Hc & Hcx).
  apply (IH r' (open1 - 1) i1 s1 uip s' A1 Hopen2); [| | |exact H].
  - intros c' Hc' x Hxin. rewrite Hc in Hc'. inversion Hc'; subst c'.
    destruct (Hcx x Hxin) as [->|Hb]; [left; exact Hsu|right; exact Hb].
  - left. lia.
  - destruct HI1 as (x & Hx & Hd & Hx').
    assert (Hcase : (lvl b x < level b)%nat \/ - x ∈ take i1 (trail b)
                    \/ x = - u).
    { destruct Hd as [Hd|Hd]; [auto|].
      destruct (Hpos x Hx Hd); auto. }
    destruct Hcase as [Hlow|[Hb|Ex]].
    + left. exists x. auto.
    + left. exists x. auto.
    + subst x. right. destruct (Hheap r' c Hc) as (y & Hy & Hy').
      destruct (tr_lit _ Ht u Hin) as [[Hunz _] _].
      destruct (Hcx y Hy) as [->|Hyb].
      { exfalso. exact (lit_true_opp M u Hunz Hy' Hx'). }
      exists c, y. split; [exact Hc|]. split; [exact Hy|].
      split; [exact Hy'|]. split; [|exact Hyb].
      intros Hz. pose proof (elem_of_take_elem _ _ _ Hyb) as Hyt.
      destruct (tr_lit _ Ht _ Hyt) as [[Hynz _] _].
      apply (lit_true_opp M y); [lia|exact Hy'|].
      apply Hroot; [exact Hyt|].
      unfold lvl, var in *. rewrite vidx_opp. exact Hz.
Qed.

(** *** The steps after the loop, on the state *)

Lemma learn_state uip glue s dc jump s' :
  learn uip glue s = Some (dc, jump, s') ->
  vars s' = vars s /\ levels s' = levels s /\ trail s' = trail s /\
  seen_literals s' = seen_literals s /\ seen_levels s' = seen_levels s /\
  level s' = level s /\
  ((length (clause s) = 1%nat /\ dc = None /\ jump = 0%nat /\
    heap s' = heap s /\ all_literal_watches s' = all_literal_watches s)
   \/
   (exists l1 tl,
      sort_by (level_greater_than s) (clause s) = - uip :: l1 :: tl /\
      dc = Some (next_ref s) /\ jump = lvl s l1 /\ (jump < level s)%nat /\
      heap s' = <[next_ref s := mkClause true false false glue
                                  (conflicts (stats s)) (- uip :: l1 :: tl)]>
                  (heap s) /\
      forall l w, w ∈ watches s' l ->
        w ∈ watches s l \/
        (w_clause w = next_ref s /\ w_size w = S (S (length tl)) /\
         ((l = - uip /\ blit w = l1) \/ (l = l1 /\ blit w = - uip))))).
Proof.
  unfold learn. intros H.
  destruct (Nat.eqb_spec (length (clause s)) 1) as [E1|E1].
  { inversion H; subst. repeat (split; [reflexivity|]). left. auto. }
  cbv zeta in H.
  set (lits := sort_by (level_greater_than s) (clause s)) in *.
  change (clause (set_clause lits s)) with lits in H.
  destruct (lits !! 0%nat) as [c0|] eqn:H0; cbn [mbind option_bind] in H;
    [|discriminate].
  destruct (Z.eqb_spec c0 (- uip)) as [->|]; cbn [check mbind option_bind] in H;
    [|discriminate].
  unfold new_learned_clause, new_clause in H. cbn [fst snd] in H.
  match type of H with
  | context [watch_clause ?c ?s2] =>
      destruct (watch_clause c s2) as [s3|] eqn:Hw;
        cbn [mbind option_bind] in H; [|discriminate]
  end.
  unfold watch_clause in Hw. cbn [heap set_redundant set_next_ref set_heap
    next_ref set_clause] in Hw.
  rewrite lookup_insert_eq in Hw. cbn [mbind option_bind] in Hw.
  destruct (check _); cbn [mbind option_bind] in Hw; [|discriminate].
  cbn [literals clause set_clause] in Hw. rewrite H0 in Hw.
  cbn [mbind option_bind] in Hw.
  destruct (lits !! 1%nat) as [l1|] eqn:H1; cbn [mbind option_bind] in Hw;
    [|discriminate].
  inversion Hw; subst s3. clear Hw.
  cbn [clause watch_literal set_watches set_all_literal_watches
       set_redundant set_next_ref set_heap set_clause] in H.
  rewrite H1 in H. cbn [mbind option_bind] in H.
  match type of H with
  | context [check ?c] =>
      destruct c eqn:Hlt; cbn [check mbind option_bind] in H; [|discriminate]
  end.
  inversion H; subst dc jump s'. clear H.
  assert (El : exists tl, lits = - uip :: l1 :: tl).
  { destruct lits as [|a [|b' tl]]; try discriminate.
    inversion H0; inversion H1; subst. eauto. }
  destruct El as (tl & El).
  repeat (split; [reflexivity|]). right. exists l1, tl.
  split; [exact El|]. split; [reflexivity|]. split; [reflexivity|].
  split; [apply Nat.ltb_lt; exact Hlt|].
  split; [rewrite <- El; reflexivity|].
  intros l w Hw. unfold watches in Hw. cbn in Hw.
  unfold c_size in Hw. cbn in Hw. rewrite El in Hw. cbn [length] in Hw.
  unfold insert, fn_insert in Hw.
  repeat match type of Hw with
         | context [decide_rel ?R ?a ?b] => destruct (decide_rel R a b)
         end; subst;
    repeat (apply elem_of_app in Hw; destruct Hw as [Hw|Hw]);
    try (left; exact Hw);
    apply list_elem_of_singleton in Hw; subst w; right; cbn; auto 10.
Qed.

Lemma clear_levels_zero s :
  (forall i lv, levels s !! i = Some lv -> i ∉ seen_levels s ->
                l_seen lv = 0) ->
  forall lv, lv ∈ levels (clear_levels s) -> l_seen lv = 0.
Proof.
  unfold clear_levels. cbn [levels set_seen_levels set_levels].
  generalize (seen_levels s) (levels s). clear s.
  induction l as [|a l IH]; intros ls H lv Hin; simpl in Hin.
  - apply list_elem_of_lookup in Hin. destruct Hin as (i & Hi).
    apply (H i lv Hi). apply not_elem_of_nil.
  - apply (IH (alter (set_l_seen 0) a ls)); [|exact Hin].
    intros i lv' Hi Hni.
    destruct (Nat.eq_dec i a) as [->|Hne].
    + rewrite list_lookup_alter_eq in Hi.
      destruct (ls !! a); inversion Hi; subst. reflexivity.
    + rewrite list_lookup_alter_ne in Hi by congruence.
      apply (H i lv' Hi). intros Hc. apply elem_of_cons in Hc.
      destruct Hc; [congruence|contradiction].
Qed.

(** After the sort by level, no literal from slot 1 on has a higher level
    than the literal in slot 1. *)
Lemma learned_sorted s cl l0 l1 tl :
  sort_by (level_greater_than s) cl = l0 :: l1 :: tl ->
  forall x, x ∈ l1 :: tl -> (lvl s x <= lvl s l1)%nat.
Proof.
  intros E x Hx.
  assert (Hs : StronglySorted (not_after (level_greater_than s))
                              (l0 :: l1 :: tl)).
  { rewrite <- E. apply sort_by_sorted.
    - intros a b. apply level_greater_than_asym.
    - intros a b c. apply level_greater_than_trans. }
  apply StronglySorted_inv in Hs. destruct Hs as [Hs1 _].
  apply StronglySorted_inv in Hs1. destruct Hs1 as [_ Hall].
  apply elem_of_cons in Hx. destruct Hx as [->|Hx]; [lia|].
  rewrite List.Forall_forall in Hall.
  specialize (Hall x ltac:(apply list_elem_of_In; exact Hx)).
  unfold not_after, level_greater_than in Hall.
  apply Nat.ltb_ge in Hall. exact Hall.
Qed.

(** A conflict at the root level: the clauses have no model. *)
Lemma root_conflict_no_model origs s :
  trail_ok (core s) -> levels_ok (core s) -> level s = 0%nat ->
  has_conflict s = true -> CRdy s -> Ent origs s ->
  forall M, ~ model_of M origs.
Proof.
  intros Ht Hl Hl0 Hcf HC HE M HM.
  unfold has_conflict in Hcf.
  destruct (conflict s) as [cf|] eqn:Ecf; [|discriminate].
  destruct (HC cf Ecf) as (cc & Hcc & Hfalse & _).
  destruct (en_heap _ _ HE M HM cf cc Hcc) as (x & Hx & Hxt).
  pose proof (Hfalse x Hx) as Hnx.
  pose proof (lv_le _ Hl _ Hnx) as Hle.
  destruct (tr_lit _ Ht _ Hnx) as [[Hnz _] _].
  apply (lit_true_opp M x); [lia|exact Hxt|].
  apply (en_root _ _ HE M HM _ Hnx).
  unfold lvl, var. unfold llv in Hle. cbn in Hle. unfold vidx. lia.
Qed.

Lemma learn_unsat uip glue s dc jump s' :
  learn uip glue s = Some (dc, jump, s') -> unsat s' = unsat s.
Proof.
  unfold learn. intros H.
  destruct (Nat.eqb_spec (length (clause s)) 1) as [E1|E1].
  { inversion H; subst. reflexivity. }
  cbv zeta in H.
  set (lits := sort_by (level_greater_than s) (clause s)) in *.
  change (clause (set_clause lits s)) with lits in H.
  destruct (lits !! 0%nat) as [c0|] eqn:H0; cbn [mbind option_bind] in H;
    [|discriminate].
  destruct (Z.eqb_spec c0 (- uip)) as [->|]; cbn [check mbind option_bind] in H;
    [|discriminate].
  unfold new_learned_clause, new_clause in H. cbn [fst snd] in H.
  match type of H with
  | context [watch_clause ?c ?s2] =>
      destruct (watch_clause c s2) as [s3|] eqn:Hw;
        cbn [mbind option_bind] in H; [|discriminate]
  end.
  unfold watch_clause in Hw. cbn [heap set_redundant set_next_ref set_heap
    next_ref set_clause] in Hw.
  rewrite lookup_insert_eq in Hw. cbn [mbind option_bind] in Hw.
  destruct (check _); cbn [mbind option_bind] in Hw; [|discriminate].
  cbn [literals clause set_clause] in Hw. rewrite H0 in Hw.
  cbn [mbind option_bind] in Hw.
  destruct (lits !! 1%nat) as [l1|] eqn:H1; cbn [mbind option_bind] in Hw;
    [|discriminate].
  inversion Hw; subst s3. clear Hw.
  cbn [clause watch_literal set_watches set_all_literal_watches
       set_redundant set_next_ref set_heap set_clause] in H.
  rewrite H1 in H. cbn [mbind option_bind] in H.
  match type of H with
  | context [check ?c] =>
      destruct c eqn:Hlt; cbn [check mbind option_bind] in H; [|discriminate]
  end.
  inversion H; subst dc jump s'. reflexivity.
Qed.

(** [analyze] on a conflict above the root level: the marks are cleared,
    the reasons stay valid, the new clause is the reason of the literal it
    asserts, and what is stored still follows from the clauses. *)
Lemma analyze_RI origs s s' :
  CInvX (ex_conf (core s)) (core s) -> has_conflict s = true ->
  (0 < level s)%nat ->
  RI s -> CRdy s -> Ent origs s -> analyze s = Some s' ->
  RI s' /\ Ent origs s' /\ unsat s' = unsat s.
Proof.
  intros Hinv Hcf HL HR HC HE H.
  pose proof (ci_trail _ _ Hinv) as Ht.
  pose proof (ci_levels _ _ Hinv) as Hlv.
  pose proof (ci_watches _ _ Hinv) as Hw.
  pose proof (ready s Ht Hlv HR HC Hcf) as Hrdy.
  apply analyze_ready_spec in Hrdy.
  unfold analyze in H.
  destruct (conflict s) as [cf|] eqn:Ecf; cbn [mbind option_bind] in H;
    [|discriminate].
  destruct (HC cf Ecf) as (cc & Hcc & Hfalse & xl & Hxl & Hxlv).
  destruct (Nat.eqb_spec (level s) 0) as [|_]; [lia|].
  destruct (bump_clause cf s) as [b|] eqn:Hb; cbn [mbind option_bind] in H;
    [|discriminate].
  destruct (bump_clause_core _ _ _ Hb) as (E1 & _ & _).
  destruct (bump_clause_frame _ _ _ Hb) as (h & e & Eb & Hlit).
  assert (HRb : ARdy b) by (rewrite Eb; apply ARdy_frame; assumption).
  assert (Etr : trail b = trail s) by (rewrite Eb; reflexivity).
  assert (Elev : level b = level s) by (rewrite Eb; reflexivity).
  assert (Evars : vars b = vars s) by (rewrite Eb; reflexivity).
  assert (Ehb : heap b = h) by (rewrite Eb; reflexivity).
  assert (Ewb : all_literal_watches b = all_literal_watches s)
    by (rewrite Eb; reflexivity).
  assert (Enr : next_ref b = next_ref s) by (rewrite Eb; reflexivity).
  assert (Elvl : forall x, lvl b x = lvl s x)
    by (intros x; unfold lvl, var; rewrite Evars; reflexivity).
  (* the clauses of [b] are those of [s] *)
  assert (Hbs : forall id c, heap b !! id = Some c ->
            exists c0, heap s !! id = Some c0 /\ literals c = literals c0).
  { intros id c Hc. rewrite Ehb in Hc. pose proof (Hlit id) as E'.
    rewrite Hc in E'. destruct (heap s !! id) as [c0|]; [|discriminate].
    exists c0. split; [reflexivity|]. inversion E'. reflexivity. }
  assert (Hsb : forall id c0, heap s !! id = Some c0 ->
            exists c, heap b !! id = Some c /\ literals c = literals c0).
  { intros id c0 Hc. rewrite Ehb. pose proof (Hlit id) as E'.
    rewrite Hc in E'. destruct (h !! id) as [c|]; [|discriminate].
    exists c. split; [reflexivity|]. inversion E'. reflexivity. }
  clear Eb Hlit.
  destruct (bool_decide_reflect (clause b = [])) as [Hc1|];
    cbn [check mbind option_bind] in H; [|discriminate].
  destruct (bool_decide_reflect (seen_literals b = [])) as [Hc2|];
    cbn [check mbind option_bind] in H; [|discriminate].
  destruct (bool_decide_reflect (seen_levels b = [])) as [Hc3|];
    cbn [check mbind option_bind] in H; [|discriminate].
  destruct (analyze_loop _ cf 0 _ b) as [[uip s2]|] eqn:Ha;
    cbn [mbind option_bind] in H; [|discriminate].
  destruct (analyze_loop_frame _ _ _ _ _ _ _ Ha) as (E2 & _ & _ & _).
  destruct (AInv_start b HRb Hc1 Hc2 Hc3) as [HA0 Hcount0].
  destruct (Hsb cf cc Hcc) as (ccb & Hccb & Elcc).
  assert (HLb : (0 < level b)%nat) by lia.
  assert (Hpre0 : forall c, heap b !! cf = Some c -> forall x, x ∈ literals c ->
            v_seen (var b x) = true \/ - x ∈ take (length (trail b)) (trail b)).
  { intros c Hc x Hx. rewrite Hccb in Hc. inversion Hc; subst c.
    right. rewrite take_ge by lia. rewrite Etr. apply Hfalse.
    rewrite <- Elcc. exact Hx. }
  assert (Hcnt0 : (1 <= open_count b (length (trail b)))%nat \/
            exists c x, heap b !! cf = Some c /\ x ∈ literals c /\
               lvl b x = level b /\ - x ∈ take (length (trail b)) (trail b)).
  { right. exists ccb, xl. split; [exact Hccb|].
    split; [rewrite Elcc; exact Hxl|].
    split; [rewrite Elvl, Elev; exact Hxlv|].
    rewrite take_ge by lia. rewrite Etr. apply Hfalse, Hxl. }
  destruct (analyze_loop_AInv b HRb HLb (S (length (trail b))) cf 0
              (length (trail b)) b uip s2 HA0 ltac:(lia) Hpre0 Hcnt0 Ha)
    as (HA & Hu & Hlu & Hsu).
  assert (Htb : trail_ok (core b)) by (rewrite E1; exact Ht).
  (* what is learned follows from the clauses *)
  assert (HEnt : forall M, model_of M origs ->
            clause_true M (clause s2 ++ [- uip])).
  { intros M HM.
    assert (Hheapb : forall id c, heap b !! id = Some c ->
              clause_true M (literals c)).
    { intros id c Hc. destruct (Hbs id c Hc) as (c0 & Hc0 & ->).
      exact (en_heap _ _ HE M HM id c0 Hc0). }
    assert (Hrootb : forall t, t ∈ trail b -> lvl b t = 0%nat -> lit_true M t).
    { intros t Hin Hz. rewrite Etr in Hin. rewrite Elvl in Hz.
      exact (en_root _ _ HE M HM t Hin Hz). }
    assert (Hstrong : forall p u r, trail b !! p = Some u ->
              v_reason (var b u) = Some r -> lvl b u <> 0%nat ->
              exists c, heap b !! r = Some c /\
                forall x, x ∈ literals c -> x = u \/ - x ∈ take p (trail b)).
    { intros p u r Hp Hr Hz. rewrite Etr in Hp. unfold var in Hr.
      rewrite Evars in Hr. rewrite Elvl in Hz.
      destruct (ri_reason _ HR p u r Hp Hr Hz) as (c0 & Hc0 & _ & Hx).
      destruct (Hsb r c0 Hc0) as (c & Hc & El).
      exists c. split; [exact Hc|]. rewrite El, Etr. exact Hx. }
    assert (Hopen0 : 0 = Z.of_nat (open_count b (length (trail b))))
      by lia.
    refine (analyze_loop_Ent b M HRb HLb Htb Hstrong Hheapb Hrootb
              _ _ _ _ _ _ _ HA0 Hopen0 Hpre0 Hcnt0 _ Ha).
    right. destruct (Hheapb cf ccb Hccb) as (x & Hx & Hxt).
    exists ccb, x. split; [exact Hccb|]. split; [exact Hx|].
    split; [exact Hxt|].
    assert (Hnx : - x ∈ trail b)
      by (rewrite Etr; apply Hfalse; rewrite <- Elcc; exact Hx).
    split; [|rewrite take_ge by lia; exact Hnx].
    intros Hz. destruct (tr_lit _ Htb _ Hnx) as [[Hnz _] _].
    apply (lit_true_opp M x); [lia|exact Hxt|].
    apply Hrootb; [exact Hnx|].
    unfold lvl, var in *. rewrite vidx_opp. exact Hz. }
  assert (HS2 : seen_listed s2).
  { apply (analyze_loop_listed _ _ _ _ _ _ _ Ha).
    intros idx Hs. rewrite Evars, (ri_unseen _ HR idx) in Hs. discriminate. }
  (* the learned clause *)
  match type of H with
  | context [learn uip ?g ?s4] =>
      destruct (learn uip g s4) as [[[dc jump] s5]|] eqn:Hl;
        cbn [mbind option_bind] in H; [|discriminate];
      pose proof (learn_core _ _ _ _ _ _ Hl) as Hlc;
      pose proof (learn_unsat _ _ _ _ _ _ Hl) as Hlu5;
      apply learn_state in Hl
  end.
  cbn [clause set_clause upd_ema set_ema seen_levels seen_literals vars
       levels trail level heap next_ref all_literal_watches stats lvl var]
    in Hl.
  destruct Hl as (V5 & L5 & T5 & SL5 & SV5 & LV5 & Hl).
  assert (Ecore4 : forall g,
            core (upd_ema g (set_clause (clause s2 ++ [- uip]) s2)) = core s)
    by (intros g; rewrite <- E1, <- E2; reflexivity).
  assert (T5ok : trail_ok (core s5) /\ levels_ok (core s5)).
  { destruct Hlc as [(_ & _ & E5)|(lits & l1 & _ & _ & _ & _ & _ & E5)];
      rewrite E5, Ecore4.
    - auto.
    - split; [revert Ht; apply trail_ok_frame; reflexivity|].
      revert Hlv; apply levels_ok_frame; reflexivity. }
  destruct T5ok as [T5ok L5ok]. clear Hlc.
  match type of H with
  | context [backtrack jump ?s6] =>
      destruct (backtrack jump s6) as [s7|] eqn:Hbt;
        cbn [mbind option_bind] in H; [|discriminate];
      pose proof (backtrack_prefix jump s6 s7 T5ok L5ok Hbt)
        as ((post & B1) & B2 & B3 & B4 & B5);
      pose proof (backtrack_state jump s6 s7 T5ok L5ok Hbt)
        as (_ & B6 & B7 & B8 & _);
      pose proof (backtrack_shape _ _ _ Hbt) as Bsh
  end.
  cbn [trail vars heap all_literal_watches levels upd_ema set_ema lvl var]
    in B1, B2, B3, B4, B5, B7.
  destruct (assign (- uip) dc s7) as [s8|] eqn:Has;
    cbn [mbind option_bind] in H; [|discriminate].
  pose proof (assign_more _ _ _ _ Has)
    as (M1 & M2 & _ & _ & _ & _ & M7 & M8 & _ & _).
  pose proof (assign_spec _ _ _ _ Has)
    as (S1 & S2 & _ & S4 & _ & _ & _ & S8).
  inversion H; subst s'. clear H.
  destruct (queue_step_bump_and_clear uip s8)
    as (Q1 & _ & Q3 & Q4 & _ & _ & _ & Q8).
  assert (HS8 : seen_listed s8).
  { intros idx Hs. rewrite S8 in Hs. rewrite M7.
    assert (Hs7 : v_seen (vars s7 idx) = true).
    { unfold insert, fn_insert in Hs.
      destruct (decide_rel _ _ _) as [<-|]; exact Hs. }
    rewrite B2, V5 in Hs7. cbn in Hs7.
    destruct (HS2 idx Hs7) as (x & Hx & Ex). exists x.
    split; [|exact Ex].
    destruct Bsh as [->|(v & q & tr & pn & ->)]; cbn; rewrite SL5; exact Hx. }
  destruct (bump_and_clear_unmark uip s8 HS8) as (vf & q9 & st9 & E9 & Hvf).
  remember (bump_and_clear_seen_literals uip s8) as s9 eqn:Es9.
  pose proof (core_assign _ _ _ _ Has) as [Hz8 _].
  assert (Etr7 : trail s = trail s7 ++ post).
  { rewrite <- Etr, <- (ai_trail _ _ HA), <- T5. exact B1. }
  assert (Hvar : forall idx,
            v_level (vars s2 idx) = v_level (vars s idx) /\
            v_reason (vars s2 idx) = v_reason (vars s idx)).
  { intros idx. rewrite (ai_lvl _ _ HA), (ai_reason _ _ HA), Evars. auto. }
  assert (Hold : forall t, t ∈ trail s7 ->
            vars s8 (vidx t) = vars s2 (vidx t)).
  { intros t Hin. rewrite S8, fn_lookup_insert_ne; [rewrite B2, V5; reflexivity|].
    intros E. pose proof (B8 t Hin) as Hv. unfold val in Hv.
    unfold vidx in E, Hv. rewrite <- E, Hz8 in Hv. destruct (t <? 0); lia. }
  assert (Es7 : seen_levels s7 = seen_levels s2 /\
                forall i lv, levels s7 !! i = Some lv ->
                             levels s2 !! i = Some lv).
  { destruct Bsh as [->|(v & q & tr & pn & ->)]; cbn; rewrite SV5, ?L5.
    - auto.
    - split; [reflexivity|]. intros i lv Hi.
      apply lookup_take_Some in Hi. apply Hi. }
  destruct Es7 as [Esv7 Elv7].
  assert (Enr2 : next_ref s2 = next_ref s)
    by (rewrite (ai_nref _ _ HA); exact Enr).
  assert (Ehs2 : heap s2 = heap b) by exact (ai_heap _ _ HA).
  assert (Ew2 : all_literal_watches s2 = all_literal_watches s).
  { change (k_W (core s2) = k_W (core s)). rewrite E2, E1. reflexivity. }
  assert (Hfresh : forall id c0, heap s !! id = Some c0 -> id <> next_ref s).
  { intros id c0 Hc0 ->.
    pose proof (w_fresh _ Hw (next_ref s) ltac:(cbn; lia)) as Hn.
    cbn in Hn. rewrite lookup_fmap, Hc0 in Hn. discriminate. }
  (* the clauses after [learn] *)
  assert (Hh5 :
    (forall id c0, heap s !! id = Some c0 ->
       exists c, heap s5 !! id = Some c /\ literals c = literals c0) /\
    (forall id c, heap s5 !! id = Some c ->
       (exists c0, heap s !! id = Some c0 /\ literals c = literals c0) \/
       (id = next_ref s /\ dc = Some id /\
        exists l1 tl, literals c = - uip :: l1 :: tl /\
          jump = lvl s l1 /\
          (forall x, x ∈ l1 :: tl <-> x ∈ clause s2) /\
          (forall x, x ∈ l1 :: tl -> (lvl s x <= lvl s l1)%nat)))).
  { destruct Hl as [(_ & _ & _ & E5 & _)|
                    (l1 & tl & Hsort & Edc & Ej & _ & E5 & _)].
    - rewrite E5, Ehs2. split.
      + intros id c0 Hc0. exact (Hsb id c0 Hc0).
      + intros id c Hc. left. exact (Hbs id c Hc).
    - rewrite E5, Ehs2, Enr2. split.
      + intros id c0 Hc0.
        rewrite lookup_insert_ne
          by (intros E; symmetry in E; exact (Hfresh id c0 Hc0 E)).
        exact (Hsb id c0 Hc0).
      + intros id c Hc. destruct (Nat.eq_dec id (next_ref s)) as [->|Hne].
        * right. rewrite lookup_insert_eq in Hc. inversion Hc; subst c.
          split; [reflexivity|]. split; [rewrite Edc, Enr2; reflexivity|].
          exists l1, tl. split; [reflexivity|].
          split; [rewrite Ej; unfold lvl, var; apply Hvar|].
          assert (Hlx : forall y, v_level (vars s2 (vidx y)) = lvl s y)
            by (intros y; unfold lvl, var; apply Hvar).
          split.
          -- intros x.
             pose proof (sort_by_perm (level_greater_than
                   (upd_ema (update_learned_glue
                      (double_of_Z (Z.of_nat (length (seen_levels s2)))))
                      (set_clause (clause s2 ++ [- uip]) s2)))
                   (clause s2 ++ [- uip])) as Hp.
             rewrite Hsort in Hp.
             rewrite (Permutation_app_comm (clause s2)) in Hp. cbn in Hp.
             apply Permutation_cons_inv in Hp. rewrite Hp. reflexivity.
          -- intros x Hx.
             pose proof (learned_sorted _ _ _ _ _ Hsort x Hx) as Hle.
             unfold lvl, var in Hle. cbn in Hle. rewrite !Hlx in Hle.
             exact Hle.
        * left. rewrite lookup_insert_ne in Hc by congruence.
          exact (Hbs id c Hc). }
  destruct Hh5 as [Hkeep Hcases].
  assert (Hclause2 : forall x, x ∈ clause s2 ->
            - x ∈ trail s /\ lvl s x <> 0%nat).
  { intros x Hx. rewrite (ai_clause _ _ HA) in Hx.
    apply list_elem_of_filter in Hx. destruct Hx as [_ Hx].
    destruct (ai_seen _ _ HA x Hx) as (_ & A & B & _).
    rewrite Etr in A. rewrite Elvl in B. auto. }
  assert (Hlast : forall t, t ∈ trail s7 ++ [- uip] ->
            (t ∈ trail s7 /\ vars s8 (vidx t) = vars s2 (vidx t)) \/
            (t = - uip /\ v_level (vars s8 (vidx t)) = jump /\
             v_reason (vars s8 (vidx t)) = dc)).
  { intros t Hin. apply elem_of_app in Hin. destruct Hin as [Hin|Hin].
    - left. split; [exact Hin|exact (Hold t Hin)].
    - right. apply list_elem_of_singleton in Hin. subst t.
      rewrite S8, fn_lookup_insert. cbn. auto. }
  assert (Hun : unsat s9 = unsat s).
  { rewrite E9. cbn.
    rewrite (proj1 (proj2 (proj2 (proj2 (proj2
               (assign_more _ _ _ _ Has)))))).
    transitivity (unsat s5).
    { destruct Bsh as [->|(v & q & tr & pn & ->)]; reflexivity. }
    rewrite Hlu5. cbn.
    change (k_unsat (core s2) = k_unsat (core s)).
    rewrite E2, E1. reflexivity. }
  split; [|split; [|exact Hun]].
  - split.
    + intros idx. cbn. rewrite E9. cbn. apply Hvf.
    + intros lv Hin.
      apply (clear_levels_zero (set_clause [] s9)); [|exact Hin].
      intros i lv' Hi Hni. cbn in Hi, Hni. rewrite E9 in Hi, Hni.
      cbn in Hi, Hni. rewrite M1 in Hi. rewrite M8, Esv7 in Hni.
      apply Elv7 in Hi. destruct (ai_cnt _ _ HA i lv' Hi) as [_ Hiff].
      apply Hiff. exact Hni.
    + intros p u r Hp Hr Hlz. cbn in Hp. rewrite Q3, S2 in Hp.
      unfold lvl, var in Hr, Hlz. cbn in Hr, Hlz.
      rewrite (proj2 (Q8 _)) in Hr. rewrite (proj1 (Q8 _)) in Hlz.
      cbn [heap trail set_conflict clear_levels set_seen_levels set_levels
           set_clause].
      rewrite Q1, S1, B3, Q3, S2.
      destruct (Nat.lt_ge_cases p (length (trail s7))) as [Hlt|Hge].
      * rewrite lookup_app_l in Hp by exact Hlt.
        assert (Hin : u ∈ trail s7)
          by (eapply list_elem_of_lookup_2; exact Hp).
        rewrite (Hold u Hin) in Hr, Hlz.
        rewrite (proj2 (Hvar _)) in Hr. rewrite (proj1 (Hvar _)) in Hlz.
        assert (Hp0 : trail s !! p = Some u)
          by (rewrite Etr7, lookup_app_l by exact Hlt; exact Hp).
        destruct (ri_reason _ HR p u r Hp0 Hr Hlz) as (c0 & Hc0 & Hu0 & Hx0).
        destruct (Hkeep r c0 Hc0) as (c & Hc & El).
        exists c. split; [exact Hc|]. rewrite El. split; [exact Hu0|].
        intros x Hx. destruct (Hx0 x Hx) as [->|Hin']; [auto|right].
        rewrite take_app_le by lia.
        rewrite Etr7, take_app_le in Hin' by lia. exact Hin'.
      * rewrite lookup_app_r in Hp by exact Hge.
        destruct (p - length (trail s7))%nat as [|k] eqn:Ek; [|discriminate].
        cbn in Hp. inversion Hp; subst u.
        assert (p = length (trail s7)) by lia. subst p.
        rewrite take_app_length.
        rewrite S8, fn_lookup_insert in Hr, Hlz. cbn in Hr, Hlz.
        destruct Hl as [(_ & Edc & _)|
                        (l1 & tl & _ & Edc & _ & _ & E5 & _)];
          [congruence|].
        assert (r = next_ref s) by congruence. subst r.
        assert (Hc : heap s5 !! next_ref s
                     = Some (mkClause true false false
                          (Z.of_nat (length (seen_levels s2)))
                          (conflicts (stats s2)) (- uip :: l1 :: tl)))
          by (rewrite E5, Enr2; apply lookup_insert_eq).
        destruct (Hcases _ _ Hc) as [(c0 & Hc0 & _)|
                                     (_ & _ & l1' & tl' & El & Ej & Hiff & Hle)].
        { exfalso. exact (Hfresh _ _ Hc0 eq_refl). }
        cbn in El. inversion El; subst l1' tl'.
        eexists. split; [exact Hc|]. cbn [literals].
        split; [set_solver|]. intros x Hx.
        apply elem_of_cons in Hx. destruct Hx as [->|Hx]; [auto|right].
        rewrite B7. apply list_elem_of_filter.
        destruct (Hclause2 x (proj1 (Hiff x) Hx)) as [Hnx _]. split.
        -- unfold lvl, var. cbn. rewrite V5, vidx_opp.
           rewrite (proj1 (Hvar _)). specialize (Hle x Hx).
           unfold lvl, var in Hle, Ej. lia.
        -- rewrite T5, (ai_trail _ _ HA), Etr. exact Hnx.
    + intros l w Hwin Hsz c Hc. unfold watches in Hwin.
      cbn in Hwin, Hc. rewrite E9 in Hwin. cbn in Hwin.
      rewrite M2, B4 in Hwin. rewrite Q1, S1, B3 in Hc.
      assert (Hold_w : w ∈ watches s l ->
                literals c = [l; blit w] \/ literals c = [blit w; l]).
      { intros Hws.
        destruct (w_wf _ Hw l w Hws) as (cc0 & Hcc0 & _).
        apply core_heap_lookup in Hcc0. destruct Hcc0 as (c0 & Hc0 & _).
        destruct (Hkeep _ _ Hc0) as (c' & Hc' & El).
        assert (c' = c) by congruence. subst c'. rewrite El.
        exact (ri_bin _ HR l w Hws Hsz c0 Hc0). }
      destruct Hl as [(_ & _ & _ & _ & E5w)|
                      (l1 & tl & _ & _ & _ & _ & E5 & Hwl)].
      * apply Hold_w. unfold watches. rewrite <- Ew2.
        rewrite E5w in Hwin. exact Hwin.
      * destruct (Hwl l w Hwin) as [Hws|(Hid & Hsz' & Hpos)].
        -- apply Hold_w. unfold watches in *. cbn in Hws.
           rewrite Ew2 in Hws. exact Hws.
        -- rewrite Hid, E5 in Hc. cbn in Hc.
           rewrite lookup_insert_eq in Hc. inversion Hc; subst c.
           cbn [literals].
           assert (tl = []) by (destruct tl; [reflexivity|simpl in *; lia]).
           subst tl.
           destruct Hpos as [[-> ->]|[-> ->]]; auto.
  - split.
    + intros M HM id c Hc. cbn in Hc. rewrite Q1, S1, B3 in Hc.
      destruct (Hcases _ _ Hc) as [(c0 & Hc0 & ->)|
                                   (_ & _ & l1 & tl & El & _ & Hiff & _)].
      * exact (en_heap _ _ HE M HM id c0 Hc0).
      * destruct (HEnt M HM) as (x & Hx & Hxt). exists x.
        split; [|exact Hxt]. rewrite El.
        apply elem_of_app in Hx. destruct Hx as [Hx|Hx].
        -- apply elem_of_cons. right. apply Hiff. exact Hx.
        -- apply list_elem_of_singleton in Hx. subst x. set_solver.
    + intros M HM t Hin Hz. cbn in Hin. rewrite Q3, S2 in Hin.
      unfold lvl, var in Hz. cbn in Hz. rewrite (proj1 (Q8 _)) in Hz.
      destruct (Hlast t Hin) as [[Hin7 Ev]|(-> & Ev & _)].
      * rewrite Ev, (proj1 (Hvar _)) in Hz.
        apply (en_root _ _ HE M HM t); [|exact Hz].
        rewrite Etr7. apply elem_of_app. auto.
      * rewrite Ev in Hz. subst jump.
        destruct Hl as [(Hlen & _)|(l1 & tl & Hsort & _ & Ej & _)].
        -- rewrite length_app in Hlen. cbn in Hlen.
           assert (Ec : clause s2 = [])
             by (destruct (clause s2); [reflexivity|simpl in Hlen; lia]).
           destruct (HEnt M HM) as (x & Hx & Hxt). rewrite Ec in Hx.
           apply list_elem_of_singleton in Hx. subst x. exact Hxt.
        -- exfalso.
           pose proof (sort_by_perm (level_greater_than
                (upd_ema (update_learned_glue
                   (double_of_Z (Z.of_nat (length (seen_levels s2)))))
                   (set_clause (clause s2 ++ [- uip]) s2)))
                (clause s2 ++ [- uip])) as Hp.
           rewrite Hsort in Hp.
           rewrite (Permutation_app_comm (clause s2)) in Hp. cbn in Hp.
           apply Permutation_cons_inv in Hp.
           assert (Hl1 : l1 ∈ clause s2) by (rewrite <- Hp; set_solver).
           destruct (Hclause2 l1 Hl1) as [_ Hnz].
           apply Hnz. unfold lvl, var. rewrite <- (proj1 (Hvar _)).
           unfold lvl, var in Ej. cbn in Ej. rewrite <- Ej. exact Hz.
Qed.

(** * The states of a run *)

Lemma search_rounds_Inv fuel V origs : forall n s s',
  Inv V origs s -> search_rounds n fuel s = Some s' -> Inv V origs s'.
Proof.
  induction n as [|n IH]; intros s s' HI H; simpl in H.
  - inversion H; subst. exact HI.
  - destruct (search_step fuel s) as [[r s1]|] eqn:Hs; simpl in H;
      [|discriminate].
    destruct (r =? 0); [|discriminate].
    exact (IH _ _ (proj1 (search_step_Inv _ _ _ _ _ _ HI Hs)) H).
Qed.

Lemma solver_state_Inv o fuel V num tokens n s :
  solver_state o fuel V num tokens n = Some s ->
  Inv V (dimacs_clauses [] (pushed tokens)) s.
Proof.
  unfold solver_state. intros H.
  destruct (parse_dimacs o V num tokens) as [s0|] eqn:Hp;
    cbn [mbind option_bind] in H; [|discriminate].
  apply parse_dimacs_PInv in Hp. destruct Hp as (HI0 & _ & _).
  apply init_solving_Inv in HI0.
  exact (search_rounds_Inv _ _ _ _ _ _ HI0 H).
Qed.

(** The core invariant at the head of the loop, while [unsat] is unset. *)
Lemma solver_state_core o fuel V num tokens n s :
  solver_state o fuel V num tokens n = Some s -> unsat s = false ->
  CInvX ex_none (core s) /\ has_conflict s = false /\ max_var s = V /\
  queue_ok s.
Proof.
  intros H Hu. destruct (solver_state_Inv _ _ _ _ _ _ _ H) as [Hq HI].
  destruct (HI Hu) as (A & B & C & _). auto.
Qed.

(** A stored clause whose literals are all false has no false watched
    literal that was propagated: so there is none, once everything is
    propagated. *)
Lemma no_false_clause s id c :
  CInvX ex_none (core s) -> propagate_next s = length (trail s) ->
  heap s !! id = Some c ->
  exists l, l ∈ literals c /\ ~ val s l < 0.
Proof.
  intros Hinv Hpn Hc.
  assert (Hk : k_heap (core s) !! id = Some (cview c)).
  { cbn. rewrite lookup_fmap, Hc. reflexivity. }
  destruct (w_cl _ (ci_watches _ _ Hinv) id _ Hk) as (Hlen2 & _ & _).
  cbn in Hlen2.
  destruct (literals c) as [|l tl] eqn:El; [simpl in Hlen2; lia|].
  destruct (Z_lt_dec (val s l) 0) as [Hneg|Hnn].
  2: { exists l. split; [apply elem_of_cons; auto|exact Hnn]. }
  rewrite val_kval in Hneg.
  apply (kval_false _ _ (ci_trail _ _ Hinv)) in Hneg.
  apply list_elem_of_lookup in Hneg. destruct Hneg as (j & Hj).
  destruct (ci_J _ _ Hinv id (cview c) 0%nat l Hk) as [[]|(u & A & B & _)].
  - lia.
  - cbn. rewrite El. reflexivity.
  - exists j. split; [|exact Hj]. cbn. rewrite Hpn.
    eapply lookup_lt_Some. exact Hj.
  - exists u. cbn in A. rewrite El in A. split; [exact A|].
    rewrite (val_trail s u (ci_trail _ _ Hinv) B). lia.
Qed.

(** The state [propagate] leaves at the head of a round. *)
Lemma after_propagate o fuel V num tokens n s ok s1 :
  solver_state o fuel V num tokens n = Some s -> unsat s = false ->
  propagate fuel s = Some (ok, s1) ->
  CInvX (ex_conf (core s1)) (core s1) /\ has_conflict s1 = negb ok /\
  (ok = true -> propagate_next s1 = length (trail s1)) /\
  queue_ok s1 /\ max_var s1 = V /\ unsat s1 = false.
Proof.
  intros H Hu Hp.
  destruct (solver_state_core _ _ _ _ _ _ _ H Hu) as (Hinv & _ & Hmax & Hq).
  destruct (propagate_Inv _ _ _ _ (CInvX_none_conf _ Hinv) Hp)
    as (I1 & (L1 & L2 & _) & C1 & P1).
  split; [exact I1|]. split; [exact C1|]. split; [exact P1|].
  split; [exact (propagate_qok _ _ _ _ Hp Hq)|].
  split; [cbn in L2; congruence|cbn in L1; congruence].
Qed.

(** ... and after the restart policy was asked. *)
Lemma after_restarting o fuel V num tokens n s s1 r s2 :
  solver_state o fuel V num tokens n = Some s -> unsat s = false ->
  propagate fuel s = Some (true, s1) -> restarting s1 = (r, s2) ->
  CInvX ex_none (core s2) /\ has_conflict s2 = false /\
  propagate_next s2 = length (trail s2) /\
  queue_ok s2 /\ max_var s2 = V /\ unsat s2 = false /\ core s2 = core s1.
Proof.
  intros H Hu Hp Hr.
  destruct (after_propagate _ _ _ _ _ _ _ _ _ H Hu Hp)
    as (I1 & C1 & P1 & Q1 & M1 & U1).
  cbn [negb] in C1. specialize (P1 eq_refl).
  destruct (restarting_frame _ _ _ Hr) as (E2 & Ev2 & Eq2).
  split; [rewrite E2; apply CInvX_conf_none; assumption|].
  split; [change (k_conf (core s2) = false); rewrite E2; exact C1|].
  split; [change (k_pn (core s2) = length (k_trail (core s2)));
          rewrite E2; exact P1|].
  split; [exact (qok_eq _ _ Ev2 Eq2 Q1)|].
  split; [change (k_max (core s2) = V); rewrite E2; exact M1|].
  split; [change (k_unsat (core s2) = false); rewrite E2; exact U1|].
  exact E2.
Qed.

(** ** What the parser accepts *)

Lemma dimacs_clauses_length : forall tokens cur cur',
  length (dimacs_clauses cur tokens) = length (dimacs_clauses cur' tokens).
Proof.
  induction tokens as [|t rest IH]; intros cur cur'; simpl; [reflexivity|].
  destruct (t =? 0); simpl; [f_equal; apply IH|apply IH].
Qed.

Lemma parse_loop_shape V : forall tokens lit parsed num s s' origs,
  PInv V origs s ->
  (forall x, x ∈ clause s -> x <> 0 /\ Z.abs x <= V) ->
  parse_loop tokens lit parsed num s = Some s' ->
  Forall (fun t => Z.abs (fst t) <= V) tokens /\
  list.last (lit :: (fst <$> tokens)) = Some 0 /\
  (parsed <= num ->
   parsed + Z.of_nat (length (dimacs_clauses [] (pushed tokens))) = num).
Proof.
  induction tokens as [|[t c] rest IH];
    intros lit parsed num s s' origs HP Hrng H; simpl in H.
  - destruct (Z.eqb_spec lit 0) as [->|]; cbn in H; [|discriminate].
    destruct (Z.leb_spec num parsed); cbn in H; [|discriminate].
    split; [constructor|]. split; [reflexivity|]. simpl. lia.
  - assert (Hmax : max_var s = V) by apply HP.
    destruct (Z.leb_spec (Z.abs t) (max_var s)) as [Ht|];
      cbn [check mbind option_bind] in H; [|discriminate].
    rewrite Hmax in Ht.
    change (list.last (lit :: (fst <$> (t, c) :: rest)))
      with (list.last (t :: (fst <$> rest))).
    destruct c.
    { destruct (IH _ _ _ _ _ _ HP Hrng H) as (A & B & C).
      split; [constructor; assumption|]. split; [exact B|exact C]. }
    simpl pushed. simpl dimacs_clauses.
    destruct (Z.eqb_spec t 0) as [->|Hne]; cbn [negb] in H.
    + rewrite tautological_only_sorts in H.
      2: { apply list.Forall_forall. intros x Hx. apply (Hrng x Hx). }
      cbn [negb] in H.
      match type of H with
      | (add_new_original_clause ?s1 ≫= _) = _ =>
          destruct (add_new_original_clause s1) as [s2|] eqn:Ha;
            cbn [mbind option_bind] in H; [|discriminate];
          apply (add_clause_PInv V origs s1 s2 (clause s)) in Ha
      end.
      * destruct (Z.ltb_spec parsed num); cbn [check mbind option_bind] in H;
          [|discriminate].
        apply (IH _ _ _ _ _ (origs ++ [clause s])) in H.
        -- destruct H as (A & B & C). split; [constructor; assumption|].
           split; [exact B|]. intros _. simpl length. lia.
        -- exact Ha.
        -- intros x Hx. inversion Hx.
      * exact HP.
      * intros x Hx. cbn [clause set_clause] in Hx.
        rewrite sort_by_perm in Hx. exact Hx.
      * intros x Hx. cbn [clause set_clause] in Hx.
        rewrite sort_by_perm in Hx. exact (Hrng x Hx).
    + apply (IH _ _ _ _ _ origs) in H.
      * destruct H as (A & B & C). split; [constructor; assumption|].
        split; [exact B|].
        rewrite (dimacs_clauses_length (pushed rest) _ []). exact C.
      * exact HP.
      * intros x Hx. cbn [clause set_clause] in Hx.
        apply elem_of_app in Hx. destruct Hx as [Hx|Hx]; [exact (Hrng x Hx)|].
        apply list_elem_of_singleton in Hx. subst x. split; [exact Hne|lia].
Qed.

Lemma parse_dimacs_shape o V num tokens s :
  parse_dimacs o V num tokens = Some s ->
  Forall (fun t => Z.abs (fst t) <= V) tokens /\
  list.last (0 :: (fst <$> tokens)) = Some 0 /\
  (0 <= num -> Z.of_nat (length (dimacs_clauses [] (pushed tokens))) = num).
Proof.
  unfold parse_dimacs. intros H.
  apply (parse_loop_shape V _ _ _ _ _ _ [] (init_PInv o V)) in H.
  - destruct H as (A & B & C). split; [exact A|]. split; [exact B|].
    intros Hn. specialize (C Hn). lia.
  - intros x Hx. rewrite init_clause in Hx. inversion Hx.
Qed.

(** Every integer the loop keeps is one it read. *)
Lemma pushed_elem t : forall tokens, t ∈ pushed tokens ->
  exists c, (t, c) ∈ tokens.
Proof.
  induction tokens as [|[u c] rest IH]; simpl; intros H.
  - inversion H.
  - destruct c.
    + destruct (IH H) as (c' & Hc'). exists c'. apply elem_of_cons. auto.
    + apply elem_of_cons in H. destruct H as [->|H].
      * exists false. apply elem_of_cons. auto.
      * destruct (IH H) as (c' & Hc'). exists c'. apply elem_of_cons. auto.
Qed.

Lemma pushed_plain lits : pushed (plain lits) = lits.
Proof.
  induction lits as [|t rest IH]; simpl; [reflexivity|].
  f_equal. exact IH.
Qed.


Lemma parse_dimacs_range o V num tokens s :
  parse_dimacs o V num tokens = Some s ->
  forall t, t ∈ pushed tokens -> Z.abs t <= V.
Proof.
  intros H t Ht. destruct (parse_dimacs_shape _ _ _ _ _ H) as (A & _).
  destruct (pushed_elem _ _ Ht) as (c & Hc).
  exact (proj1 (list.Forall_forall _ _) A _ Hc).
Qed.

(** ** The check of the assignment *)

Lemma check_satisfying_loop_spec s a : forall lits satisfied cur,
  (forall t, t ∈ lits -> Z.abs t <= max_var s) ->
  (satisfied = true <-> exists l, l ∈ cur /\ 0 < a l) ->
  (check_satisfying_loop s a lits satisfied = Some tt <->
   forall cl, cl ∈ dimacs_clauses cur lits -> exists l, l ∈ cl /\ 0 < a l).
Proof.
  induction lits as [|lit rest IH]; intros satisfied cur Hrng Hlink; simpl.
  - split; [intros _ cl Hcl; inversion Hcl|reflexivity].
  - assert (Hrest : forall t, t ∈ rest -> Z.abs t <= max_var s)
      by (intros t Ht; apply Hrng; apply elem_of_cons; auto).
    destruct (Z.eqb_spec lit 0) as [->|Hne].
    + destruct satisfied; cbn [negb].
      * rewrite (IH false [] Hrest).
        2: { split; [discriminate|]. intros (l & Hl & _). inversion Hl. }
        split.
        -- intros H cl Hcl. apply elem_of_cons in Hcl.
           destruct Hcl as [->|Hcl]; [apply Hlink; reflexivity|auto].
        -- intros H cl Hcl. apply H. apply elem_of_cons. auto.
      * split; [discriminate|]. intros H.
        assert (Hc : exists l, l ∈ cur /\ 0 < a l)
          by (apply H; apply elem_of_cons; auto).
        apply Hlink in Hc. discriminate.
    + destruct satisfied; cbn [negb].
      * apply IH; [exact Hrest|]. split; [|reflexivity]. intros _.
        destruct (proj1 Hlink eq_refl) as (l & Hl & Hv).
        exists l. split; [apply elem_of_app; auto|exact Hv].
      * assert (Hok : vidx_ok s lit = true).
        { unfold vidx_ok. apply andb_true_intro. split.
          - apply negb_true_iff. apply Z.eqb_neq. exact Hne.
          - apply Z.leb_le. apply Hrng. apply elem_of_cons. auto. }
        rewrite Hok. cbn [check mbind option_bind].
        destruct (Z.ltb_spec 0 (a lit)) as [Hpos|Hnp].
        -- apply IH; [exact Hrest|]. split; [|reflexivity]. intros _.
           exists lit. split; [|exact Hpos].
           apply elem_of_app. right. apply list_elem_of_singleton.
           reflexivity.
        -- apply IH; [exact Hrest|]. split; [discriminate|].
           intros (l & Hl & Hv). apply elem_of_app in Hl.
           destruct Hl as [Hl|Hl].
           ++ apply Hlink. eauto.
           ++ apply list_elem_of_singleton in Hl. subst l. lia.
Qed.

(** The model a SAT answer comes with. *)
Lemma sat_answer_model o fuel V num tokens s :
  cadical o fuel V num tokens = Some (10, s) ->
  max_var s = V /\
  (forall t, t ∈ pushed tokens -> Z.abs t <= V) /\
  forall cl, cl ∈ dimacs_clauses [] (pushed tokens) ->
    exists L, L ∈ cl /\ val s L = 1.
Proof.
  unfold cadical, solve, search. intros H.
  destruct (parse_dimacs o V num tokens) as [s0|] eqn:Hp;
    cbn [mbind option_bind] in H; [|discriminate].
  pose proof (parse_dimacs_range _ _ _ _ _ Hp) as Hrng.
  apply parse_dimacs_PInv in Hp. destruct Hp as (HI0 & _ & _).
  apply init_solving_Inv in HI0.
  destruct (search_loop_Inv _ _ _ _ _ _ _ HI0 H) as [[Hq HI] H10].
  destruct (H10 eq_refl) as (Hu & Hpn & Hlen).
  destruct (HI Hu) as (Hinv & Hcf & Hmax & Ho).
  assert (Ht := ci_trail _ _ Hinv).
  split; [exact Hmax|]. split.
  { exact Hrng. }
  intros cl Hcl.
  destruct (Ho cl Hcl) as [(t & A & B & _)|(id & c & Hc & _ & Hsub)].
  - exists t. split; [exact A|]. apply val_trail; assumption.
  - destruct (heap_clause_true s id c Hinv Hpn Hlen Hc) as (L & A & B).
    exists L. split; [apply Hsub, A|]. apply val_trail; assumption.
Qed.

(** ** Numbers *)

Lemma digits_value_ge ds : forall res,
  0 <= res -> Forall (fun c => isdigit c = true) ds ->
  res <= digits_value res ds.
Proof.
  induction ds as [|c ds IH]; intros res Hres Hd; simpl; [lia|].
  inversion Hd as [|? ? Hc Hds]; subst.
  unfold isdigit in Hc. apply andb_true_iff in Hc.
  rewrite !Z.leb_le in Hc.
  etransitivity; [|apply IH; [lia|exact Hds]]. lia.
Qed.

Lemma read_digits_spec ds : forall res rest ln,
  0 <= res <= INT_MAX -> Forall (fun c => isdigit c = true) ds ->
  isdigit (fst (nextch (mkInput rest ln))) = false ->
  read_digits res (ds ++ rest) ln
  = if digits_value res ds <=? INT_MAX
    then Some (fst (nextch (mkInput rest ln)), digits_value res ds,
               snd (nextch (mkInput rest ln)))
    else None.
Proof.
  induction ds as [|c ds IH]; intros res rest ln Hres Hd Hnd.
  - simpl app. unfold digits_value. simpl fold_left.
    destruct (Z.leb_spec res INT_MAX); [|lia].
    destruct rest as [|c rest]; [reflexivity|].
    cbn in Hnd. simpl. rewrite Hnd. reflexivity.
  - inversion Hd as [|? ? Hc Hds]; subst.
    simpl app. cbn [read_digits]. rewrite Hc.
    assert (Hc' := Hc). unfold isdigit in Hc'. apply andb_true_iff in Hc'.
    rewrite !Z.leb_le in Hc'.
    assert (Hnl : (c =? 10) = false) by (apply Z.eqb_neq; lia).
    rewrite Hnl. cbv zeta.
    change (digits_value res (c :: ds))
      with (digits_value (10 * res + (c - 48)) ds).
    assert (Hdiv : INT_MAX / 10 = 214748364) by reflexivity.
    rewrite Hdiv.
    destruct (Z.ltb_spec 214748364 res) as [Hbig|Hsmall].
    + cbn [orb negb check mbind option_bind].
      pose proof (digits_value_ge ds (10 * res + (c - 48)) ltac:(lia) Hds).
      destruct (Z.leb_spec (digits_value (10 * res + (c - 48)) ds) INT_MAX);
        [unfold INT_MAX in *; lia|reflexivity].
    + cbn [orb].
      destruct (Z.ltb_spec (INT_MAX - (c - 48)) (10 * res)) as [Hov|Hfit].
      * cbn [negb check mbind option_bind].
        pose proof (digits_value_ge ds (10 * res + (c - 48)) ltac:(lia) Hds).
        destruct (Z.leb_spec (digits_value (10 * res + (c - 48)) ds) INT_MAX);
          [unfold INT_MAX in *; lia|reflexivity].
      * cbn [negb check mbind option_bind].
        apply IH; [unfold INT_MAX in *; lia|exact Hds|exact Hnd].
Qed.

(** * What the solver derives follows from the clauses of the file *)

Lemma search_step_FInv fuel V origs s res s' :
  FInv V origs s -> search_step fuel s = Some (res, s') -> FInv V origs s'.
Proof.
  intros (HI & HRE & HU) H.
  destruct (search_step_Inv _ _ _ _ _ _ HI H) as [HI' _].
  split; [exact HI'|]. clear HI'.
  unfold search_step in H.
  destruct (unsat s) eqn:Hu.
  { inversion H; subst. split; [congruence|intros _; exact (HU eq_refl)]. }
  destruct (HRE eq_refl) as [HR HE]. destruct HI as [Hq HI].
  destruct (HI Hu) as (Hinv & Hcf & Hmax & Ho).
  destruct (propagate fuel s) as [[ok s1]|] eqn:Hp;
    cbn [mbind option_bind] in H; [|discriminate].
  destruct (propagate_Inv _ _ _ _ (CInvX_none_conf _ Hinv) Hp)
    as (I1 & L1 & C1 & P1).
  pose proof (propagate_qok _ _ _ _ Hp Hq) as Q1.
  destruct (propagate_RI origs _ _ _ _ (CInvX_none_conf _ Hinv) HR HE Hcf Hp)
    as (R1 & E1 & CR1).
  assert (Hu1 : unsat s1 = false).
  { change (k_unsat (core s1) = false). destruct L1 as (E & _).
    rewrite E. exact Hu. }
  destruct ok; cbn [negb] in H, C1.
  2: { destruct (analyze s1) as [s2|] eqn:Ha; cbn [mbind option_bind] in H;
         [|discriminate].
       inversion H; subst res s'. clear H.
       destruct (Nat.eq_dec (level s1) 0%nat) as [Hl0|Hl0].
       - assert (Hu2 : unsat s2 = true).
         { unfold analyze in Ha.
           destruct (conflict s1); cbn [mbind option_bind] in Ha;
             [|discriminate].
           rewrite Hl0 in Ha. cbn [Nat.eqb] in Ha.
           unfold learn_empty_clause in Ha.
           destruct (check _); cbn [mbind option_bind] in Ha; [|discriminate].
           inversion Ha. reflexivity. }
         split; [congruence|]. intros _.
         exact (root_conflict_no_model origs s1 (ci_trail _ _ I1)
                  (ci_levels _ _ I1) Hl0 C1 CR1 E1).
       - destruct (analyze_RI origs _ _ I1 C1 ltac:(lia) R1 CR1 E1 Ha)
           as (R2 & E2 & U2).
         split; [auto|congruence]. }
  specialize (P1 eq_refl).
  assert (I1' : CInvX ex_none (core s1))
    by (apply CInvX_conf_none; [exact C1|exact I1]).
  destruct (iterating s1).
  { inversion H; subst res s'. split; [|cbn; congruence]. intros _.
    split; [apply (RI_frame s1)|apply (Ent_frame origs s1)];
      try reflexivity; assumption. }
  destruct (satisfied s1) eqn:Hsat.
  { inversion H; subst res s'. split; [auto|congruence]. }
  destruct (restarting s1) as [r s2] eqn:Hr.
  destruct (restarting_frame _ _ _ Hr) as (E2 & Ev2 & Eq2).
  destruct (restarting_same _ _ _ Hr) as (F1 & F2 & F3 & F4 & F5).
  pose proof (qok_eq _ _ Ev2 Eq2 Q1) as Q2.
  assert (I2 : CInvX ex_none (core s2)) by (rewrite E2; exact I1').
  assert (C2 : has_conflict s2 = false)
    by (change (k_conf (core s2) = false); rewrite E2; exact C1).
  assert (Hu2 : unsat s2 = false)
    by (change (k_unsat (core s2) = false); rewrite E2; exact Hu1).
  assert (R2 : RI s2) by (apply (RI_frame s1); assumption).
  assert (En2 : Ent origs s2) by (apply (Ent_frame origs s1); assumption).
  assert (P2 : propagate_next s2 = length (trail s2)).
  { change (k_pn (core s2) = length (k_trail (core s2))). rewrite E2.
    exact P1. }
  destruct r.
  { destruct (restart fuel s2) as [s3|] eqn:Hrs; cbn [mbind option_bind] in H;
      [|discriminate].
    inversion H; subst res s'.
    destruct (restart_Inv _ _ _ I2 Q2 Hrs) as (I3 & L3 & C3 & Q3).
    assert (Hu3 : unsat s3 = false).
    { change (k_unsat (core s3) = false). destruct L3 as (E & _).
      rewrite E. exact Hu2. }
    split; [|congruence]. intros _.
    exact (restart_RI origs _ _ _ I2 Q2 Hrs R2 En2). }
  destruct (reducing s2).
  { destruct (reduce s2) as [s3|] eqn:Hrd; cbn [mbind option_bind] in H;
      [|discriminate].
    inversion H; subst res s'.
    assert (HI2 : Inv V origs s2).
    { apply (Inv_le V origs s); try assumption.
      rewrite E2. exact L1. }
    destruct (reduce_Inv _ _ _ _ HI2 Hu2 P2 Hrd) as [_ Hu3].
    split; [|congruence]. intros _.
    exact (reduce_RI origs _ _ I2 Hrd R2 En2). }
  destruct (decide fuel s2) as [s3|] eqn:Hd; cbn [mbind option_bind] in H;
    [|discriminate].
  inversion H; subst res s'.
  destruct (decide_Inv _ _ _ I2 C2 P2 Q2 Hd) as (I3 & L3 & C3 & Q3).
  assert (Hu3 : unsat s3 = false).
  { change (k_unsat (core s3) = false). destruct L3 as (E & _).
    rewrite E. exact Hu2. }
  split; [|congruence]. intros _.
  exact (decide_RI origs _ _ _ (ci_trail _ _ I2) Q2 Hd R2 En2).
Qed.

Lemma search_rounds_FInv fuel V origs : forall n s s',
  FInv V origs s -> search_rounds n fuel s = Some s' -> FInv V origs s'.
Proof.
  induction n as [|n IH]; intros s s' HI H; simpl in H.
  - inversion H; subst. exact HI.
  - destruct (search_step fuel s) as [[r s1]|] eqn:Hs; simpl in H;
      [|discriminate].
    destruct (r =? 0); [|discriminate].
    exact (IH _ _ (search_step_FInv _ _ _ _ _ _ HI Hs) H).
Qed.



(** * The parser: what it stores follows from the clauses read *)

Lemma model_of_app M origs cl :
  model_of M (origs ++ [cl]) <-> model_of M origs /\ clause_true M cl.
Proof.
  unfold model_of. split.
  - intros H. split.
    + intros c Hc. apply H, elem_of_app. auto.
    + apply H, elem_of_app. right. apply list_elem_of_singleton. reflexivity.
  - intros [H1 H2] c Hc. apply elem_of_app in Hc. destruct Hc as [Hc|Hc].
    + exact (H1 c Hc).
    + apply list_elem_of_singleton in Hc. subst c. exact H2.
Qed.

Lemma Ent_more origs cl s : Ent origs s -> Ent (origs ++ [cl]) s.
Proof.
  intros [A B]. split; intros M HM; apply model_of_app in HM;
    [apply A|apply B]; tauto.
Qed.

Lemma Sound_more origs cl s : Sound origs s -> Sound (origs ++ [cl]) s.
Proof.
  intros [A B]. split.
  - intros Hu. destruct (A Hu). split; [assumption|].
    apply Ent_more. assumption.
  - intros Hu M HM. apply model_of_app in HM. exact (B Hu M (proj1 HM)).
Qed.

Lemma Sound_unsat origs s :
  unsat s = true -> (forall M, ~ model_of M origs) -> Sound origs s.
Proof. intros Hu H. split; [congruence|auto]. Qed.

Lemma Sound_clause origs cl s : Sound origs s -> Sound origs (set_clause cl s).
Proof.
  intros [A B]. split; [|exact B]. intros Hu. destruct (A Hu) as [HR HE].
  split; [apply (RI_frame s)|apply (Ent_frame origs s)];
    try reflexivity; assumption.
Qed.

Lemma init_vmtf_var_unmark prev i s : unmark_step s (init_vmtf_var prev i s).
Proof.
  unfold init_vmtf_var. cbv zeta.
  eapply unmark_step_trans; [|apply unmark_step_upd_var; auto].
  eapply unmark_step_trans; [|apply unmark_step_upd_stats].
  eapply unmark_step_trans;
    [apply (unmark_step_upd_var i (set_v_prev prev)); auto|].
  apply unmark_step_if.
  - apply unmark_step_upd_var. auto.
  - apply unmark_step_upd_queue.
Qed.

Lemma init_vmtf_queue_unmark s : unmark_step s (init_vmtf_queue s).
Proof.
  unfold init_vmtf_queue.
  assert (Hfold : forall l prev st,
            unmark_step st
              (snd (fold_left
                      (fun '(prev, st) i => (i, init_vmtf_var prev i st))
                      l (prev, st)))).
  { induction l as [|i l IH]; intros prev st; simpl.
    - apply unmark_step_refl.
    - eapply unmark_step_trans; [apply init_vmtf_var_unmark|apply IH]. }
  specialize (Hfold (seqZ 1 (max_var s)) 0 s).
  destruct (fold_left _ _ _) as [prev s1]. cbn [snd] in Hfold.
  eapply unmark_step_trans; [exact Hfold|].
  eapply unmark_step_trans; apply unmark_step_upd_queue.
Qed.

(** Before the first clause: no mark, no assignment, no clause. *)
Lemma init_Sound o V :
  Sound [] (init_variables (set_max_var V (State_init o))).
Proof.
  unfold init_variables. cbv zeta.
  match goal with
  | |- context [init_vmtf_queue ?s2] =>
      destruct (init_vmtf_queue_unmark s2) as (vf & q & st & E & Hvf);
      rewrite E
  end.
  split; [|discriminate]. intros _. split.
  - split.
    + intros idx. cbn. destruct (v_seen (vf idx)) eqn:Es; [|reflexivity].
      apply Hvf in Es. cbn in Es. discriminate.
    + intros lv Hin. cbn in Hin. apply list_elem_of_singleton in Hin.
      subst lv. reflexivity.
    + intros p u r Hp. cbn in Hp. discriminate.
    + intros l w Hw. unfold watches in Hw. cbn in Hw. inversion Hw.
  - split.
    + intros M _ id c Hc. cbn in Hc. rewrite lookup_empty in Hc.
      discriminate.
    + intros M _ t Hin. cbn in Hin. inversion Hin.
Qed.

(** [new_clause] followed by [watch_clause]: the new clause and its two
    watches. *)
Lemma new_watch_state red glue s c s1 s2 :
  new_clause red glue s = (c, s1) -> watch_clause c s1 = Some s2 ->
  vars s2 = vars s /\ levels s2 = levels s /\ trail s2 = trail s /\
  unsat s2 = unsat s /\
  heap s2 = <[next_ref s := mkClause red false false glue
                              (conflicts (stats s)) (clause s)]> (heap s) /\
  exists l0 l1 tl,
    clause s = l0 :: l1 :: tl /\
    forall l w, w ∈ watches s2 l ->
      w ∈ watches s l \/
      (w_clause w = next_ref s /\ w_size w = S (S (length tl)) /\
       ((l = l0 /\ blit w = l1) \/ (l = l1 /\ blit w = l0))).
Proof.
  unfold new_clause. intros Hn Hw. inversion Hn; subst c s1. clear Hn.
  unfold watch_clause in Hw.
  destruct red;
    cbn [heap set_redundant set_irredundant set_next_ref set_heap] in Hw;
    rewrite lookup_insert_eq in Hw; cbn [mbind option_bind] in Hw;
    (destruct (check _); cbn [mbind option_bind] in Hw; [|discriminate]);
    cbn [literals] in Hw;
    (destruct (clause s) as [|l0 [|l1 tl]] eqn:Ecl; try discriminate);
    cbn in Hw; inversion Hw; subst s2; clear Hw;
    repeat (split; [reflexivity|]);
    exists l0, l1, tl; (split; [reflexivity|]);
    intros l w Hw; unfold watches in Hw; cbn in Hw;
    unfold insert, fn_insert in Hw;
    repeat match type of Hw with
           | context [decide_rel ?R ?a ?b] => destruct (decide_rel R a b)
           end; subst;
    repeat (apply elem_of_app in Hw; destruct Hw as [Hw|Hw]);
    try (left; exact Hw);
    apply list_elem_of_singleton in Hw; subst w; right; cbn; auto 10.
Qed.

Lemma add_clause_Sound V origs s s2 cl :
  PInv V origs s -> Sound origs s ->
  (forall x, x ∈ clause s <-> x ∈ cl) ->
  (forall x, x ∈ clause s -> x <> 0) ->
  add_new_original_clause s = Some s2 ->
  Sound (origs ++ [cl]) s2.
Proof.
  intros ([Hq HI] & Hmax & Hlv) HS Hsub Hnz H.
  apply (Sound_more origs cl) in HS. destruct HS as [HS1 HS2].
  unfold add_new_original_clause in H.
  destruct (clause s) as [|u [|v tl]] eqn:Ecl.
  - (* the empty clause *)
    inversion H; subst s2. apply Sound_unsat; [reflexivity|].
    intros M HM. apply model_of_app in HM. destruct HM as [_ (x & Hx & _)].
    apply Hsub in Hx. inversion Hx.
  - (* a unit *)
    assert (Hcl : forall M, model_of M (origs ++ [cl]) -> lit_true M u).
    { intros M HM. apply model_of_app in HM.
      destruct HM as [_ (x & Hx & Hxt)]. apply Hsub in Hx.
      apply list_elem_of_singleton in Hx. subst x. exact Hxt. }
    destruct (unsat s) eqn:Hu.
    { apply Sound_unsat; [|exact (HS2 eq_refl)].
      destruct (val s u =? 0).
      - rewrite (proj1 (proj2 (proj2 (proj2 (proj2
                   (assign_more _ _ _ _ H)))))). exact Hu.
      - destruct (val s u <? 0); inversion H; subst; auto. }
    destruct (HI eq_refl) as (Hinv & Hcf & _ & Ho).
    destruct (Hlv eq_refl) as [Hl0 Hp0].
    destruct (HS1 eq_refl) as [HR HE].
    pose proof (ci_trail _ _ Hinv) as Ht.
    destruct (Z.eqb_spec (val s u) 0) as [Hv|Hv].
    + split; [|intros Hu2;
        rewrite (proj1 (proj2 (proj2 (proj2 (proj2
                   (assign_more _ _ _ _ H)))))) in Hu2; congruence].
      intros _. split.
      * apply (RI_assign u None s s2 Ht HR H). intros id Hid. discriminate.
      * apply (Ent_assign _ u None s s2 Ht HE H). intros _. exact Hcl.
    + destruct (Z.ltb_spec (val s u) 0) as [Hneg|Hpos].
      * unfold learn_empty_clause in H.
        destruct (check _); cbn in H; [|discriminate].
        inversion H; subst s2.
        apply Sound_unsat; [reflexivity|]. intros M HM.
        assert (Hin : - u ∈ trail s).
        { change (- u ∈ k_trail (core s)). apply (kval_true _ _ Ht).
          rewrite (kval_opp _ _ Ht), <- val_kval. lia. }
        apply (lit_true_opp M u).
        -- apply Hnz. apply elem_of_cons. auto.
        -- exact (Hcl M HM).
        -- apply (en_root _ _ HE M HM _ Hin).
           pose proof (lv_le _ (ci_levels _ _ Hinv) _ Hin) as Hle.
           change (k_level (core s)) with (level s) in Hle.
           change (llv (core s) (- u)) with (lvl s (- u)) in Hle. lia.
      * inversion H; subst s2. clear H. split; [auto|congruence].
  - (* two literals or more *)
    destruct (new_clause false 0 s) as [c s1] eqn:Hn.
    rewrite <- Ecl in *.
    destruct (new_watch_state _ _ _ _ _ _ Hn H)
      as (Ev & Elv & Etr & Eun & Eh & l0 & l1 & tl' & Ec & Hws).
    destruct (unsat s) eqn:Hu.
    { apply Sound_unsat; [congruence|exact (HS2 eq_refl)]. }
    split; [|congruence]. intros _.
    destruct (HI eq_refl) as (Hinv & Hcf & _ & Ho).
    destruct (HS1 eq_refl) as [[A B C D] [HE1 HE2]].
    assert (Hfr : forall id c0, heap s !! id = Some c0 -> id <> next_ref s).
    { intros id c0 Hc0 ->.
      pose proof (w_fresh _ (ci_watches _ _ Hinv) (next_ref s)) as Hf.
      cbn in Hf. rewrite lookup_fmap, Hc0 in Hf. cbn in Hf.
      specialize (Hf ltac:(lia)). discriminate. }
    split.
    + split.
      * intros idx. rewrite Ev. apply A.
      * intros lv. rewrite Elv. apply B.
      * intros p t r Hp Hr Hlz. unfold lvl, var in Hr, Hlz.
        rewrite Etr in Hp. rewrite Ev in Hr, Hlz.
        destruct (C p t r Hp Hr Hlz) as (c0 & Hc0 & Hrest).
        exists c0. rewrite Eh, Etr.
        rewrite lookup_insert_ne by (intros E; exact (Hfr _ _ Hc0 (eq_sym E))).
        auto.
      * intros l w Hw Hsz c' Hc'. rewrite Eh in Hc'.
        destruct (Hws l w Hw) as [Hold|(Hid & Hsz' & Hpos)].
        -- destruct (w_wf _ (ci_watches _ _ Hinv) l w Hold) as (cc0 & Hcc0 & _).
           apply core_heap_lookup in Hcc0. destruct Hcc0 as (c0 & Hc0 & _).
           rewrite lookup_insert_ne in Hc'
             by (intros E; exact (Hfr _ _ Hc0 (eq_sym E))).
           exact (D l w Hold Hsz c' Hc').
        -- rewrite Hid, lookup_insert_eq in Hc'. inversion Hc'; subst c'.
           cbn [literals]. rewrite Ec.
           assert (tl' = [])
             by (destruct tl'; [reflexivity|simpl in *; lia]).
           subst tl'. destruct Hpos as [[-> ->]|[-> ->]]; auto.
    + split.
      * intros M HM id c' Hc'. rewrite Eh in Hc'.
        destruct (Nat.eq_dec id (next_ref s)) as [->|Hne].
        -- rewrite lookup_insert_eq in Hc'. inversion Hc'; subst c'.
           cbn [literals]. apply model_of_app in HM.
           destruct HM as [_ (x & Hx & Hxt)]. exists x.
           split; [apply Hsub; exact Hx|exact Hxt].
        -- rewrite lookup_insert_ne in Hc' by congruence.
           exact (HE1 M HM id c' Hc').
      * intros M HM t Hin Hz. rewrite Etr in Hin. unfold lvl, var in Hz.
        rewrite Ev in Hz. exact (HE2 M HM t Hin Hz).
Qed.

Lemma parse_loop_Sound V : forall tokens lit parsed num s s' origs,
  PInv V origs s -> Sound origs s ->
  (forall x, x ∈ clause s -> x <> 0 /\ Z.abs x <= V) ->
  parse_loop tokens lit parsed num s = Some s' ->
  Sound (origs ++ dimacs_clauses (clause s) (pushed tokens)) s'.
Proof.
  induction tokens as [|[t c] rest IH];
    intros lit parsed num s s' origs HP HS Hrng H; simpl in H.
  - destruct (lit =? 0); cbn in H; [|discriminate].
    destruct (num <=? parsed); cbn in H; [|discriminate].
    inversion H; subst s'. simpl. rewrite app_nil_r. exact HS.
  - assert (Hmax : max_var s = V) by apply HP.
    destruct (Z.leb_spec (Z.abs t) (max_var s)) as [Ht|];
      cbn [check mbind option_bind] in H; [|discriminate].
    destruct c; [exact (IH _ _ _ _ _ _ HP HS Hrng H)|].
    simpl. destruct (Z.eqb_spec t 0) as [->|Hne]; cbn [negb] in H.
    + rewrite tautological_only_sorts in H.
      2: { apply list.Forall_forall. intros x Hx. apply (Hrng x Hx). }
      cbn [negb] in H.
      match type of H with
      | (add_new_original_clause ?s1 ≫= _) = _ =>
          destruct (add_new_original_clause s1) as [s2|] eqn:Ha;
            cbn [mbind option_bind] in H; [|discriminate];
          pose proof (add_clause_PInv V origs s1 s2 (clause s)) as HP2;
          pose proof (add_clause_Sound V origs s1 s2 (clause s)) as HS2
      end.
      assert (Hperm : forall x,
                x ∈ sort_by lit_less_than (clause s) <-> x ∈ clause s)
        by (intros x; rewrite sort_by_perm; reflexivity).
      destruct (parsed <? num); cbn [check mbind option_bind] in H;
        [|discriminate].
      apply (IH _ _ _ _ _ (origs ++ [clause s])) in H.
      * rewrite <- app_assoc in H. exact H.
      * apply HP2; [exact HP| | |exact Ha].
        -- intros x Hx. apply Hperm. exact Hx.
        -- intros x Hx. apply Hperm in Hx. exact (Hrng x Hx).
      * apply Sound_clause.
        apply HS2; [exact HP|apply Sound_clause; exact HS|exact Hperm|
                    |exact Ha].
        intros x Hx. apply Hperm in Hx. exact (proj1 (Hrng x Hx)).
      * intros x Hx. inversion Hx.
    + apply (IH _ _ _ _ _ origs) in H.
      * exact H.
      * exact HP.
      * apply Sound_clause. exact HS.
      * intros x Hx. cbn [clause set_clause] in Hx.
        apply elem_of_app in Hx. destruct Hx as [Hx|Hx]; [exact (Hrng x Hx)|].
        apply list_elem_of_singleton in Hx. subst x. split; [exact Hne|lia].
Qed.

Lemma parse_dimacs_FInv o V num tokens s :
  parse_dimacs o V num tokens = Some s ->
  FInv V (dimacs_clauses [] (pushed tokens)) s.
Proof.
  intros H. split; [exact (proj1 (parse_dimacs_PInv _ _ _ _ _ H))|].
  unfold parse_dimacs in H.
  apply (parse_loop_Sound V _ _ _ _ _ _ [] (init_PInv o V) (init_Sound o V))
    in H.
  - rewrite init_clause in H. exact H.
  - intros x Hx. rewrite init_clause in Hx. inversion Hx.
Qed.

Lemma init_solving_FInv V origs s :
  FInv V origs s -> FInv V origs (init_solving s).
Proof.
  intros (HI & HS & HU). split; [exact HI|]. split; [|exact HU].
  intros Hu. destruct (HS Hu) as [HR HE].
  split; [apply (RI_frame s)|apply (Ent_frame origs s)];
    try reflexivity; assumption.
Qed.

Lemma solver_state_FInv o fuel V num tokens n s :
  solver_state o fuel V num tokens n = Some s ->
  FInv V (dimacs_clauses [] (pushed tokens)) s.
Proof.
  unfold solver_state. intros H.
  destruct (parse_dimacs o V num tokens) as [s0|] eqn:Hp;
    cbn [mbind option_bind] in H; [|discriminate].
  apply parse_dimacs_FInv, init_solving_FInv in Hp.
  exact (search_rounds_FInv _ _ _ _ _ _ Hp H).
Qed.


(** The state [propagate] leaves at the head of a round: the reasons are
    valid, and a conflict is a stored clause with all literals false. *)
Lemma after_propagate_sound o fuel V num tokens n s ok s1 :
  solver_state o fuel V num tokens n = Some s -> unsat s = false ->
  propagate fuel s = Some (ok, s1) ->
  RI s1 /\ Ent (dimacs_clauses [] (pushed tokens)) s1 /\ CRdy s1.
Proof.
  intros H Hu Hp.
  destruct (solver_state_FInv _ _ _ _ _ _ _ H) as ([_ HI] & HS & _).
  destruct (HI Hu) as (Hinv & Hcf & _). destruct (HS Hu) as [HR HE].
  exact (propagate_RI _ _ _ _ _ (CInvX_none_conf _ Hinv) HR HE Hcf Hp).
Qed.

Lemma after_restarting_sound o fuel V num tokens n s s1 r s2 :
  solver_state o fuel V num tokens n = Some s -> unsat s = false ->
  propagate fuel s = Some (true, s1) -> restarting s1 = (r, s2) ->
  RI s2 /\ Ent (dimacs_clauses [] (pushed tokens)) s2.
Proof.
  intros H Hu Hp Hr.
  destruct (after_propagate_sound _ _ _ _ _ _ _ _ _ H Hu Hp)
    as (R1 & E1 & _).
  destruct (restarting_same _ _ _ Hr) as (F1 & F2 & F3 & F4 & F5).
  split; [apply (RI_frame s1)|apply (Ent_frame _ s1)]; assumption.
Qed.

(** * The learned clause and the solution *)

Lemma learn_clause uip glue s dc jump s' :
  learn uip glue s = Some (dc, jump, s') ->
  clause s' ≡ₚ clause s /\ max_var s' = max_var s.
Proof.
  unfold learn. intros H.
  destruct (Nat.eqb_spec (length (clause s)) 1) as [E1|E1].
  { inversion H; subst. split; reflexivity. }
  cbv zeta in H.
  set (lits := sort_by (level_greater_than s) (clause s)) in *.
  change (clause (set_clause lits s)) with lits in H.
  destruct (lits !! 0%nat) as [c0|] eqn:H0; cbn [mbind option_bind] in H;
    [|discriminate].
  destruct (Z.eqb_spec c0 (- uip)) as [->|]; cbn [check mbind option_bind] in H;
    [|discriminate].
  unfold new_learned_clause, new_clause in H. cbn [fst snd] in H.
  match type of H with
  | context [watch_clause ?c ?s2] =>
      destruct (watch_clause c s2) as [s3|] eqn:Hw;
        cbn [mbind option_bind] in H; [|discriminate]
  end.
  unfold watch_clause in Hw. cbn [heap set_redundant set_next_ref set_heap
    next_ref set_clause] in Hw.
  rewrite lookup_insert_eq in Hw. cbn [mbind option_bind] in Hw.
  destruct (check _); cbn [mbind option_bind] in Hw; [|discriminate].
  cbn [literals clause set_clause] in Hw. rewrite H0 in Hw.
  cbn [mbind option_bind] in Hw.
  destruct (lits !! 1%nat) as [l1|] eqn:H1; cbn [mbind option_bind] in Hw;
    [|discriminate].
  inversion Hw; subst s3. clear Hw.
  cbn [clause watch_literal set_watches set_all_literal_watches
       set_redundant set_next_ref set_heap set_clause] in H.
  rewrite H1 in H. cbn [mbind option_bind] in H.
  match type of H with
  | context [check ?c] =>
      destruct c eqn:Hlt; cbn [check mbind option_bind] in H; [|discriminate]
  end.
  inversion H; subst dc jump s'. cbn. split; [|reflexivity].
  apply sort_by_perm.
Qed.

(** The steps of [analyze] at a conflict above the root level, up to the
    clause it learns: this clause follows from the clauses of the file,
    and its literals are false. *)
Lemma analyze_parts origs s s' :
  CInvX (ex_conf (core s)) (core s) -> has_conflict s = true ->
  (0 < level s)%nat ->
  RI s -> CRdy s -> Ent origs s -> analyze s = Some s' ->
  exists cf b uip s2 dc jump s5,
    conflict s = Some cf /\ bump_clause cf s = Some b /\
    analyze_loop (S (length (trail b))) cf 0 (length (trail b)) b
      = Some (uip, s2) /\
    learn uip (Z.of_nat (length (seen_levels s2)))
      (upd_ema (update_learned_glue
                  (double_of_Z (Z.of_nat (length (seen_levels s2)))))
               (set_clause (clause s2 ++ [- uip]) s2))
      = Some (dc, jump, s5) /\
    max_var s2 = max_var s /\
    (forall x, x ∈ clause s2 ++ [- uip] -> - x ∈ trail s) /\
    (forall M, model_of M origs -> clause_true M (clause s2 ++ [- uip])).
Proof.
  intros Hinv Hcf HL HR HC HE H.
  pose proof (ci_trail _ _ Hinv) as Ht.
  pose proof (ci_levels _ _ Hinv) as Hlv.
  pose proof (ci_watches _ _ Hinv) as Hw.
  pose proof (ready s Ht Hlv HR HC Hcf) as Hrdy.
  apply analyze_ready_spec in Hrdy.
  unfold analyze in H.
  destruct (conflict s) as [cf|] eqn:Ecf; cbn [mbind option_bind] in H;
    [|discriminate].
  destruct (HC cf Ecf) as (cc & Hcc & Hfalse & xl & Hxl & Hxlv).
  destruct (Nat.eqb_spec (level s) 0) as [|_]; [lia|].
  destruct (bump_clause cf s) as [b|] eqn:Hb; cbn [mbind option_bind] in H;
    [|discriminate].
  destruct (bump_clause_core _ _ _ Hb) as (E1 & _ & _).
  destruct (bump_clause_frame _ _ _ Hb) as (h & e & Eb & Hlit).
  assert (HRb : ARdy b) by (rewrite Eb; apply ARdy_frame; assumption).
  assert (Etr : trail b = trail s) by (rewrite Eb; reflexivity).
  assert (Elev : level b = level s) by (rewrite Eb; reflexivity).
  assert (Evars : vars b = vars s) by (rewrite Eb; reflexivity).
  assert (Ehb : heap b = h) by (rewrite Eb; reflexivity).
  assert (Ewb : all_literal_watches b = all_literal_watches s)
    by (rewrite Eb; reflexivity).
  assert (Enr : next_ref b = next_ref s) by (rewrite Eb; reflexivity).
  assert (Elvl : forall x, lvl b x = lvl s x)
    by (intros x; unfold lvl, var; rewrite Evars; reflexivity).
  (* the clauses of [b] are those of [s] *)
  assert (Hbs : forall id c, heap b !! id = Some c ->
            exists c0, heap s !! id = Some c0 /\ literals c = literals c0).
  { intros id c Hc. rewrite Ehb in Hc. pose proof (Hlit id) as E'.
    rewrite Hc in E'. destruct (heap s !! id) as [c0|]; [|discriminate].
    exists c0. split; [reflexivity|]. inversion E'. reflexivity. }
  assert (Hsb : forall id c0, heap s !! id = Some c0 ->
            exists c, heap b !! id = Some c /\ literals c = literals c0).
  { intros id c0 Hc. rewrite Ehb. pose proof (Hlit id) as E'.
    rewrite Hc in E'. destruct (h !! id) as [c|]; [|discriminate].
    exists c. split; [reflexivity|]. inversion E'. reflexivity. }
  clear Eb Hlit.
  destruct (bool_decide_reflect (clause b = [])) as [Hc1|];
    cbn [check mbind option_bind] in H; [|discriminate].
  destruct (bool_decide_reflect (seen_literals b = [])) as [Hc2|];
    cbn [check mbind option_bind] in H; [|discriminate].
  destruct (bool_decide_reflect (seen_levels b = [])) as [Hc3|];
    cbn [check mbind option_bind] in H; [|discriminate].
  destruct (analyze_loop _ cf 0 _ b) as [[uip s2]|] eqn:Ha;
    cbn [mbind option_bind] in H; [|discriminate].
  destruct (analyze_loop_frame _ _ _ _ _ _ _ Ha) as (E2 & _ & _ & _).
  destruct (AInv_start b HRb Hc1 Hc2 Hc3) as [HA0 Hcount0].
  destruct (Hsb cf cc Hcc) as (ccb & Hccb & Elcc).
  assert (HLb : (0 < level b)%nat) by lia.
  assert (Hpre0 : forall c, heap b !! cf = Some c -> forall x, x ∈ literals c ->
            v_seen (var b x) = true \/ - x ∈ take (length (trail b)) (trail b)).
  { intros c Hc x Hx. rewrite Hccb in Hc. inversion Hc; subst c.
    right. rewrite take_ge by lia. rewrite Etr. apply Hfalse.
    rewrite <- Elcc. exact Hx. }
  assert (Hcnt0 : (1 <= open_count b (length (trail b)))%nat \/
            exists c x, heap b !! cf = Some c /\ x ∈ literals c /\
               lvl b x = level b /\ - x ∈ take (length (trail b)) (trail b)).
  { right. exists ccb, xl. split; [exact Hccb|].
    split; [rewrite Elcc; exact Hxl|].
    split; [rewrite Elvl, Elev; exact Hxlv|].
    rewrite take_ge by lia. rewrite Etr. apply Hfalse, Hxl. }
  destruct (analyze_loop_AInv b HRb HLb (S (length (trail b))) cf 0
              (length (trail b)) b uip s2 HA0 ltac:(lia) Hpre0 Hcnt0 Ha)
    as (HA & Hu & Hlu & Hsu).
  assert (Htb : trail_ok (core b)) by (rewrite E1; exact Ht).
  (* what is learned follows from the clauses *)
  assert (HEnt : forall M, model_of M origs ->
            clause_true M (clause s2 ++ [- uip])).
  { intros M HM.
    assert (Hheapb : forall id c, heap b !! id = Some c ->
              clause_true M (literals c)).
    { intros id c Hc. destruct (Hbs id c Hc) as (c0 & Hc0 & ->).
      exact (en_heap _ _ HE M HM id c0 Hc0). }
    assert (Hrootb : forall t, t ∈ trail b -> lvl b t = 0%nat -> lit_true M t).
    { intros t Hin Hz. rewrite Etr in Hin. rewrite Elvl in Hz.
      exact (en_root _ _ HE M HM t Hin Hz). }
    assert (Hstrong : forall p u r, trail b !! p = Some u ->
              v_reason (var b u) = Some r -> lvl b u <> 0%nat ->
              exists c, heap b !! r = Some c /\
                forall x, x ∈ literals c -> x = u \/ - x ∈ take p (trail b)).
    { intros p u r Hp Hr Hz. rewrite Etr in Hp. unfold var in Hr.
      rewrite Evars in Hr. rewrite Elvl in Hz.
      destruct (ri_reason _ HR p u r Hp Hr Hz) as (c0 & Hc0 & _ & Hx).
      destruct (Hsb r c0 Hc0) as (c & Hc & El).
      exists c. split; [exact Hc|]. rewrite El, Etr. exact Hx. }
    assert (Hopen0 : 0 = Z.of_nat (open_count b (length (trail b))))
      by lia.
    refine (analyze_loop_Ent b M HRb HLb Htb Hstrong Hheapb Hrootb
              _ _ _ _ _ _ _ HA0 Hopen0 Hpre0 Hcnt0 _ Ha).
    right. destruct (Hheapb cf ccb Hccb) as (x & Hx & Hxt).
    exists ccb, x. split; [exact Hccb|]. split; [exact Hx|].
    split; [exact Hxt|].
    assert (Hnx : - x ∈ trail b)
      by (rewrite Etr; apply Hfalse; rewrite <- Elcc; exact Hx).
    split; [|rewrite take_ge by lia; exact Hnx].
    intros Hz. destruct (tr_lit _ Htb _ Hnx) as [[Hnz _] _].
    apply (lit_true_opp M x); [lia|exact Hxt|].
    apply Hrootb; [exact Hnx|].
    unfold lvl, var in *. rewrite vidx_opp. exact Hz. }
  match type of H with
  | context [learn uip ?g ?s4] =>
      destruct (learn uip g s4) as [[[dc jump] s5]|] eqn:Hl;
        cbn [mbind option_bind] in H; [|discriminate]
  end.
  exists cf, b, uip, s2, dc, jump, s5.
  split; [first [reflexivity|exact Ecf]|].
  split; [first [reflexivity|exact Hb]|]. split; [exact Ha|].
  split; [exact Hl|]. split.
  { change (k_max (core s2) = k_max (core s)). rewrite E2, E1. reflexivity. }
  split; [|exact HEnt].
  intros x Hx. apply elem_of_app in Hx. destruct Hx as [Hx|Hx].
  - rewrite (ai_clause _ _ HA) in Hx.
    apply list_elem_of_filter in Hx. destruct Hx as [_ Hx].
    destruct (ai_seen _ _ HA x Hx) as (_ & A & _).
    rewrite Etr in A. exact A.
  - apply list_elem_of_singleton in Hx. subst x.
    rewrite Z.opp_involutive, <- Etr. exact Hu.
Qed.

(** [check_clause] passes when a literal of the clause is positive in the
    solution, the literals being variables of the file. *)
Lemma check_clause_loop_spec s sl : forall lits satisfied,
  (forall l, l ∈ lits -> vidx_ok s l = true) ->
  check_clause_loop s sl lits satisfied
  = Some (satisfied || existsb (fun l => 0 <? sol sl l) lits).
Proof.
  induction lits as [|l rest IH]; intros satisfied Hok; simpl.
  - rewrite orb_false_r. reflexivity.
  - destruct satisfied; [reflexivity|].
    rewrite (Hok l) by (apply elem_of_cons; auto).
    cbn [check mbind option_bind orb].
    rewrite IH by (intros x Hx; apply Hok, elem_of_cons; auto).
    reflexivity.
Qed.

(** A clause whose literals do not clash and that holds in every model of
    [origs] has a literal that is positive in every solution, partial or
    not, that gives a positive literal to every clause of [origs]. *)
Lemma partial_solution_entails (sl : Z -> Z) origs (C : list Z) :
  (forall cl, cl ∈ origs -> exists l, l ∈ cl /\ 0 < sol sl l) ->
  (forall x, x ∈ C -> - x ∈ C -> False) ->
  (forall M, model_of M origs -> clause_true M C) ->
  existsb (fun l => 0 <? sol sl l) C = true.
Proof.
  intros Hsol Hclash HEnt.
  destruct (existsb (fun l => 0 <? sol sl l) C) eqn:Ex; [reflexivity|].
  exfalso.
  assert (Hneg : forall x, x ∈ C -> sol sl x <= 0).
  { intros x Hx. destruct (Z.ltb_spec 0 (sol sl x)) as [Hp|]; [|assumption].
    assert (Ht : existsb (fun l => 0 <? sol sl l) C = true).
    { apply existsb_exists. exists x. split.
      - apply list_elem_of_In. exact Hx.
      - apply Z.ltb_lt. exact Hp. }
    congruence. }
  set (M := fun x : Z =>
              if bool_decide (- x ∈ C) then true
              else if bool_decide (x ∈ C) then false
              else 0 <? sl x).
  assert (HM : model_of M origs).
  { intros cl Hcl. destruct (Hsol cl Hcl) as (l & Hl & Hp).
    exists l. split; [exact Hl|].
    unfold lit_true, sol, vidx in *.
    destruct (Z.ltb_spec l 0) as [Hl0|Hl0].
    - rewrite Z.abs_neq in Hp by lia. unfold M.
      rewrite Z.opp_involutive.
      destruct (bool_decide_reflect (l ∈ C)) as [Hin|_].
      + specialize (Hneg l Hin). unfold sol, vidx in Hneg.
        destruct (Z.ltb_spec l 0); [|lia].
        rewrite Z.abs_neq in Hneg by lia. lia.
      + destruct (bool_decide (- l ∈ C)); [reflexivity|].
        apply Z.ltb_ge. lia.
    - rewrite Z.abs_eq in Hp by lia. unfold M.
      destruct (bool_decide (- l ∈ C)); [reflexivity|].
      destruct (bool_decide_reflect (l ∈ C)) as [Hin|_].
      + specialize (Hneg l Hin). unfold sol, vidx in Hneg.
        destruct (Z.ltb_spec l 0); [lia|].
        rewrite Z.abs_eq in Hneg by lia. lia.
      + apply Z.ltb_lt. exact Hp. }
  destruct (HEnt M HM) as (x & Hx & Hxt).
  unfold lit_true in Hxt. destruct (Z.ltb_spec x 0) as [Hx0|Hx0].
  - unfold M in Hxt. rewrite Z.opp_involutive in Hxt.
    rewrite bool_decide_eq_true_2 in Hxt by exact Hx. discriminate.
  - unfold M in Hxt.
    destruct (bool_decide_reflect (- x ∈ C)) as [Hin|_].
    + exact (Hclash x Hx Hin).
    + rewrite bool_decide_eq_true_2 in Hxt by exact Hx. discriminate.
Qed.

(** * The queue after [init_vmtf_queue] *)

(** The loop of [init_vmtf_queue] after [k] rounds: the variables 1..k are
    linked in this order and stamped [b0 + 1 .. b0 + k]. *)
Lemma init_vmtf_fold s0 : forall k : nat,
  let r := fold_left (fun '(prev, st) i => (i, init_vmtf_var prev i st))
                     (seqZ 1 (Z.of_nat k)) (0, s0) in
  fst r = Z.of_nat k /\
  bumped (stats (snd r)) = bumped (stats s0) + Z.of_nat k /\
  queue (snd r) = (if (k =? 0)%nat then queue s0
                   else set_q_first 1 (queue s0)) /\
  (forall i, 1 <= i <= Z.of_nat k ->
     v_prev (vars (snd r) i) = i - 1 /\
     v_bumped (vars (snd r) i) = bumped (stats s0) + i /\
     v_next (vars (snd r) i)
     = if i =? Z.of_nat k then v_next (vars s0 i) else i + 1) /\
  (forall i, ~ 1 <= i <= Z.of_nat k -> vars (snd r) i = vars s0 i).
Proof.
  induction k as [|k IH]; cbv zeta.
  - change (Z.of_nat 0) with 0. rewrite seqZ_nil by lia.
    cbn [fold_left fst snd Nat.eqb].
    split; [reflexivity|]. split; [lia|]. split; [reflexivity|].
    split; [intros i Hi; lia|reflexivity].
  - rewrite seqZ_S, fold_left_app. cbv zeta in IH.
    destruct (fold_left _ (seqZ 1 (Z.of_nat k)) (0, s0)) as [prev st].
    cbn [fst snd fold_left] in *.
    destruct IH as (Ep & Eb & Eq & Hin & Hout). subst prev.
    unfold init_vmtf_var. cbv zeta.
    assert (Hvid : vidx (Z.of_nat k) = Z.of_nat k)
      by (unfold vidx; lia).
    split; [lia|].
    assert (Hde : forall (A : Type) (a b : Z) (x y : A),
              (if base.decide (a = b) then x else y)
              = if a =? b then x else y).
    { intros A a b x y. destruct (base.decide (a = b)), (Z.eqb_spec a b);
        try reflexivity; contradiction. }
    assert (HSk : Z.of_nat (S k) = 1 + Z.of_nat k) by lia.
    rewrite HSk. clear HSk.
    destruct (Z.eqb_spec (Z.of_nat k) 0) as [Hk0|Hk0]; cbn [negb].
    + assert (k = 0%nat) by lia. subst k. cbn [Nat.eqb] in *.
      split; [cbn; lia|]. split; [cbn; rewrite Eq; reflexivity|].
      split.
      * intros i Hi. unfold upd_var, upd_stats, upd_queue.
        cbn [vars set_vars set_stats set_queue stats queue].
        unfold insert, fn_insert. rewrite !Hde.
        destruct (Z.eqb_spec (1 + Z.of_nat 0) i) as [<-|]; [|lia].
        rewrite Z.eqb_refl. cbn [v_prev v_next v_bumped set_v_bumped
          set_v_prev bumped set_bumped].
        rewrite Hout by lia. repeat split; lia.
      * intros i Hi. unfold upd_var, upd_stats, upd_queue.
        cbn [vars set_vars set_stats set_queue stats queue].
        unfold insert, fn_insert. rewrite !Hde.
        destruct (Z.eqb_spec (1 + Z.of_nat 0) i); [lia|]. apply Hout. lia.
    + split; [cbn; lia|]. split.
      { cbn. rewrite Eq. destruct k; [lia|]. reflexivity. }
      rewrite Hvid. split.
      * intros i Hi. unfold upd_var, upd_stats, upd_queue.
        cbn [vars set_vars set_stats set_queue stats queue].
        unfold insert, fn_insert. rewrite !Hde.
        destruct (Z.eq_dec i (1 + Z.of_nat k)) as [->|Hne].
        -- rewrite !Z.eqb_refl.
           destruct (Z.eqb_spec (Z.of_nat k) (1 + Z.of_nat k)); [lia|].
           cbn [v_prev v_next v_bumped set_v_bumped set_v_prev set_v_next
                bumped set_bumped].
           rewrite Hout by lia. repeat split; lia.
        -- destruct (Hin i ltac:(lia)) as (A & B & C).
           repeat match goal with
                  | |- context [?a =? ?b] =>
                      destruct (Z.eqb_spec a b); try lia
                  end;
             try subst i;
             cbn [v_prev v_next v_bumped set_v_bumped set_v_prev set_v_next
                  bumped set_bumped];
             rewrite ?A, ?B, ?C;
             repeat match goal with
                    | |- context [?a =? ?b] =>
                        destruct (Z.eqb_spec a b); try lia
                    end.
           all: repeat split; lia.
      * intros i Hi. unfold upd_var, upd_stats, upd_queue.
        cbn [vars set_vars set_stats set_queue stats queue].
        unfold insert, fn_insert. rewrite !Hde.
        destruct (Z.eqb_spec (1 + Z.of_nat k) i); [lia|].
        destruct (Z.eqb_spec (Z.of_nat k) i); [lia|]. apply Hout. lia.
Qed.

Lemma seqZ_to_nat V : seqZ 1 V = seqZ 1 (Z.of_nat (Z.to_nat V)).
Proof.
  destruct (Z.le_gt_cases 0 V).
  - rewrite Z2Nat.id by lia. reflexivity.
  - rewrite !seqZ_nil by lia. reflexivity.
Qed.

(** * Further properties of the program *)

(** ** The state at the head of the search loop *)

(** X1: at the head of every round of the search loop, as long as
    [unsat] is not set, the trail holds each assigned variable exactly
    once: no variable occurs twice on the trail, every literal of the
    trail is a variable of the file and has the value 1, every variable
    with a value is on the trail, and no conflict is pending. *)
Theorem run_trail_consistent (o : Opts) (fuel : nat) (V num : Z)
  (tokens : list Token) (n : nat) (s : State) :
  solver_state o fuel V num tokens n = Some s -> unsat s = false ->
  NoDup (Z.abs <$> trail s) /\
  (forall l, l ∈ trail s -> l <> 0 /\ Z.abs l <= V /\ val s l = 1) /\
  (forall idx, vals s idx <> 0 -> exists l, l ∈ trail s /\ Z.abs l = idx) /\
  conflict s = None.
Proof.
  intros H Hu.
  destruct (solver_state_core _ _ _ _ _ _ _ H Hu) as (Hinv & Hcf & Hmax & _).
  pose proof (ci_trail _ _ Hinv) as Ht.
  split; [exact (tr_nodup _ Ht)|]. split; [|split].
  - intros l Hl. destruct (tr_lit _ Ht l Hl) as [[Hn Hm] _].
    cbn in Hm. rewrite Hmax in Hm.
    split; [exact Hn|]. split; [exact Hm|]. exact (val_trail s l Ht Hl).
  - exact (tr_val _ Ht).
  - unfold has_conflict in Hcf. destruct (conflict s); [discriminate|].
    reflexivity.
Qed.

Lemma run_trail_consistent_witness :
  NoDup (Z.abs <$> trail (run_example 4)) /\
  (forall l, l ∈ trail (run_example 4) ->
     l <> 0 /\ Z.abs l <= 4 /\ val (run_example 4) l = 1) /\
  (forall idx, vals (run_example 4) idx <> 0 ->
     exists l, l ∈ trail (run_example 4) /\ Z.abs l = idx) /\
  conflict (run_example 4) = None.
Proof.
  apply (run_trail_consistent default_opts 50 4 3 (plain run_example_tokens) 4);
    vm_compute; reflexivity.
Defined.

(** X2: at the head of every round of the search loop the trail is
    grouped by decision level: [levels] has one entry for each level up to
    the current one, the levels of the literals do not fall along the
    trail and do not exceed the current level, what is not yet propagated
    lies inside the trail, and the decision of every level from 1 on is on
    the trail with that level and is the first literal of its level. *)
Theorem run_levels_grouped (o : Opts) (fuel : nat) (V num : Z)
  (tokens : list Token) (n : nat) (s : State) :
  solver_state o fuel V num tokens n = Some s -> unsat s = false ->
  length (levels s) = S (level s) /\
  (propagate_next s <= length (trail s))%nat /\
  (forall p q t u, (p <= q)%nat ->
     trail s !! p = Some t -> trail s !! q = Some u ->
     (lvl s t <= lvl s u <= level s)%nat) /\
  (forall m lv, (1 <= m)%nat -> levels s !! m = Some lv ->
     lvl s (decision lv) = m /\
     exists pre post, trail s = pre ++ decision lv :: post /\
       (forall l, l ∈ pre -> (lvl s l < m)%nat)).
Proof.
  intros H Hu.
  destruct (solver_state_core _ _ _ _ _ _ _ H Hu) as (Hinv & _ & _ & _).
  pose proof (ci_levels _ _ Hinv) as Hl.
  split; [|split; [exact (lv_pn _ Hl)|split]].
  - pose proof (lv_len _ Hl) as E. cbn in E. rewrite length_fmap in E.
    exact E.
  - intros p q t u Hpq Hp Hq. split.
    + exact (levels_mono (core s) p q t u Hl Hpq Hp Hq).
    + apply (lv_le _ Hl). eapply list_elem_of_lookup_2. exact Hq.
  - intros m lv Hm Hlv.
    destruct (lv_dec _ Hl m (decision lv) Hm) as (A & pre & post & E & B & _).
    { cbn. rewrite list_lookup_fmap, Hlv. reflexivity. }
    split; [exact A|]. exists pre, post. split; [exact E|exact B].
Qed.

Lemma run_levels_grouped_witness :
  length (levels (run_example 4)) = S (level (run_example 4)) /\
  (propagate_next (run_example 4) <= length (trail (run_example 4)))%nat /\
  (forall p q t u, (p <= q)%nat ->
     trail (run_example 4) !! p = Some t ->
     trail (run_example 4) !! q = Some u ->
     (lvl (run_example 4) t <= lvl (run_example 4) u
      <= level (run_example 4))%nat) /\
  (forall m lv, (1 <= m)%nat -> levels (run_example 4) !! m = Some lv ->
     lvl (run_example 4) (decision lv) = m /\
     exists pre post,
       trail (run_example 4) = pre ++ decision lv :: post /\
       (forall l, l ∈ pre -> (lvl (run_example 4) l < m)%nat)).
Proof.
  apply (run_levels_grouped default_opts 50 4 3 (plain run_example_tokens) 4);
    vm_compute; reflexivity.
Defined.

(** X3: at the head of every round of the search loop every stored
    clause has two literals or more, all of them variables of the file,
    and is not marked garbage; every watch points to a stored clause,
    caches its size, sits in the list of one of its literals and has one
    of its literals as blocking literal; each of the two first literals
    of a stored clause has a watch of that clause in its list, unless a
    literal of the clause is true at the root level; and no clause is
    stored at or above [next_ref]. *)
Theorem run_watches_sound (o : Opts) (fuel : nat) (V num : Z)
  (tokens : list Token) (n : nat) (s : State) :
  solver_state o fuel V num tokens n = Some s -> unsat s = false ->
  (forall id c, heap s !! id = Some c ->
     (2 <= c_size c)%nat /\ c_garbage c = false /\
     forall x, x ∈ literals c -> x <> 0 /\ Z.abs x <= V) /\
  (forall l w, w ∈ watches s l ->
     exists c, heap s !! w_clause w = Some c /\ w_size w = c_size c /\
               l ∈ literals c /\ blit w ∈ literals c) /\
  (forall id c i l, heap s !! id = Some c -> (i < 2)%nat ->
     literals c !! i = Some l ->
     (exists w, w ∈ watches s l /\ w_clause w = id) \/
     (exists t, t ∈ literals c /\ t ∈ trail s /\ lvl s t = 0%nat)) /\
  (forall id, (next_ref s <= id)%nat -> heap s !! id = None).
Proof.
  intros H Hu.
  destruct (solver_state_core _ _ _ _ _ _ _ H Hu) as (Hinv & _ & Hmax & _).
  pose proof (ci_watches _ _ Hinv) as Hw.
  assert (Hk : forall id c, heap s !! id = Some c ->
                 k_heap (core s) !! id = Some (cview c)).
  { intros id c Hc. apply core_heap_lookup. eauto. }
  split; [|split; [|split]].
  - intros id c Hc. destruct (w_cl _ Hw id _ (Hk id c Hc)) as (A & B & C).
    split; [exact A|]. split; [exact B|].
    intros x Hx. destruct (C x Hx) as [Hn Hm]. cbn in Hm.
    rewrite Hmax in Hm. auto.
  - intros l w Hin. destruct (w_wf _ Hw l w Hin) as (cc & Hc & A & B & C).
    apply core_heap_lookup in Hc. destruct Hc as (c & Hc & ->).
    exists c. auto.
  - intros id c i l Hc Hi Hl.
    destruct (w_pres _ Hw id _ l (Hk id c Hc)) as [Hcnt|Hroot].
    + left. apply wcount_pos.
      pose proof (pcount_pos l (literals c) i Hi Hl) as Hp.
      change (cc_lits (cview c)) with (literals c) in Hcnt.
      change (k_W (core s) l) with (watches s l) in Hcnt. lia.
    + right. exact Hroot.
  - intros id Hid. pose proof (w_fresh _ Hw id Hid) as E.
    cbn in E. rewrite lookup_fmap in E.
    destruct (heap s !! id); [discriminate|reflexivity].
Qed.

Lemma run_watches_sound_witness :
  (forall id c, heap (run_example 4) !! id = Some c ->
     (2 <= c_size c)%nat /\ c_garbage c = false /\
     forall x, x ∈ literals c -> x <> 0 /\ Z.abs x <= 4) /\
  (forall l w, w ∈ watches (run_example 4) l ->
     exists c, heap (run_example 4) !! w_clause w = Some c /\
               w_size w = c_size c /\
               l ∈ literals c /\ blit w ∈ literals c) /\
  (forall id c i l, heap (run_example 4) !! id = Some c -> (i < 2)%nat ->
     literals c !! i = Some l ->
     (exists w, w ∈ watches (run_example 4) l /\ w_clause w = id) \/
     (exists t, t ∈ literals c /\ t ∈ trail (run_example 4) /\
                lvl (run_example 4) t = 0%nat)) /\
  (forall id, (next_ref (run_example 4) <= id)%nat ->
     heap (run_example 4) !! id = None).
Proof.
  apply (run_watches_sound default_opts 50 4 3 (plain run_example_tokens) 4);
    vm_compute; reflexivity.
Defined.

(** ** Propagation *)

(** X4: when [propagate] returns true at the head of a round, no conflict
    is set, every literal of the trail has been propagated, and no stored
    clause has all its literals false: propagation misses no falsified
    clause. *)
Theorem propagate_leaves_no_false_clause (o : Opts) (fuel : nat)
  (V num : Z) (tokens : list Token) (n : nat) (s s1 : State) :
  solver_state o fuel V num tokens n = Some s -> unsat s = false ->
  propagate fuel s = Some (true, s1) ->
  conflict s1 = None /\ propagate_next s1 = length (trail s1) /\
  forall id c, heap s1 !! id = Some c ->
    exists l, l ∈ literals c /\ 0 <= val s1 l.
Proof.
  intros H Hu Hp.
  destruct (after_propagate _ _ _ _ _ _ _ _ _ H Hu Hp)
    as (I1 & C1 & P1 & _).
  cbn [negb] in C1. specialize (P1 eq_refl).
  split; [|split; [exact P1|]].
  - unfold has_conflict in C1. destruct (conflict s1); [discriminate|].
    reflexivity.
  - intros id c Hc.
    destruct (no_false_clause s1 id c (CInvX_conf_none (core s1) C1 I1) P1 Hc)
      as (l & A & B).
    exists l. split; [exact A|lia].
Qed.

Lemma propagate_leaves_no_false_clause_witness :
  conflict (run_example_propagated 4) = None /\
  forall id c, heap (run_example_propagated 4) !! id = Some c ->
    exists l, l ∈ literals c /\ 0 <= val (run_example_propagated 4) l.
Proof.
  assert (H : conflict (run_example_propagated 4) = None /\
              propagate_next (run_example_propagated 4)
              = length (trail (run_example_propagated 4)) /\
              forall id c, heap (run_example_propagated 4) !! id = Some c ->
                exists l, l ∈ literals c /\
                          0 <= val (run_example_propagated 4) l).
  { apply (propagate_leaves_no_false_clause default_opts 50 4 3 (plain run_example_tokens) 4 (run_example 4));
      vm_compute; reflexivity. }
  split; [exact (proj1 H)|exact (proj2 (proj2 H))].
Defined.

(** ** Backtracking *)

(** X5: [backtrack] to the level [t], called in the state [propagate]
    leaves, needs [t] at most the current level, makes [t] the current
    level, keeps on the trail, in their order, exactly the literals
    assigned at the levels up to [t], which keep the value 1, and gives
    the literals of the higher levels the value 0; [propagate_next] does
    not grow and stays inside the trail. *)
Theorem backtrack_keeps_lower_levels (o : Opts) (fuel : nat) (V num : Z)
  (tokens : list Token) (n : nat) (s s1 s' : State) (ok : bool) (t : nat) :
  solver_state o fuel V num tokens n = Some s -> unsat s = false ->
  propagate fuel s = Some (ok, s1) -> backtrack t s1 = Some s' ->
  (t <= level s1)%nat /\ level s' = t /\
  trail s' = filter (fun l => (lvl s1 l <= t)%nat) (trail s1) /\
  (forall l, l ∈ trail s' -> val s' l = 1) /\
  (forall l, l ∈ trail s1 -> (t < lvl s1 l)%nat -> val s' l = 0) /\
  (propagate_next s' <= length (trail s'))%nat /\
  (propagate_next s' <= propagate_next s1)%nat.
Proof.
  intros H Hu Hp Hb.
  destruct (after_propagate _ _ _ _ _ _ _ _ _ H Hu Hp) as (I1 & _).
  exact (backtrack_state t s1 s' (ci_trail _ _ I1) (ci_levels _ _ I1) Hb).
Qed.

Lemma backtrack_keeps_lower_levels_witness :
  trail (run_example_propagated 2) = [-4; -3; 2; 1] /\
  trail run_example_backtracked = [-4] /\
  level run_example_backtracked = 1%nat /\
  (forall l, l ∈ trail (run_example_propagated 2) ->
     (1 < lvl (run_example_propagated 2) l)%nat ->
     val run_example_backtracked l = 0).
Proof.
  assert (H := backtrack_keeps_lower_levels default_opts 50 4 3 (plain run_example_tokens) 2 (run_example 2)
                 (run_example_propagated 2) run_example_backtracked
                 false 1).
  destruct H as (_ & H2 & _ & _ & H5 & _); try (vm_compute; reflexivity).
  split; [vm_compute; reflexivity|]. split; [vm_compute; reflexivity|].
  split; [exact H2|exact H5].
Defined.

(** ** Decisions *)



(** ** Reduction of the clause store *)

(** X7: [reduce], called after a propagation without conflict, keeps the
    trail, the values and the decision level; a clause it keeps keeps its
    literals and its kind, and a clause it deletes was redundant or had a
    literal that is true at the root level; it adds no watch. *)
Theorem reduce_deletes_only_useless (o : Opts) (fuel : nat) (V num : Z)
  (tokens : list Token) (n : nat) (s s1 s2 s' : State) (r : bool) :
  solver_state o fuel V num tokens n = Some s -> unsat s = false ->
  propagate fuel s = Some (true, s1) -> restarting s1 = (r, s2) ->
  reduce s2 = Some s' ->
  trail s' = trail s2 /\ vals s' = vals s2 /\ level s' = level s2 /\
  (forall id c', heap s' !! id = Some c' ->
     exists c, heap s2 !! id = Some c /\ literals c' = literals c /\
               c_redundant c' = c_redundant c) /\
  (forall id c, heap s2 !! id = Some c -> heap s' !! id = None ->
     c_redundant c = true \/
     exists t, t ∈ literals c /\ t ∈ trail s2 /\ lvl s2 t = 0%nat) /\
  (forall l w, w ∈ watches s' l -> w ∈ watches s2 l).
Proof.
  intros H Hu Hp Hr Hd.
  destruct (after_restarting _ _ _ _ _ _ _ _ _ _ H Hu Hp Hr) as (I2 & _).
  destruct (reduce_reduced _ _ I2 Hd) as (g & R & _ & _).
  split; [exact (rd_trail _ _ _ R)|]. split; [exact (rd_vals _ _ _ R)|].
  split; [exact (rd_level _ _ _ R)|]. split; [|split].
  - intros id c' Hc'.
    assert (Hk' : k_heap (core s') !! id = Some (cview c'))
      by (apply core_heap_lookup; eauto).
    destruct (g id) eqn:Hg.
    + rewrite (rd_drop _ _ _ R id Hg) in Hk'. discriminate.
    + rewrite (rd_keep _ _ _ R id Hg) in Hk'.
      apply core_heap_lookup in Hk'. destruct Hk' as (c & Hc & E).
      exists c. split; [exact Hc|].
      split; [exact (f_equal cc_lits E)|exact (f_equal cc_red E)].
  - intros id c Hc Hn.
    assert (Hk : k_heap (core s2) !! id = Some (cview c))
      by (apply core_heap_lookup; eauto).
    destruct (g id) eqn:Hg.
    + exact (rd_why _ _ _ R id _ Hk Hg).
    + rewrite <- (rd_keep _ _ _ R id Hg) in Hk.
      apply core_heap_lookup in Hk. destruct Hk as (c0 & Hc0 & _).
      congruence.
  - intros l w Hw. change (w ∈ k_W (core s') l) in Hw.
    change (w ∈ k_W (core s2) l).
    destruct (in_range_dec (core s2) l) as [Hin|Hout].
    + destruct (K_fixed_dec (core s2) l) as [Hf|Hnf].
      * rewrite (rd_fixed _ _ _ R l Hin Hf) in Hw.
        apply elem_of_nil in Hw. contradiction.
      * rewrite (rd_live _ _ _ R l Hin Hnf) in Hw.
        apply list_elem_of_filter in Hw. tauto.
    + rewrite (rd_out _ _ _ R l Hout) in Hw. exact Hw.
Qed.

Lemma reduce_deletes_only_useless_witness :
  trail run_example_reduced = trail (run_example_policy 3) /\
  (forall id c, heap (run_example_policy 3) !! id = Some c ->
     heap run_example_reduced !! id = None ->
     c_redundant c = true \/
     exists t, t ∈ literals c /\ t ∈ trail (run_example_policy 3) /\
               lvl (run_example_policy 3) t = 0%nat).
Proof.
  assert (H := reduce_deletes_only_useless default_opts 50 4 3 (plain run_example_tokens) 3 (run_example 3)
                 (run_example_propagated 3) (run_example_policy 3)
                 run_example_reduced false).
  destruct H as (H1 & _ & _ & _ & H5 & _); try (vm_compute; reflexivity).
  split; [exact H1|exact H5].
Defined.

(** ** The parser *)





(** ** The check of the assignment *)

(** X10: [check_satisfying_assignment], run over integers that are
    variables of the file, passes exactly when every clause among them,
    that is every run of literals closed by a zero, has a literal to
    which the assignment gives a positive value; literals after the last
    zero are not checked. *)
Theorem check_satisfying_assignment_spec (s : State) (a : Z -> Z)
  (lits : list Z) :
  (forall t, t ∈ lits -> Z.abs t <= max_var s) ->
  (check_satisfying_assignment s a lits = Some tt <->
   forall cl, cl ∈ dimacs_clauses [] lits -> exists l, l ∈ cl /\ 0 < a l).
Proof.
  intros Hrng. unfold check_satisfying_assignment.
  apply check_satisfying_loop_spec; [exact Hrng|].
  split; [discriminate|]. intros (l & Hl & _). inversion Hl.
Qed.

Lemma check_satisfying_assignment_spec_witness :
  check_satisfying_assignment sat_example_state (val sat_example_state)
    sat_example_tokens = Some tt <->
  forall cl, cl ∈ dimacs_clauses [] sat_example_tokens ->
    exists l, l ∈ cl /\ 0 < val sat_example_state l.
Proof.
  apply (check_satisfying_assignment_spec sat_example_state
           (val sat_example_state) sat_example_tokens).
  intros t Ht. vm_compute in Ht.
  repeat (apply elem_of_cons in Ht; destruct Ht as [->|Ht];
          [vm_compute; discriminate|]).
  inversion Ht.
Defined.

(** X11: when [cadical] answers SAT, the check of the final assignment
    that [main] runs before it prints the answer passes: the program
    does not abort there.  The check runs over [original_literals], the
    integers the parser kept. *)
Theorem sat_answer_passes_check (o : Opts) (fuel : nat) (V num : Z)
  (tokens : list Token) (s : State) :
  cadical o fuel V num tokens = Some (10, s) ->
  check_satisfying_assignment s (val s) (pushed tokens) = Some tt.
Proof.
  intros H. destruct (sat_answer_model _ _ _ _ _ _ H) as (Hmax & Hrng & Hm).
  unfold check_satisfying_assignment.
  apply (check_satisfying_loop_spec s (val s) (pushed tokens) false []).
  - rewrite Hmax. exact Hrng.
  - split; [discriminate|]. intros (l & Hl & _). inversion Hl.
  - intros cl Hcl. destruct (Hm cl Hcl) as (L & A & B).
    exists L. split; [exact A|lia].
Qed.

Lemma sat_answer_passes_check_witness :
  check_satisfying_assignment sat_example_state (val sat_example_state)
    (pushed (plain sat_example_tokens)) = Some tt.
Proof.
  apply (sat_answer_passes_check default_opts 50 3 4
           (plain sat_example_tokens)).
  vm_compute; reflexivity.
Defined.

(** ** File names and numbers *)

(** X12: [has_suffix] holds exactly of the strings that end with the
    suffix and are longer than it: a name that is only the suffix does
    not have it. *)
Theorem has_suffix_spec (str suffix : list Ascii.ascii) :
  has_suffix str suffix = true <->
  exists pre, pre <> [] /\ str = pre ++ suffix.
Proof.
  unfold has_suffix. rewrite andb_true_iff, Nat.ltb_lt, bool_decide_eq_true.
  split.
  - intros [Hlt Hd]. exists (take (length str - length suffix) str). split.
    + intros E. apply (f_equal length) in E. rewrite length_take in E.
      simpl in E. lia.
    + transitivity (take (length str - length suffix) str
                    ++ drop (length str - length suffix) str).
      * symmetry. apply take_drop.
      * rewrite Hd. reflexivity.
  - intros (pre & Hne & ->). rewrite length_app. split.
    + destruct pre; [contradiction|simpl; lia].
    + replace (length pre + length suffix - length suffix)%nat
        with (length pre) by lia.
      apply drop_app_length.
Qed.

(** X13: [parse_positive_int], started on a digit and followed by the
    digits [ds] and then something that is no digit, gives the number the
    digits write in base ten and the character after them, when that
    number is at most [INT_MAX], and is an error otherwise: no number
    above [INT_MAX] is ever computed. *)
Theorem parse_positive_int_spec (ch : Z) (ds rest : list Z) (ln : Z) :
  isdigit ch = true -> Forall (fun c => isdigit c = true) ds ->
  isdigit (fst (nextch (mkInput rest ln))) = false ->
  parse_positive_int ch (mkInput (ds ++ rest) ln)
  = if digits_value 0 (ch :: ds) <=? INT_MAX
    then Some (fst (nextch (mkInput rest ln)), digits_value 0 (ch :: ds),
               snd (nextch (mkInput rest ln)))
    else None.
Proof.
  intros Hc Hds Hnd. unfold parse_positive_int. cbn [in_chars in_lineno].
  assert (E : digits_value 0 (ch :: ds) = digits_value (ch - 48) ds)
    by (unfold digits_value; simpl; f_equal).
  rewrite E. apply read_digits_spec; [|exact Hds|exact Hnd].
  unfold isdigit in Hc. apply andb_true_iff in Hc. rewrite !Z.leb_le in Hc.
  unfold INT_MAX. lia.
Qed.

Lemma parse_positive_int_spec_witness :
  parse_positive_int 52 (mkInput [50; 32; 55] 1)
  = Some (32, 42, mkInput [55] 1) /\
  parse_positive_int 50 (mkInput [49; 52; 55; 52; 56; 51; 54; 52; 56; 10] 1)
  = None.
Proof.
  split.
  - apply (parse_positive_int_spec 52 [50] [32; 55] 1); [reflexivity| |reflexivity].
    repeat constructor.
  - apply (parse_positive_int_spec 50 [49; 52; 55; 52; 56; 51; 54; 52; 56]
             [10] 1); [reflexivity| |reflexivity].
    repeat constructor.
Defined.

(** X14: [parse_lit] on an optional minus sign, one digit or more and
    then something that is no digit: it is an error unless the number is
    at most [INT_MAX] and at most [max_var] and the digits are followed,
    after an optional carriage return, by a space, a tab, a new-line or
    the [c] of a comment; else it gives the number with its sign and the
    character that follows.  So a literal at the very end of the file is
    an error. *)
Theorem parse_lit_spec (max_var : Z) (neg : bool) (d : Z)
  (ds rest : list Z) (ln : Z) :
  isdigit d = true -> Forall (fun c => isdigit c = true) ds ->
  isdigit (fst (nextch (mkInput rest ln))) = false ->
  let v := digits_value 0 (d :: ds) in
  let '(ch, i) := nextch (mkInput rest ln) in
  let '(ch, i) := if ch =? 13 then nextch i else (ch, i) in
  (if neg then parse_lit max_var 45 (mkInput (d :: ds ++ rest) ln)
   else parse_lit max_var d (mkInput (ds ++ rest) ln))
  = if (v <=? INT_MAX) && white ch && (v <=? max_var)
    then Some (ch, if neg then - v else v, i) else None.
Proof.
  intros Hd Hds Hnd v.
  assert (Hd' := Hd). unfold isdigit in Hd'. apply andb_true_iff in Hd'.
  rewrite !Z.leb_le in Hd'.
  assert (Hnl : (d =? 10) = false) by (apply Z.eqb_neq; lia).
  assert (Hm : (d =? 45) = false) by (apply Z.eqb_neq; lia).
  assert (E : v = digits_value (d - 48) ds)
    by (unfold v, digits_value; simpl; f_equal).
  assert (Hr := read_digits_spec ds (d - 48) rest ln
                  ltac:(unfold INT_MAX; lia) Hds Hnd).
  rewrite <- E in Hr.
  assert (Hcommon :
    ('(ch, lit, i) ← read_digits (d - 48) (ds ++ rest) ln;
     let '(ch, i) := if ch =? 13 then nextch i else (ch, i) in
     _ ← check ((ch =? 99) || (ch =? 32) || (ch =? 9) || (ch =? 10));
     _ ← check (lit <=? max_var);
     Some (ch, lit * (if neg then -1 else 1), i))
    = let '(ch, i) := nextch (mkInput rest ln) in
      let '(ch, i) := if ch =? 13 then nextch i else (ch, i) in
      if (v <=? INT_MAX) && white ch && (v <=? max_var)
      then Some (ch, if neg then - v else v, i) else None).
  { rewrite Hr. destruct (nextch (mkInput rest ln)) as [ch i].
    cbn [fst snd]. destruct (v <=? INT_MAX); cbn [mbind option_bind andb].
    2: { destruct (ch =? 13); [destruct (nextch i)|]; reflexivity. }
    destruct (if ch =? 13 then nextch i else (ch, i)) as [ch' i'].
    fold (white ch'). destruct (white ch'); cbn [check mbind option_bind andb];
      [|reflexivity].
    destruct (v <=? max_var); cbn [check mbind option_bind]; [|reflexivity].
    destruct neg; do 3 f_equal; lia. }
  destruct (nextch (mkInput rest ln)) as [ch i] eqn:En.
  destruct (if ch =? 13 then nextch i else (ch, i)) as [ch' i'] eqn:Ec.
  rewrite <- Hcommon. destruct neg.
  - unfold parse_lit. cbn [Z.eqb Pos.eqb nextch in_chars in_lineno].
    rewrite Hnl, Hd. cbn [check mbind option_bind in_chars in_lineno].
    reflexivity.
  - unfold parse_lit. rewrite Hm, Hd.
    cbn [check mbind option_bind in_chars in_lineno]. reflexivity.
Qed.

Lemma parse_lit_spec_witness :
  parse_lit 50 45 (mkInput [52; 50; 13; 10; 48] 7)
  = Some (10, -42, mkInput [48] 8) /\
  parse_lit 50 52 (mkInput [50] 7) = None.
Proof.
  split.
  - apply (parse_lit_spec 50 true 52 [50] [13; 10; 48] 7);
      [reflexivity| |reflexivity].
    repeat constructor.
  - apply (parse_lit_spec 50 false 52 [50] [] 7);
      [reflexivity| |reflexivity].
    repeat constructor.
Defined.

(** ** Conflicts, reasons and what the solver derives *)

(** X15: at every conflict [propagate] finds in a run, the state it hands
    to [analyze] is as [analyze] expects it: the trail holds every variable
    once, the levels of its literals do not fall and do not exceed the
    current one, no mark of an earlier analysis is left on a variable or
    a level, the reason of every trail literal above the root level is a
    stored clause whose other literals are false and earlier on the trail,
    and the conflict is a stored clause with all literals false, one of
    them of the current level. *)
Theorem run_conflict_ready (o : Opts) (fuel : nat) (V num : Z)
  (tokens : list Token) (n : nat) (s s1 : State) :
  solver_state o fuel V num tokens n = Some s -> unsat s = false ->
  propagate fuel s = Some (false, s1) ->
  analyze_ready s1 = true.
Proof.
  intros H Hu Hp.
  destruct (after_propagate _ _ _ _ _ _ _ _ _ H Hu Hp) as (I1 & C1 & _).
  destruct (after_propagate_sound _ _ _ _ _ _ _ _ _ H Hu Hp)
    as (R1 & _ & CR1).
  exact (ready s1 (ci_trail _ _ I1) (ci_levels _ _ I1) R1 CR1 C1).
Qed.

Lemma run_conflict_ready_witness :
  analyze_ready (run_example_propagated 2) = true.
Proof.
  apply (run_conflict_ready default_opts 50 4 3 (plain run_example_tokens) 2
           (run_example 2)); vm_compute; reflexivity.
Defined.

(** X16: at the head of every round of the search loop, while [unsat] is
    not set, the reason of a trail literal assigned above the root level
    is a stored clause that contains the literal, and every other literal
    of that clause is false and stands earlier on the trail. *)
Theorem run_reasons_valid (o : Opts) (fuel : nat) (V num : Z)
  (tokens : list Token) (n : nat) (s : State) (p : nat) (u : Z) (r : nat) :
  solver_state o fuel V num tokens n = Some s -> unsat s = false ->
  trail s !! p = Some u -> v_reason (var s u) = Some r ->
  lvl s u <> 0%nat ->
  exists c, heap s !! r = Some c /\ u ∈ literals c /\
    forall x, x ∈ literals c -> x = u \/ - x ∈ take p (trail s).
Proof.
  intros H Hu Hp Hr Hl.
  destruct (solver_state_FInv _ _ _ _ _ _ _ H) as (_ & HS & _).
  destruct (HS Hu) as [HR _].
  exact (ri_reason _ HR p u r Hp Hr Hl).
Qed.

Lemma run_reasons_valid_witness :
  exists c, heap (run_example 3) !! 3%nat = Some c /\ 3 ∈ literals c /\
    forall x, x ∈ literals c -> x = 3 \/ - x ∈ take 1 (trail (run_example 3)).
Proof.
  apply (run_reasons_valid default_opts 50 4 3 (plain run_example_tokens) 3
           (run_example 3) 1 3 3); try (vm_compute; reflexivity).
  vm_compute. discriminate.
Defined.

(** X17: at the head of every round of the search loop, while [unsat] is
    not set, no variable is marked as seen and no decision level counts a
    seen literal: [analyze] leaves no mark behind. *)
Theorem run_marks_cleared (o : Opts) (fuel : nat) (V num : Z)
  (tokens : list Token) (n : nat) (s : State) :
  solver_state o fuel V num tokens n = Some s -> unsat s = false ->
  (forall idx, v_seen (vars s idx) = false) /\
  (forall lv, lv ∈ levels s -> l_seen lv = 0).
Proof.
  intros H Hu.
  destruct (solver_state_FInv _ _ _ _ _ _ _ H) as (_ & HS & _).
  destruct (HS Hu) as [HR _].
  split; [exact (ri_unseen _ HR)|exact (ri_lseen _ HR)].
Qed.

Lemma run_marks_cleared_witness :
  (forall idx, v_seen (vars (run_example 3) idx) = false) /\
  (forall lv, lv ∈ levels (run_example 3) -> l_seen lv = 0).
Proof.
  apply (run_marks_cleared default_opts 50 4 3 (plain run_example_tokens) 3);
    vm_compute; reflexivity.
Defined.

(** X18: at the head of every round of the search loop, while [unsat] is
    not set, a watch of the literal [l] whose cached size is 2 points to a
    clause of exactly two literals: [l] and the blocking literal of the
    watch.  [propagate] relies on this when it treats such a watch
    without reading the clause. *)
Theorem run_binary_watches (o : Opts) (fuel : nat) (V num : Z)
  (tokens : list Token) (n : nat) (s : State) (l : Z) (w : Watch) (c : Clause) :
  solver_state o fuel V num tokens n = Some s -> unsat s = false ->
  w ∈ watches s l -> w_size w = 2%nat -> heap s !! w_clause w = Some c ->
  literals c = [l; blit w] \/ literals c = [blit w; l].
Proof.
  intros H Hu Hw Hsz Hc.
  destruct (solver_state_FInv _ _ _ _ _ _ _ H) as (_ & HS & _).
  destruct (HS Hu) as [HR _].
  exact (ri_bin _ HR l w Hw Hsz c Hc).
Qed.

Lemma run_binary_watches_witness :
  [3; 4] = [4; 3] \/ [3; 4] = [3; 4].
Proof.
  apply (run_binary_watches default_opts 50 4 3 (plain run_example_tokens) 3
           (run_example 3) 4 (mkWatch 3 2 3)
           (mkClause true false false 2 1 [3; 4])).
  - vm_compute. reflexivity.
  - vm_compute. reflexivity.
  - vm_compute. repeat constructor.
  - reflexivity.
  - vm_compute. reflexivity.
Defined.

(** X19: at the head of every round of the search loop, while [unsat] is
    not set, what the solver holds follows from the clauses of the file,
    those made of the integers the parser kept: every assignment of the
    variables that satisfies all these clauses satisfies every stored
    clause, learned clauses included, and makes every trail literal of the
    root level true. *)
Theorem run_clauses_entailed (o : Opts) (fuel : nat) (V num : Z)
  (tokens : list Token) (n : nat) (s : State) (M : Z -> bool) :
  solver_state o fuel V num tokens n = Some s -> unsat s = false ->
  model_of M (dimacs_clauses [] (pushed tokens)) ->
  (forall id c, heap s !! id = Some c -> clause_true M (literals c)) /\
  (forall t, t ∈ trail s -> lvl s t = 0%nat -> lit_true M t).
Proof.
  intros H Hu HM.
  destruct (solver_state_FInv _ _ _ _ _ _ _ H) as (_ & HS & _).
  destruct (HS Hu) as [_ HE].
  split; [exact (en_heap _ _ HE M HM)|exact (en_root _ _ HE M HM)].
Qed.

Lemma run_clauses_entailed_witness :
  (forall id c, heap (run_example 3) !! id = Some c ->
     clause_true run_example_model (literals c)) /\
  (forall t, t ∈ trail (run_example 3) -> lvl (run_example 3) t = 0%nat ->
     lit_true run_example_model t).
Proof.
  apply (run_clauses_entailed default_opts 50 4 3 (plain run_example_tokens) 3).
  - vm_compute. reflexivity.
  - vm_compute. reflexivity.
  - intros cl Hcl.
    change (dimacs_clauses [] (pushed (plain run_example_tokens)))
      with [[3; 2; 4]; [3; 1; 4]; [-2; -1; 4]] in Hcl.
    repeat (apply elem_of_cons in Hcl; destruct Hcl as [->|Hcl]);
      [exists 3|exists 3|exists (-2)|inversion Hcl];
      (split; [repeat constructor|reflexivity]).
Defined.



(** X21: [reduce], called after a propagation without conflict, does not
    delete the reason of a trail literal assigned above the root level:
    the clause stays stored with the same literals, and stays the reason
    of the literal. *)
Theorem reduce_keeps_reasons (o : Opts) (fuel : nat) (V num : Z)
  (tokens : list Token) (n : nat) (s s1 s2 s' : State) (b : bool)
  (p : nat) (u : Z) (r : nat) :
  solver_state o fuel V num tokens n = Some s -> unsat s = false ->
  propagate fuel s = Some (true, s1) -> restarting s1 = (b, s2) ->
  reduce s2 = Some s' ->
  trail s2 !! p = Some u -> v_reason (var s2 u) = Some r ->
  lvl s2 u <> 0%nat ->
  exists c c', heap s2 !! r = Some c /\ heap s' !! r = Some c' /\
               literals c' = literals c /\ v_reason (var s' u) = Some r.
Proof.
  intros H Hu Hp Hr Hd Ht Hre Hl.
  destruct (after_restarting _ _ _ _ _ _ _ _ _ _ H Hu Hp Hr) as (I2 & _).
  destruct (after_restarting_sound _ _ _ _ _ _ _ _ _ _ H Hu Hp Hr)
    as (R2 & E2).
  destruct (reduce_reduced _ _ I2 Hd) as (g & R & Ev & _).
  destruct (reduce_RI _ _ _ I2 Hd R2 E2) as [R' _].
  destruct (ri_reason _ R2 p u r Ht Hre Hl) as (c & Hc & _).
  assert (Ht' : trail s' !! p = Some u).
  { change (k_trail (core s') !! p = Some u).
    rewrite (rd_trail _ _ _ R). exact Ht. }
  assert (Hre' : v_reason (var s' u) = Some r)
    by (unfold var; rewrite Ev; exact Hre).
  assert (Hl' : lvl s' u <> 0%nat)
    by (unfold lvl, var; rewrite Ev; exact Hl).
  destruct (ri_reason _ R' p u r Ht' Hre' Hl') as (c' & Hc' & _).
  exists c, c'. split; [exact Hc|]. split; [exact Hc'|].
  split; [|exact Hre'].
  assert (Hk' : k_heap (core s') !! r = Some (cview c'))
    by (apply core_heap_lookup; eauto).
  destruct (g r) eqn:Hg.
  - rewrite (rd_drop _ _ _ R r Hg) in Hk'. discriminate.
  - rewrite (rd_keep _ _ _ R r Hg) in Hk'.
    apply core_heap_lookup in Hk'. destruct Hk' as (c0 & Hc0 & E).
    assert (c0 = c) by congruence. subst c0.
    exact (f_equal cc_lits E).
Qed.

Lemma reduce_keeps_reasons_witness :
  exists c c', heap (run_example_policy 3) !! 3%nat = Some c /\
               heap run_example_reduced !! 3%nat = Some c' /\
               literals c' = literals c /\
               v_reason (var run_example_reduced 3) = Some 3%nat.
Proof.
  apply (reduce_keeps_reasons default_opts 50 4 3 (plain run_example_tokens) 3
           (run_example 3) (run_example_propagated 3)
           (run_example_policy 3) run_example_reduced false 1 3 3);
    try (vm_compute; reflexivity).
  vm_compute. discriminate.
Defined.

(** ** The learned clause and the solution file *)

(** X22: when a solution was given and passed the check that [main] runs
    on it after parsing (every clause made of the integers the parser kept
    has a literal that the solution makes positive; the solution may leave
    variables open), the
    two calls of [check_clause] in [analyze] do not abort, at any conflict
    above the root level in a run: the clause made of the literals
    collected and of the negated first UIP has a literal that the solution
    makes positive, and so has the clause after the sort. *)
Theorem check_clause_passes (o : Opts) (fuel : nat) (V num : Z)
  (tokens : list Token) (n : nat) (s0 s s1 s' : State) (solution : Z -> Z) :
  parse_dimacs o V num tokens = Some s0 ->
  check_satisfying_assignment s0 (sol solution) (pushed tokens) = Some tt ->
  solver_state o fuel V num tokens n = Some s -> unsat s = false ->
  propagate fuel s = Some (false, s1) -> (0 < level s1)%nat ->
  analyze s1 = Some s' ->
  exists cf b uip s2 dc jump s5,
    conflict s1 = Some cf /\ bump_clause cf s1 = Some b /\
    analyze_loop (S (length (trail b))) cf 0 (length (trail b)) b
      = Some (uip, s2) /\
    let s3 := set_clause (clause s2 ++ [- uip]) s2 in
    let glue := Z.of_nat (length (seen_levels s3)) in
    learn uip glue (upd_ema (update_learned_glue (double_of_Z glue)) s3)
      = Some (dc, jump, s5) /\
    check_clause (Some solution) s3 = Some tt /\
    check_clause (Some solution) s5 = Some tt.
Proof.
  intros Hp0 Hchk H Hu Hp HL Ha.
  destruct (after_propagate _ _ _ _ _ _ _ _ _ H Hu Hp)
    as (I1 & C1 & _ & _ & M1 & _).
  destruct (after_propagate_sound _ _ _ _ _ _ _ _ _ H Hu Hp)
    as (R1 & E1 & CR1).
  destruct (analyze_parts _ _ _ I1 C1 HL R1 CR1 E1 Ha)
    as (cf & b & uip & s2 & dc & jump & s5 & A1 & A2 & A3 & A4 & A5 & A6 & A7).
  exists cf, b, uip, s2, dc, jump, s5.
  split; [exact A1|]. split; [exact A2|]. split; [exact A3|].
  cbv zeta. cbn [seen_levels set_clause]. split; [exact A4|].
  (* the solution gives every clause of the file a positive literal *)
  assert (Hsol : forall cl, cl ∈ dimacs_clauses [] (pushed tokens) ->
            exists l, l ∈ cl /\ 0 < sol solution l).
  { unfold check_satisfying_assignment in Hchk.
    apply (proj1 (check_satisfying_loop_spec s0 (sol solution)
                    (pushed tokens) false []
                    ltac:(intros t Ht;
                          rewrite (proj1 (proj2 (parse_dimacs_PInv _ _ _ _ _ Hp0)));
                          exact (parse_dimacs_range _ _ _ _ _ Hp0 t Ht))
                    ltac:(split; [discriminate|];
                          intros (l & Hl & _); inversion Hl))).
    exact Hchk. }
  pose proof (ci_trail _ _ I1) as Ht.
  assert (Hex : existsb (fun l => 0 <? sol solution l) (clause s2 ++ [- uip])
                = true).
  { apply (partial_solution_entails solution (dimacs_clauses [] (pushed tokens)));
      [exact Hsol| |exact A7].
    intros x Hx Hnx.
    apply (trail_not_both (core s1) (- x) Ht); [exact (A6 x Hx)|].
    exact (A6 (- x) Hnx). }
  assert (Hok : forall st l, max_var st = max_var s1 ->
            l ∈ clause s2 ++ [- uip] -> vidx_ok st l = true).
  { intros st l Em Hl. destruct (tr_lit _ Ht _ (A6 l Hl)) as [[Hnz Hle] _].
    cbn in Hle. unfold vidx_ok. rewrite Em. apply andb_true_intro. split.
    - apply negb_true_iff, Z.eqb_neq. lia.
    - apply Z.leb_le. lia. }
  split.
  - unfold check_clause. cbn [clause set_clause].
    rewrite check_clause_loop_spec
      by (intros l Hl; apply Hok; [exact A5|exact Hl]).
    rewrite Hex. reflexivity.
  - destruct (learn_clause _ _ _ _ _ _ A4) as [Hperm Em].
    cbn [clause set_clause upd_ema set_ema max_var] in Hperm, Em.
    unfold check_clause.
    rewrite check_clause_loop_spec.
    2: { intros l Hl. apply Hok; [congruence|]. rewrite <- Hperm. exact Hl. }
    assert (Hex5 : existsb (fun l => 0 <? sol solution l) (clause s5) = true).
    { apply existsb_exists in Hex. destruct Hex as (x & Hx & Hp').
      apply existsb_exists. exists x. split; [|exact Hp'].
      apply list_elem_of_In. rewrite Hperm. apply list_elem_of_In. exact Hx. }
    rewrite Hex5. reflexivity.
Qed.

Lemma check_clause_passes_witness :
  exists cf b uip s2 dc jump s5,
    conflict (run_example_propagated 2) = Some cf /\
    bump_clause cf (run_example_propagated 2) = Some b /\
    analyze_loop (S (length (trail b))) cf 0 (length (trail b)) b
      = Some (uip, s2) /\
    let s3 := set_clause (clause s2 ++ [- uip]) s2 in
    let glue := Z.of_nat (length (seen_levels s3)) in
    learn uip glue (upd_ema (update_learned_glue (double_of_Z glue)) s3)
      = Some (dc, jump, s5) /\
    check_clause (Some run_example_solution) s3 = Some tt /\
    check_clause (Some run_example_solution) s5 = Some tt.
Proof.
  apply (check_clause_passes default_opts 50 4 3 (plain run_example_tokens) 2
           run_example_parsed (run_example 2) (run_example_propagated 2)
           (run_example 3) run_example_solution);
    try (vm_compute; reflexivity).
  vm_compute. lia.
Defined.

(** ** The first state *)

(** X23: after [init_variables], for a file with [V] variables, the
    variables 1..V have no value and the saved phase -1, and the VMTF
    queue links them in this order with rising stamps: variable [i] has
    [i - 1] before it, [i + 1] after it (0 after the last), and the stamp
    [i]; the queue starts at 1 and ends at [V], where the search for a
    decision starts.  With no variable the queue is empty.  The one level
    is the root level and the trail is empty. *)
Theorem init_variables_queue (o : Opts) (V : Z) :
  let s := init_variables (set_max_var V (State_init o)) in
  max_var s = V /\ levels s = [mkLevel 0 0] /\ trail s = [] /\
  queue s = (if 1 <=? V then mkQueue 1 V V else mkQueue 0 0 0) /\
  bumped (stats s) = Z.max 0 V /\
  forall i, 1 <= i <= V ->
    vals s i = 0 /\ phases s i = -1 /\
    v_prev (vars s i) = i - 1 /\
    v_next (vars s i) = (if i =? V then 0 else i + 1) /\
    v_bumped (vars s i) = i.
Proof.
  cbv zeta. unfold init_variables. cbv zeta.
  set (s00 := set_max_var V (State_init o)).
  set (vs := fold_left (fun f i => <[i := 0]> f) (seqZ 1 (max_var s00))
               (vals s00)).
  set (s1 := set_vals vs s00).
  set (ps := fold_left (fun f i => <[i := -1]> f) (seqZ 1 (max_var s00))
               (phases s1)).
  set (s2 := set_phases ps s1).
  destruct (init_vmtf_queue_unmark s2) as (vf & q & st & E & _).
  assert (E3 : exists prev s3',
            fold_left (fun '(prev, st) i => (i, init_vmtf_var prev i st))
                      (seqZ 1 (Z.of_nat (Z.to_nat V))) (0, s2) = (prev, s3') /\
            init_vmtf_queue s2
            = upd_queue (set_q_next prev) (upd_queue (set_q_last prev) s3')).
  { unfold init_vmtf_queue. change (max_var s2) with V.
    rewrite <- seqZ_to_nat. destruct (fold_left _ _ _) as [p s'].
    exists p, s'. split; reflexivity. }
  destruct E3 as (prev & s3' & Ef & E3).
  assert (Hfold := init_vmtf_fold s2 (Z.to_nat V)).
  cbv zeta in Hfold. rewrite Ef in Hfold. cbn [fst snd] in Hfold.
  destruct Hfold as (Ep & Eb & Eq & Hin & _).
  assert (Hvars : vars (init_vmtf_queue s2) = vars s3')
    by (rewrite E3; reflexivity).
  assert (Hq : queue (init_vmtf_queue s2)
               = set_q_next prev (set_q_last prev (queue s3')))
    by (rewrite E3; reflexivity).
  assert (Hst : stats (init_vmtf_queue s2) = stats s3')
    by (rewrite E3; reflexivity).
  cbn [max_var levels trail queue stats vals phases vars set_levels].
  split; [rewrite E; reflexivity|].
  split; [rewrite E; reflexivity|].
  split; [rewrite E; reflexivity|].
  split.
  { rewrite Hq, Eq, Ep. destruct (Z.leb_spec 1 V) as [H1|H1].
    - destruct (Z.to_nat V) eqn:En; [lia|]. cbn [Nat.eqb].
      rewrite <- En, Z2Nat.id by lia. reflexivity.
    - assert (En : Z.to_nat V = 0%nat) by lia. rewrite En. reflexivity. }
  split; [rewrite Hst, Eb; cbn; lia|].
  intros i Hi.
  split.
  { rewrite E. cbn. unfold vs. rewrite fold_insert_const.
    destruct (bool_decide _); reflexivity. }
  split.
  { rewrite E. cbn. unfold ps. rewrite fold_insert_const.
    rewrite bool_decide_eq_true_2; [reflexivity|].
    apply elem_of_seqZ. cbn. lia. }
  rewrite Hvars.
  destruct (Hin i ltac:(lia)) as (A & B & C).
  rewrite A, B, C. cbn. rewrite Z2Nat.id by lia.
  split; [reflexivity|]. split; [|lia]. reflexivity.
Qed.
